(** * WebSerial transport: a shallow embedding of [webserial_transport.py]

    The module adapts a Web Serial port (a JavaScript object reached through
    Pyodide) to the [asyncio.Transport] interface.  Its behaviour depends on
    the cooperative scheduler, so the embedding has three layers:

    - the part of [asyncio] the module relies on ([Task], [Future], [Queue],
      the loop's ready queue), as an explicit state;
    - the module itself ([close_port], [WebSerialTransport],
      [set_global_serial_port], [create_serial_connection]), function by
      function, in a state-and-exception monad over that state;
    - a labelled step function: calls made by the application, one turn of
      the loop, and the settling of a JavaScript promise by the device.

    Every call on the device or on the consumer protocol is recorded in a
    trace; the theorems are statements about the traces of arbitrary
    schedules. *)

From stdpp Require Import base option list strings relations.
From Stdlib Require Import ZArith Lia.

Set Default Proof Using "Type".

(** ** Values of the program *)

Definition bytes := list Byte.byte.

(** Consumer protocol objects are opaque: only their identity matters. *)
Definition proto := nat.

(** Exceptions.  [CancelledError] derives from [BaseException] only, all the
    others derive from [Exception]. *)
Inductive exn :=
| CancelledError
| RuntimeError (msg : string)
| AttributeError
| ValueError
| QueueFull
| AssertionError
| JsException (code : nat).

Definition is_Exception (e : exn) : bool :=
  match e with CancelledError => false | _ => true end.

(** The serial port is a JavaScript object owned by the browser.  What its
    stream locks do when released is part of the device, not of the module:
    [None] means that [releaseLock()] returns, [Some e] that it raises. *)
Record port := Port {
  port_id : nat;
  reader_releaseLock : option exn;
  writer_releaseLock : option exn;
}.

(** A reader or writer obtained from the port's streams. *)
Record js_lock := JsLock { releaseLock_raises : option exn }.

Definition getReader (pt : port) : js_lock := JsLock (reader_releaseLock pt).
Definition getWriter (pt : port) : js_lock := JsLock (writer_releaseLock pt).

(** Results of awaited operations. *)
Inductive value :=
| VNone
| VRead (done : bool) (val : bytes)       (* the object returned by reader.read() *)
| VConn (transport : nat) (protocol : proto).

Inductive outcome :=
| OResult (v : value)
| OException (e : exn)
| OCancelled.

(** Keyword arguments of [create_serial_connection]. *)
Record conn_args := ConnArgs {
  protocol_factory : proto;      (* the protocol the factory returns *)
  url : string;
  parity : option string;
  stopbits : option nat;
  baudrate : Z;
  rtscts : bool;
  xonxoff : bool;
}.

(** ** Coroutines, tasks, futures *)

Inductive writer_pc := WStart | WGet | WWrite.
Inductive reader_pc := RStart | RRead.
Inductive close_pc := CStart | CAwait.
Inductive create_pc := KStart | KWait | KOpen.

(** A coroutine object with its program point.  [owner] in [ClosePort] is a
    label: the transport whose [_cleanup] detached the close (the source
    passes only the port). *)
Inductive coro :=
| WriterLoop (self : nat) (pc : writer_pc)
| ReaderLoop (self : nat) (pc : reader_pc)
| ClosePort (owner : nat) (pt : port) (pc : close_pc)
| CreateConn (a : conn_args) (pc : create_pc).

Inductive fut_kind := FutJs | FutGetter.

(** What a suspended task waits for: a plain future (a wrapped JavaScript
    promise or a [Queue] getter) with its state, or another task. *)
Inductive awaiting :=
| AwFuture (kind : fut_kind) (st : option outcome)
| AwTask (k : nat).

(** Callbacks handed to the loop.  The transport in [CbConnectionLost] is a
    label for the transport whose shutdown registered the callback. *)
Inductive callback :=
| CbStep (k : nat)
| CbConnectionMade (p : proto) (t : nat)
| CbConnectionLost (t : nat) (p : proto) (e : option exn)
| CbRemoveClosing (k : nat).

Record task := Task {
  task_coro : coro;
  fut_waiter : option awaiting;
  must_cancel : bool;
  task_state : option outcome;          (* None while pending *)
  done_callbacks : list callback;
}.

Definition task_done (tk : task) : bool := bool_decide (is_Some (task_state tk)).

(** [asyncio.Queue] *)
Record queue := Queue {
  q_maxsize : nat;
  q_items : list bytes;
  q_getters : list nat;                 (* tasks suspended in get() *)
}.

Definition q_empty (q : queue) : bool := bool_decide (q_items q = []).
Definition q_full (q : queue) : bool :=
  if decide (q_maxsize q = 0) then false
  else bool_decide (q_maxsize q ≤ length (q_items q)).

Record transport := Transport {
  _protocol : option proto;
  _port : option port;
  _write_queue : queue;
  _is_closing : bool;
  _js_reader : option js_lock;
  _js_writer : option js_lock;
  _reader_task : nat;
  _writer_task : nat;
}.

(** ** Observations *)

Inductive level := DEBUG | WARNING.

Inductive event :=
| EvLog (lvl : level) (msg : string)
| EvGetReader (t : nat)
| EvGetWriter (t : nat)
| EvReleaseReader (t : nat)
| EvReleaseWriter (t : nat)
| EvRead (t : nat)                               (* reader.read() *)
| EvReadSettled (t : nat) (o : outcome)
| EvWrite (t : nat) (chunk : bytes)              (* writer.write(chunk) *)
| EvWriteSettled (t : nat) (o : outcome)
| EvPortOpen (pt : port) (baudRate : Z) (flowControl : option string)
| EvOpenSettled (o : outcome)
| EvPortClose (t : nat) (pt : port)              (* port.close() *)
| EvCloseSettled (t : nat) (o : outcome)
| EvConnectionMade (p : proto) (t : nat)
| EvDataReceived (t : nat) (p : proto) (data : bytes)
| EvConnectionLost (t : nat) (p : proto) (e : option exn)
| EvSubmit (t : nat) (data : bytes)              (* transport.write(data) was called *)
| EvLoopException (e : exn)                      (* a callback raised; the loop logs it *)
| EvUncaught (e : exn).                          (* a call raised to the application *)

(** ** The state: module globals, the loop, the heap of objects *)

Record world := World {
  _SERIAL_PORT : option port;
  _SERIAL_PORT_CLOSING_TASKS : list nat;
  tasks : list task;
  transports : list transport;
  ready : list callback;
  trace : list event;
}.

Definition init : world := World None [] [] [] [] [].

Definition with_serial_port (v : option port) (w : world) : world :=
  World v (_SERIAL_PORT_CLOSING_TASKS w) (tasks w) (transports w) (ready w) (trace w).
Definition with_closing_tasks (v : list nat) (w : world) : world :=
  World (_SERIAL_PORT w) v (tasks w) (transports w) (ready w) (trace w).
Definition with_tasks (v : list task) (w : world) : world :=
  World (_SERIAL_PORT w) (_SERIAL_PORT_CLOSING_TASKS w) v (transports w) (ready w) (trace w).
Definition with_transports (v : list transport) (w : world) : world :=
  World (_SERIAL_PORT w) (_SERIAL_PORT_CLOSING_TASKS w) (tasks w) v (ready w) (trace w).
Definition with_ready (v : list callback) (w : world) : world :=
  World (_SERIAL_PORT w) (_SERIAL_PORT_CLOSING_TASKS w) (tasks w) (transports w) v (trace w).
Definition with_trace (v : list event) (w : world) : world :=
  World (_SERIAL_PORT w) (_SERIAL_PORT_CLOSING_TASKS w) (tasks w) (transports w) (ready w) v.

(** ** The monad: state, and exceptions that keep the state *)

Inductive result (A : Type) :=
| Ok (a : A)
| Raise (e : exn).
Arguments Ok {A} a.
Arguments Raise {A} e.

Definition M (A : Type) : Type := world → world * result A.

Definition ret {A} (a : A) : M A := λ w, (w, Ok a).
Definition raise {A} (e : exn) : M A := λ w, (w, Raise e).
Definition bind {A B} (m : M A) (f : A → M B) : M B :=
  λ w, match m w with
       | (w', Ok a) => f a w'
       | (w', Raise e) => (w', Raise e)
       end.
Definition gets {A} (f : world → A) : M A := λ w, (w, Ok (f w)).
Definition modify (f : world → world) : M unit := λ w, (f w, Ok tt).

Declare Scope m_scope.
Delimit Scope m_scope with M.
Notation "x <- m ;; k" := (bind m (λ x, k))
  (at level 100, m at next level, right associativity) : m_scope.
Notation "m ;; k" := (bind m (λ _, k))
  (at level 100, right associativity) : m_scope.
Open Scope m_scope.

Definition emit (ev : event) : M unit :=
  modify (λ w, with_trace (trace w ++ [ev]) w).

(** [loop.call_soon]: the ready queue is first in, first out. *)
Definition call_soon (cb : callback) : M unit :=
  modify (λ w, with_ready (ready w ++ [cb]) w).

Definition update_task (k : nat) (f : task → task) : M unit :=
  modify (λ w, with_tasks (alter f k (tasks w)) w).

Definition update_transport (t : nat) (f : transport → transport) : M unit :=
  modify (λ w, with_transports (alter f t (transports w)) w).

(** Reading the object [self] refers to. *)
Definition the_transport (self : nat) : M transport :=
  λ w, match transports w !! self with
       | Some tr => (w, Ok tr)
       | None => (w, Raise AttributeError)
       end.

Definition set_must_cancel (b : bool) (tk : task) : task :=
  Task (task_coro tk) (fut_waiter tk) b (task_state tk) (done_callbacks tk).
Definition set_fut_waiter (f : option awaiting) (tk : task) : task :=
  Task (task_coro tk) f (must_cancel tk) (task_state tk) (done_callbacks tk).
Definition set_task_coro (c : coro) (tk : task) : task :=
  Task c (fut_waiter tk) (must_cancel tk) (task_state tk) (done_callbacks tk).
Definition set_done_callbacks (l : list callback) (tk : task) : task :=
  Task (task_coro tk) (fut_waiter tk) (must_cancel tk) (task_state tk) l.
Definition set_task_state (o : option outcome) (tk : task) : task :=
  Task (task_coro tk) (fut_waiter tk) (must_cancel tk) o (done_callbacks tk).

Definition set_protocol_field (v : option proto) (tr : transport) : transport :=
  Transport v (_port tr) (_write_queue tr) (_is_closing tr) (_js_reader tr)
    (_js_writer tr) (_reader_task tr) (_writer_task tr).
Definition set_port_field (v : option port) (tr : transport) : transport :=
  Transport (_protocol tr) v (_write_queue tr) (_is_closing tr) (_js_reader tr)
    (_js_writer tr) (_reader_task tr) (_writer_task tr).
Definition set_write_queue (v : queue) (tr : transport) : transport :=
  Transport (_protocol tr) (_port tr) v (_is_closing tr) (_js_reader tr)
    (_js_writer tr) (_reader_task tr) (_writer_task tr).
Definition set_is_closing (v : bool) (tr : transport) : transport :=
  Transport (_protocol tr) (_port tr) (_write_queue tr) v (_js_reader tr)
    (_js_writer tr) (_reader_task tr) (_writer_task tr).
Definition set_js_reader (v : option js_lock) (tr : transport) : transport :=
  Transport (_protocol tr) (_port tr) (_write_queue tr) (_is_closing tr) v
    (_js_writer tr) (_reader_task tr) (_writer_task tr).
Definition set_js_writer (v : option js_lock) (tr : transport) : transport :=
  Transport (_protocol tr) (_port tr) (_write_queue tr) (_is_closing tr)
    (_js_reader tr) v (_reader_task tr) (_writer_task tr).

(** ** asyncio *)

(** [asyncio.create_task(coro)]: a new pending task whose first step is
    handed to the loop. *)
Definition create_task (c : coro) : M nat :=
  k <- gets (λ w, length (tasks w)) ;;
  modify (λ w, with_tasks (tasks w ++ [Task c None false None []]) w) ;;
  call_soon (CbStep k) ;;
  ret k.

(** [Future.cancel] on a plain pending future awaited by task [k]: the future
    becomes cancelled and the task's wake-up is scheduled. *)
Definition cancel_waiter (k : nat) (kind : fut_kind) : M unit :=
  update_task k (set_fut_waiter (Some (AwFuture kind (Some OCancelled)))) ;;
  call_soon (CbStep k).

(** [Task.cancel].  A finished task refuses; a task suspended on a pending
    future has that future cancelled; a task suspended on another task passes
    the request on; otherwise the request is remembered in [must_cancel] and
    served at the task's next step.  [depth] bounds the chain of tasks
    awaiting tasks. *)
Fixpoint task_cancel (depth : nat) (k : nat) : M bool :=
  λ w,
  match tasks w !! k with
  | None => (w, Ok false)
  | Some tk =>
    if task_done tk then (w, Ok false)
    else match fut_waiter tk with
         | Some (AwFuture kind None) =>
             (cancel_waiter k kind ;; ret true) w
         | Some (AwTask j) =>
             match depth with
             | S d =>
                 match task_cancel d j w with
                 | (w', Ok true) => (w', Ok true)
                 | (w', _) => (update_task k (set_must_cancel true) ;; ret true) w'
                 end
             | O => (update_task k (set_must_cancel true) ;; ret true) w
             end
         | _ => (update_task k (set_must_cancel true) ;; ret true) w
         end
  end.

Definition cancel (k : nat) : M bool :=
  d <- gets (λ w, length (tasks w)) ;;
  task_cancel d k.

(** [Future.add_done_callback] on a task. *)
Definition add_done_callback (k : nat) (cb : callback) : M unit :=
  λ w,
  match tasks w !! k with
  | None => (w, Raise AttributeError)
  | Some tk =>
    if task_done tk then call_soon cb w
    else update_task k (λ tk, set_done_callbacks (done_callbacks tk ++ [cb]) tk) w
  end.

(** A task finishes: its state is set and its callbacks go to the loop, in
    the order in which they were added. *)
Definition finish_task (k : nat) (o : outcome) : M unit :=
  λ w,
  match tasks w !! k with
  | None => (w, Ok tt)
  | Some tk =>
      (update_task k (λ tk, set_done_callbacks [] (set_task_state (Some o) tk)) ;;
       modify (λ w, with_ready (ready w ++ done_callbacks tk) w)) w
  end.

(** [Queue._wakeup_next]: wake the first getter that is still waiting. *)
Fixpoint wakeup_next (getters : list nat) (w : world) : list nat * world :=
  match getters with
  | [] => ([], w)
  | g :: rest =>
      match tasks w !! g with
      | Some (Task _ (Some (AwFuture FutGetter None)) _ None _) =>
          (rest,
           with_ready (ready w ++ [CbStep g])
             (with_tasks
                (alter (set_fut_waiter (Some (AwFuture FutGetter (Some (OResult VNone)))))
                       g (tasks w)) w))
      | _ => wakeup_next rest w
      end
  end.

Definition set_q_getters (l : list nat) (q : queue) : queue :=
  Queue (q_maxsize q) (q_items q) l.
Definition set_q_items (l : list bytes) (q : queue) : queue :=
  Queue (q_maxsize q) l (q_getters q).

Definition queue_wakeup_getters (self : nat) : M unit :=
  tr <- the_transport self ;;
  λ w, let '(rest, w') := wakeup_next (q_getters (_write_queue tr)) w in
       update_transport self
         (λ tr, set_write_queue (set_q_getters rest (_write_queue tr)) tr) w'.

(** [Queue.put_nowait] on the queue of transport [self]. *)
Definition put_nowait (self : nat) (item : bytes) : M unit :=
  tr <- the_transport self ;;
  if q_full (_write_queue tr) then raise QueueFull
  else
    update_transport self
      (λ tr, set_write_queue
               (set_q_items (q_items (_write_queue tr) ++ [item]) (_write_queue tr)) tr) ;;
    queue_wakeup_getters self.

(** ** The module *)

(** How a suspended coroutine is resumed, and how a step of it ends.  A step
    that raises is a [Raise] of the monad. *)
Inductive resume := Send (v : value) | Throw (e : exn).
Inductive yield :=
| YAwait (c : coro) (f : awaiting)
| YReturn (v : value).

(** [try: body except Exception as e: handler(e)] *)
Definition try_except {A} (body : M A) (handler : exn → M A) : M A :=
  λ w, match body w with
       | (w', Raise e) => if is_Exception e then handler e w' else (w', Raise e)
       | r => r
       end.

(** [close_port(port)] *)
Definition close_port (owner : nat) (pt : port) (pc : close_pc) (r : resume) : M yield :=
  match pc, r with
  | CStart, Send _ =>
      emit (EvLog DEBUG "Closing serial port") ;;
      emit (EvPortClose owner pt) ;;
      ret (YAwait (ClosePort owner pt CAwait) (AwFuture FutJs None))
  | CAwait, Send _ =>
      emit (EvLog DEBUG "Closed serial port") ;;
      ret (YReturn VNone)
  | _, Throw e => raise e
  end.

(** [WebSerialTransport.__init__(loop, protocol, port)] *)
Definition __init__ (protocol : proto) (port : option port) : M nat :=
  match port with
  | None => raise AttributeError                 (* None.readable *)
  | Some pt =>
      self <- gets (λ w, length (transports w)) ;;
      emit (EvGetReader self) ;;
      emit (EvGetWriter self) ;;
      reader_task <- create_task (ReaderLoop self RStart) ;;
      writer_task <- create_task (WriterLoop self WStart) ;;
      modify (λ w, with_transports
                     (transports w ++
                        [Transport (Some protocol) (Some pt) (Queue 0 [] []) false
                           (Some (getReader pt)) (Some (getWriter pt))
                           reader_task writer_task]) w) ;;
      call_soon (CbConnectionMade protocol self) ;;
      ret self
  end.

Definition releaseLock (l : js_lock) : M unit :=
  match releaseLock_raises l with
  | Some e => raise e
  | None => ret tt
  end.

(** [WebSerialTransport._cleanup(exception)] *)
Definition _cleanup (self : nat) (exception : option exn) : M unit :=
  update_transport self (set_is_closing true) ;;
  tr <- the_transport self ;;
  cancel (_reader_task tr) ;;
  cancel (_writer_task tr) ;;
  match _js_reader tr with
  | Some rd =>
      emit (EvReleaseReader self) ;;
      releaseLock rd ;;
      update_transport self (set_js_reader None)
  | None => ret tt
  end ;;
  match _js_writer tr with
  | Some wr =>
      emit (EvReleaseWriter self) ;;
      releaseLock wr ;;
      update_transport self (set_js_writer None)
  | None => ret tt
  end ;;
  closing_task <-
    match _port tr with
    | Some pt =>
        k <- create_task (ClosePort self pt CStart) ;;
        modify (λ w, with_closing_tasks (_SERIAL_PORT_CLOSING_TASKS w ++ [k]) w) ;;
        update_transport self (set_port_field None) ;;
        ret (Some k)
    | None => ret None
    end ;;
  match _protocol tr with
  | Some protocol =>
      match closing_task with
      | None => emit (EvConnectionLost self protocol exception)
      | Some k =>
          add_done_callback k (CbConnectionLost self protocol exception) ;;
          add_done_callback k (CbRemoveClosing k)
      end ;;
      update_transport self (set_protocol_field None)
  | None => ret tt
  end.

(** [WebSerialTransport.close()] *)
Definition close (self : nat) : M unit := _cleanup self None.

(** [WebSerialTransport.__del__()] *)
Definition __del__ (self : nat) : M unit :=
  _cleanup self (Some (RuntimeError "Transport was not closed!")).

(** [WebSerialTransport.write(data)] *)
Definition write (self : nat) (data : bytes) : M unit := put_nowait self data.

(** [WebSerialTransport.set_protocol(protocol)] *)
Definition set_protocol (self : nat) (protocol : proto) : M unit :=
  update_transport self (set_protocol_field (Some protocol)).

(** [WebSerialTransport.get_protocol()] *)
Definition get_protocol (self : nat) : M proto :=
  tr <- the_transport self ;;
  match _protocol tr with
  | Some p => ret p
  | None => raise AssertionError
  end.

(** [WebSerialTransport.is_closing()] *)
Definition is_closing (self : nat) : M bool :=
  tr <- the_transport self ;;
  ret (_is_closing tr).

(** [await self._write_queue.get()] up to its suspension point: either an
    item is taken at once, or the task is recorded as a getter. *)
Definition queue_get (self me : nat) : M (option bytes) :=
  tr <- the_transport self ;;
  match q_items (_write_queue tr) with
  | [] =>
      update_transport self
        (λ tr, set_write_queue
                 (set_q_getters (q_getters (_write_queue tr) ++ [me]) (_write_queue tr)) tr) ;;
      ret None
  | item :: rest =>
      update_transport self
        (λ tr, set_write_queue (set_q_items (tail (q_items (_write_queue tr))) (_write_queue tr)) tr) ;;
      ret (Some item)
  end.

Fixpoint remove_first (k : nat) (l : list nat) : list nat :=
  match l with
  | [] => []
  | x :: r => if decide (x = k) then r else x :: remove_first k r
  end.

(** The [except] clause of [Queue.get], run when the wait for the getter is
    interrupted: the getter leaves the queue, and if an item had been handed to
    it the next getter is woken instead. *)
Definition queue_get_interrupted (self me : nat) (waited : option awaiting) : M unit :=
  update_transport self
    (λ tr, set_write_queue
             (set_q_getters (remove_first me (q_getters (_write_queue tr))) (_write_queue tr)) tr) ;;
  tr <- the_transport self ;;
  match q_items (_write_queue tr), waited with
  | [], _ => ret tt
  | _, Some (AwFuture FutGetter (Some OCancelled)) => ret tt
  | _, _ => queue_wakeup_getters self
  end.

(** [self._js_writer.write(js.Uint8Array.new(chunk))] *)
Definition js_write (self : nat) (chunk : bytes) : M unit :=
  tr <- the_transport self ;;
  match _js_writer tr with
  | None => raise AttributeError
  | Some _ => emit (EvWrite self chunk)
  end.

(** [except Exception as e: self._cleanup(e); break] *)
Definition writer_failed (self : nat) (e : exn) : M yield :=
  _cleanup self (Some e) ;;
  ret (YReturn VNone).

(** One turn of [while True] in [_writer_loop], up to its next suspension. *)
Definition writer_iteration (self me : nat) : M yield :=
  chunk <- queue_get self me ;;
  match chunk with
  | None => ret (YAwait (WriterLoop self WGet) (AwFuture FutGetter None))
  | Some chunk =>
      try_except
        (js_write self chunk ;;
         ret (YAwait (WriterLoop self WWrite) (AwFuture FutJs None)))
        (writer_failed self)
  end.

(** [WebSerialTransport._writer_loop()] *)
Definition _writer_loop (self me : nat) (pc : writer_pc)
    (waited : option awaiting) (r : resume) : M yield :=
  match pc, r with
  | WStart, Send _ => writer_iteration self me
  | WStart, Throw e => raise e
  | WGet, Send _ => writer_iteration self me
  | WGet, Throw e => queue_get_interrupted self me waited ;; raise e
  | WWrite, Send _ => writer_iteration self me
  | WWrite, Throw e => try_except (raise e) (writer_failed self)
  end.

(** [await self._js_reader.read()] up to its suspension point *)
Definition js_read (self : nat) : M yield :=
  tr <- the_transport self ;;
  match _js_reader tr with
  | None => raise AttributeError
  | Some _ =>
      emit (EvRead self) ;;
      ret (YAwait (ReaderLoop self RRead) (AwFuture FutJs None))
  end.

(** [self._protocol.data_received(bytes(result.value))] *)
Definition data_received (self : nat) (data : bytes) : M unit :=
  tr <- the_transport self ;;
  match _protocol tr with
  | None => raise AttributeError
  | Some p => emit (EvDataReceived self p data)
  end.

(** [WebSerialTransport._reader_loop()] *)
Definition _reader_loop (self : nat) (pc : reader_pc) (r : resume) : M yield :=
  match pc, r with
  | RStart, Send _ => js_read self
  | RRead, Send (VRead done val) =>
      if done then
        _cleanup self (Some (RuntimeError "Other side has closed")) ;;
        ret (YReturn VNone)
      else
        data_received self val ;;
        js_read self
  | RRead, Send _ => raise AttributeError
  | _, Throw e => raise e
  end.

(** [set_global_serial_port(serial_port)] *)
Definition set_global_serial_port (serial_port : port) : M unit :=
  modify (with_serial_port (Some serial_port)).

(** [while _SERIAL_PORT_CLOSING_TASKS: warning; await _SERIAL_PORT_CLOSING_TASKS.pop()]
    up to its next suspension.  [stack] is the registry with its last element
    first; nothing else runs between two turns that do not suspend.  The
    result is the task the coroutine is now suspended on, if any. *)
Fixpoint await_closing_tasks (stack : list nat) : M (option nat) :=
  match stack with
  | [] => ret None
  | k :: below =>
      emit (EvLog WARNING
              "Serial connection was not closed before a new one was opened! Waiting before opening a new one.") ;;
      modify (with_closing_tasks (reverse below)) ;;
      tk <- gets (λ w, tasks w !! k) ;;
      match tk with
      | None => raise AttributeError
      | Some tk =>
          match task_state tk with
          | None => ret (Some k)
          | Some (OResult _) => await_closing_tasks below
          | Some (OException e) => raise e
          | Some OCancelled => raise CancelledError
          end
      end
  end.

(** [await _SERIAL_PORT.open(baudRate=..., flowControl=...)] up to its
    suspension point *)
Definition open_serial_port (a : conn_args) : M yield :=
  sp <- gets _SERIAL_PORT ;;
  match sp with
  | None => raise AttributeError
  | Some pt =>
      emit (EvPortOpen pt (baudrate a) (if rtscts a then Some "hardware" else None)) ;;
      ret (YAwait (CreateConn a KOpen) (AwFuture FutJs None))
  end.

Definition wait_then_open (a : conn_args) : M yield :=
  registry <- gets _SERIAL_PORT_CLOSING_TASKS ;;
  suspended <- await_closing_tasks (reverse registry) ;;
  match suspended with
  | Some k => ret (YAwait (CreateConn a KWait) (AwTask k))
  | None => open_serial_port a
  end.

(** [create_serial_connection(loop, protocol_factory, url, *, parity,
    stopbits, baudrate, rtscts, xonxoff)] *)
Definition create_serial_connection (a : conn_args) (pc : create_pc) (r : resume) : M yield :=
  match pc, r with
  | KStart, Send _ => wait_then_open a
  | KWait, Send _ => wait_then_open a
  | KOpen, Send _ =>
      let protocol := protocol_factory a in
      sp <- gets _SERIAL_PORT ;;
      transport <- __init__ protocol sp ;;
      ret (YReturn (VConn transport protocol))
  | _, Throw e => raise e
  end.

(** ** The loop *)

Definition run_coro (me : nat) (c : coro) (waited : option awaiting) (r : resume) : M yield :=
  match c with
  | WriterLoop self pc => _writer_loop self me pc waited r
  | ReaderLoop self pc => _reader_loop self pc r
  | ClosePort owner pt pc => close_port owner pt pc r
  | CreateConn a pc => create_serial_connection a pc r
  end.

Definition resume_of_outcome (o : outcome) : resume :=
  match o with
  | OResult v => Send v
  | OException e => Throw e
  | OCancelled => Throw CancelledError
  end.

(** What the next step of a pending task is resumed with; [None] when the
    task is still waiting. *)
Definition resume_value (w : world) (tk : task) : option resume :=
  if must_cancel tk then Some (Throw CancelledError)
  else match fut_waiter tk with
       | None => Some (Send VNone)
       | Some (AwFuture _ st) => resume_of_outcome <$> st
       | Some (AwTask j) =>
           match tasks w !! j with
           | Some tj => resume_of_outcome <$> task_state tj
           | None => None
           end
       end.

(** The coroutine of task [k] suspended at [c] on [f]. *)
Definition suspend_task (k : nat) (c : coro) (f : awaiting) : M unit :=
  update_task k (λ tk, set_fut_waiter (Some f) (set_task_coro c tk)) ;;
  match f with
  | AwTask j => add_done_callback j (CbStep k)
  | AwFuture _ _ => ret tt
  end ;;
  requested <- gets (λ w, from_option must_cancel false (tasks w !! k)) ;;
  if (requested : bool) then
    match f with
    | AwFuture kind None =>
        update_task k (set_must_cancel false) ;;
        cancel_waiter k kind
    | _ => ret tt
    end
  else ret tt.

(** [Task.__step]: one step of task [k]. *)
Definition task_step (k : nat) : M unit :=
  λ w,
  match tasks w !! k with
  | None => (w, Ok tt)
  | Some tk =>
    if task_done tk then (w, Ok tt)
    else
      match resume_value w tk with
      | None => (w, Ok tt)
      | Some r =>
          let w1 := with_tasks
                      (alter (λ tk, set_fut_waiter None (set_must_cancel false tk)) k (tasks w)) w in
          match run_coro k (task_coro tk) (fut_waiter tk) r w1 with
          | (w2, Ok (YAwait c f)) => suspend_task k c f w2
          | (w2, Ok (YReturn v)) =>
              if from_option must_cancel false (tasks w2 !! k)
              then (update_task k (set_must_cancel false) ;; finish_task k OCancelled) w2
              else finish_task k (OResult v) w2
          | (w2, Raise CancelledError) => finish_task k OCancelled w2
          | (w2, Raise e) => finish_task k (OException e) w2
          end
      end
  end.

(** [lambda _: _SERIAL_PORT_CLOSING_TASKS.remove(closing_task)] *)
Definition remove_closing_task (k : nat) : M unit :=
  l <- gets _SERIAL_PORT_CLOSING_TASKS ;;
  if bool_decide (k ∈ l) then modify (with_closing_tasks (remove_first k l))
  else raise ValueError.

Definition run_callback (cb : callback) : M unit :=
  match cb with
  | CbStep k => task_step k
  | CbConnectionMade p t => emit (EvConnectionMade p t)
  | CbConnectionLost t p e => emit (EvConnectionLost t p e)
  | CbRemoveClosing k => remove_closing_task k
  end.

(** How the device settles a promise. *)
Inductive settlement := Resolve (v : value) | Reject (code : nat).

Definition outcome_of_settlement (s : settlement) : outcome :=
  match s with
  | Resolve v => OResult v
  | Reject code => OException (JsException code)
  end.

Definition settle_event (c : coro) (o : outcome) : event :=
  match c with
  | WriterLoop t _ => EvWriteSettled t o
  | ReaderLoop t _ => EvReadSettled t o
  | ClosePort t _ _ => EvCloseSettled t o
  | CreateConn _ _ => EvOpenSettled o
  end.

(** The promise awaited by task [k] settles. *)
Definition settle (k : nat) (s : settlement) : M unit :=
  λ w,
  match tasks w !! k with
  | Some (Task c (Some (AwFuture FutJs None)) mc None cbs) =>
      (emit (settle_event c (outcome_of_settlement s)) ;;
       update_task k (set_fut_waiter (Some (AwFuture FutJs (Some (outcome_of_settlement s))))) ;;
       call_soon (CbStep k)) w
  | _ => (w, Ok tt)
  end.

(** ** Schedules *)

Inductive action :=
| Call_set_global_serial_port (pt : port)
| Call_create_serial_connection (a : conn_args)
| Call_write (t : nat) (data : bytes)          (* on a transport that exists *)
| Call_close (t : nat)
| Call_set_protocol (t : nat) (p : proto)
| Collect (t : nat)                           (* the transport is finalised: __del__ *)
| RunOnce                                     (* the loop runs its next callback *)
| Settle (k : nat) (s : settlement).

(** A call made by the application; an exception reaches the caller. *)
Definition call {A} (m : M A) (w : world) : world :=
  match m w with
  | (w', Ok _) => w'
  | (w', Raise e) => with_trace (trace w' ++ [EvUncaught e]) w'
  end.

(** A callback run by the loop; an exception is logged by the loop. *)
Definition run_handle (cb : callback) (w : world) : world :=
  match run_callback cb w with
  | (w', Ok _) => w'
  | (w', Raise e) => with_trace (trace w' ++ [EvLoopException e]) w'
  end.

Definition step (a : action) (w : world) : world :=
  match a with
  | Call_set_global_serial_port pt => call (set_global_serial_port pt) w
  | Call_create_serial_connection a => call (create_task (CreateConn a KStart)) w
  | Call_write t data => call (_ <- the_transport t ;; emit (EvSubmit t data) ;; write t data) w
  | Call_close t => call (close t) w
  | Call_set_protocol t p => call (set_protocol t p) w
  | Collect t => call (__del__ t) w
  | RunOnce =>
      match ready w with
      | [] => w
      | cb :: rest => run_handle cb (with_ready rest w)
      end
  | Settle k s => call (settle k s) w
  end.

Definition run (sched : list action) (w : world) : world :=
  foldl (λ w a, step a w) w sched.


(** ** Reading traces and states *)

(** Chunks handed to [transport.write], in call order. *)
Definition submitted (t : nat) (tr : list event) : list bytes :=
  omap (λ ev, match ev with
              | EvSubmit t' d => if decide (t' = t) then Some d else None
              | _ => None
              end) tr.

(** Chunks handed to the device's writer, in call order. *)
Definition written (t : nat) (tr : list event) : list bytes :=
  omap (λ ev, match ev with
              | EvWrite t' d => if decide (t' = t) then Some d else None
              | _ => None
              end) tr.

(** Successful reads that carried data, as the device returned them. *)
Definition arrived (t : nat) (tr : list event) : list bytes :=
  omap (λ ev, match ev with
              | EvReadSettled t' (OResult (VRead false d)) =>
                  if decide (t' = t) then Some d else None
              | _ => None
              end) tr.

(** Data handed to the consumer's [data_received]. *)
Definition delivered (t : nat) (tr : list event) : list bytes :=
  omap (λ ev, match ev with
              | EvDataReceived t' _ d => if decide (t' = t) then Some d else None
              | _ => None
              end) tr.

(** Calls of [reader.read()]. *)
Definition count_events (f : event → bool) (tr : list event) : nat :=
  length (filter (λ ev, f ev) tr).

Definition reads (t : nat) (tr : list event) : nat :=
  count_events (λ ev, match ev with EvRead t' => bool_decide (t' = t) | _ => false end) tr.

(** [connection_lost] notifications caused by the shutdown of [t], with the
    error each carried. *)
Definition lost (t : nat) (tr : list event) : list (proto * option exn) :=
  omap (λ ev, match ev with
              | EvConnectionLost t' p e => if decide (t' = t) then Some (p, e) else None
              | _ => None
              end) tr.

(** Calls of [port.close()] detached by the shutdown of [t]. *)
Definition device_closes (t : nat) (tr : list event) : list port :=
  omap (λ ev, match ev with
              | EvPortClose t' pt => if decide (t' = t) then Some pt else None
              | _ => None
              end) tr.

(** Whether the [close()] awaitable detached by [t] has settled. *)
Definition close_settled (t : nat) (tr : list event) : bool :=
  existsb (λ ev, match ev with
                 | EvCloseSettled t' _ => bool_decide (t' = t)
                 | _ => false
                 end) tr.

(** Releases of the stream locks of [t]. *)
Definition reader_releases (t : nat) (tr : list event) : nat :=
  count_events
    (λ ev, match ev with EvReleaseReader t' => bool_decide (t' = t) | _ => false end) tr.
Definition writer_releases (t : nat) (tr : list event) : nat :=
  count_events
    (λ ev, match ev with EvReleaseWriter t' => bool_decide (t' = t) | _ => false end) tr.

(** The writer's view of one transport: writes and their completions. *)
Inductive wmark := WBegin | WEnd.

Definition write_marks (t : nat) (tr : list event) : list wmark :=
  omap (λ ev, match ev with
              | EvWrite t' _ => if decide (t' = t) then Some WBegin else None
              | EvWriteSettled t' _ => if decide (t' = t) then Some WEnd else None
              | _ => None
              end) tr.

(** No write begins while the previous one is outstanding. *)
Fixpoint one_at_a_time (busy : bool) (l : list wmark) : bool :=
  match l with
  | [] => true
  | WBegin :: r => negb busy && one_at_a_time true r
  | WEnd :: r => busy && one_at_a_time false r
  end.

(** [port.open()] called while a [port.close()] that was called earlier has
    not settled.  [pending] counts the closes outstanding so far. *)
Fixpoint open_during_close (pending : nat) (tr : list event) : bool :=
  match tr with
  | [] => false
  | EvPortClose _ _ :: r => open_during_close (S pending) r
  | EvCloseSettled _ _ :: r => open_during_close (pred pending) r
  | EvPortOpen _ _ _ :: r => bool_decide (0 < pending) || open_during_close pending r
  | _ :: r => open_during_close pending r
  end.

Definition warnings (tr : list event) : nat :=
  count_events (λ ev, match ev with EvLog WARNING _ => true | _ => false end) tr.

(** The device closes in flight: detached close tasks that have not finished. *)
Definition is_pending_close (tk : task) : bool :=
  match task_coro tk, task_state tk with
  | ClosePort _ _ _, None => true
  | _, _ => false
  end.

Definition closes_in_flight (w : world) : list nat :=
  filter (λ k, from_option is_pending_close false (tasks w !! k)) (seq 0 (length (tasks w))).

(** The registry mirrors the closes in flight. *)
Definition registry_mirrors (w : world) : Prop :=
  ∀ k, k ∈ _SERIAL_PORT_CLOSING_TASKS w ↔ k ∈ closes_in_flight w.


(** ** Concrete devices and schedules *)

Module Scenario.

(** A port whose stream locks release normally. *)
Definition usb : port := Port 0 None None.

(** Ports on which releasing the reader, or the writer, raises. *)
Definition stuck_reader : port := Port 1 (Some (JsException 11)) None.
Definition stuck_writer : port := Port 2 None (Some (JsException 12)).

Definition args : conn_args :=
  ConnArgs 7 "/dev/ttyUSB0" None None 115200 true false.
Definition args' : conn_args :=
  ConnArgs 7 "socket://elsewhere" (Some "E") (Some 2) 115200 true true.
Definition soft_args : conn_args :=
  ConnArgs 8 "/dev/ttyUSB0" None None 57600 false false.

Definition A : bytes := [Byte.x41].
Definition B : bytes := [Byte.x42].
Definition C : bytes := [Byte.x43].

(** The application selects the port and connects; the loop runs until the
    pumps are suspended: task 0 is the connection attempt, task 1 the
    reader, task 2 the writer of transport 0. *)
Definition connect_on (pt : port) (a : conn_args) : list action :=
  [Call_set_global_serial_port pt; Call_create_serial_connection a;
   RunOnce; Settle 0 (Resolve VNone); RunOnce; RunOnce; RunOnce; RunOnce].

Definition connect : list action := connect_on usb args.

Definition connected : world := run connect init.

(** The transport is closed and a new connection is requested while the
    close is running: the loop serves the cancelled pumps (tasks 1 and 2),
    starts the close (task 3) and runs the new attempt (task 4) up to its
    wait. *)
Definition reopen : list action :=
  connect ++ [Call_close 0; Call_create_serial_connection args;
              RunOnce; RunOnce; RunOnce; RunOnce].

(** Then the device finishes closing and the loop runs the close task and
    its three callbacks. *)
Definition reopen_done : list action :=
  reopen ++ [Settle 3 (Resolve VNone); RunOnce; RunOnce; RunOnce; RunOnce].

(** As [reopen], with two connection requests (tasks 4 and 5). *)
Definition reopen_twice : list action :=
  connect ++ [Call_close 0; Call_create_serial_connection args;
              Call_create_serial_connection args;
              RunOnce; RunOnce; RunOnce; RunOnce; RunOnce].

(** Three writes without running the loop in between, then the loop and
    the device alternate. *)
Definition three_writes : list action :=
  connect ++ [Call_write 0 A; Call_write 0 B; Call_write 0 C;
              RunOnce; Settle 2 (Resolve VNone);
              RunOnce; Settle 2 (Resolve VNone);
              RunOnce; Settle 2 (Resolve VNone); RunOnce].

(** The device rejects the write of the second chunk; the writer has not run
    yet. *)
Definition second_write_rejected : list action :=
  connect ++ [Call_write 0 A; Call_write 0 B; Call_write 0 C;
              RunOnce; Settle 2 (Resolve VNone);
              RunOnce; Settle 2 (Reject 5)].


(** A clean close, run to the end. *)
Definition close_to_end : list action :=
  connect ++ [Call_close 0; RunOnce; RunOnce; RunOnce;
              Settle 3 (Resolve VNone); RunOnce; RunOnce; RunOnce].

(** The device returns two chunks and then the end of the stream; the
    reader (task 1) has not been resumed with the end of the stream yet. *)
Definition stream_ends : list action :=
  connect ++ [Settle 1 (Resolve (VRead false A)); RunOnce;
              Settle 1 (Resolve (VRead false B)); RunOnce;
              Settle 1 (Resolve (VRead true []))].

(** A close that the device rejects; the close task (task 3) has not been
    resumed yet. *)
Definition close_rejected : list action :=
  connect ++ [Call_close 0; RunOnce; RunOnce; RunOnce; Settle 3 (Reject 9)].

(** A connection attempt (task 0) whose [port.open()] the device has
    settled, before the attempt is resumed. *)
Definition open_settled (s : settlement) : list action :=
  [Call_set_global_serial_port usb; Call_create_serial_connection args;
   RunOnce; Settle 0 s].

(** As [reopen], and then the device settles the close and the loop runs
    the close task (task 3) and its two callbacks; the waiting attempt
    (task 4) is next. *)
Definition reopen_close_settled (s : settlement) : list action :=
  reopen ++ [Settle 3 s; RunOnce; RunOnce; RunOnce].

(** A write is outstanding when the transport is closed: the writer
    (task 2) has been cancelled and the reader's wake-up has run. *)
Definition close_during_write : list action :=
  connect ++ [Call_write 0 A; RunOnce; Call_close 0; RunOnce].



End Scenario.


(** ** Predicates on states *)

(** Both stream locks held, or both released. *)
Definition locks_paired (tr : transport) : Prop :=
  _js_reader tr = None ↔ _js_writer tr = None.

(** The [releaseLock()] calls of the locks a transport holds return. *)
Definition releases_return (tr : transport) : Prop :=
  (∀ l, _js_reader tr = Some l → releaseLock_raises l = None)
  ∧ (∀ l, _js_writer tr = Some l → releaseLock_raises l = None).

(** A task that will not run its coroutine again: it has finished, or a
    cancellation is on its way to it. *)
Definition doomed (tk : task) : Prop :=
  is_Some (task_state tk)
  ∨ must_cancel tk = true
  ∨ ∃ kind, fut_waiter tk = Some (AwFuture kind (Some OCancelled)).

(** The part of [_cleanup] after the two [cancel] calls. *)
Definition cleanup_tail (self : nat) (exception : option exn) (tr : transport) : M unit :=
  match _js_reader tr with
  | Some rd =>
      emit (EvReleaseReader self) ;;
      releaseLock rd ;;
      update_transport self (set_js_reader None)
  | None => ret tt
  end ;;
  match _js_writer tr with
  | Some wr =>
      emit (EvReleaseWriter self) ;;
      releaseLock wr ;;
      update_transport self (set_js_writer None)
  | None => ret tt
  end ;;
  closing_task <-
    match _port tr with
    | Some pt =>
        k <- create_task (ClosePort self pt CStart) ;;
        modify (λ w, with_closing_tasks (_SERIAL_PORT_CLOSING_TASKS w ++ [k]) w) ;;
        update_transport self (set_port_field None) ;;
        ret (Some k)
    | None => ret None
    end ;;
  match _protocol tr with
  | Some protocol =>
      match closing_task with
      | None => emit (EvConnectionLost self protocol exception)
      | Some k =>
          add_done_callback k (CbConnectionLost self protocol exception) ;;
          add_done_callback k (CbRemoveClosing k)
      end ;;
      update_transport self (set_protocol_field None)
  | None => ret tt
  end.

(** What a cancellation request does to a task that is not waiting for
    another task. *)
Definition cancel_request (tk : task) : task :=
  if task_done tk then tk
  else match fut_waiter tk with
       | Some (AwFuture kind None) => set_fut_waiter (Some (AwFuture kind (Some OCancelled))) tk
       | _ => set_must_cancel true tk
       end.

Definition cancel_wakeup (k : nat) (tk : task) : list callback :=
  if task_done tk then []
  else match fut_waiter tk with
       | Some (AwFuture kind None) => [CbStep k]
       | _ => []
       end.

(** A transport after a complete shutdown transition. *)
Definition scrubbed (tr : transport) : transport :=
  Transport None None (_write_queue tr) (_is_closing tr) None None
    (_reader_task tr) (_writer_task tr).

(** What the part of [_cleanup] after the cancellations records in the trace,
    when the releases return. *)
Definition cleanup_events (self : nat) (exception : option exn) (tr : transport) : list event :=
  (if _js_reader tr is Some _ then [EvReleaseReader self] else [])
  ++ (if _js_writer tr is Some _ then [EvReleaseWriter self] else [])
  ++ match _port tr, _protocol tr with
     | None, Some p => [EvConnectionLost self p exception]
     | _, _ => []
     end.

(** The close task [_cleanup] detaches, with the callbacks it is given. *)
Definition closing_task_of (self : nat) (exception : option exn) (tr : transport)
    (k : nat) : list task :=
  match _port tr with
  | None => []
  | Some pt =>
      [Task (ClosePort self pt CStart) None false None
         match _protocol tr with
         | Some p => [CbConnectionLost self p exception; CbRemoveClosing k]
         | None => []
         end]
  end.

(** ** Connection arguments *)

(** Two argument lists that differ at most in [url], [parity], [stopbits]
    and [xonxoff]. *)
Definition same_connection (a1 a2 : conn_args) : Prop :=
  protocol_factory a1 = protocol_factory a2
  ∧ baudrate a1 = baudrate a2
  ∧ rtscts a1 = rtscts a2.

(** The [options] of the call [port.open(options)]. *)
Definition open_call (pt : port) (a : conn_args) : event :=
  EvPortOpen pt (baudrate a) (if rtscts a then Some "hardware"%string else None).

(** ** Well-formed states *)

(** The transport a pump coroutine serves. *)
Definition pump_of (c : coro) : option nat :=
  match c with
  | WriterLoop t _ | ReaderLoop t _ => Some t
  | _ => None
  end.

(** What a task waits for fits the point at which its coroutine is
    suspended. *)
Definition shape_ok (tk : task) : Prop :=
  match fut_waiter tk with
  | None => True
  | Some f =>
      match task_coro tk, f with
      | WriterLoop _ WGet, AwFuture FutGetter _ => True
      | WriterLoop _ WWrite, AwFuture FutJs _ => True
      | ReaderLoop _ RRead, AwFuture FutJs _ => True
      | ClosePort _ _ CAwait, AwFuture FutJs _ => True
      | CreateConn _ KWait, AwTask _ => True
      | CreateConn _ KOpen, AwFuture FutJs _ => True
      | _, _ => False
      end
  end.

(** Two states of one transport object that differ at most in the fields a
    shutdown transition clears. *)
Definition same_core (tr tr' : transport) : Prop :=
  _write_queue tr' = _write_queue tr
  ∧ _is_closing tr' = _is_closing tr
  ∧ _reader_task tr' = _reader_task tr
  ∧ _writer_task tr' = _writer_task tr.

(** The events a shutdown transition of [self] can record. *)
Inductive cleanup_ev (self : nat) : event → Prop :=
| cleanup_ev_reader : cleanup_ev self (EvReleaseReader self)
| cleanup_ev_writer : cleanup_ev self (EvReleaseWriter self)
| cleanup_ev_lost p e : cleanup_ev self (EvConnectionLost self p e).

(** [skip] names the task that is running, if any: while its step runs,
    its own cancellation state is in flux. *)
Record wf_but (skip : option nat) (w : world) : Prop := Wf {
  wf_shape : ∀ k tk, tasks w !! k = Some tk → shape_ok tk;
  wf_pumps : ∀ t tr, transports w !! t = Some tr →
    (∃ rk pc, tasks w !! _reader_task tr = Some rk ∧ task_coro rk = ReaderLoop t pc)
    ∧ (∃ wk pc, tasks w !! _writer_task tr = Some wk ∧ task_coro wk = WriterLoop t pc);
  wf_owner : ∀ k tk t, tasks w !! k = Some tk → pump_of (task_coro tk) = Some t →
    ∃ tr, transports w !! t = Some tr ∧ (k = _reader_task tr ∨ k = _writer_task tr);
  wf_unbounded : ∀ t tr, transports w !! t = Some tr → q_maxsize (_write_queue tr) = 0;
  wf_open : ∀ t tr, transports w !! t = Some tr → _is_closing tr = false →
    is_Some (_js_reader tr) ∧ is_Some (_js_writer tr)
    ∧ is_Some (_port tr) ∧ is_Some (_protocol tr);
  wf_doom : ∀ k tk t tr, tasks w !! k = Some tk → pump_of (task_coro tk) = Some t →
    transports w !! t = Some tr → _is_closing tr = true → skip ≠ Some k → doomed tk;
}.

Abbreviation wf := (wf_but None).

(** Two program points of one coroutine object. *)
Definition same_kind (c c' : coro) : Prop :=
  match c, c' with
  | WriterLoop t _, WriterLoop t' _ => t = t'
  | ReaderLoop t _, ReaderLoop t' _ => t = t'
  | ClosePort o pt _, ClosePort o' pt' _ => o = o' ∧ pt = pt'
  | CreateConn _ _, CreateConn _ _ => True
  | _, _ => False
  end.

(** A task that does not wait for another task. *)
Definition leaf (tk : task) : Prop := ∀ j, fut_waiter tk ≠ Some (AwTask j).

(** A suspension point that fits the coroutine. *)
Definition await_ok (c : coro) (f : awaiting) : Prop :=
  shape_ok (Task c (Some f) false None []).

Definition yield_ok (c0 : coro) (r : result yield) : Prop :=
  match r with
  | Ok (YAwait c f) => same_kind c0 c ∧ await_ok c f
  | _ => True
  end.

(** A step that suspends again leaves the closing flag of [self] as it was. *)
Definition keeps_flag (self : nat) (w : world) (res : world * result yield) : Prop :=
  ∀ c f tr, res.2 = Ok (YAwait c f) → transports w !! self = Some tr →
    ∃ tr', transports res.1 !! self = Some tr' ∧ _is_closing tr' = _is_closing tr.

(** Every task of [w] is still there in [w'], with the same coroutine at the
    same point. *)
Definition persist (w w' : world) : Prop :=
  ∀ k tk, tasks w !! k = Some tk →
    ∃ tk', tasks w' !! k = Some tk' ∧ task_coro tk' = task_coro tk.

(** ** What a piece of code records *)

(** Going from [w] to [w'], the trace grew by events that satisfy [P]. *)
Definition emits (P : event → Prop) (w w' : world) : Prop :=
  ∃ evs, trace w' = trace w ++ evs ∧ Forall P evs.

(** The events a step of a coroutine can record. *)
Definition coro_ev (c : coro) (ev : event) : Prop :=
  match c with
  | WriterLoop t _ => (∃ d, ev = EvWrite t d) ∨ cleanup_ev t ev
  | ReaderLoop t _ =>
      ev = EvRead t ∨ (∃ p d, ev = EvDataReceived t p d) ∨ cleanup_ev t ev
  | ClosePort t pt _ => (∃ m, ev = EvLog DEBUG m) ∨ ev = EvPortClose t pt
  | CreateConn a _ =>
      (∃ m, ev = EvLog WARNING m) ∨ (∃ pt, ev = open_call pt a)
      ∨ (∃ t, ev = EvGetReader t ∨ ev = EvGetWriter t)
  end.

(** Every transport of [w] is still there in [w'], with the same pumps and
    the same queue bound; a closing flag that was set is still set. *)
Definition tr_mono (w w' : world) : Prop :=
  ∀ t tr, transports w !! t = Some tr →
    ∃ tr', transports w' !! t = Some tr'
           ∧ _reader_task tr' = _reader_task tr
           ∧ _writer_task tr' = _writer_task tr
           ∧ (_is_closing tr = true → _is_closing tr' = true).

(** Events that are not made by a pump of transport [t]: no device write,
    no device read, no delivery to the consumer. *)
Definition quiet (t : nat) (ev : event) : Prop :=
  match ev with
  | EvWrite t' _ | EvRead t' | EvDataReceived t' _ _ => t' ≠ t
  | _ => True
  end.

(** ** What can happen to a task while other code runs *)

(** A pump receives a cancellation request; a getter is handed an item; a
    task that waits for this one registers its wake-up. *)
Inductive nudge : task → task → Prop :=
| nudge_cancel tk :
    is_Some (pump_of (task_coro tk)) → nudge tk (cancel_request tk)
| nudge_wake tk :
    fut_waiter tk = Some (AwFuture FutGetter None) → task_state tk = None →
    nudge tk (set_fut_waiter (Some (AwFuture FutGetter (Some (OResult VNone)))) tk)
| nudge_callback tk k :
    task_state tk = None →
    nudge tk (set_done_callbacks (done_callbacks tk ++ [CbStep k]) tk).

(** The callbacks [_cleanup] gives to the close task it detaches for [t]. *)
Definition shutdown_cb (t : nat) (cb : callback) : Prop :=
  (∃ p e, cb = CbConnectionLost t p e) ∨ (∃ k, cb = CbRemoveClosing k).

(** A coroutine that has not run yet. *)
Definition at_start (c : coro) : Prop :=
  match c with
  | WriterLoop _ WStart | ReaderLoop _ RStart | ClosePort _ _ CStart | CreateConn _ KStart =>
      True
  | _ => False
  end.

(** A task that has not run yet: it waits for nothing, nobody has asked a
    task other than a pump to cancel, and besides the wake-ups of tasks that
    await it, it holds callbacks only if it is a detached close, and then
    those of the shutdown that detached it. *)
Definition fresh (tk : task) : Prop :=
  fut_waiter tk = None ∧ task_state tk = None
  ∧ at_start (task_coro tk)
  ∧ (pump_of (task_coro tk) = None → must_cancel tk = false)
  ∧ Forall (λ cb, (∃ k, cb = CbStep k)
                  ∨ ∃ t pt, task_coro tk = ClosePort t pt CStart ∧ shutdown_cb t cb)
      (done_callbacks tk).

(** All tasks of [w] but [skip] are still there in [w'], nudged at most, and
    the tasks of [w'] that [w] does not have are fresh. *)
Definition frame (skip : option nat) (w w' : world) : Prop :=
  (∀ j tj, skip ≠ Some j → tasks w !! j = Some tj →
     ∃ tj', tasks w' !! j = Some tj' ∧ rtc nudge tj tj')
  ∧ (∀ j tj, skip ≠ Some j → length (tasks w) ≤ j → tasks w' !! j = Some tj → fresh tj).

(** The task an action steps or whose promise it settles. *)
Definition stepping (a : action) (w : world) : option nat :=
  match a with
  | RunOnce => match ready w with CbStep k :: _ => Some k | _ => None end
  | Settle k _ => Some k
  | _ => None
  end.

(** The events an action can record. *)
Definition step_ev (a : action) (w : world) (ev : event) : Prop :=
  (∃ e, ev = EvUncaught e) ∨ (∃ e, ev = EvLoopException e)
  ∨ match a with
    | Call_write t d => ev = EvSubmit t d
    | Call_close t | Collect t => cleanup_ev t ev
    | RunOnce =>
        match ready w with
        | CbStep k :: _ => ∃ tk, tasks w !! k = Some tk ∧ coro_ev (task_coro tk) ev
        | CbConnectionMade p t :: _ => ev = EvConnectionMade p t
        | CbConnectionLost t p e :: _ => ev = EvConnectionLost t p e
        | _ => False
        end
    | Settle k s =>
        ∃ c mc cbs, tasks w !! k = Some (Task c (Some (AwFuture FutJs None)) mc None cbs)
                    ∧ ev = settle_event c (outcome_of_settlement s)
    | _ => False
    end.

(** ** The inbound direction *)

(** What the reader task still owes the consumer: the chunk of a read that
    has returned and that the reader has not yet been resumed with.  A reader
    that has finished owes at most the chunk it was never resumed with. *)
Definition inbound_backlog (tk : task) (rest : list bytes) : Prop :=
  match task_state tk with
  | Some _ => length rest ≤ 1
  | None =>
      match fut_waiter tk with
      | Some (AwFuture FutJs (Some (OResult (VRead false d)))) => rest = [d]
      | _ => rest = []
      end
  end.

(** The consumer has received the chunks that arrived, in their order, up
    to what the reader task still owes. *)
Definition inbound_ok (t : nat) (w : world) : Prop :=
  ∃ rest, arrived t (trace w) = delivered t (trace w) ++ rest
    ∧ match transports w !! t with
      | None => rest = []
      | Some tr => ∀ tk, tasks w !! _reader_task tr = Some tk → inbound_backlog tk rest
      end.

(** Events that are neither the arrival of a chunk from the device of [t]
    nor a delivery to the consumer of [t]. *)
Definition not_inbound (t : nat) (ev : event) : Prop :=
  match ev with
  | EvReadSettled t' _ | EvDataReceived t' _ _ => t' ≠ t
  | _ => True
  end.

(** ** What can happen to a transport *)

(** What a shutdown has cleared stays cleared. *)
Definition shut_le (tr tr' : transport) : Prop :=
  (_port tr = None → _port tr' = None)
  ∧ (_js_reader tr = None → _js_reader tr' = None)
  ∧ (_js_writer tr = None → _js_writer tr' = None)
  ∧ (_protocol tr = None → _protocol tr' = None).

(** Two states of one transport object along a run; [q] tells whether the
    outbound queue may have been used in between. *)
Definition tr_touch (q : Prop) (tr tr' : transport) : Prop :=
  _reader_task tr' = _reader_task tr
  ∧ _writer_task tr' = _writer_task tr
  ∧ (_is_closing tr = true → _is_closing tr' = true)
  ∧ shut_le tr tr'
  ∧ (¬ q → _write_queue tr' = _write_queue tr).

(** Every transport of [w] is still there in [w']; only the queues of the
    transports in [Q] may have been used, and the queues of the transports
    that [w] does not have are empty. *)
Definition tr_frame (Q : nat → Prop) (w w' : world) : Prop :=
  (∀ t tr, transports w !! t = Some tr →
     ∃ tr', transports w' !! t = Some tr' ∧ tr_touch (Q t) tr tr')
  ∧ (∀ t tr', length (transports w) ≤ t → transports w' !! t = Some tr' → ¬ Q t →
       q_items (_write_queue tr') = []).

(** The transport whose outbound queue an action uses: the one written to,
    or the one whose writer task the loop steps. *)
Definition queue_user (a : action) (w : world) : option nat :=
  match a with
  | Call_write t _ => Some t
  | RunOnce =>
      match ready w with
      | CbStep k :: _ =>
          match tasks w !! k with
          | Some tk => match task_coro tk with WriterLoop t _ => Some t | _ => None end
          | None => None
          end
      | _ => None
      end
  | _ => None
  end.

(** The two ways of starting a shutdown from outside the loop. *)
Definition shuts_down (t : nat) (a : action) : Prop := a = Call_close t ∨ a = Collect t.

(** The exception a shutdown started from outside the loop reports. *)
Definition shutdown_error (a : action) : option exn :=
  match a with
  | Collect _ => Some (RuntimeError "Transport was not closed!")
  | _ => None
  end.

(** Actions that leave the protocol of [t] alone. *)
Definition keeps_protocol (t : nat) (a : action) : Prop :=
  ∀ p, a ≠ Call_set_protocol t p.

(** How a detached close task ends, given how the device settled
    [port.close()]. *)
Definition close_task_outcome (s : settlement) : outcome :=
  match s with
  | Resolve _ => OResult VNone
  | Reject code => OException (JsException code)
  end.

(** What the completion of a detached close of [t] records: the debug line
    if the close succeeded, the notification, and the complaint of the
    registry callback if the entry is gone. *)
Definition close_completion_events (t : nat) (p : proto) (e : option exn)
    (s : settlement) (registered : bool) : list event :=
  (if s is Resolve _ then [EvLog DEBUG "Closed serial port"%string] else [])
  ++ [EvConnectionLost t p e]
  ++ (if registered then [] else [EvLoopException ValueError]).

(** ** The outbound direction *)

(** The chunks handed to [write] are those written to the device followed
    by those still in the queue. *)
Definition outbound_ok (t : nat) (w : world) : Prop :=
  submitted t (trace w)
  = written t (trace w)
    ++ match transports w !! t with
       | Some tr => q_items (_write_queue tr)
       | None => []
       end.

(** Events that are neither a call of [write] on [t] nor a device write of
    [t]. *)
Definition not_outbound (t : nat) (ev : event) : Prop :=
  match ev with
  | EvSubmit t' _ | EvWrite t' _ => t' ≠ t
  | _ => True
  end.

(** ** One device write at a time *)

(** Follows the marks of a trace; the result tells whether a write is
    outstanding at the end, or is [None] if a write began while another was
    outstanding or a completion came without a write. *)
Fixpoint track (busy : bool) (l : list wmark) : option bool :=
  match l with
  | [] => Some busy
  | WBegin :: r => if busy then None else track true r
  | WEnd :: r => if busy then track false r else None
  end.

(** What the state of the writer task says about the device: a writer that
    waits for the device has a write outstanding; a writer that can still run
    otherwise has none. *)
Definition write_view (tk : task) (busy : bool) : Prop :=
  match task_state tk with
  | Some _ => True
  | None =>
      match fut_waiter tk with
      | Some (AwFuture FutJs None) => busy = true
      | Some (AwFuture FutJs (Some OCancelled)) => True
      | _ => busy = false
      end
  end.

Definition marks_ok (t : nat) (w : world) : Prop :=
  ∃ busy, track false (write_marks t (trace w)) = Some busy
    ∧ match transports w !! t with
      | None => busy = false
      | Some tr => ∀ tk, tasks w !! _writer_task tr = Some tk → write_view tk busy
      end.

(** Events that are neither the beginning nor the completion of a device
    write of [t]. *)
Definition not_mark (t : nat) (ev : event) : Prop :=
  match ev with
  | EvWrite t' _ | EvWriteSettled t' _ => t' ≠ t
  | _ => True
  end.

(** ** The selected port *)

(** Calls of [port.open()]. *)
Definition opens (tr : list event) : nat :=
  count_events (λ ev, match ev with EvPortOpen _ _ _ => true | _ => false end) tr.

(** Actions that are not a call of [set_global_serial_port]. *)
Definition keeps_port (a : action) : Prop := ∀ pt, a ≠ Call_set_global_serial_port pt.

(** Events that are not a call of [port.open()]. *)
Definition not_open (ev : event) : Prop :=
  match ev with EvPortOpen _ _ _ => False | _ => True end.

(** Events that are neither a device read of [t] nor a delivery to the
    consumer of [t]. *)
Definition no_reading (t : nat) (ev : event) : Prop :=
  match ev with
  | EvRead t' | EvDataReceived t' _ _ => t' ≠ t
  | _ => True
  end.

(** What a connection attempt that waited for a close does when it is
    resumed, given how the close ended: it opens the port, or it ends with
    the exception of the close. *)
Definition attempt_after_close (a : conn_args) (pt : port) (s : settlement)
    (cbs : list callback) (k : nat) (w w' : world) : Prop :=
  match s with
  | Resolve _ =>
      trace w' = trace w ++ [open_call pt a]
      ∧ tasks w' !! k
        = Some (Task (CreateConn a KOpen) (Some (AwFuture FutJs None)) false None cbs)
      ∧ ready w' = tail (ready w)
  | Reject code =>
      trace w' = trace w
      ∧ tasks w' !! k
        = Some (Task (CreateConn a KWait) None false
                  (Some (OException (JsException code))) [])
      ∧ ready w' = tail (ready w) ++ cbs
  end.

(** ** Notifications *)

Definition count_cb (f : callback → bool) (l : list callback) : nat :=
  length (filter (λ cb, f cb) l).

(** The callbacks selected by [f] that are registered: handed to the loop,
    or waiting for the end of a task. *)
Definition registered (f : callback → bool) (w : world) : nat :=
  count_cb f (ready w)
  + sum_list_with (λ tk, count_cb f (done_callbacks tk)) (tasks w).

(** A budget: the calls made so far (the events selected by [g]), the calls
    registered (the callbacks selected by [f]), and what the transports can
    still cause ([stat]). *)
Definition potential (f : callback → bool) (g : event → bool)
    (stat : list transport → nat) (w : world) : nat :=
  count_events g (trace w) + registered f w + stat (transports w).

(** The callback that calls [connection_lost] for the shutdown of [t], and
    the call itself. *)
Definition is_lost_cb (t : nat) (cb : callback) : bool :=
  match cb with CbConnectionLost t' _ _ => bool_decide (t' = t) | _ => false end.

Definition is_lost_ev (t : nat) (ev : event) : bool :=
  match ev with EvConnectionLost t' _ _ => bool_decide (t' = t) | _ => false end.

(** Whether a shutdown of [t] would still find a consumer to notify: the
    transport holds a protocol, or has not been built yet. *)
Definition unnotified (t : nat) (trs : list transport) : nat :=
  match trs !! t with
  | Some tr => if _protocol tr is Some _ then 1 else 0
  | None => 1
  end.

Definition owed (t : nat) : world → nat :=
  potential (is_lost_cb t) (is_lost_ev t) (unnotified t).

(** Calls of [connection_made] with transport [t], with the protocol each
    was made on. *)
Definition made (t : nat) (tr : list event) : list proto :=
  omap (λ ev, match ev with
              | EvConnectionMade p t' => if decide (t' = t) then Some p else None
              | _ => None
              end) tr.

Definition is_made_cb (t : nat) (cb : callback) : bool :=
  match cb with CbConnectionMade _ t' => bool_decide (t' = t) | _ => false end.

Definition is_made_ev (t : nat) (ev : event) : bool :=
  match ev with EvConnectionMade _ t' => bool_decide (t' = t) | _ => false end.

(** Whether transport [t] is still to be built. *)
Definition unbuilt (t : nat) (trs : list transport) : nat :=
  match trs !! t with Some _ => 0 | None => 1 end.

Definition greeting (t : nat) : world → nat :=
  potential (is_made_cb t) (is_made_ev t) (unbuilt t).

(** ** Closing the device *)

(** A detached close of the port of [t] that has not called [port.close()]
    yet. *)
Definition starting_close (t : nat) (tk : task) : nat :=
  match task_coro tk, task_state tk with
  | ClosePort t' _ CStart, None => if decide (t' = t) then 1 else 0
  | _, _ => 0
  end.

(** Whether a shutdown of [t] would still find a port to close: the
    transport holds its port, or has not been built yet. *)
Definition closable (t : nat) (trs : list transport) : nat :=
  match trs !! t with
  | Some tr => if _port tr is Some _ then 1 else 0
  | None => 1
  end.

Definition is_close_ev (t : nat) (ev : event) : bool :=
  match ev with EvPortClose t' _ => bool_decide (t' = t) | _ => false end.

(** The calls of [port.close()] that are still to come for [t]. *)
Definition closes_due (t : nat) (w : world) : nat :=
  sum_list_with (starting_close t) (tasks w) + closable t (transports w).

(** ... and with those already made. *)
Definition closes_budget (t : nat) (w : world) : nat :=
  count_events (is_close_ev t) (trace w) + closes_due t w.

(** ** What a piece of code hands to the loop *)

(** Going from [w] to [w'], the ready queue grew at its end by callbacks
    that satisfy [P]. *)
Definition enqueues (P : callback → Prop) (w w' : world) : Prop :=
  ∃ added, ready w' = ready w ++ added ∧ Forall P added.

(** The callbacks code other than the end of a task hands to the loop: the
    wake-up of a task, and the greeting of a new transport. *)
Definition wake_cb (cb : callback) : Prop :=
  (∃ k, cb = CbStep k) ∨ (∃ p t, cb = CbConnectionMade p t).

(** ** The port and the protocol of a transport go together *)

(** What code other than [set_protocol] can do to the port and the protocol
    of a transport: nothing, or clear both. *)
Definition shut_step (tr tr' : transport) : Prop :=
  (_port tr' = _port tr ∧ _protocol tr' = _protocol tr)
  ∨ (_port tr' = None ∧ _protocol tr' = None).

(** A transport that holds a protocol holds a port. *)
Definition coupled (tr : transport) : Prop := _port tr = None → _protocol tr = None.

Definition shut_frame (w w' : world) : Prop :=
  (∀ t tr, transports w !! t = Some tr →
     ∃ tr', transports w' !! t = Some tr' ∧ shut_step tr tr')
  ∧ (∀ t tr', length (transports w) ≤ t → transports w' !! t = Some tr' → coupled tr').

(** ** The consumer is told after the port is closed *)

(** A detached close of the port of [t]. *)
Definition is_close_of (t : nat) (tk : task) : Prop :=
  match task_coro tk with ClosePort t' _ _ => t' = t | _ => False end.

(** A task whose end will call [connection_lost] for [t]. *)
Definition holds_lost (t : nat) (tk : task) : Prop :=
  0 < count_cb (is_lost_cb t) (done_callbacks tk).

(** A close that has not ended has not been asked to cancel, and it has not
    started, or waits for the device, or the device has settled the close
    ([settled] tells whether the trace has recorded that). *)
Definition guarded (t : nat) (settled : bool) (tk : task) : Prop :=
  task_state tk = None →
  must_cancel tk = false
  ∧ match fut_waiter tk with
    | None => ∃ pt, task_coro tk = ClosePort t pt CStart
    | Some (AwFuture FutJs None) => True
    | Some (AwFuture FutJs (Some o)) => o ≠ OCancelled ∧ settled = true
    | _ => False
    end.

Definition task_ok (t : nat) (settled : bool) (tk : task) : Prop :=
  (holds_lost t tk → is_close_of t tk ∧ task_state tk = None)
  ∧ (is_close_of t tk → guarded t settled tk).

(** The notification of [t] waits on a close of [t] that nothing can end
    but the device; the transport holds a port as long as it holds a
    protocol; and once the notification has left the close task, the device
    has settled the close. *)
Definition notify_after_close (t : nat) (w : world) : Prop :=
  (∀ k tk, tasks w !! k = Some tk → task_ok t (close_settled t (trace w)) tk)
  ∧ (∀ tr, transports w !! t = Some tr → coupled tr)
  ∧ (0 < count_cb (is_lost_cb t) (ready w) + length (lost t (trace w)) →
     close_settled t (trace w) = true).

(** Events that are not a call of [connection_lost] for [t]. *)
Definition hushed (t : nat) (ev : event) : Prop := ∀ p e, ev ≠ EvConnectionLost t p e.

(** Exceptions are compared by their class and their arguments. *)
#[global] Instance exn_eq_dec : EqDecision exn.
Proof. solve_decision. Defined.

(** The [connection_lost] callbacks for the shutdown of [t], and the calls,
    whose arguments are selected by [sel]. *)
Definition lost_cb_where (t : nat) (sel : proto → option exn → bool) (cb : callback) : bool :=
  match cb with
  | CbConnectionLost t' p e => bool_decide (t' = t) && sel p e
  | _ => false
  end.

Definition lost_ev_where (t : nat) (sel : proto → option exn → bool) (ev : event) : bool :=
  match ev with
  | EvConnectionLost t' p e => bool_decide (t' = t) && sel p e
  | _ => false
  end.

Definition owed_where (t : nat) (sel : proto → option exn → bool) : world → nat :=
  potential (lost_cb_where t sel) (lost_ev_where t sel) (unnotified t).

(** Arguments of [connection_lost] other than [(p, e)]. *)
Definition differs (p : proto) (e : option exn) (p' : proto) (e' : option exn) : bool :=
  bool_decide ((p', e') ≠ (p, e)).

(** ** The stream locks go together *)

(** The locks of a transport are both held or both released, or the reader
    lock has been released and the writer lock is kept by a [releaseLock()]
    that raises. *)
Definition locks_ok (tr : transport) : Prop :=
  match _js_reader tr, _js_writer tr with
  | Some _, Some _ | None, None => True
  | None, Some l => releaseLock_raises l ≠ None
  | Some _, None => False
  end.

(** Code that keeps the locks of every transport in such a state. *)
Definition lock_frame (w w' : world) : Prop :=
  (∀ t tr, transports w !! t = Some tr → locks_ok tr) →
  ∀ t tr, transports w' !! t = Some tr → locks_ok tr.

(** ** The arguments [create_serial_connection] does not use *)

(** An argument list with [url], [parity], [stopbits] and [xonxoff] set to
    fixed values: what is left is what two calls that differ only in these
    four have in common. *)
Definition canon_args (a : conn_args) : conn_args :=
  ConnArgs (protocol_factory a) "" None None (baudrate a) (rtscts a) false.

Definition canon_coro (c : coro) : coro :=
  match c with
  | CreateConn a pc => CreateConn (canon_args a) pc
  | _ => c
  end.

Definition canon_task (tk : task) : task :=
  Task (canon_coro (task_coro tk)) (fut_waiter tk) (must_cancel tk) (task_state tk)
    (done_callbacks tk).

(** The state with the four arguments erased from the calls that are
    running: nothing else of the state holds them. *)
Definition canon_world (w : world) : world := with_tasks (canon_task <$> tasks w) w.

Definition canon_yield (y : yield) : yield :=
  match y with
  | YAwait c f => YAwait (canon_coro c) f
  | YReturn v => YReturn v
  end.

Definition canon_action (a : action) : action :=
  match a with
  | Call_create_serial_connection x => Call_create_serial_connection (canon_args x)
  | _ => a
  end.

Definition map_result {A} (g : A → A) (r : result A) : result A :=
  match r with
  | Ok a => Ok (g a)
  | Raise e => Raise e
  end.

(** [m'] does on the erased state what [m] does on the state, up to [g] on
    the result. *)
Definition commutes {A} (g : A → A) (m m' : M A) : Prop :=
  ∀ w, m' (canon_world w) = (canon_world (m w).1, map_result g (m w).2).

(** Two actions that are the same but for [url], [parity], [stopbits] and
    [xonxoff] in a call of [create_serial_connection]. *)
Definition same_action (a1 a2 : action) : Prop :=
  match a1, a2 with
  | Call_create_serial_connection x1, Call_create_serial_connection x2 =>
      same_connection x1 x2
  | _, _ => a1 = a2
  end.

(** ** The end of the stream *)

(** A reader task that will not read again: it has finished, or the read it
    waits for has returned the end of the stream. *)
Definition reader_ended (tk : task) : Prop :=
  is_Some (task_state tk)
  ∨ ∃ val, fut_waiter tk = Some (AwFuture FutJs (Some (OResult (VRead true val)))).

(** Events that are neither a read of the device of [t], nor the settlement
    of one, nor a delivery to its consumer. *)
Definition off_stream (t : nat) (ev : event) : Prop :=
  match ev with
  | EvRead t' | EvReadSettled t' _ | EvDataReceived t' _ _ => t' ≠ t
  | _ => True
  end.

(** Wherever the trace of [w] records that a read of [t] returned the end of
    the stream: what had arrived before had been delivered, nothing of the
    stream of [t] is recorded afterwards, and the reader of [t] will not read
    again. *)
Definition stream_end_ok (t : nat) (w : world) : Prop :=
  ∀ l1 val l2, trace w = l1 ++ EvReadSettled t (OResult (VRead true val)) :: l2 →
    arrived t l1 = delivered t l1
    ∧ Forall (off_stream t) l2
    ∧ ∃ tr rk, transports w !! t = Some tr
        ∧ tasks w !! _reader_task tr = Some rk ∧ reader_ended rk.

(** ** The order of the close and the notification *)



(** ** The monad *)

Lemma bind_ok {A B} (m : M A) (f : A → M B) w w' a :
  m w = (w', Ok a) → bind m f w = f a w'.
Proof. unfold bind. by intros ->. Qed.

Lemma bind_raise {A B} (m : M A) (f : A → M B) w w' e :
  m w = (w', Raise e) → bind m f w = (w', Raise e).
Proof. unfold bind. by intros ->. Qed.

Lemma the_transport_ok self w tr :
  transports w !! self = Some tr → the_transport self w = (w, Ok tr).
Proof. unfold the_transport. by intros ->. Qed.

(** ** [Task.cancel] *)

Lemma task_cancel_frame d k w :
  let w' := (task_cancel d k w).1 in
  _SERIAL_PORT w' = _SERIAL_PORT w
  ∧ _SERIAL_PORT_CLOSING_TASKS w' = _SERIAL_PORT_CLOSING_TASKS w
  ∧ transports w' = transports w
  ∧ trace w' = trace w
  ∧ length (tasks w') = length (tasks w)
  ∧ ∃ b, (task_cancel d k w).2 = Ok b.
Proof.
  revert k w. induction d as [|d IH]; intros k w; simpl.
  - destruct (tasks w !! k) as [tk|]; [|by eauto 10].
    destruct (task_done tk); [by eauto 10|].
    destruct (fut_waiter tk) as [[kind [o|]|j]|]; simpl;
      rewrite ?length_alter; eauto 10.
  - destruct (tasks w !! k) as [tk|]; [|by eauto 10].
    destruct (task_done tk); [by eauto 10|].
    destruct (fut_waiter tk) as [[kind [o|]|j]|]; simpl;
      rewrite ?length_alter; eauto 10.
    specialize (IH j w). simpl in IH.
    destruct IH as (?&?&?&?&?&?).
    destruct (task_cancel d j w) as [w1 [[]|e]] eqn:E; simpl in *;
      rewrite ?length_alter; eauto 10.
Qed.

Lemma cancel_frame k w :
  let w' := (cancel k w).1 in
  _SERIAL_PORT w' = _SERIAL_PORT w
  ∧ _SERIAL_PORT_CLOSING_TASKS w' = _SERIAL_PORT_CLOSING_TASKS w
  ∧ transports w' = transports w
  ∧ trace w' = trace w
  ∧ length (tasks w') = length (tasks w)
  ∧ ∃ b, (cancel k w).2 = Ok b.
Proof. unfold cancel, bind, gets. simpl. apply task_cancel_frame. Qed.

Lemma task_cancel_leaf d k w tk :
  tasks w !! k = Some tk →
  (∀ j, fut_waiter tk ≠ Some (AwTask j)) →
  task_cancel d k w =
    (with_ready (ready w ++ cancel_wakeup k tk)
       (with_tasks (alter cancel_request k (tasks w)) w),
     Ok (negb (task_done tk))).
Proof.
  intros Hk Hw. destruct w as [sp reg ts trs rd tr]; simpl in *.
  assert (Hid : ∀ f : task → task, f tk = tk → alter f k ts = ts).
  { intros f Hf. apply list_eq. intros i. rewrite list_lookup_alter.
    case_decide; subst; [|done]. by rewrite Hk; simpl; rewrite Hf. }
  assert (Hext : ∀ f g : task → task, f tk = g tk → alter f k ts = alter g k ts).
  { intros f g Hf. apply list_alter_ext; [|done]. intros x Hx. congruence. }
  unfold cancel_wakeup, cancel_request.
  destruct d; simpl; rewrite Hk; destruct (task_done tk) eqn:Hd; simpl.
  1,3: rewrite Hid, app_nil_r; [done|by rewrite Hd].
  all: destruct (fut_waiter tk) as [[kind [o|]|j]|] eqn:Hf; simpl;
       try (by exfalso; eapply Hw);
       unfold cancel_waiter, update_task, call_soon, bind, modify, ret, with_tasks,
         with_ready; simpl; rewrite ?app_nil_r;
       do 2 f_equal; apply Hext; by rewrite Hd, Hf.
Qed.

Lemma cancel_leaf k w tk :
  tasks w !! k = Some tk →
  (∀ j, fut_waiter tk ≠ Some (AwTask j)) →
  cancel k w =
    (with_ready (ready w ++ cancel_wakeup k tk)
       (with_tasks (alter cancel_request k (tasks w)) w),
     Ok (negb (task_done tk))).
Proof. intros. unfold cancel, bind, gets. simpl. by apply task_cancel_leaf. Qed.

(** ** [_cleanup], piece by piece *)

Lemma cleanup_unfold self e w tr :
  transports w !! self = Some tr →
  _cleanup self e w =
    cleanup_tail self e (set_is_closing true tr)
      (cancel (_writer_task tr)
         (cancel (_reader_task tr)
            (with_transports (alter (set_is_closing true) self (transports w)) w)).1).1.
Proof.
  intros Htr. unfold _cleanup.
  unfold bind at 1. unfold update_transport at 1, modify at 1.
  set (w1 := with_transports _ w).
  assert (H1 : transports w1 !! self = Some (set_is_closing true tr)).
  { unfold w1. simpl. by rewrite list_lookup_alter_eq, Htr. }
  rewrite (bind_ok _ _ _ _ _ (the_transport_ok _ _ _ H1)).
  simpl _reader_task. simpl _writer_task.
  destruct (cancel_frame (_reader_task tr) w1) as (_&_&_&_&_&[b1 Hb1]).
  destruct (cancel (_reader_task tr) w1) as [w2 r2] eqn:E2. simpl in Hb1. subst r2.
  rewrite (bind_ok _ _ _ _ _ E2).
  destruct (cancel_frame (_writer_task tr) w2) as (_&_&_&_&_&[b2 Hb2]).
  destruct (cancel (_writer_task tr) w2) as [w3 r3] eqn:E3. simpl in Hb2. subst r3.
  rewrite (bind_ok _ _ _ _ _ E3). cbn [fst]. rewrite E3. reflexivity.
Qed.

Lemma lookup_snoc {A} (l : list A) (x : A) : (l ++ [x]) !! length l = Some x.
Proof. by rewrite list_lookup_middle. Qed.

Lemma alter_snoc {A} (f : A → A) (l : list A) (x : A) :
  alter f (length l) (l ++ [x]) = l ++ [f x].
Proof. rewrite alter_app_r_alt by lia. by rewrite Nat.sub_diag. Qed.

Lemma alter_to_insert {A} (f : A → A) (l : list A) i x :
  l !! i = Some x → alter f i l = <[i := f x]> l.
Proof.
  intros Hx. apply list_eq. intros j.
  rewrite list_lookup_alter. destruct (decide (i = j)) as [->|Hne].
  - rewrite list_lookup_insert_eq by (by eapply lookup_lt_Some). by rewrite Hx.
  - by rewrite list_lookup_insert_ne.
Qed.

Lemma cleanup_tail_ok self e tr w :
  transports w !! self = Some tr →
  releases_return tr →
  cleanup_tail self e tr w =
    (World (_SERIAL_PORT w)
       (_SERIAL_PORT_CLOSING_TASKS w
          ++ (if _port tr is Some _ then [length (tasks w)] else []))
       (tasks w ++ closing_task_of self e tr (length (tasks w)))
       (<[self := scrubbed tr]> (transports w))
       (ready w ++ (if _port tr is Some _ then [CbStep (length (tasks w))] else []))
       (trace w ++ cleanup_events self e tr),
     Ok tt).
Proof.
  intros Htr [Hr Hw].
  destruct w as [sp reg ts trs rd tc].
  destruct tr as [pr po q cl jr jw rt wt]. simpl in *.
  assert (Hjr : ∀ l, jr = Some l → releaseLock l = ret tt).
  { intros l ->. unfold releaseLock. by rewrite (Hr l). }
  assert (Hjw : ∀ l, jw = Some l → releaseLock l = ret tt).
  { intros l ->. unfold releaseLock. by rewrite (Hw l). }
  unfold cleanup_tail, cleanup_events, closing_task_of, scrubbed. simpl.
  destruct jr as [lr|], jw as [lw|], po as [pt|], pr as [p|];
    rewrite ?(Hjr _ eq_refl), ?(Hjw _ eq_refl);
    unfold bind, emit, update_transport, modify, ret, create_task, gets, call_soon,
      add_done_callback, update_task, with_trace, with_transports, with_tasks,
      with_ready, with_closing_tasks; simpl;
    repeat (progress (simpl; rewrite ?lookup_snoc, ?alter_snoc));
    rewrite ?app_nil_r, <-?app_assoc; simpl;
    rewrite ?list_alter_alter_eq;
    try (erewrite alter_to_insert by eassumption); simpl;
    try reflexivity.
  all: by rewrite list_insert_id.
Qed.

(** ** Counting events *)

Lemma count_events_app f l1 l2 :
  count_events f (l1 ++ l2) = count_events f l1 + count_events f l2.
Proof. unfold count_events. by rewrite filter_app, length_app. Qed.

Lemma reader_releases_cleanup_events self e tr :
  reader_releases self (cleanup_events self e tr)
  = if _js_reader tr is Some _ then 1 else 0.
Proof.
  unfold reader_releases, cleanup_events, count_events.
  destruct (_js_reader tr), (_js_writer tr), (_port tr), (_protocol tr); simpl;
    rewrite ?filter_cons, ?filter_nil; simpl;
    repeat case_decide; simpl; try done;
    repeat match goal with H : Is_true (bool_decide _) |- _ => apply bool_decide_unpack in H
           | H : ¬ Is_true (bool_decide _) |- _ => rewrite bool_decide_spec in H end;
    try done.
Qed.

Lemma writer_releases_cleanup_events self e tr :
  writer_releases self (cleanup_events self e tr)
  = if _js_writer tr is Some _ then 1 else 0.
Proof.
  unfold writer_releases, cleanup_events, count_events.
  destruct (_js_reader tr), (_js_writer tr), (_port tr), (_protocol tr); simpl;
    rewrite ?filter_cons, ?filter_nil; simpl;
    repeat case_decide; simpl; try done;
    repeat match goal with H : Is_true (bool_decide _) |- _ => apply bool_decide_unpack in H
           | H : ¬ Is_true (bool_decide _) |- _ => rewrite bool_decide_spec in H end;
    try done.
Qed.

(** The effect of a whole shutdown transition whose releases return, on
    everything but the tasks and the ready queue. *)
Lemma cleanup_returns self e w tr :
  transports w !! self = Some tr →
  releases_return tr →
  ∃ w', _cleanup self e w = (w', Ok tt)
        ∧ transports w' = <[self := scrubbed (set_is_closing true tr)]> (transports w)
        ∧ trace w' = trace w ++ cleanup_events self e tr
        ∧ _SERIAL_PORT w' = _SERIAL_PORT w.
Proof.
  intros Htr Hrel. rewrite (cleanup_unfold _ _ _ _ Htr).
  set (w1 := with_transports _ w).
  destruct (cancel_frame (_reader_task tr) w1) as (Hs2&_&Ht2&Hc2&_&_).
  set (w2 := (cancel (_reader_task tr) w1).1) in *.
  destruct (cancel_frame (_writer_task tr) w2) as (Hs3&_&Ht3&Hc3&_&_).
  set (w3 := (cancel (_writer_task tr) w2).1) in *.
  assert (H3 : transports w3 !! self = Some (set_is_closing true tr)).
  { rewrite Ht3, Ht2. unfold w1. simpl. by rewrite list_lookup_alter_eq, Htr. }
  rewrite (cleanup_tail_ok _ _ _ _ H3) by exact Hrel.
  eexists. split; [reflexivity|]. simpl.
  rewrite Ht3, Ht2, Hc3, Hc2, Hs3, Hs2. unfold w1. simpl. split_and!; [|done|done].
  rewrite (alter_to_insert _ _ _ _ Htr). by rewrite list_insert_insert_eq.
Qed.

(** The part of [_cleanup] after the cancellations, whatever the releases
    do: it touches the transport [self] only, in the fields a shutdown
    clears; it adds at most one task, a detached close; it records only
    events of the shutdown of [self]. *)
Lemma cleanup_tail_spec self e tr w :
  transports w !! self = Some tr →
  ∃ X reg_add new rdy evs res,
    cleanup_tail self e tr w
    = (World (_SERIAL_PORT w) (_SERIAL_PORT_CLOSING_TASKS w ++ reg_add)
         (tasks w ++ new) (<[self := X]> (transports w))
         (ready w ++ rdy) (trace w ++ evs), res)
    ∧ same_core tr X
    ∧ Forall (cleanup_ev self) evs
    ∧ Forall (λ tk, ∃ pt cbs, tk = Task (ClosePort self pt CStart) None false None cbs) new
    ∧ Forall (λ cb, cb = CbStep (length (tasks w))) rdy.
Proof.
  intros Htr.
  destruct (_js_reader tr) as [lr|] eqn:Hjr;
    [destruct (releaseLock_raises lr) as [x|] eqn:Hlr|].
  - (* the reader's release raises *)
    exists tr, [], [], [], [EvReleaseReader self], (Raise x).
    split; [|by repeat constructor].
    unfold cleanup_tail. rewrite Hjr.
    unfold bind, emit, modify, releaseLock. rewrite Hlr. simpl.
    destruct w; simpl in *. rewrite !app_nil_r. by rewrite list_insert_id.
  - destruct (_js_writer tr) as [lw|] eqn:Hjw;
      [destruct (releaseLock_raises lw) as [x|] eqn:Hlw|].
    + (* the writer's release raises *)
      exists (set_js_reader None tr), [], [], [], [EvReleaseReader self; EvReleaseWriter self],
        (Raise x).
      split; [|by repeat constructor].
      unfold cleanup_tail. rewrite Hjr, Hjw.
      unfold bind, emit, modify, releaseLock, update_transport, ret. rewrite Hlr, Hlw. simpl.
      destruct w; simpl in *. rewrite !app_nil_r, <-app_assoc. simpl.
      by erewrite alter_to_insert.
    + rewrite cleanup_tail_ok; [|done|].
      2:{ split; intros l; rewrite ?Hjr, ?Hjw; by intros [= <-]. }
      do 6 eexists. split; [reflexivity|].
      split_and!; [done| | |].
      * unfold cleanup_events. destruct (_port tr), (_protocol tr); rewrite Hjr, Hjw;
          by repeat constructor.
      * unfold closing_task_of. destruct (_port tr); by repeat econstructor.
      * destruct (_port tr); by repeat constructor.
    + rewrite cleanup_tail_ok; [|done|].
      2:{ split; intros l; rewrite ?Hjr, ?Hjw; [by intros [= <-]|done]. }
      do 6 eexists. split; [reflexivity|].
      split_and!; [done| | |].
      * unfold cleanup_events. destruct (_port tr), (_protocol tr); rewrite Hjr, Hjw;
          by repeat constructor.
      * unfold closing_task_of. destruct (_port tr); by repeat econstructor.
      * destruct (_port tr); by repeat constructor.
  - destruct (_js_writer tr) as [lw|] eqn:Hjw;
      [destruct (releaseLock_raises lw) as [x|] eqn:Hlw|].
    + exists tr, [], [], [], [EvReleaseWriter self], (Raise x).
      split; [|by repeat constructor].
      unfold cleanup_tail. rewrite Hjr, Hjw.
      unfold bind, emit, modify, releaseLock, update_transport, ret. rewrite Hlw. simpl.
      destruct w; simpl in *. rewrite !app_nil_r. by rewrite list_insert_id.
    + rewrite cleanup_tail_ok; [|done|].
      2:{ split; intros l; rewrite ?Hjr, ?Hjw; [done|by intros [= <-]]. }
      do 6 eexists. split; [reflexivity|].
      split_and!; [done| | |].
      * unfold cleanup_events. destruct (_port tr), (_protocol tr); rewrite Hjr, Hjw;
          by repeat constructor.
      * unfold closing_task_of. destruct (_port tr); by repeat econstructor.
      * destruct (_port tr); by repeat constructor.
    + rewrite cleanup_tail_ok; [|done|].
      2:{ split; intros l; rewrite ?Hjr, ?Hjw; done. }
      do 6 eexists. split; [reflexivity|].
      split_and!; [done| | |].
      * unfold cleanup_events. destruct (_port tr), (_protocol tr); rewrite Hjr, Hjw;
          by repeat constructor.
      * unfold closing_task_of. destruct (_port tr); by repeat econstructor.
      * destruct (_port tr); by repeat constructor.
Qed.

Lemma cancel_wakeup_steps k tk : Forall (λ cb, cb = CbStep k) (cancel_wakeup k tk).
Proof.
  unfold cancel_wakeup. destruct (task_done tk); [constructor|].
  destruct (fut_waiter tk) as [[? []|]|]; by repeat constructor.
Qed.

(** The whole of [_cleanup]: the transport is marked as closing, both pumps
    receive a cancellation request, then the tail runs. *)
Lemma cleanup_spec self e w tr rk wk :
  transports w !! self = Some tr →
  tasks w !! _reader_task tr = Some rk → leaf rk →
  tasks w !! _writer_task tr = Some wk → leaf wk →
  _reader_task tr ≠ _writer_task tr →
  ∃ X reg_add new rdy evs res,
    _cleanup self e w
    = (World (_SERIAL_PORT w) (_SERIAL_PORT_CLOSING_TASKS w ++ reg_add)
         (alter cancel_request (_writer_task tr)
            (alter cancel_request (_reader_task tr) (tasks w)) ++ new)
         (<[self := X]> (transports w))
         (ready w ++ rdy) (trace w ++ evs), res)
    ∧ same_core (set_is_closing true tr) X
    ∧ Forall (cleanup_ev self) evs
    ∧ Forall (λ tk, ∃ pt cbs, tk = Task (ClosePort self pt CStart) None false None cbs) new
    ∧ Forall (λ cb, ∃ k, cb = CbStep k) rdy.
Proof.
  intros Htr Hrk Hlr Hwk Hlw Hne.
  rewrite (cleanup_unfold _ _ _ _ Htr).
  set (w1 := with_transports _ w).
  rewrite (cancel_leaf _ w1 rk) by done. cbn [fst].
  set (w2 := with_ready _ _).
  rewrite (cancel_leaf _ w2 wk); [|by unfold w2; simpl; rewrite list_lookup_alter_ne|done].
  cbn [fst]. set (w3 := with_ready _ _).
  assert (H3 : transports w3 !! self = Some (set_is_closing true tr)).
  { unfold w3, w2, w1. simpl. by rewrite list_lookup_alter_eq, Htr. }
  destruct (cleanup_tail_spec self e _ w3 H3) as (X&reg_add&new&rdy&evs&res&->&Hc&He&Hn&Hr).
  exists X, reg_add, new, (cancel_wakeup (_reader_task tr) rk
                           ++ cancel_wakeup (_writer_task tr) wk ++ rdy), evs, res.
  split_and!; try done.
  - unfold w3, w2, w1. simpl. rewrite <-!app_assoc.
    rewrite (alter_to_insert _ _ _ _ Htr), list_insert_insert_eq. done.
  - rewrite !Forall_app. split_and!.
    + eapply Forall_impl; [apply cancel_wakeup_steps|]. naive_solver.
    + eapply Forall_impl; [apply cancel_wakeup_steps|]. naive_solver.
    + eapply Forall_impl; [exact Hr|]. naive_solver.
Qed.

(** ** Steps that leave the tasks alone *)

Lemma js_read_frame_tasks self w : tasks (js_read self w).1 = tasks w.
Proof.
  unfold js_read, the_transport, bind.
  destruct (transports w !! self) as [tr|]; [|done].
  by destruct (_js_reader tr).
Qed.

Lemma data_received_frame_tasks self data w : tasks (data_received self data w).1 = tasks w.
Proof.
  unfold data_received, the_transport, bind.
  destruct (transports w !! self) as [tr|]; [|done].
  by destruct (_protocol tr).
Qed.

Lemma await_closing_tasks_frame_tasks stack w :
  tasks (await_closing_tasks stack w).1 = tasks w.
Proof.
  revert w. induction stack as [|k below IH]; intros w; simpl; [done|].
  unfold bind, emit, modify, gets. simpl.
  destruct (tasks w !! k) as [tk|] eqn:E; simpl; [|done].
  destruct (task_state tk) as [[v|e|]|]; simpl; try done.
  match goal with |- context [await_closing_tasks below ?w0] => specialize (IH w0) end.
  simpl in IH. done.
Qed.

(** The whole of [_cleanup] when the releases return, in full. *)
Lemma cleanup_ok self e w tr rk wk :
  transports w !! self = Some tr →
  releases_return tr →
  tasks w !! _reader_task tr = Some rk → leaf rk →
  tasks w !! _writer_task tr = Some wk → leaf wk →
  _reader_task tr ≠ _writer_task tr →
  _cleanup self e w
  = (World (_SERIAL_PORT w)
       (_SERIAL_PORT_CLOSING_TASKS w
          ++ (if _port tr is Some _ then [length (tasks w)] else []))
       (alter cancel_request (_writer_task tr)
          (alter cancel_request (_reader_task tr) (tasks w))
          ++ closing_task_of self e tr (length (tasks w)))
       (<[self := scrubbed (set_is_closing true tr)]> (transports w))
       (ready w ++ cancel_wakeup (_reader_task tr) rk
          ++ cancel_wakeup (_writer_task tr) wk
          ++ (if _port tr is Some _ then [CbStep (length (tasks w))] else []))
       (trace w ++ cleanup_events self e tr),
     Ok tt).
Proof.
  intros Htr Hrel Hrk Hlr Hwk Hlw Hne.
  rewrite (cleanup_unfold _ _ _ _ Htr).
  set (w1 := with_transports _ w).
  rewrite (cancel_leaf _ w1 rk) by done. cbn [fst].
  set (w2 := with_ready _ _).
  rewrite (cancel_leaf _ w2 wk); [|by unfold w2; simpl; rewrite list_lookup_alter_ne|done].
  cbn [fst]. set (w3 := with_ready _ _).
  assert (H3 : transports w3 !! self = Some (set_is_closing true tr)).
  { unfold w3, w2, w1. simpl. by rewrite list_lookup_alter_eq, Htr. }
  rewrite (cleanup_tail_ok _ _ _ _ H3) by exact Hrel.
  unfold w3, w2, w1. simpl. rewrite !length_alter, <-!app_assoc.
  rewrite (alter_to_insert _ _ _ _ Htr), list_insert_insert_eq. done.
Qed.


(** ** Well-formed states are preserved *)

Lemma same_kind_refl c : same_kind c c.
Proof. by destruct c. Qed.

Lemma same_kind_pump c c' : same_kind c c' → pump_of c' = pump_of c.
Proof. destruct c, c'; simpl; naive_solver. Qed.

Lemma same_kind_reader c t pc :
  same_kind (ReaderLoop t pc) c → ∃ pc', c = ReaderLoop t pc'.
Proof. destruct c; simpl; naive_solver. Qed.

Lemma same_kind_writer c t pc :
  same_kind (WriterLoop t pc) c → ∃ pc', c = WriterLoop t pc'.
Proof. destruct c; simpl; naive_solver. Qed.

Lemma doomed_cancel_request tk : doomed (cancel_request tk).
Proof.
  unfold cancel_request, doomed, task_done.
  case_bool_decide; [by left|].
  destruct (fut_waiter tk) as [[kind [o|]|j]|] eqn:E; simpl; eauto.
Qed.

Lemma shape_ok_cancel_request tk : shape_ok tk → shape_ok (cancel_request tk).
Proof.
  unfold cancel_request, shape_ok. destruct (task_done tk); [done|].
  destruct (fut_waiter tk) as [[kind [o|]|j]|] eqn:E; simpl; rewrite ?E; try done.
Qed.

Lemma task_coro_cancel_request tk : task_coro (cancel_request tk) = task_coro tk.
Proof.
  unfold cancel_request. destruct (task_done tk); [done|].
  by destruct (fut_waiter tk) as [[kind [o|]|j]|].
Qed.

(** The general step: tasks keep their coroutine object and stay doomed,
    transports keep their pumps, and whatever is new is consistent. *)
Lemma wf_transfer s w w' :
  wf_but s w →
  (∀ k tk, tasks w !! k = Some tk →
     ∃ tk', tasks w' !! k = Some tk'
            ∧ same_kind (task_coro tk) (task_coro tk')
            ∧ (s ≠ Some k → doomed tk → doomed tk')) →
  (∀ k tk', tasks w' !! k = Some tk' →
     shape_ok tk'
     ∧ (tasks w !! k = None → ∀ t, pump_of (task_coro tk') = Some t →
          transports w !! t = None
          ∧ ∃ tr', transports w' !! t = Some tr'
                   ∧ (k = _reader_task tr' ∨ k = _writer_task tr'))) →
  (∀ t tr, transports w !! t = Some tr →
     ∃ tr', transports w' !! t = Some tr'
            ∧ _reader_task tr' = _reader_task tr
            ∧ _writer_task tr' = _writer_task tr) →
  (∀ t tr', transports w' !! t = Some tr' →
     q_maxsize (_write_queue tr') = 0
     ∧ (_is_closing tr' = false →
          is_Some (_js_reader tr') ∧ is_Some (_js_writer tr')
          ∧ is_Some (_port tr') ∧ is_Some (_protocol tr'))
     ∧ (transports w !! t = None →
          (∃ rk pc, tasks w' !! _reader_task tr' = Some rk ∧ task_coro rk = ReaderLoop t pc)
          ∧ (∃ wk pc, tasks w' !! _writer_task tr' = Some wk ∧ task_coro wk = WriterLoop t pc))
     ∧ (_is_closing tr' = true →
          (∃ tr, transports w !! t = Some tr ∧ _is_closing tr = true)
          ∨ (∀ k tk', tasks w' !! k = Some tk' → pump_of (task_coro tk') = Some t →
               s ≠ Some k → doomed tk'))) →
  wf_but s w'.
Proof.
  intros [Hsh Hpu How Hun Hop Hdo] HA HB HC HD. split.
  - intros k tk' Hk. by apply HB in Hk as [? _].
  - intros t tr' Ht. destruct (HD _ _ Ht) as (_ & _ & Hnew & _).
    destruct (transports w !! t) as [tr|] eqn:Eo; [|by apply Hnew].
    destruct (HC _ _ Eo) as (tr2 & Ht2 & Hr & Hw). simplify_eq.
    destruct (Hpu _ _ Eo) as [(rk & pc & Hrk & Hrc) (wk & pc' & Hwk & Hwc)].
    destruct (HA _ _ Hrk) as (rk' & Hrk' & Hrs & _).
    destruct (HA _ _ Hwk) as (wk' & Hwk' & Hws & _).
    rewrite Hrc in Hrs. rewrite Hwc in Hws.
    apply same_kind_reader in Hrs as [pc1 Hrs]. apply same_kind_writer in Hws as [pc2 Hws].
    rewrite Hr, Hw. naive_solver.
  - intros k tk' t Hk Hp.
    destruct (tasks w !! k) as [tk|] eqn:Eo.
    + destruct (HA _ _ Eo) as (tk2 & Hk2 & Hs & _). simplify_eq.
      rewrite (same_kind_pump _ _ Hs) in Hp.
      destruct (How _ _ _ Eo Hp) as (tr & Ht & Hor).
      destruct (HC _ _ Ht) as (tr' & Ht' & Hr & Hw). exists tr'. rewrite Hr, Hw. done.
    + destruct (HB _ _ Hk) as [_ Hnew]. destruct (Hnew Eo _ Hp) as [_ ?]. done.
  - intros t tr' Ht. by destruct (HD _ _ Ht) as (? & _).
  - intros t tr' Ht. by destruct (HD _ _ Ht) as (_ & ? & _).
  - intros k tk' t tr' Hk Hp Ht Hcl Hs.
    destruct (HD _ _ Ht) as (_ & _ & _ & Hd). destruct (Hd Hcl) as [(tr & Hto & Hclo)|Hd'].
    + destruct (tasks w !! k) as [tk|] eqn:Eo.
      * destruct (HA _ _ Eo) as (tk2 & Hk2 & Hsk & Hdm). simplify_eq.
        apply Hdm; [done|]. eapply Hdo; eauto.
        by rewrite <-(same_kind_pump _ _ Hsk).
      * destruct (HB _ _ Hk) as [_ Hnew]. destruct (Hnew Eo _ Hp) as [Hn _]. congruence.
    + eapply Hd'; eauto.
Qed.

Lemma wf_same s w w' :
  tasks w' = tasks w → transports w' = transports w → wf_but s w → wf_but s w'.
Proof.
  intros Ht Hr [Hsh Hpu How Hun Hop Hdo].
  split; rewrite ?Ht, ?Hr; try done.
Qed.

(** A task is updated in place. *)
Lemma wf_alter_task s w w' f k :
  tasks w' = alter f k (tasks w) → transports w' = transports w →
  (∀ tk, tasks w !! k = Some tk →
     same_kind (task_coro tk) (task_coro (f tk))
     ∧ shape_ok (f tk)
     ∧ (s ≠ Some k → doomed tk → doomed (f tk))) →
  wf_but s w → wf_but s w'.
Proof.
  intros Ht Hr Hf Hwf. apply (wf_transfer s w); [done|..].
  - intros j tk Hj. rewrite Ht, list_lookup_alter. case_decide; subst.
    + rewrite Hj. simpl. eexists. split; [done|]. destruct (Hf _ Hj) as (?&?&?). done.
    + exists tk. split_and!; [done|apply same_kind_refl|done].
  - intros j tk' Hj. rewrite Ht, list_lookup_alter in Hj. split.
    + case_decide; subst.
      * destruct (tasks w !! j) as [tk|] eqn:E; simplify_eq/=. by destruct (Hf _ eq_refl) as (?&?&?).
      * by eapply wf_shape.
    + intros Hn. case_decide; subst; rewrite Hn in Hj; done.
  - intros t tr Htr. rewrite Hr. eauto.
  - intros t tr' Htr. rewrite Hr in *. split_and!.
    + by eapply wf_unbounded.
    + by eapply wf_open.
    + congruence.
    + intros Hc. left. eauto.
Qed.

(** Tasks that are not pumps are added. *)
Lemma wf_new_tasks s w w' new :
  tasks w' = tasks w ++ new → transports w' = transports w →
  Forall (λ tk, pump_of (task_coro tk) = None ∧ shape_ok tk) new →
  wf_but s w → wf_but s w'.
Proof.
  intros Ht Hr Hnew Hwf. apply (wf_transfer s w); [done|..].
  - intros j tj Hj. exists tj. rewrite Ht. split_and!; [|apply same_kind_refl|done].
    by apply lookup_app_l_Some.
  - intros j tj Hj. rewrite Ht in Hj. apply lookup_app_Some in Hj as [Hj|[Hl Hj]].
    + split; [by eapply wf_shape|]. congruence.
    + rewrite Forall_lookup in Hnew. destruct (Hnew _ _ Hj) as [Hp Hs].
      split; [done|]. congruence.
  - intros t tr Htr. rewrite Hr. eauto.
  - intros t tr' Htr. rewrite Hr in *. split_and!.
    + by eapply wf_unbounded.
    + by eapply wf_open.
    + congruence.
    + intros Hc. left. eauto.
Qed.

(** A transport is updated in place. *)
Lemma wf_set_transport s w w' t tr X :
  tasks w' = tasks w → transports w' = <[t := X]> (transports w) →
  transports w !! t = Some tr →
  _reader_task X = _reader_task tr → _writer_task X = _writer_task tr →
  q_maxsize (_write_queue X) = 0 →
  (_is_closing X = false →
     is_Some (_js_reader X) ∧ is_Some (_js_writer X)
     ∧ is_Some (_port X) ∧ is_Some (_protocol X)) →
  (_is_closing X = true →
     _is_closing tr = true
     ∨ (∀ k tk, tasks w !! k = Some tk → pump_of (task_coro tk) = Some t →
          s ≠ Some k → doomed tk)) →
  wf_but s w → wf_but s w'.
Proof.
  intros Ht Hr Htr Hrt Hwt Hmax Hopen Hclose Hwf.
  assert (Hlt : t < length (transports w)) by (by eapply lookup_lt_Some).
  apply (wf_transfer s w); [done|..].
  - intros j tj Hj. exists tj. rewrite Ht. split_and!; [done|apply same_kind_refl|done].
  - intros j tj Hj. rewrite Ht in Hj. split; [by eapply wf_shape|]. congruence.
  - intros t' tr0 Ht0. rewrite Hr. destruct (decide (t = t')) as [->|Hne].
    + rewrite list_lookup_insert_eq by done. simplify_eq. eauto.
    + rewrite list_lookup_insert_ne by done. eauto.
  - intros t' tr' Ht'. rewrite Hr in Ht'. destruct (decide (t = t')) as [->|Hne].
    + rewrite list_lookup_insert_eq in Ht' by done. simplify_eq.
      split_and!; [done|done|congruence|].
      intros Hc. destruct (Hclose Hc) as [?|Hd]; [left; eauto|right].
      intros k tk'. rewrite Ht. apply Hd.
    + rewrite list_lookup_insert_ne in Ht' by done. split_and!.
      * by eapply wf_unbounded.
      * by eapply wf_open.
      * congruence.
      * intros Hc. left. eauto.
Qed.

Lemma alter_None {A} (f : A → A) (l : list A) i : l !! i = None → alter f i l = l.
Proof.
  intros Hn. apply list_eq. intros j. rewrite list_lookup_alter.
  case_decide; subst; [by rewrite Hn|done].
Qed.

Lemma wf_pump_tasks s w t tr :
  wf_but s w → transports w !! t = Some tr →
  ∃ rk wk, tasks w !! _reader_task tr = Some rk ∧ leaf rk
           ∧ tasks w !! _writer_task tr = Some wk ∧ leaf wk
           ∧ _reader_task tr ≠ _writer_task tr.
Proof.
  intros Hwf Ht. destruct (wf_pumps _ _ Hwf _ _ Ht) as [(rk&pc&Hrk&Hrc) (wk&pc'&Hwk&Hwc)].
  exists rk, wk. split_and!; try done.
  - intros j Hj. pose proof (wf_shape _ _ Hwf _ _ Hrk) as Hs.
    unfold shape_ok in Hs. rewrite Hj, Hrc in Hs. by destruct pc.
  - intros j Hj. pose proof (wf_shape _ _ Hwf _ _ Hwk) as Hs.
    unfold shape_ok in Hs. rewrite Hj, Hwc in Hs. by destruct pc'.
  - intros Heq. rewrite Heq in Hrk. congruence.
Qed.

Lemma wf_cleanup s self e w : wf_but s w → wf_but s (_cleanup self e w).1.
Proof.
  intros Hwf. destruct (transports w !! self) as [tr|] eqn:Htr.
  2:{ unfold _cleanup, bind, update_transport, modify, the_transport. simpl.
      rewrite list_lookup_alter_eq, Htr. simpl. eapply wf_same; [..|done]; simpl; [done|].
      apply alter_None, Htr. }
  destruct (wf_pump_tasks _ _ _ _ Hwf Htr) as (rk&wk&Hrk&Hlr&Hwk&Hlw&Hne).
  destruct (cleanup_spec self e w tr rk wk Htr Hrk Hlr Hwk Hlw Hne)
    as (X&reg_add&new&rdy&evs&res&->&(Hq&Hcl&Hrt&Hwt)&_&Hnew&_).
  cbn [fst]. simpl in Hq, Hcl, Hrt, Hwt.
  set (wa := with_tasks (alter cancel_request (_reader_task tr) (tasks w)) w).
  set (wb := with_tasks (alter cancel_request (_writer_task tr) (tasks wa)) wa).
  set (wc := with_transports (<[self := X]> (transports wb)) wb).
  assert (Ha : wf_but s wa).
  { eapply (wf_alter_task s w); [done|done| |done]. intros tk Htk.
    rewrite task_coro_cancel_request. split_and!;
      [apply same_kind_refl| |intros; apply doomed_cancel_request].
    apply shape_ok_cancel_request. eapply wf_shape; [exact Hwf|exact Htk]. }
  assert (Hb : wf_but s wb).
  { eapply (wf_alter_task s wa); [done|done| |done]. intros tk Htk.
    rewrite task_coro_cancel_request. split_and!;
      [apply same_kind_refl| |intros; apply doomed_cancel_request].
    apply shape_ok_cancel_request. eapply wf_shape; [exact Ha|exact Htk]. }
  assert (Hc : wf_but s wc).
  { eapply (wf_set_transport s wb _ self tr X); try done.
    - rewrite Hq. by eapply wf_unbounded.
    - congruence.
    - intros _. right. intros k tk Hk Hp _.
      destruct (wf_owner _ _ Hb _ _ _ Hk Hp) as (tr' & Htr' & Hor).
      simpl in Htr'. simplify_eq. simpl in Hk.
      destruct Hor as [->| ->].
      + rewrite list_lookup_alter_ne, list_lookup_alter_eq, Hrk in Hk by done.
        simplify_eq/=. apply doomed_cancel_request.
      + rewrite list_lookup_alter_eq, list_lookup_alter_ne, Hwk in Hk by done.
        simplify_eq/=. apply doomed_cancel_request. }
  eapply (wf_new_tasks s wc); [..|exact Hc]; simpl; [done|done|].
  eapply Forall_impl; [exact Hnew|]. by intros tk (pt&cbs&->).
Qed.

(** *** The queue *)

Lemma wakeup_next_frame getters w :
  let w' := (wakeup_next getters w).2 in
  transports w' = transports w ∧ trace w' = trace w
  ∧ _SERIAL_PORT w' = _SERIAL_PORT w
  ∧ _SERIAL_PORT_CLOSING_TASKS w' = _SERIAL_PORT_CLOSING_TASKS w
  ∧ length (tasks w') = length (tasks w).
Proof.
  induction getters as [|g rest IH]; simpl; [done|].
  destruct (tasks w !! g) as [[c [[[] [o|]|j]|] mc [o'|] cbs]|]; simpl; try done.
  by rewrite length_alter.
Qed.

Lemma wf_wakeup_next s getters w : wf_but s w → wf_but s (wakeup_next getters w).2.
Proof.
  intros Hwf. induction getters as [|g rest IH]; simpl; [done|].
  destruct (tasks w !! g) as [[c [[[] [o|]|j]|] mc [o'|] cbs]|] eqn:E; simpl; try done.
  eapply (wf_alter_task s w); [done|done| |done].
  intros tk Htk. rewrite E in Htk. simplify_eq. simpl.
  split_and!; [apply same_kind_refl| |].
  - pose proof (wf_shape _ _ Hwf _ _ E) as Hs. unfold shape_ok in *. simpl in *. done.
  - intros _ [[? Hd]|[Hd|[kind Hd]]]; simpl in *; try done. right. by left.
Qed.

Lemma wf_update_queue s w self f :
  (∀ q, q_maxsize (f q) = q_maxsize q) →
  wf_but s w →
  wf_but s (with_transports
              (alter (λ tr, set_write_queue (f (_write_queue tr)) tr) self (transports w)) w).
Proof.
  intros Hf Hwf. destruct (transports w !! self) as [tr|] eqn:Htr.
  2:{ eapply wf_same; [..|done]; simpl; [done|]. by apply alter_None. }
  eapply (wf_set_transport s w _ self tr); [done|simpl; by erewrite alter_to_insert|done|..|done];
    simpl; try done.
  - rewrite Hf. by eapply wf_unbounded.
  - by eapply wf_open.
  - by left.
Qed.

Lemma wf_queue_wakeup_getters s self w :
  wf_but s w → wf_but s (queue_wakeup_getters self w).1.
Proof.
  intros Hwf. unfold queue_wakeup_getters, bind, the_transport.
  destruct (transports w !! self) as [tr|] eqn:Htr; [|done].
  pose proof (wf_wakeup_next s (q_getters (_write_queue tr)) w Hwf) as Hw.
  destruct (wakeup_next _ w) as [rest w'] eqn:E. simpl in *.
  unfold update_transport, modify. simpl.
  by apply (wf_update_queue s w' self (set_q_getters rest)).
Qed.

Lemma wf_put_nowait s self item w : wf_but s w → wf_but s (put_nowait self item w).1.
Proof.
  intros Hwf. unfold put_nowait, bind, the_transport.
  destruct (transports w !! self) as [tr|] eqn:Htr; [|done].
  destruct (q_full _); [done|].
  unfold update_transport at 1, modify. simpl.
  apply wf_queue_wakeup_getters.
  by apply (wf_update_queue s w self (λ q, set_q_items (q_items q ++ [item]) q)).
Qed.

(** *** Tasks *)

Lemma wf_weaken s w : wf w → wf_but s w.
Proof. intros [Hsh Hpu How Hun Hop Hdo]. split; try done. intros. eapply Hdo; eauto. Qed.

Lemma wf_unskip k w :
  wf_but (Some k) w →
  (∀ tk t tr, tasks w !! k = Some tk → pump_of (task_coro tk) = Some t →
     transports w !! t = Some tr → _is_closing tr = true → doomed tk) →
  wf w.
Proof.
  intros [Hsh Hpu How Hun Hop Hdo] Hk. split; try done.
  intros j tk t tr Hj Hp Ht Hc _. destruct (decide (j = k)) as [->|Hne].
  - eapply Hk; eauto.
  - eapply Hdo; eauto. congruence.
Qed.

Lemma wf_settle s k st w : wf_but s w → wf_but s (settle k st w).1.
Proof.
  intros Hwf. unfold settle.
  destruct (tasks w !! k) as [[c [[[] [o|]|j]|] mc [o'|] cbs]|] eqn:E; simpl; try done.
  eapply (wf_alter_task s _ _ _ k); [done|done| |].
  - simpl. intros tk Htk. rewrite E in Htk. simplify_eq. simpl.
    split_and!; [apply same_kind_refl| |].
    + pose proof (wf_shape _ _ Hwf _ _ E) as Hs. unfold shape_ok in *. simpl in *. done.
    + intros _ [[? Hd]|[Hd|[kind Hd]]]; simpl in *; try done. right. by left.
  - eapply wf_same; [..|exact Hwf]; done.
Qed.

Lemma wf_add_done_callback s j cb w : wf_but s w → wf_but s (add_done_callback j cb w).1.
Proof.
  intros Hwf. unfold add_done_callback.
  destruct (tasks w !! j) as [tj|] eqn:E; [|done].
  destruct (task_done tj).
  - eapply wf_same; [..|exact Hwf]; done.
  - eapply (wf_alter_task s w _ _ j); [done|done| |done].
    intros tk Htk. split_and!; [apply same_kind_refl| |done].
    exact (wf_shape _ _ Hwf _ _ Htk).
Qed.

Lemma wf_finish_task s k o w : wf_but s w → wf_but s (finish_task k o w).1.
Proof.
  intros Hwf. unfold finish_task.
  destruct (tasks w !! k) as [tk|] eqn:E; [|done].
  unfold bind, update_task, modify. simpl.
  eapply (wf_alter_task s w _ _ k); [done|done| |done].
  intros tk' Htk. split_and!; [apply same_kind_refl|exact (wf_shape _ _ Hwf _ _ Htk)|].
  intros _ _. left. by eexists.
Qed.

Lemma finish_task_done k o w tk :
  tasks (finish_task k o w).1 !! k = Some tk → is_Some (task_state tk).
Proof.
  unfold finish_task. destruct (tasks w !! k) as [tk0|] eqn:E; simpl.
  - rewrite list_lookup_alter_eq, E. simpl. intros [= <-]. by eexists.
  - by rewrite E.
Qed.

Lemma finish_task_transports k o w : transports (finish_task k o w).1 = transports w.
Proof. unfold finish_task. by destruct (tasks w !! k). Qed.

Lemma wf_finish_running k o w : wf_but (Some k) w → wf (finish_task k o w).1.
Proof.
  intros Hwf. apply (wf_unskip k); [by apply wf_finish_task|].
  intros tk t tr Hk _ _ _. left. by eapply finish_task_done.
Qed.

(** *** Coroutines that are not pumps *)

Lemma close_port_frame owner pt pc r w :
  let w' := (close_port owner pt pc r w).1 in
  tasks w' = tasks w ∧ transports w' = transports w
  ∧ yield_ok (ClosePort owner pt pc) (close_port owner pt pc r w).2.
Proof. destruct pc, r; simpl; done. Qed.

Lemma await_closing_tasks_frame stack w :
  let w' := (await_closing_tasks stack w).1 in
  tasks w' = tasks w ∧ transports w' = transports w ∧ ready w' = ready w
  ∧ _SERIAL_PORT w' = _SERIAL_PORT w.
Proof.
  revert w. induction stack as [|k below IH]; intros w; simpl; [done|].
  unfold bind, emit, modify, gets. simpl.
  destruct (tasks w !! k) as [tk|] eqn:E; simpl; [|done].
  destruct (task_state tk) as [[v|e|]|]; simpl; try done.
  match goal with |- context [await_closing_tasks below ?w0] => specialize (IH w0) end.
  simpl in IH. done.
Qed.

Lemma wf_init s protocol sp w : wf_but s w → wf_but s (__init__ protocol sp w).1.
Proof.
  intros Hwf. destruct sp as [pt|]; [|done]. simpl.
  apply (wf_transfer s w); [done|..]; simpl.
  - intros k tk Hk. exists tk. split_and!; [|apply same_kind_refl|done].
    rewrite <-app_assoc. by apply lookup_app_l_Some.
  - intros k tk' Hk. rewrite <-app_assoc in Hk.
    apply lookup_app_Some in Hk as [Hk|[Hl Hk]].
    + split; [exact (wf_shape _ _ Hwf _ _ Hk)|congruence].
    + destruct (k - length (tasks w)) as [|[|?]] eqn:Ek; simplify_eq/=.
      * split; [done|]. intros _ t [= <-]. split; [by apply lookup_ge_None|].
        eexists. rewrite lookup_snoc. split; [done|]. simpl. left. lia.
      * split; [done|]. intros _ t [= <-]. split; [by apply lookup_ge_None|].
        eexists. rewrite lookup_snoc. split; [done|]. simpl. right.
        rewrite length_app. simpl. lia.
  - intros t tr Ht. exists tr. split; [|done]. by apply lookup_app_l_Some.
  - intros t tr' Ht. apply lookup_app_Some in Ht as [Ht|[Hl Ht]].
    + split_and!.
      * by eapply wf_unbounded.
      * by eapply wf_open.
      * congruence.
      * intros Hc. left. eauto.
    + apply list_lookup_singleton_Some in Ht as [Ht <-]. simpl.
      assert (t = length (transports w)) as -> by lia.
      split_and!; [done|by eauto|..|done].
      intros _. split.
      * eexists _, _. rewrite lookup_app_l by (rewrite length_app; simpl; lia).
        rewrite lookup_snoc. done.
      * eexists _, _. rewrite length_app. simpl.
        replace (length (tasks w) + 1) with (length (tasks w ++ [Task (ReaderLoop (length (transports w)) RStart) None false None []]))
          by (rewrite length_app; simpl; lia).
        rewrite lookup_snoc. done.
Qed.

Lemma init_frame protocol sp w t tr :
  transports w !! t = Some tr → transports (__init__ protocol sp w).1 !! t = Some tr.
Proof. intros Ht. destruct sp; simpl; [|done]. by apply lookup_app_l_Some. Qed.

Lemma wf_create_serial_connection s a pc r w :
  wf_but s w →
  wf_but s (create_serial_connection a pc r w).1
  ∧ yield_ok (CreateConn a pc) (create_serial_connection a pc r w).2.
Proof.
  intros Hwf.
  assert (Hw : wf_but s (wait_then_open a w).1
               ∧ yield_ok (CreateConn a pc) (wait_then_open a w).2).
  { unfold wait_then_open, bind, gets.
    destruct (await_closing_tasks_frame (reverse (_SERIAL_PORT_CLOSING_TASKS w)) w)
      as (Ht & Hr & _).
    destruct (await_closing_tasks _ w) as [w' [[k|]|e]]; simpl in *.
    - split; [eapply wf_same; [..|exact Hwf]; done|done].
    - unfold open_serial_port, bind, gets, emit, modify, ret, raise.
      destruct (_SERIAL_PORT w'); simpl; (split; [eapply wf_same; [..|exact Hwf]; done|done]).
    - split; [eapply wf_same; [..|exact Hwf]; done|done]. }
  destruct pc, r; simpl; try done.
  unfold bind, gets.
  pose proof (wf_init s (protocol_factory a) (_SERIAL_PORT w) w Hwf).
  destruct (__init__ _ _ w) as [w' [x|e]]; simpl in *; done.
Qed.

(** *** The pumps *)

Local Ltac trivial_step :=
  split_and?; first [done | intros ? ? ? ?; simpl; done | intros; simplify_eq/=].

Lemma wf_writer_failed s self e w :
  wf_but s w →
  wf_but s (writer_failed self e w).1
  ∧ (∀ c f, (writer_failed self e w).2 ≠ Ok (YAwait c f)).
Proof.
  intros Hwf. unfold writer_failed, bind.
  pose proof (wf_cleanup s self (Some e) w Hwf) as H.
  destruct (_cleanup self (Some e) w) as [w' [[]|x]]; simpl in *; done.
Qed.

Lemma wf_writer_iteration s self me w :
  wf_but s w →
  wf_but s (writer_iteration self me w).1
  ∧ yield_ok (WriterLoop self WStart) (writer_iteration self me w).2
  ∧ keeps_flag self w (writer_iteration self me w).
Proof.
  intros Hwf. unfold writer_iteration, keeps_flag, queue_get, the_transport, bind.
  destruct (transports w !! self) as [tr|] eqn:Htr; [|by trivial_step].
  destruct (q_items (_write_queue tr)) as [|item rest] eqn:Hq.
  - unfold update_transport, modify, ret. simpl. split; [|split; [done|]].
    + by apply (wf_update_queue s w self (λ q, set_q_getters (q_getters q ++ [me]) q)).
    + intros c f tr0 _ [= <-]. rewrite list_lookup_alter_eq, Htr. simpl. eauto.
  - unfold update_transport, modify, ret. simpl.
    remember (with_transports _ w) as w1 eqn:Ew1.
    assert (H1 : wf_but s w1).
    { subst w1. by apply (wf_update_queue s w self (λ q, set_q_items (tail (q_items q)) q)). }
    assert (Ht1 : transports w1 !! self
                  = Some (set_write_queue (set_q_items (tail (q_items (_write_queue tr)))
                                             (_write_queue tr)) tr)).
    { subst w1. simpl. by rewrite list_lookup_alter_eq, Htr. }
    clear Ew1. unfold try_except, js_write, the_transport, bind. rewrite Ht1. simpl.
    destruct (_js_writer tr) as [l|]; simpl.
    + split; [|split; [done|]]; [eapply wf_same; [..|exact H1]; done|].
      intros c f tr0 _ [= <-]. rewrite Ht1. simpl. eauto.
    + destruct (wf_writer_failed s self AttributeError w1 H1) as [H2 H3].
      destruct (writer_failed self AttributeError w1) as [w2 [[c f|v]|x]] eqn:E; simpl in *;
        try done.
      exfalso. by eapply H3.
Qed.

Lemma wf_queue_get_interrupted s self me waited w :
  wf_but s w →
  wf_but s (queue_get_interrupted self me waited w).1.
Proof.
  intros Hwf. unfold queue_get_interrupted, bind, update_transport, modify. simpl.
  set (w1 := with_transports _ w).
  assert (H1 : wf_but s w1).
  { by apply (wf_update_queue s w self (λ q, set_q_getters (remove_first me (q_getters q)) q)). }
  unfold the_transport. destruct (transports w1 !! self) as [tr|]; [|done].
  destruct (q_items (_write_queue tr)); [done|].
  destruct waited as [[[] [[]| ]|]|]; simpl; try done; by apply wf_queue_wakeup_getters.
Qed.

Lemma wf_writer_loop s self me pc waited r w :
  wf_but s w →
  wf_but s (_writer_loop self me pc waited r w).1
  ∧ yield_ok (WriterLoop self pc) (_writer_loop self me pc waited r w).2
  ∧ keeps_flag self w (_writer_loop self me pc waited r w).
Proof.
  intros Hwf.
  destruct (wf_writer_iteration s self me w Hwf) as (Hi1 & Hi2 & Hi3).
  assert (Hy : yield_ok (WriterLoop self pc) (writer_iteration self me w).2).
  { destruct (writer_iteration self me w).2 as [[c f|v]|x]; try done. }
  destruct pc, r as [v|e]; simpl; try done.
  - unfold bind.
    pose proof (wf_queue_get_interrupted s self me waited w Hwf) as H.
    destruct (queue_get_interrupted self me waited w) as [w' [[]|x]]; simpl in *; done.
  - unfold try_except, raise. destruct (is_Exception e); [|done].
    destruct (wf_writer_failed s self e w Hwf) as [H2 H3].
    destruct (writer_failed self e w) as [w2 [[c f|v]|x]] eqn:E; simpl in *; try done.
    exfalso. by eapply H3.
Qed.

Lemma js_read_frame self w :
  tasks (js_read self w).1 = tasks w ∧ transports (js_read self w).1 = transports w
  ∧ yield_ok (ReaderLoop self RRead) (js_read self w).2.
Proof.
  unfold js_read, the_transport, bind.
  destruct (transports w !! self) as [tr|]; [|done].
  destruct (_js_reader tr); done.
Qed.

Lemma data_received_frame self data w :
  tasks (data_received self data w).1 = tasks w
  ∧ transports (data_received self data w).1 = transports w.
Proof.
  unfold data_received, the_transport, bind.
  destruct (transports w !! self) as [tr|]; [|done].
  destruct (_protocol tr); done.
Qed.

Lemma wf_reader_loop s self pc r w :
  wf_but s w →
  wf_but s (_reader_loop self pc r w).1
  ∧ yield_ok (ReaderLoop self pc) (_reader_loop self pc r w).2
  ∧ keeps_flag self w (_reader_loop self pc r w).
Proof.
  intros Hwf. unfold keeps_flag.
  assert (Hread : ∀ w0, wf_but s w0 → transports w0 = transports w →
            wf_but s (js_read self w0).1
            ∧ yield_ok (ReaderLoop self pc) (js_read self w0).2
            ∧ ∀ c f tr, (js_read self w0).2 = Ok (YAwait c f) →
                transports w !! self = Some tr →
                ∃ tr', transports (js_read self w0).1 !! self = Some tr'
                       ∧ _is_closing tr' = _is_closing tr).
  { intros w0 H0 Ht0. destruct (js_read_frame self w0) as (Ht & Hr & Hy).
    split; [eapply wf_same; [..|exact H0]; done|]. split.
    - destruct (js_read self w0).2 as [[c f|v]|x]; try done.
    - intros c f tr _ Htr. rewrite Hr, Ht0. eauto. }
  destruct pc, r as [v|e]; simpl; try done; try (by apply Hread).
  destruct v as [|dn val|]; simpl; try done.
  destruct dn; unfold bind.
  - pose proof (wf_cleanup s self (Some (RuntimeError "Other side has closed")) w Hwf) as H.
    destruct (_cleanup self _ w) as [w' [[]|x]]; simpl in *; done.
  - destruct (data_received_frame self val w) as (Ht & Hr).
    destruct (data_received self val w) as [w' [[]|x]]; simpl in *.
    + apply Hread; [eapply wf_same; [..|exact Hwf]; done|done].
    + split; [eapply wf_same; [..|exact Hwf]; done|done].
Qed.


(** ** Coroutines stay where they are while other code runs *)

Lemma persist_refl w : persist w w.
Proof. intros k tk Hk. eauto. Qed.

Lemma persist_trans w1 w2 w3 : persist w1 w2 → persist w2 w3 → persist w1 w3.
Proof.
  intros H12 H23 k tk Hk. destruct (H12 _ _ Hk) as (tk2 & Hk2 & Hc2).
  destruct (H23 _ _ Hk2) as (tk3 & Hk3 & Hc3). exists tk3. split; [done|congruence].
Qed.

Lemma persist_same w w' : tasks w' = tasks w → persist w w'.
Proof. intros Ht k tk Hk. rewrite Ht. eauto. Qed.

Lemma persist_alter w w' f k :
  tasks w' = alter f k (tasks w) → (∀ tk, task_coro (f tk) = task_coro tk) → persist w w'.
Proof.
  intros Ht Hf j tk Hj. rewrite Ht, list_lookup_alter. case_decide; subst.
  - rewrite Hj. simpl. eauto.
  - eauto.
Qed.

Lemma persist_app w w' new : tasks w' = tasks w ++ new → persist w w'.
Proof. intros Ht k tk Hk. rewrite Ht. exists tk. split; [by apply lookup_app_l_Some|done]. Qed.

Lemma persist_task_cancel d k w : persist w (task_cancel d k w).1.
Proof.
  revert k w. induction d as [|d IH]; intros k w; simpl.
  - destruct (tasks w !! k) as [tk|]; [|apply persist_refl].
    destruct (task_done tk); [apply persist_refl|].
    destruct (fut_waiter tk) as [[kind [o|]|j]|]; simpl;
      by eapply persist_alter.
  - destruct (tasks w !! k) as [tk|]; [|apply persist_refl].
    destruct (task_done tk); [apply persist_refl|].
    destruct (fut_waiter tk) as [[kind [o|]|j]|]; simpl;
      try (by eapply persist_alter).
    specialize (IH j w).
    destruct (task_cancel d j w) as [w1 [[]|e]] eqn:E; simpl in *; try done;
      (eapply persist_trans; [exact IH|]); by eapply persist_alter.
Qed.

Lemma persist_cancel k w : persist w (cancel k w).1.
Proof. unfold cancel, bind, gets. simpl. apply persist_task_cancel. Qed.

Lemma persist_cleanup self e w : persist w (_cleanup self e w).1.
Proof.
  destruct (transports w !! self) as [tr|] eqn:Htr.
  2:{ unfold _cleanup, bind, update_transport, modify, the_transport. simpl.
      rewrite list_lookup_alter_eq, Htr. simpl. by apply persist_same. }
  rewrite (cleanup_unfold _ _ _ _ Htr).
  set (w1 := with_transports _ w).
  set (w2 := (cancel (_reader_task tr) w1).1).
  set (w3 := (cancel (_writer_task tr) w2).1).
  destruct (cancel_frame (_reader_task tr) w1) as (_&_&Ht2&_&_&_).
  destruct (cancel_frame (_writer_task tr) w2) as (_&_&Ht3&_&_&_).
  assert (H3 : transports w3 !! self = Some (set_is_closing true tr)).
  { unfold w3. rewrite Ht3. unfold w2. rewrite Ht2. unfold w1. simpl.
    by rewrite list_lookup_alter_eq, Htr. }
  destruct (cleanup_tail_spec self e _ w3 H3) as (X&reg_add&new&rdy&evs&res&->&_).
  cbn [fst].
  eapply persist_trans; [|eapply persist_trans; [apply (persist_cancel (_reader_task tr) w1)|]].
  - by apply persist_same.
  - eapply persist_trans; [apply (persist_cancel (_writer_task tr) w2)|].
    fold w3. by eapply persist_app.
Qed.

Lemma persist_wakeup_next getters w : persist w (wakeup_next getters w).2.
Proof.
  induction getters as [|g rest IH]; simpl; [apply persist_refl|].
  destruct (tasks w !! g) as [[c [[[] [o|]|j]|] mc [o'|] cbs]|] eqn:E; simpl; try done.
  by eapply persist_alter.
Qed.

Lemma persist_queue_wakeup_getters self w : persist w (queue_wakeup_getters self w).1.
Proof.
  unfold queue_wakeup_getters, the_transport, bind.
  destruct (transports w !! self) as [tr|]; [|apply persist_refl].
  pose proof (persist_wakeup_next (q_getters (_write_queue tr)) w) as H.
  destruct (wakeup_next _ w) as [rest w']. simpl in *.
  eapply persist_trans; [exact H|]. by apply persist_same.
Qed.

Lemma persist_put_nowait self item w : persist w (put_nowait self item w).1.
Proof.
  unfold put_nowait, the_transport, bind.
  destruct (transports w !! self) as [tr|]; [|apply persist_refl].
  destruct (q_full _); [apply persist_refl|].
  unfold update_transport at 1, modify. simpl.
  eapply persist_trans; [|apply persist_queue_wakeup_getters]. by apply persist_same.
Qed.

Lemma persist_init protocol sp w : persist w (__init__ protocol sp w).1.
Proof.
  destruct sp; [|apply persist_refl]. simpl.
  eapply persist_app. simpl. by rewrite <-app_assoc.
Qed.

Lemma persist_writer_failed self e w : persist w (writer_failed self e w).1.
Proof.
  unfold writer_failed, bind. pose proof (persist_cleanup self (Some e) w) as H.
  by destruct (_cleanup self (Some e) w) as [w' [[]|x]].
Qed.

Lemma persist_writer_iteration self me w : persist w (writer_iteration self me w).1.
Proof.
  unfold writer_iteration, queue_get, the_transport, bind.
  destruct (transports w !! self) as [tr|] eqn:Htr; [|apply persist_refl].
  destruct (q_items (_write_queue tr)) as [|item rest] eqn:Hq.
  - by apply persist_same.
  - unfold update_transport, modify, ret. simpl.
    remember (with_transports _ w) as w1 eqn:Ew1.
    assert (H1 : persist w w1) by (subst w1; by apply persist_same).
    clear Ew1. unfold try_except, js_write, the_transport, bind.
    destruct (transports w1 !! self) as [tr1|]; simpl.
    + destruct (_js_writer tr1); simpl.
      * eapply persist_trans; [exact H1|]. by apply persist_same.
      * pose proof (persist_writer_failed self AttributeError w1) as H2.
        destruct (writer_failed self AttributeError w1) as [w2 r2]. simpl in *.
        eapply persist_trans; [exact H1|]. by destruct r2.
    + pose proof (persist_writer_failed self AttributeError w1) as H2.
      destruct (writer_failed self AttributeError w1) as [w2 r2]. simpl in *.
      eapply persist_trans; [exact H1|]. by destruct r2.
Qed.

Lemma persist_queue_get_interrupted self me waited w :
  persist w (queue_get_interrupted self me waited w).1.
Proof.
  unfold queue_get_interrupted, bind, update_transport, modify. simpl.
  remember (with_transports _ w) as w1 eqn:Ew1.
  assert (H1 : persist w w1) by (subst w1; by apply persist_same).
  clear Ew1. unfold the_transport. destruct (transports w1 !! self) as [tr|]; [|done].
  destruct (q_items (_write_queue tr)); [done|].
  destruct waited as [[[] [[]| ]|]|]; simpl; try done;
    (eapply persist_trans; [exact H1|apply persist_queue_wakeup_getters]).
Qed.

Lemma persist_run_coro me c waited r w : persist w (run_coro me c waited r w).1.
Proof.
  destruct c as [self pc|self pc|owner pt pc|a pc]; simpl.
  - destruct pc, r as [v|e]; simpl; try apply persist_refl;
      try apply persist_writer_iteration.
    + unfold bind. pose proof (persist_queue_get_interrupted self me waited w) as H.
      by destruct (queue_get_interrupted self me waited w) as [w' [[]|x]].
    + unfold try_except, raise. destruct (is_Exception e); [|apply persist_refl].
      pose proof (persist_writer_failed self e w) as H.
      by destruct (writer_failed self e w) as [w' [y|x]].
  - assert (Hread : ∀ w0, persist w w0 → persist w (js_read self w0).1).
    { intros w0 H0. eapply persist_trans; [exact H0|].
      apply persist_same. apply js_read_frame_tasks. }
    destruct pc, r as [v|e]; simpl; try apply persist_refl;
      try (by apply Hread, persist_refl).
    destruct v as [|dn val|]; simpl; try apply persist_refl.
    destruct dn; unfold bind.
    + pose proof (persist_cleanup self (Some (RuntimeError "Other side has closed")) w) as H.
      by destruct (_cleanup self _ w) as [w' [[]|x]].
    + pose proof (data_received_frame_tasks self val w) as Ht.
      destruct (data_received self val w) as [w' [[]|x]]; simpl in *.
      * apply Hread. by apply persist_same.
      * by apply persist_same.
  - apply persist_same. destruct pc, r; done.
  - assert (Hw : persist w (wait_then_open a w).1).
    { unfold wait_then_open, bind, gets.
      pose proof (await_closing_tasks_frame_tasks (reverse (_SERIAL_PORT_CLOSING_TASKS w)) w)
        as Ht.
      destruct (await_closing_tasks _ w) as [w' [[k|]|e]]; simpl in *;
        try (by apply persist_same).
      unfold open_serial_port, bind, gets, emit, modify, ret, raise.
      destruct (_SERIAL_PORT w'); simpl; by apply persist_same. }
    destruct pc, r; simpl; try done; try apply persist_refl.
    unfold bind, gets.
    pose proof (persist_init (protocol_factory a) (_SERIAL_PORT w) w).
    by destruct (__init__ _ _ w) as [w' [x|e]].
Qed.


(** ** One step of a task, one action of a schedule *)

Lemma wf_run_coro s me c waited r w :
  wf_but s w →
  wf_but s (run_coro me c waited r w).1
  ∧ yield_ok c (run_coro me c waited r w).2
  ∧ (∀ t, pump_of c = Some t → keeps_flag t w (run_coro me c waited r w)).
Proof.
  intros Hwf. destruct c as [self pc|self pc|owner pt pc|a pc]; simpl.
  - destruct (wf_writer_loop s self me pc waited r w Hwf) as (?&?&?).
    split_and!; [done|done|]. by intros t [= <-].
  - destruct (wf_reader_loop s self pc r w Hwf) as (?&?&?).
    split_and!; [done|done|]. by intros t [= <-].
  - destruct (close_port_frame owner pt pc r w) as (Ht & Hr & Hy).
    split_and!; [eapply wf_same; [..|exact Hwf]; done|done|done].
  - destruct (wf_create_serial_connection s a pc r w Hwf). done.
Qed.

(** A pump that is resumed with an exception does not suspend again. *)
Lemma pump_throw_no_await me c waited e w t c' f :
  pump_of c = Some t → (run_coro me c waited (Throw e) w).2 ≠ Ok (YAwait c' f).
Proof.
  destruct c as [self pc|self pc|owner pt pc|a pc]; simpl; try done; intros _.
  - destruct pc; simpl; try done.
    + unfold bind. by destruct (queue_get_interrupted self me waited w) as [w' [[]|x]].
    + unfold try_except, raise. destruct (is_Exception e); [|done].
      unfold writer_failed, bind. by destruct (_cleanup self (Some e) w) as [w' [[]|x]].
  - by destruct pc.
Qed.

(** A task that is resumed with a value was not doomed. *)
Lemma resume_send_not_doomed w tk v :
  task_state tk = None → resume_value w tk = Some (Send v) → ¬ doomed tk.
Proof.
  unfold resume_value. intros Hst Hr [[? Hd]|[Hd|[kind Hd]]].
  - congruence.
  - by rewrite Hd in Hr.
  - rewrite Hd in Hr. by destruct (must_cancel tk).
Qed.

Lemma wf_suspend_task k c f w tk :
  tasks w !! k = Some tk → same_kind (task_coro tk) c → await_ok c f →
  wf_but (Some k) w → wf_but (Some k) (suspend_task k c f w).1.
Proof.
  intros Hk Hsk Hok Hwf. unfold suspend_task, bind, update_task at 1, modify. simpl.
  remember (with_tasks _ w) as w1 eqn:E1.
  assert (H1 : wf_but (Some k) w1).
  { subst w1. eapply (wf_alter_task (Some k) w _ _ k); [done|done| |done].
    intros tk0 Htk0. simplify_eq. split_and!; [done|exact Hok|done]. }
  assert (Hk1 : tasks w1 !! k
                = Some (set_fut_waiter (Some f) (set_task_coro c tk))).
  { subst w1. simpl. by rewrite list_lookup_alter_eq, Hk. }
  clear E1. destruct f as [kind st|j].
  - unfold ret, gets. simpl.
    destruct (from_option must_cancel false (tasks w1 !! k)); [|done].
    destruct st as [o|]; [done|].
    unfold update_task, cancel_waiter, bind, modify, call_soon, update_task. simpl.
    rewrite list_alter_alter_eq.
    eapply (wf_alter_task (Some k) w1 _ _ k); [done|done| |done].
    intros tk2 Htk2. simpl. split_and!; [apply same_kind_refl| |done].
    rewrite Hk1 in Htk2. simplify_eq. exact Hok.
  - pose proof (wf_add_done_callback (Some k) j (CbStep k) w1 H1) as H2.
    destruct (add_done_callback j (CbStep k) w1) as [w2 [[]|x]]; simpl in *; [|done].
    unfold gets. simpl. by destruct (from_option must_cancel false (tasks w2 !! k)).
Qed.

Lemma add_done_callback_frame j cb w :
  transports (add_done_callback j cb w).1 = transports w
  ∧ trace (add_done_callback j cb w).1 = trace w
  ∧ (∀ k tk, tasks w !! k = Some tk →
       ∃ tk', tasks (add_done_callback j cb w).1 !! k = Some tk'
              ∧ task_coro tk' = task_coro tk).
Proof.
  unfold add_done_callback. destruct (tasks w !! j) as [tj|] eqn:E; [|by eauto].
  destruct (task_done tj); simpl; [by eauto|].
  split_and!; [done|done|]. intros k tk Hk. rewrite list_lookup_alter.
  case_decide; subst; [rewrite Hk|]; simpl; eauto.
Qed.

Lemma suspend_task_frame k c f w tk :
  tasks w !! k = Some tk →
  transports (suspend_task k c f w).1 = transports w
  ∧ trace (suspend_task k c f w).1 = trace w
  ∧ ∃ tk', tasks (suspend_task k c f w).1 !! k = Some tk' ∧ task_coro tk' = c.
Proof.
  intros Hk. unfold suspend_task, bind, update_task at 1, modify. simpl.
  remember (with_tasks _ w) as w1 eqn:E1.
  assert (Hk1 : tasks w1 !! k = Some (set_fut_waiter (Some f) (set_task_coro c tk))).
  { subst w1. simpl. by rewrite list_lookup_alter_eq, Hk. }
  assert (Ht1 : transports w1 = transports w) by (by subst w1).
  assert (Hc1 : trace w1 = trace w) by (by subst w1).
  clear E1. destruct f as [kind st|j].
  - unfold ret, gets. simpl.
    destruct (from_option must_cancel false (tasks w1 !! k)); [|by eauto].
    destruct st as [o|]; [by eauto|].
    unfold update_task, cancel_waiter, bind, modify, call_soon, update_task. simpl.
    split_and!; [done|done|]. rewrite !list_lookup_alter_eq, Hk1. simpl. eauto.
  - destruct (add_done_callback_frame j (CbStep k) w1) as (Ht & Hc & Hp).
    destruct (Hp _ _ Hk1) as (tk' & Hk' & Hco).
    destruct (add_done_callback j (CbStep k) w1) as [w2 [[]|x]]; simpl in *.
    + unfold gets. simpl.
      destruct (from_option must_cancel false (tasks w2 !! k)); simpl;
        (split_and!; [congruence|congruence|eauto]).
    + split_and!; [congruence|congruence|eauto].
Qed.

(** A step of a task preserves well-formedness. *)
Lemma wf_task_step k w : wf w → wf (task_step k w).1.
Proof.
  intros Hwf. unfold task_step.
  destruct (tasks w !! k) as [tk|] eqn:Hk; [|done].
  destruct (task_done tk) eqn:Hdone; [done|].
  destruct (resume_value w tk) as [r|] eqn:Hres; [|done].
  remember (with_tasks _ w) as w1 eqn:E1.
  assert (H1 : wf_but (Some k) w1).
  { subst w1. eapply (wf_alter_task (Some k) w _ _ k); [done|done| |by apply wf_weaken].
    intros tk0 Htk0. split_and!; [apply same_kind_refl|done|done]. }
  assert (Hk1 : ∃ tk1, tasks w1 !! k = Some tk1 ∧ task_coro tk1 = task_coro tk).
  { subst w1. simpl. rewrite list_lookup_alter_eq, Hk. simpl. eauto. }
  assert (Ht1 : transports w1 = transports w) by (by subst w1).
  clear E1.
  destruct (wf_run_coro (Some k) k (task_coro tk) (fut_waiter tk) r w1 H1) as (H2 & Hy & Hflag).
  pose proof (persist_run_coro k (task_coro tk) (fut_waiter tk) r w1) as Hper.
  pose proof (pump_throw_no_await k (task_coro tk) (fut_waiter tk)) as Hthrow.
  destruct (run_coro k (task_coro tk) (fut_waiter tk) r w1) as [w2 res] eqn:Erun. simpl in *.
  destruct Hk1 as (tk1 & Hk1 & Hc1).
  destruct (Hper _ _ Hk1) as (tk2 & Hk2 & Hc2).
  destruct res as [[c f|v]|e].
  - (* the coroutine suspends again *)
    destruct Hy as [Hsk Hok].
    assert (Hsk2 : same_kind (task_coro tk2) c) by (by rewrite Hc2, Hc1).
    destruct (suspend_task_frame k c f w2 tk2 Hk2) as (Htr & _ & tk3 & Hk3 & Hc3).
    apply (wf_unskip k); [by eapply wf_suspend_task|].
    intros tk' t tr' Hk' Hp Ht' Hcl. exfalso.
    assert (tk' = tk3) as -> by congruence. rewrite Hc3 in Hp.
    rewrite (same_kind_pump _ _ Hsk) in Hp.
    destruct r as [v|e].
    + assert (Hnd : ¬ doomed tk).
      { eapply resume_send_not_doomed; [|done].
        unfold task_done in Hdone. apply bool_decide_eq_false in Hdone.
        destruct (task_state tk); [|done]. exfalso. apply Hdone. by eexists. }
      destruct (wf_owner _ _ Hwf _ _ _ Hk Hp) as (tr & Ht & _).
      rewrite <-Ht1 in Ht.
      destruct (Hflag _ Hp c f tr eq_refl Ht) as (tr2 & Ht2 & Hcl2).
      simpl in Ht2. rewrite Htr, Ht2 in Ht'. assert (tr' = tr2) as -> by congruence.
      apply Hnd. rewrite Ht1 in Ht. eapply (wf_doom _ _ Hwf); eauto; congruence.
    + eapply (Hthrow e w1 t c f Hp). by rewrite Erun.
  - destruct (from_option must_cancel false (tasks w2 !! k)).
    + unfold bind, update_task, modify. simpl. apply wf_finish_running.
      eapply (wf_alter_task (Some k) w2 _ _ k); [done|done| |done].
      intros tk0 Htk0. split_and!; [apply same_kind_refl|exact (wf_shape _ _ H2 _ _ Htk0)|done].
    + by apply wf_finish_running.
  - destruct e; by apply wf_finish_running.
Qed.

Lemma wf_call {A} (m : M A) s w : wf_but s (m w).1 → wf_but s (call m w).
Proof.
  unfold call. destruct (m w) as [w' [a|e]]; simpl; [done|].
  intros H. eapply wf_same; [..|exact H]; done.
Qed.

Lemma wf_run_handle cb w : wf (run_callback cb w).1 → wf (run_handle cb w).
Proof.
  unfold run_handle. destruct (run_callback cb w) as [w' [a|e]]; simpl; [done|].
  intros H. eapply wf_same; [..|exact H]; done.
Qed.

Lemma wf_init_world : wf init.
Proof. split; intros *; simpl; by rewrite ?lookup_nil. Qed.

Theorem step_wf a w : wf w → wf (step a w).
Proof.
  intros Hwf. destruct a as [pt|a|t data|t|t p|t| |k st]; simpl.
  - apply wf_call. eapply wf_same; [..|exact Hwf]; done.
  - apply wf_call. simpl. eapply (wf_new_tasks None w); [..|exact Hwf]; simpl; [done|done|].
    by repeat constructor.
  - apply wf_call. unfold the_transport, bind at 1.
    destruct (transports w !! t); [|done].
    unfold bind, emit, modify. simpl. apply wf_put_nowait.
    eapply wf_same; [..|exact Hwf]; done.
  - apply wf_call. by apply wf_cleanup.
  - apply wf_call. unfold set_protocol, update_transport, modify. simpl.
    destruct (transports w !! t) as [tr|] eqn:Htr.
    + eapply (wf_set_transport None w _ t tr); [done|simpl; by erewrite alter_to_insert|done|..|done];
        simpl; try done.
      * by eapply wf_unbounded.
      * intros Hc. destruct (wf_open _ _ Hwf _ _ Htr Hc) as (?&?&?&?). eauto.
      * by left.
    + eapply wf_same; [..|exact Hwf]; simpl; [done|]. by apply alter_None.
  - apply wf_call. by apply wf_cleanup.
  - destruct (ready w) as [|cb rest] eqn:Hr; [done|].
    apply wf_run_handle.
    assert (H0 : wf (with_ready rest w)) by (eapply wf_same; [..|exact Hwf]; done).
    destruct cb as [k|p t|t p e|k]; simpl.
    + by apply wf_task_step.
    + eapply wf_same; [..|exact H0]; done.
    + eapply wf_same; [..|exact H0]; done.
    + unfold remove_closing_task, bind, gets. simpl. case_bool_decide; simpl;
        (eapply wf_same; [..|exact H0]; done).
  - apply wf_call. by apply wf_settle.
Qed.

Lemma run_snoc sched a w : run (sched ++ [a]) w = step a (run sched w).
Proof. unfold run. by rewrite foldl_app. Qed.

Lemma run_app s1 s2 w : run (s1 ++ s2) w = run s2 (run s1 w).
Proof. unfold run. by rewrite foldl_app. Qed.

Theorem run_wf sched w : wf w → wf (run sched w).
Proof.
  revert w. induction sched as [|a sched IH]; intros w Hwf; [done|].
  simpl. apply IH. by apply step_wf.
Qed.

Corollary reachable_wf sched : wf (run sched init).
Proof. apply run_wf, wf_init_world. Qed.


(** ** The events each piece of code records *)

Lemma emits_refl P w : emits P w w.
Proof. exists []. by rewrite app_nil_r. Qed.

Lemma emits_same P w w' : trace w' = trace w → emits P w w'.
Proof. intros H. exists []. by rewrite app_nil_r. Qed.

Lemma emits_trans P w1 w2 w3 : emits P w1 w2 → emits P w2 w3 → emits P w1 w3.
Proof.
  intros (e1 & H1 & F1) (e2 & H2 & F2). exists (e1 ++ e2).
  rewrite H2, H1, app_assoc. split; [done|]. by apply Forall_app.
Qed.

Lemma emits_impl (P Q : event → Prop) w w' :
  (∀ ev, P ev → Q ev) → emits P w w' → emits Q w w'.
Proof. intros HPQ (evs & H & F). exists evs. split; [done|]. by eapply Forall_impl. Qed.

Lemma emits_one (P : event → Prop) w w' ev :
  trace w' = trace w ++ [ev] → P ev → emits P w w'.
Proof. intros H HP. exists [ev]. split; [done|]. by constructor. Qed.

Lemma cleanup_emits self e w : emits (cleanup_ev self) w (_cleanup self e w).1.
Proof.
  destruct (transports w !! self) as [tr|] eqn:Htr.
  2:{ unfold _cleanup, bind, update_transport, modify, the_transport. simpl.
      rewrite list_lookup_alter_eq, Htr. simpl. by apply emits_same. }
  rewrite (cleanup_unfold _ _ _ _ Htr).
  set (w1 := with_transports _ w).
  set (w2 := (cancel (_reader_task tr) w1).1).
  set (w3 := (cancel (_writer_task tr) w2).1).
  destruct (cancel_frame (_reader_task tr) w1) as (_&_&Ht2&Hc2&_&_).
  destruct (cancel_frame (_writer_task tr) w2) as (_&_&Ht3&Hc3&_&_).
  assert (H3 : transports w3 !! self = Some (set_is_closing true tr)).
  { unfold w3. rewrite Ht3. unfold w2. rewrite Ht2. unfold w1. simpl.
    by rewrite list_lookup_alter_eq, Htr. }
  destruct (cleanup_tail_spec self e _ w3 H3) as (X&reg_add&new&rdy&evs&res&->&_&Hev&_).
  cbn [fst]. exists evs. split; [|done]. simpl.
  unfold w3. rewrite Hc3. unfold w2. rewrite Hc2. done.
Qed.

Lemma put_nowait_trace self item w : trace (put_nowait self item w).1 = trace w.
Proof.
  unfold put_nowait, the_transport, bind.
  destruct (transports w !! self) as [tr|]; [|done].
  destruct (q_full _); [done|].
  unfold update_transport at 1, modify. simpl.
  unfold queue_wakeup_getters, the_transport, bind. simpl.
  destruct (alter _ self (transports w) !! self) as [tr'|]; [|done].
  match goal with |- context [wakeup_next ?g ?w0] =>
    destruct (wakeup_next_frame g w0) as (_ & Hc & _);
    destruct (wakeup_next g w0) as [rest w'] end.
  simpl in *. done.
Qed.

Lemma queue_wakeup_getters_trace self w : trace (queue_wakeup_getters self w).1 = trace w.
Proof.
  unfold queue_wakeup_getters, the_transport, bind.
  destruct (transports w !! self) as [tr|]; [|done].
  destruct (wakeup_next_frame (q_getters (_write_queue tr)) w) as (_ & Hc & _).
  destruct (wakeup_next _ w) as [rest w']. simpl in *. done.
Qed.

Lemma finish_task_trace k o w : trace (finish_task k o w).1 = trace w.
Proof. unfold finish_task. by destruct (tasks w !! k). Qed.

Lemma writer_failed_emits self e w : emits (cleanup_ev self) w (writer_failed self e w).1.
Proof.
  unfold writer_failed, bind. pose proof (cleanup_emits self (Some e) w) as H.
  by destruct (_cleanup self (Some e) w) as [w' [[]|x]].
Qed.

Lemma queue_get_interrupted_trace self me waited w :
  trace (queue_get_interrupted self me waited w).1 = trace w.
Proof.
  unfold queue_get_interrupted, bind, update_transport, modify. simpl.
  remember (with_transports _ w) as w1 eqn:Ew1.
  assert (H1 : trace w1 = trace w) by (by subst w1).
  clear Ew1. unfold the_transport. destruct (transports w1 !! self) as [tr|]; [|done].
  destruct (q_items (_write_queue tr)); [done|].
  destruct waited as [[[] [[]| ]|]|]; simpl; try done;
    by rewrite queue_wakeup_getters_trace.
Qed.

(** A writer that is resumed with an exception writes nothing. *)
Lemma writer_throw_emits self me pc waited e w :
  emits (cleanup_ev self) w (_writer_loop self me pc waited (Throw e) w).1.
Proof.
  destruct pc; simpl; try apply emits_refl.
  - unfold bind. pose proof (queue_get_interrupted_trace self me waited w) as H.
    destruct (queue_get_interrupted self me waited w) as [w' [[]|x]]; by apply emits_same.
  - unfold try_except, raise. destruct (is_Exception e); [|apply emits_refl].
    pose proof (writer_failed_emits self e w) as H.
    by destruct (writer_failed self e w) as [w' [y|x]].
Qed.

Lemma writer_iteration_emits self me w :
  emits (coro_ev (WriterLoop self WStart)) w (writer_iteration self me w).1.
Proof.
  unfold writer_iteration, queue_get, the_transport, bind.
  destruct (transports w !! self) as [tr|] eqn:Htr; [|apply emits_refl].
  destruct (q_items (_write_queue tr)) as [|item rest] eqn:Hq.
  - by apply emits_same.
  - unfold update_transport, modify, ret. simpl.
    remember (with_transports _ w) as w1 eqn:Ew1.
    assert (H1 : trace w1 = trace w) by (by subst w1).
    clear Ew1. unfold try_except, js_write, the_transport, bind.
    assert (Hf : emits (coro_ev (WriterLoop self WStart)) w
                   (writer_failed self AttributeError w1).1).
    { eapply emits_trans; [by apply emits_same|].
      eapply emits_impl; [|apply writer_failed_emits]. intros ev H. by right. }
    destruct (transports w1 !! self) as [tr1|]; simpl.
    + destruct (_js_writer tr1); simpl.
      * eapply emits_one; [simpl; by rewrite H1|]. left. eauto.
      * by destruct (writer_failed self AttributeError w1) as [w2 [y|x]].
    + by destruct (writer_failed self AttributeError w1) as [w2 [y|x]].
Qed.

Lemma await_closing_tasks_emits stack w :
  emits (λ ev, ∃ m, ev = EvLog WARNING m) w (await_closing_tasks stack w).1.
Proof.
  revert w. induction stack as [|k below IH]; intros w; simpl; [apply emits_refl|].
  unfold bind, emit, modify, gets. simpl.
  match goal with |- context [with_closing_tasks ?l ?w0] => set (w1 := with_closing_tasks l w0) end.
  assert (H1 : emits (λ ev, ∃ m, ev = EvLog WARNING m) w w1).
  { eapply emits_one; [done|]. eauto. }
  destruct (tasks w !! k) as [tk|] eqn:E; simpl; [|done].
  destruct (task_state tk) as [[v|e|]|]; simpl; try done.
  eapply emits_trans; [exact H1|apply IH].
Qed.

Lemma init_emits protocol sp w :
  emits (λ ev, ∃ t, ev = EvGetReader t ∨ ev = EvGetWriter t) w (__init__ protocol sp w).1.
Proof.
  destruct sp; [|apply emits_refl]. simpl.
  exists [EvGetReader (length (transports w)); EvGetWriter (length (transports w))].
  split; [simpl; by rewrite <-app_assoc|]. repeat constructor; eauto.
Qed.

Lemma run_coro_emits me c waited r w : emits (coro_ev c) w (run_coro me c waited r w).1.
Proof.
  destruct c as [self pc|self pc|owner pt pc|a pc]; simpl.
  - destruct r as [v|e].
    + destruct pc; simpl; apply writer_iteration_emits.
    + eapply emits_impl; [|apply writer_throw_emits]. intros ev H. by right.
  - assert (Hread : ∀ w0, emits (coro_ev (ReaderLoop self pc)) w w0 →
                          emits (coro_ev (ReaderLoop self pc)) w (js_read self w0).1).
    { intros w0 H0. eapply emits_trans; [exact H0|].
      unfold js_read, the_transport, bind.
      destruct (transports w0 !! self) as [tr|]; [|apply emits_refl].
      destruct (_js_reader tr); [|apply emits_refl].
      eapply emits_one; [done|]. by left. }
    destruct pc, r as [v|e]; simpl; try apply emits_refl;
      try (by apply Hread, emits_refl).
    destruct v as [|dn val|]; simpl; try apply emits_refl.
    destruct dn; unfold bind.
    { pose proof (cleanup_emits self (Some (RuntimeError "Other side has closed")) w) as H.
      assert (H' : emits (coro_ev (ReaderLoop self RRead)) w
                     (_cleanup self (Some (RuntimeError "Other side has closed")) w).1).
      { eapply emits_impl; [|exact H]. intros ev Hev. right. by right. }
      destruct (_cleanup self _ w) as [w' [[]|x]]; simpl in *; exact H'. }
    assert (Hd : emits (coro_ev (ReaderLoop self RRead)) w (data_received self val w).1).
    { unfold data_received, the_transport, bind.
      destruct (transports w !! self) as [tr|]; [|apply emits_refl].
      destruct (_protocol tr); [|apply emits_refl].
      eapply emits_one; [done|]. right. left. eauto. }
    destruct (data_received self val w) as [w' [[]|x]]; simpl in *; [|done].
    by apply Hread.
  - destruct pc, r; simpl; try apply emits_refl.
    + exists [EvLog DEBUG "Closing serial port"; EvPortClose owner pt].
      split; [simpl; by rewrite <-app_assoc|].
      constructor; [left; eauto|]. constructor; [by right|constructor].
    + eapply emits_one; [done|]. left. eauto.
  - assert (Hw : emits (coro_ev (CreateConn a pc)) w (wait_then_open a w).1).
    { unfold wait_then_open, bind, gets.
      pose proof (await_closing_tasks_emits (reverse (_SERIAL_PORT_CLOSING_TASKS w)) w) as H.
      assert (H' : emits (coro_ev (CreateConn a pc)) w
                     (await_closing_tasks (reverse (_SERIAL_PORT_CLOSING_TASKS w)) w).1).
      { eapply emits_impl; [|exact H]. intros ev Hev. by left. }
      destruct (await_closing_tasks _ w) as [w' [[k|]|e]]; simpl in *; try done.
      eapply emits_trans; [exact H'|].
      unfold open_serial_port, bind, gets, emit, modify, ret, raise.
      destruct (_SERIAL_PORT w'); simpl; [|apply emits_refl].
      eapply emits_one; [done|]. right. left. eauto. }
    destruct pc, r; simpl; try done; try apply emits_refl.
    unfold bind, gets.
    pose proof (init_emits (protocol_factory a) (_SERIAL_PORT w) w) as H.
    assert (H' : emits (coro_ev (CreateConn a KOpen)) w
                   (__init__ (protocol_factory a) (_SERIAL_PORT w) w).1).
    { eapply emits_impl; [|exact H]. intros ev Hev. right. by right. }
    by destruct (__init__ _ _ w) as [w' [x|e]].
Qed.

Lemma suspend_task_trace k c f w : trace (suspend_task k c f w).1 = trace w.
Proof.
  unfold suspend_task, bind, update_task at 1, modify. simpl.
  remember (with_tasks _ w) as w1 eqn:E1.
  assert (Hc1 : trace w1 = trace w) by (by subst w1). clear E1.
  destruct f as [kind st|j].
  - unfold ret, gets. simpl.
    destruct (from_option must_cancel false (tasks w1 !! k)); [|done].
    by destruct st.
  - destruct (add_done_callback_frame j (CbStep k) w1) as (_ & Hc & _).
    destruct (add_done_callback j (CbStep k) w1) as [w2 [[]|x]]; simpl in *; [|congruence].
    unfold gets. simpl.
    destruct (from_option must_cancel false (tasks w2 !! k)); simpl; congruence.
Qed.

(** The events of a step of task [k] are those of a step of its coroutine. *)
Lemma task_step_emits k w tk :
  tasks w !! k = Some tk → emits (coro_ev (task_coro tk)) w (task_step k w).1.
Proof.
  intros Hk. unfold task_step. rewrite Hk.
  destruct (task_done tk); [apply emits_refl|].
  destruct (resume_value w tk) as [r|]; [|apply emits_refl].
  remember (with_tasks _ w) as w1 eqn:E1.
  assert (Hc1 : trace w1 = trace w) by (by subst w1). clear E1.
  pose proof (run_coro_emits k (task_coro tk) (fut_waiter tk) r w1) as H.
  destruct (run_coro k (task_coro tk) (fut_waiter tk) r w1) as [w2 res]. simpl in *.
  assert (H' : emits (coro_ev (task_coro tk)) w w2).
  { eapply emits_trans; [by apply emits_same|exact H]. }
  destruct res as [[c f|v]|e].
  - eapply emits_trans; [exact H'|]. apply emits_same, suspend_task_trace.
  - destruct (from_option must_cancel false (tasks w2 !! k)).
    + eapply emits_trans; [exact H'|]. apply emits_same.
      unfold bind, update_task, modify. simpl. by rewrite finish_task_trace.
    + eapply emits_trans; [exact H'|]. apply emits_same, finish_task_trace.
  - destruct e; (eapply emits_trans; [exact H'|]); apply emits_same, finish_task_trace.
Qed.

Lemma task_step_missing k w : tasks w !! k = None → task_step k w = (w, Ok tt).
Proof. intros Hk. unfold task_step. by rewrite Hk. Qed.


(** ** Transports stay, and stay closing *)

Lemma tr_mono_refl w : tr_mono w w.
Proof. intros t tr Ht. eauto. Qed.

Lemma tr_mono_trans w1 w2 w3 : tr_mono w1 w2 → tr_mono w2 w3 → tr_mono w1 w3.
Proof.
  intros H12 H23 t tr Ht. destruct (H12 _ _ Ht) as (tr2 & Ht2 & ? & ? & ?).
  destruct (H23 _ _ Ht2) as (tr3 & Ht3 & ? & ? & ?). exists tr3.
  split_and!; [done|congruence|congruence|auto].
Qed.

Lemma tr_mono_same w w' : transports w' = transports w → tr_mono w w'.
Proof. intros H t tr Ht. rewrite H. eauto. Qed.

Lemma tr_mono_alter w w' f t :
  transports w' = alter f t (transports w) →
  (∀ tr, _reader_task (f tr) = _reader_task tr ∧ _writer_task (f tr) = _writer_task tr
         ∧ (_is_closing tr = true → _is_closing (f tr) = true)) →
  tr_mono w w'.
Proof.
  intros H Hf t' tr Ht. rewrite H, list_lookup_alter. case_decide; subst.
  - rewrite Ht. simpl. eexists. split; [done|]. apply Hf.
  - eauto.
Qed.

Lemma tr_mono_app w w' new : transports w' = transports w ++ new → tr_mono w w'.
Proof.
  intros H t tr Ht. rewrite H. exists tr. split; [by apply lookup_app_l_Some|done].
Qed.

Lemma tr_mono_cleanup self e w : tr_mono w (_cleanup self e w).1.
Proof.
  destruct (transports w !! self) as [tr|] eqn:Htr.
  2:{ unfold _cleanup, bind, update_transport, modify, the_transport. simpl.
      rewrite list_lookup_alter_eq, Htr. simpl. apply tr_mono_same. simpl.
      by apply alter_None. }
  rewrite (cleanup_unfold _ _ _ _ Htr).
  set (w1 := with_transports _ w).
  set (w2 := (cancel (_reader_task tr) w1).1).
  set (w3 := (cancel (_writer_task tr) w2).1).
  destruct (cancel_frame (_reader_task tr) w1) as (_&_&Ht2&_&_&_).
  destruct (cancel_frame (_writer_task tr) w2) as (_&_&Ht3&_&_&_).
  assert (H3 : transports w3 !! self = Some (set_is_closing true tr)).
  { unfold w3. rewrite Ht3. unfold w2. rewrite Ht2. unfold w1. simpl.
    by rewrite list_lookup_alter_eq, Htr. }
  destruct (cleanup_tail_spec self e _ w3 H3) as (X&reg_add&new&rdy&evs&res&->&Hc&_).
  cbn [fst]. destruct Hc as (Hq & Hcl & Hr & Hw). simpl in *.
  intros t tr0 Ht0. cbn [transports]. destruct (decide (t = self)) as [->|Hne].
  - rewrite list_lookup_insert_eq by (by eapply lookup_lt_Some).
    assert (tr0 = tr) as -> by congruence. exists X. split_and!; try done.
  - rewrite list_lookup_insert_ne by done.
    unfold w3. rewrite Ht3. unfold w2. rewrite Ht2. unfold w1. simpl.
    rewrite list_lookup_alter_ne by done. eauto.
Qed.

Lemma queue_wakeup_getters_tr_mono self w : tr_mono w (queue_wakeup_getters self w).1.
Proof.
  unfold queue_wakeup_getters, the_transport, bind.
  destruct (transports w !! self) as [tr|]; [|apply tr_mono_refl].
  destruct (wakeup_next_frame (q_getters (_write_queue tr)) w) as (Ht & _).
  destruct (wakeup_next _ w) as [rest w']. simpl in *.
  eapply tr_mono_alter; [simpl; by rewrite Ht|]. done.
Qed.

Lemma put_nowait_tr_mono self item w : tr_mono w (put_nowait self item w).1.
Proof.
  unfold put_nowait, the_transport, bind.
  destruct (transports w !! self) as [tr|]; [|apply tr_mono_refl].
  destruct (q_full _); [apply tr_mono_refl|].
  unfold update_transport at 1, modify. simpl.
  eapply tr_mono_trans; [|apply queue_wakeup_getters_tr_mono].
  by eapply tr_mono_alter.
Qed.

Lemma init_tr_mono protocol sp w : tr_mono w (__init__ protocol sp w).1.
Proof. destruct sp; [|apply tr_mono_refl]. simpl. by eapply tr_mono_app. Qed.

Lemma writer_failed_tr_mono self e w : tr_mono w (writer_failed self e w).1.
Proof.
  unfold writer_failed, bind. pose proof (tr_mono_cleanup self (Some e) w) as H.
  by destruct (_cleanup self (Some e) w) as [w' [[]|x]].
Qed.

Lemma writer_iteration_tr_mono self me w : tr_mono w (writer_iteration self me w).1.
Proof.
  unfold writer_iteration, queue_get, the_transport, bind.
  destruct (transports w !! self) as [tr|] eqn:Htr; [|apply tr_mono_refl].
  destruct (q_items (_write_queue tr)) as [|item rest] eqn:Hq.
  - by eapply tr_mono_alter.
  - unfold update_transport, modify, ret. simpl.
    remember (with_transports _ w) as w1 eqn:Ew1.
    assert (H1 : tr_mono w w1) by (subst w1; by eapply tr_mono_alter).
    clear Ew1. unfold try_except, js_write, the_transport, bind.
    pose proof (writer_failed_tr_mono self AttributeError w1) as H2.
    destruct (transports w1 !! self) as [tr1|]; simpl.
    + destruct (_js_writer tr1); simpl.
      * eapply tr_mono_trans; [exact H1|]. by apply tr_mono_same.
      * destruct (writer_failed self AttributeError w1) as [w2 r2]. simpl in *.
        eapply tr_mono_trans; [exact H1|]. by destruct r2.
    + destruct (writer_failed self AttributeError w1) as [w2 r2]. simpl in *.
      eapply tr_mono_trans; [exact H1|]. by destruct r2.
Qed.

Lemma queue_get_interrupted_tr_mono self me waited w :
  tr_mono w (queue_get_interrupted self me waited w).1.
Proof.
  unfold queue_get_interrupted, bind, update_transport, modify. simpl.
  remember (with_transports _ w) as w1 eqn:Ew1.
  assert (H1 : tr_mono w w1) by (subst w1; by eapply tr_mono_alter).
  clear Ew1. unfold the_transport. destruct (transports w1 !! self) as [tr|]; [|done].
  destruct (q_items (_write_queue tr)); [done|].
  destruct waited as [[[] [[]| ]|]|]; simpl; try done;
    (eapply tr_mono_trans; [exact H1|apply queue_wakeup_getters_tr_mono]).
Qed.

Lemma run_coro_tr_mono me c waited r w : tr_mono w (run_coro me c waited r w).1.
Proof.
  destruct c as [self pc|self pc|owner pt pc|a pc]; simpl.
  - destruct pc, r as [v|e]; simpl; try apply tr_mono_refl;
      try apply writer_iteration_tr_mono.
    + unfold bind. pose proof (queue_get_interrupted_tr_mono self me waited w) as H.
      by destruct (queue_get_interrupted self me waited w) as [w' [[]|x]].
    + unfold try_except, raise. destruct (is_Exception e); [|apply tr_mono_refl].
      pose proof (writer_failed_tr_mono self e w) as H.
      by destruct (writer_failed self e w) as [w' [y|x]].
  - assert (Hread : ∀ w0, tr_mono w w0 → tr_mono w (js_read self w0).1).
    { intros w0 H0. eapply tr_mono_trans; [exact H0|].
      apply tr_mono_same. apply js_read_frame. }
    destruct pc, r as [v|e]; simpl; try apply tr_mono_refl;
      try (by apply Hread, tr_mono_refl).
    destruct v as [|dn val|]; simpl; try apply tr_mono_refl.
    destruct dn; unfold bind.
    { pose proof (tr_mono_cleanup self (Some (RuntimeError "Other side has closed")) w) as H.
      by destruct (_cleanup self _ w) as [w' [[]|x]]. }
    destruct (data_received_frame self val w) as [_ Ht].
    destruct (data_received self val w) as [w' [[]|x]]; simpl in *.
    + apply Hread. by apply tr_mono_same.
    + by apply tr_mono_same.
  - apply tr_mono_same. destruct pc, r; done.
  - assert (Hw : tr_mono w (wait_then_open a w).1).
    { unfold wait_then_open, bind, gets.
      destruct (await_closing_tasks_frame (reverse (_SERIAL_PORT_CLOSING_TASKS w)) w)
        as (_ & Ht & _).
      destruct (await_closing_tasks _ w) as [w' [[k|]|e]]; simpl in *;
        try (by apply tr_mono_same).
      unfold open_serial_port, bind, gets, emit, modify, ret, raise.
      destruct (_SERIAL_PORT w'); simpl; by apply tr_mono_same. }
    destruct pc, r; simpl; try done; try apply tr_mono_refl.
    unfold bind, gets.
    pose proof (init_tr_mono (protocol_factory a) (_SERIAL_PORT w) w).
    by destruct (__init__ _ _ w) as [w' [x|e]].
Qed.

Lemma task_step_tr_mono k w : tr_mono w (task_step k w).1.
Proof.
  unfold task_step. destruct (tasks w !! k) as [tk|] eqn:Hk; [|apply tr_mono_refl].
  destruct (task_done tk); [apply tr_mono_refl|].
  destruct (resume_value w tk) as [r|]; [|apply tr_mono_refl].
  remember (with_tasks _ w) as w1 eqn:E1.
  assert (H1 : tr_mono w w1) by (subst w1; by apply tr_mono_same).
  assert (Hk1 : is_Some (tasks w1 !! k)).
  { subst w1. simpl. rewrite list_lookup_alter_eq, Hk. by eexists. }
  clear E1.
  pose proof (run_coro_tr_mono k (task_coro tk) (fut_waiter tk) r w1) as H.
  pose proof (persist_run_coro k (task_coro tk) (fut_waiter tk) r w1) as Hp.
  destruct (run_coro k (task_coro tk) (fut_waiter tk) r w1) as [w2 res]. simpl in *.
  assert (H' : tr_mono w w2) by (by eapply tr_mono_trans).
  destruct Hk1 as [tk1 Hk1]. destruct (Hp _ _ Hk1) as (tk2 & Hk2 & _).
  destruct res as [[c f|v]|e].
  - eapply tr_mono_trans; [exact H'|]. apply tr_mono_same.
    by destruct (suspend_task_frame k c f w2 tk2 Hk2) as (? & _).
  - destruct (from_option must_cancel false (tasks w2 !! k)).
    + eapply tr_mono_trans; [exact H'|]. apply tr_mono_same.
      unfold bind, update_task, modify. simpl. by rewrite finish_task_transports.
    + eapply tr_mono_trans; [exact H'|]. apply tr_mono_same, finish_task_transports.
  - destruct e; (eapply tr_mono_trans; [exact H'|]);
      apply tr_mono_same, finish_task_transports.
Qed.

Lemma call_tr_mono {A} (m : M A) w : tr_mono w (m w).1 → tr_mono w (call m w).
Proof.
  unfold call. destruct (m w) as [w' [a|e]]; simpl; [done|].
  intros H. eapply tr_mono_trans; [exact H|]. by apply tr_mono_same.
Qed.

Theorem step_tr_mono a w : tr_mono w (step a w).
Proof.
  destruct a as [pt|a|t data|t|t p|t| |k st]; simpl.
  - apply call_tr_mono. by apply tr_mono_same.
  - apply call_tr_mono. by apply tr_mono_same.
  - apply call_tr_mono. unfold the_transport, bind at 1.
    destruct (transports w !! t); [|apply tr_mono_refl].
    unfold bind, emit, modify. simpl.
    eapply tr_mono_trans; [|apply put_nowait_tr_mono]. by apply tr_mono_same.
  - apply call_tr_mono, tr_mono_cleanup.
  - apply call_tr_mono. by eapply tr_mono_alter.
  - apply call_tr_mono, tr_mono_cleanup.
  - destruct (ready w) as [|cb rest] eqn:Hr; [apply tr_mono_refl|].
    unfold run_handle.
    assert (H : tr_mono w (run_callback cb (with_ready rest w)).1).
    { destruct cb as [k|p t|t p e|k]; simpl.
      - eapply tr_mono_trans; [|apply task_step_tr_mono]. by apply tr_mono_same.
      - by apply tr_mono_same.
      - by apply tr_mono_same.
      - unfold remove_closing_task, bind, gets. simpl.
        case_bool_decide; by apply tr_mono_same. }
    destruct (run_callback cb (with_ready rest w)) as [w' [[]|e]]; simpl in *; [done|].
    eapply tr_mono_trans; [exact H|]. by apply tr_mono_same.
  - apply call_tr_mono. unfold settle.
    destruct (tasks w !! k) as [[c [[[] [o|]|j]|] mc [o'|] cbs]|]; simpl;
      by apply tr_mono_same.
Qed.

Theorem run_tr_mono sched w : tr_mono w (run sched w).
Proof.
  revert w. induction sched as [|a sched IH]; intros w; [apply tr_mono_refl|].
  simpl. eapply tr_mono_trans; [apply step_tr_mono|apply IH].
Qed.


(** ** No pump activity after shutdown *)

Lemma written_app t l1 l2 : written t (l1 ++ l2) = written t l1 ++ written t l2.
Proof. unfold written. by rewrite omap_app. Qed.

Lemma delivered_app t l1 l2 : delivered t (l1 ++ l2) = delivered t l1 ++ delivered t l2.
Proof. unfold delivered. by rewrite omap_app. Qed.

Lemma reads_app t l1 l2 : reads t (l1 ++ l2) = reads t l1 + reads t l2.
Proof. unfold reads. apply count_events_app. Qed.

Lemma quiet_silent t evs :
  Forall (quiet t) evs → written t evs = [] ∧ delivered t evs = [] ∧ reads t evs = 0.
Proof.
  induction 1 as [|ev evs Hev _ (IH1 & IH2 & IH3)]; [done|].
  change (written t (ev :: evs)) with
    (match (match ev with
            | EvWrite t' d => if decide (t' = t) then Some d else None
            | _ => None
            end) with Some d => d :: written t evs | None => written t evs end).
  change (delivered t (ev :: evs)) with
    (match (match ev with
            | EvDataReceived t' _ d => if decide (t' = t) then Some d else None
            | _ => None
            end) with Some d => d :: delivered t evs | None => delivered t evs end).
  unfold reads, count_events in *. rewrite filter_cons.
  rewrite IH1, IH2. destruct ev; simpl in *; try done.
  - case_decide as Hd; [|done]. by apply bool_decide_unpack in Hd.
  - split; [|done]. by case_decide.
  - split; [done|]. split; [|done]. by case_decide.
Qed.

Lemma emits_written t w w' :
  emits (quiet t) w w' → written t (trace w') = written t (trace w).
Proof.
  intros (evs & -> & H). destruct (quiet_silent t evs H) as (E & _ & _).
  rewrite written_app, E. apply app_nil_r.
Qed.

Lemma emits_delivered t w w' :
  emits (quiet t) w w' → delivered t (trace w') = delivered t (trace w).
Proof.
  intros (evs & -> & H). destruct (quiet_silent t evs H) as (_ & E & _).
  rewrite delivered_app, E. apply app_nil_r.
Qed.

Lemma emits_reads t w w' :
  emits (quiet t) w w' → reads t (trace w') = reads t (trace w).
Proof.
  intros (evs & -> & H). destruct (quiet_silent t evs H) as (_ & _ & E).
  rewrite reads_app, E. lia.
Qed.

Lemma cleanup_ev_quiet self t ev : cleanup_ev self ev → quiet t ev.
Proof. by intros []. Qed.

Lemma doomed_resume w tk :
  task_state tk = None → doomed tk →
  resume_value w tk = Some (Throw CancelledError).
Proof.
  intros Hst [[? Hd]|[Hd|[kind Hd]]]; [congruence| |]; unfold resume_value.
  - by rewrite Hd.
  - rewrite Hd. by destruct (must_cancel tk).
Qed.

Lemma pump_throw_emits me c waited e w t :
  pump_of c = Some t → emits (cleanup_ev t) w (run_coro me c waited (Throw e) w).1.
Proof.
  destruct c as [self pc|self pc|owner pt pc|a pc]; simpl; try done; intros [= <-].
  - apply writer_throw_emits.
  - destruct pc; apply emits_refl.
Qed.

(** The step of a doomed pump records nothing but what a shutdown records. *)
Lemma doomed_pump_step_emits k w tk t :
  tasks w !! k = Some tk → pump_of (task_coro tk) = Some t → doomed tk →
  emits (cleanup_ev t) w (task_step k w).1.
Proof.
  intros Hk Hc Hd. unfold task_step. rewrite Hk.
  destruct (task_done tk) eqn:Hdone; [apply emits_refl|].
  assert (Hst : task_state tk = None).
  { unfold task_done in Hdone. apply bool_decide_eq_false in Hdone.
    destruct (task_state tk); [|done]. exfalso. apply Hdone. by eexists. }
  rewrite (doomed_resume w tk Hst Hd).
  remember (with_tasks _ w) as w1 eqn:E1.
  assert (Hc1 : trace w1 = trace w) by (by subst w1). clear E1.
  pose proof (pump_throw_emits k (task_coro tk) (fut_waiter tk) CancelledError w1 t Hc) as H.
  destruct (run_coro k (task_coro tk) (fut_waiter tk) (Throw CancelledError) w1) as [w2 res].
  simpl in *.
  assert (H' : emits (cleanup_ev t) w w2).
  { eapply emits_trans; [by apply emits_same|exact H]. }
  destruct res as [[c f|v]|e].
  - eapply emits_trans; [exact H'|]. apply emits_same, suspend_task_trace.
  - destruct (from_option must_cancel false (tasks w2 !! k)).
    + eapply emits_trans; [exact H'|]. apply emits_same.
      unfold bind, update_task, modify. simpl. by rewrite finish_task_trace.
    + eapply emits_trans; [exact H'|]. apply emits_same, finish_task_trace.
  - destruct e; (eapply emits_trans; [exact H'|]); apply emits_same, finish_task_trace.
Qed.

Lemma call_emits {A} (P : event → Prop) (m : M A) w :
  (∀ e, P (EvUncaught e)) → emits P w (m w).1 → emits P w (call m w).
Proof.
  intros HP H. unfold call. destruct (m w) as [w' [a|e]]; simpl in *; [done|].
  eapply emits_trans; [exact H|]. eapply emits_one; [done|apply HP].
Qed.

(** Once transport [t] is closing, no action makes a pump of [t] act. *)
Lemma step_quiet_when_closing a w t tr :
  wf w → transports w !! t = Some tr → _is_closing tr = true →
  emits (quiet t) w (step a w).
Proof.
  intros Hwf Ht Hcl.
  destruct a as [pt|a|t' data|t'|t' p|t'| |k st]; simpl.
  - apply call_emits; [done|]. by apply emits_same.
  - apply call_emits; [done|]. by apply emits_same.
  - apply call_emits; [done|]. unfold the_transport, bind at 1.
    destruct (transports w !! t'); [|apply emits_refl].
    unfold bind, emit, modify. simpl.
    eapply (emits_trans _ _ (with_trace (trace w ++ [EvSubmit t' data]) w));
      [eapply emits_one; [done|done]|].
    apply emits_same, put_nowait_trace.
  - apply call_emits; [done|].
    eapply emits_impl; [|apply cleanup_emits]. apply cleanup_ev_quiet.
  - apply call_emits; [done|]. by apply emits_same.
  - apply call_emits; [done|].
    eapply emits_impl; [|apply cleanup_emits]. apply cleanup_ev_quiet.
  - destruct (ready w) as [|cb rest] eqn:Hr; [apply emits_refl|].
    unfold run_handle.
    assert (H : emits (quiet t) w (run_callback cb (with_ready rest w)).1).
    { destruct cb as [k|p t'|t' p e|k]; simpl.
      - eapply emits_trans; [by apply (emits_same _ w (with_ready rest w))|].
        destruct (tasks w !! k) as [tk|] eqn:Hk.
        2:{ rewrite task_step_missing by done. apply emits_refl. }
        destruct (pump_of (task_coro tk)) as [t'|] eqn:Hp.
        + destruct (decide (t' = t)) as [->|Hne].
          * eapply emits_impl; [apply cleanup_ev_quiet|].
            eapply doomed_pump_step_emits; [done|done|].
            by eapply (wf_doom _ _ Hwf k tk t tr).
          * eapply emits_impl; [|by apply (task_step_emits k (with_ready rest w) tk)].
            destruct (task_coro tk) as [t0 pc|t0 pc| |]; simplify_eq/=.
            -- intros ev [[d ->]|Hev]; [done|]. by eapply cleanup_ev_quiet.
            -- intros ev [->|[(p&d&->)|Hev]]; try done. by eapply cleanup_ev_quiet.
        + eapply emits_impl; [|by apply (task_step_emits k (with_ready rest w) tk)].
          destruct (task_coro tk) as [t0 pc|t0 pc| |]; simplify_eq/=.
          * by intros ev [[m ->]| ->].
          * by intros ev [[m ->]|[[pt' ->]|[t' [-> | ->]]]].
      - by eapply emits_one.
      - by eapply emits_one.
      - unfold remove_closing_task, bind, gets. simpl.
        case_bool_decide; by apply emits_same. }
    destruct (run_callback cb (with_ready rest w)) as [w' [[]|e]]; simpl in *; [done|].
    eapply emits_trans; [exact H|]. by eapply emits_one.
  - apply call_emits; [done|]. unfold settle.
    destruct (tasks w !! k) as [[c [[[] [o|]|j]|] mc [o'|] cbs]|]; simpl;
      try apply emits_refl.
    eapply emits_one; [done|]. by destruct c.
Qed.

Theorem run_quiet_when_closing sched w t tr :
  wf w → transports w !! t = Some tr → _is_closing tr = true →
  emits (quiet t) w (run sched w).
Proof.
  revert w tr. induction sched as [|a sched IH]; intros w tr Hwf Ht Hcl; [apply emits_refl|].
  simpl. destruct (step_tr_mono a w t tr Ht) as (tr' & Ht' & _ & _ & Hcl').
  eapply emits_trans; [by eapply step_quiet_when_closing|].
  eapply IH; [by apply step_wf|done|by apply Hcl'].
Qed.

Theorem run_no_write_when_closing sched w t tr :
  wf w → transports w !! t = Some tr → _is_closing tr = true →
  written t (trace (run sched w)) = written t (trace w).
Proof.
  intros. apply emits_written. by eapply run_quiet_when_closing.
Qed.

(** [put_nowait] on an unbounded queue returns, with the item at the end of
    the queue. *)
Lemma put_nowait_ok self item w tr :
  transports w !! self = Some tr → q_maxsize (_write_queue tr) = 0 →
  ∃ w' tr',
    put_nowait self item w = (w', Ok tt)
    ∧ transports w' !! self = Some tr'
    ∧ q_items (_write_queue tr') = q_items (_write_queue tr) ++ [item]
    ∧ _is_closing tr' = _is_closing tr
    ∧ trace w' = trace w.
Proof.
  intros Htr Hmax. unfold put_nowait, the_transport, bind. rewrite Htr.
  unfold q_full. rewrite Hmax. simpl.
  unfold update_transport, modify. simpl.
  remember (with_transports _ w) as w1 eqn:E1.
  assert (H1 : transports w1 !! self
               = Some (set_write_queue
                         (set_q_items (q_items (_write_queue tr) ++ [item]) (_write_queue tr)) tr)).
  { subst w1. simpl. by rewrite list_lookup_alter_eq, Htr. }
  assert (Hc1 : trace w1 = trace w) by (by subst w1). clear E1.
  unfold queue_wakeup_getters, the_transport, bind. rewrite H1. simpl.
  match goal with |- context [wakeup_next ?g ?w0] =>
    destruct (wakeup_next_frame g w0) as (Ht & Hc & _);
    destruct (wakeup_next g w0) as [rest w2] end.
  simpl in *. unfold update_transport, modify. simpl.
  eexists _, _. split; [done|]. simpl.
  rewrite Ht, list_lookup_alter_eq, H1. simpl. split_and!; [done|done|done|congruence].
Qed.

(** C9.  In every state a run can reach, [write] on a transport returns
    without raising and leaves the chunk at the end of the outbound queue;
    it is synchronous, so it cannot block.  If shutdown has been initiated,
    the device sees no write of this transport from then on, whatever happens
    next: the chunk stays in the queue. *)
Theorem write_after_shutdown_is_never_written sched sched' t tr data :
  transports (run sched init) !! t = Some tr →
  ∃ w' tr',
    write t data (run sched init) = (w', Ok tt)
    ∧ transports w' !! t = Some tr'
    ∧ q_items (_write_queue tr') = q_items (_write_queue tr) ++ [data]
    ∧ (_is_closing tr = true →
         written t (trace (run (Call_write t data :: sched') (run sched init)))
         = written t (trace (run sched init))).
Proof.
  intros Htr. pose proof (reachable_wf sched) as Hwf.
  destruct (put_nowait_ok t data (run sched init) tr Htr (wf_unbounded _ _ Hwf _ _ Htr))
    as (w' & tr' & E & Ht' & Hq & Hcl & Hc).
  exists w', tr'. split_and!; try done.
  intros Hclosing. by eapply run_no_write_when_closing.
Qed.

Lemma write_after_shutdown_is_never_written_witness :
  ∃ tr, transports (run Scenario.close_to_end init) !! 0 = Some tr
        ∧ _is_closing tr = true
        ∧ ∃ w' tr',
            write 0 Scenario.A (run Scenario.close_to_end init) = (w', Ok tt)
            ∧ transports w' !! 0 = Some tr'
            ∧ q_items (_write_queue tr') = q_items (_write_queue tr) ++ [Scenario.A]
            ∧ (_is_closing tr = true →
                 written 0 (trace (run (Call_write 0 Scenario.A :: [RunOnce; RunOnce])
                                     (run Scenario.close_to_end init)))
                 = written 0 (trace (run Scenario.close_to_end init))).
Proof.
  eexists.
  assert (Hl : transports (run Scenario.close_to_end init) !! 0
               = Some (Transport None None (Queue 0 [] []) true None None 1 2))
    by (vm_compute; reflexivity).
  split; [exact Hl|]. split; [reflexivity|].
  exact (write_after_shutdown_is_never_written Scenario.close_to_end [RunOnce; RunOnce]
           0 _ Scenario.A Hl).
Defined.


(** ** The shutdown transition, either way *)

(** The part of [_cleanup] after the cancellations: either the releases
    return, or one of them raises and then only lock fields have changed. *)
Lemma cleanup_tail_cases self e tr w :
  transports w !! self = Some tr →
  releases_return tr
  ∨ ∃ X evs x,
      cleanup_tail self e tr w
      = (World (_SERIAL_PORT w) (_SERIAL_PORT_CLOSING_TASKS w) (tasks w)
           (<[self := X]> (transports w)) (ready w) (trace w ++ evs), Raise x)
      ∧ _protocol X = _protocol tr
      ∧ _port X = _port tr
      ∧ Forall (λ ev, ev = EvReleaseReader self ∨ ev = EvReleaseWriter self) evs.
Proof.
  intros Htr.
  destruct (_js_reader tr) as [lr|] eqn:Hjr;
    [destruct (releaseLock_raises lr) as [x|] eqn:Hlr|].
  - right. exists tr, [EvReleaseReader self], x.
    split; [|by repeat constructor; eauto].
    unfold cleanup_tail. rewrite Hjr.
    unfold bind, emit, modify, releaseLock. rewrite Hlr. simpl.
    destruct w; simpl in *. by rewrite list_insert_id.
  - destruct (_js_writer tr) as [lw|] eqn:Hjw;
      [destruct (releaseLock_raises lw) as [x|] eqn:Hlw|].
    + right. exists (set_js_reader None tr), [EvReleaseReader self; EvReleaseWriter self], x.
      split; [|by repeat constructor; eauto].
      unfold cleanup_tail. rewrite Hjr, Hjw.
      unfold bind, emit, modify, releaseLock, update_transport, ret. rewrite Hlr, Hlw. simpl.
      destruct w; simpl in *. rewrite <-app_assoc. simpl.
      by erewrite alter_to_insert.
    + left. split; intros l; rewrite ?Hjr, ?Hjw; by intros [= <-].
    + left. split; intros l; rewrite ?Hjr, ?Hjw; [by intros [= <-]|done].
  - destruct (_js_writer tr) as [lw|] eqn:Hjw;
      [destruct (releaseLock_raises lw) as [x|] eqn:Hlw|].
    + right. exists tr, [EvReleaseWriter self], x.
      split; [|by repeat constructor; eauto].
      unfold cleanup_tail. rewrite Hjr, Hjw.
      unfold bind, emit, modify, releaseLock, update_transport, ret. rewrite Hlw. simpl.
      destruct w; simpl in *. by rewrite list_insert_id.
    + left. split; intros l; rewrite ?Hjr, ?Hjw; [done|by intros [= <-]].
    + left. split; intros l; rewrite ?Hjr, ?Hjw; done.
Qed.

(** The tasks a shutdown adds: at most one, the detached close, holding
    the notification and the registry removal if there is a consumer. *)
Lemma cleanup_new_tasks self e w tr rk wk :
  transports w !! self = Some tr →
  tasks w !! _reader_task tr = Some rk → leaf rk →
  tasks w !! _writer_task tr = Some wk → leaf wk →
  _reader_task tr ≠ _writer_task tr →
  ∃ new,
    tasks (_cleanup self e w).1
    = alter cancel_request (_writer_task tr)
        (alter cancel_request (_reader_task tr) (tasks w)) ++ new
    ∧ Forall (λ tk, ∃ pt cbs, tk = Task (ClosePort self pt CStart) None false None cbs
                              ∧ Forall (shutdown_cb self) cbs) new.
Proof.
  intros Htr Hrk Hlr Hwk Hlw Hne.
  rewrite (cleanup_unfold _ _ _ _ Htr).
  set (w1 := with_transports _ w).
  rewrite (cancel_leaf _ w1 rk) by done. cbn [fst].
  set (w2 := with_ready _ _).
  rewrite (cancel_leaf _ w2 wk); [|by unfold w2; simpl; rewrite list_lookup_alter_ne|done].
  cbn [fst]. set (w3 := with_ready _ _).
  assert (H3 : transports w3 !! self = Some (set_is_closing true tr)).
  { unfold w3, w2, w1. simpl. by rewrite list_lookup_alter_eq, Htr. }
  destruct (cleanup_tail_cases self e _ w3 H3) as [Hrel|(X&evs&x&->&_)].
  - rewrite (cleanup_tail_ok _ _ _ _ H3 Hrel). simpl. eexists. split; [done|].
    unfold closing_task_of. simpl. destruct (_port tr) as [pt|]; [|constructor].
    repeat constructor. exists pt. eexists. split; [done|].
    destruct (_protocol tr) as [p|]; [|constructor].
    constructor; [left; eauto|]. constructor; [right; eauto|constructor].
  - exists []. simpl. by rewrite app_nil_r.
Qed.


(** ** Tasks are left alone by the steps of other tasks *)

Lemma nudge_fresh tk tk' : nudge tk tk' → fresh tk → fresh tk'.
Proof.
  intros [tk0 Hp|tk0 Hf _|tk0 k0 _] (Hfut & Hst & Hat & Hmc & Hcbs).
  - unfold cancel_request, task_done. rewrite Hst, Hfut. simpl.
    split_and!; try done. simpl. intros Hn. rewrite Hn in Hp. by destruct Hp.
  - congruence.
  - split_and!; try done. simpl. apply Forall_app. split; [done|].
    constructor; [left; eauto|constructor].
Qed.

Lemma nudged_fresh tk tk' : rtc nudge tk tk' → fresh tk → fresh tk'.
Proof. induction 1; eauto using nudge_fresh. Qed.

Lemma frame_refl s w : frame s w w.
Proof.
  split.
  - intros j tj _ Hj. eauto using rtc_refl.
  - intros j tj _ Hlen Hj. apply lookup_lt_Some in Hj. lia.
Qed.

Lemma frame_trans s w1 w2 w3 : frame s w1 w2 → frame s w2 w3 → frame s w1 w3.
Proof.
  intros [H12 F12] [H23 F23]. split.
  - intros j tj Hs Hj. destruct (H12 _ _ Hs Hj) as (t2 & Hj2 & R2).
    destruct (H23 _ _ Hs Hj2) as (t3 & Hj3 & R3). exists t3. split; [done|].
    by etrans.
  - intros j tj Hs Hlen Hj.
    destruct (tasks w2 !! j) as [t2|] eqn:Hj2.
    + destruct (H23 _ _ Hs Hj2) as (t3 & Hj3 & R3).
      assert (t3 = tj) as -> by congruence.
      eapply nudged_fresh; [exact R3|]. by eapply F12.
    + apply lookup_ge_None in Hj2. by eapply F23.
Qed.

Lemma frame_same s w w' : tasks w' = tasks w → frame s w w'.
Proof. intros Ht. unfold frame. rewrite Ht. apply frame_refl. Qed.

Lemma frame_app s w w' new :
  tasks w' = tasks w ++ new → Forall fresh new → frame s w w'.
Proof.
  intros Ht Hnew. split.
  - intros j tj _ Hj. rewrite Ht. exists tj.
    split; [by apply lookup_app_l_Some|apply rtc_refl].
  - intros j tj _ Hlen. rewrite Ht, lookup_app_r by done. intros Hj.
    eapply Forall_lookup_1; [exact Hnew|exact Hj].
Qed.

Lemma frame_alter s w w' f k :
  tasks w' = alter f k (tasks w) →
  (∀ tk, tasks w !! k = Some tk → s ≠ Some k → rtc nudge tk (f tk)) →
  frame s w w'.
Proof.
  intros Ht Hf. split.
  - intros j tj Hs Hj. rewrite Ht, list_lookup_alter. case_decide; subst.
    + rewrite Hj. simpl. eauto.
    + eauto using rtc_refl.
  - intros j tj _ Hlen. rewrite Ht. intros Hj. apply lookup_lt_Some in Hj.
    rewrite length_alter in Hj. lia.
Qed.

Lemma frame_weaken s w w' : frame None w w' → frame s w w'.
Proof.
  intros [H F]. split.
  - intros j tj _ Hj. by apply H.
  - intros j tj _ Hlen Hj. by eapply F.
Qed.

Lemma frame_cleanup s self e w : wf_but s w → frame None w (_cleanup self e w).1.
Proof.
  intros Hwf. destruct (transports w !! self) as [tr|] eqn:Htr.
  2:{ unfold _cleanup, bind, update_transport, modify, the_transport. simpl.
      rewrite list_lookup_alter_eq, Htr. simpl. by apply frame_same. }
  destruct (wf_pump_tasks _ _ _ _ Hwf Htr) as (rk&wk&Hrk&Hlr&Hwk&Hlw&Hne).
  destruct (wf_pumps _ _ Hwf _ _ Htr) as [(rk'&pc&Hrk'&Hrc) (wk'&pc'&Hwk'&Hwc)].
  assert (rk' = rk) as -> by congruence. assert (wk' = wk) as -> by congruence.
  destruct (cleanup_new_tasks self e w tr rk wk Htr Hrk Hlr Hwk Hlw Hne) as (new & Hts & Hnew).
  set (wa := with_tasks (alter cancel_request (_reader_task tr) (tasks w)) w).
  set (wb := with_tasks (alter cancel_request (_writer_task tr) (tasks wa)) wa).
  eapply (frame_trans None w wa); [|eapply (frame_trans None wa wb)].
  - eapply frame_alter; [done|]. intros tk Htk _. apply rtc_once, nudge_cancel.
    assert (tk = rk) as -> by congruence. rewrite Hrc. by eexists.
  - eapply frame_alter; [done|]. intros tk Htk _. apply rtc_once, nudge_cancel.
    unfold wa in Htk. simpl in Htk. rewrite list_lookup_alter_ne in Htk by done.
    assert (tk = wk) as -> by congruence. rewrite Hwc. by eexists.
  - eapply frame_app; [exact Hts|]. eapply Forall_impl; [exact Hnew|].
    intros tk (pt & cbs & -> & Hcbs). split_and!; try done. simpl.
    eapply Forall_impl; [exact Hcbs|]. intros cb Hcb. right. eauto.
Qed.

Lemma frame_wakeup_next getters w : frame None w (wakeup_next getters w).2.
Proof.
  induction getters as [|g rest IH]; simpl; [apply frame_refl|].
  destruct (tasks w !! g) as [[c [[[] [o|]|j]|] mc [o'|] cbs]|] eqn:E; simpl; try done.
  eapply frame_alter; [done|]. intros tk Htk _. rewrite E in Htk. simplify_eq.
  by apply rtc_once, nudge_wake.
Qed.

Lemma frame_queue_wakeup_getters self w : frame None w (queue_wakeup_getters self w).1.
Proof.
  unfold queue_wakeup_getters, the_transport, bind.
  destruct (transports w !! self) as [tr|]; [|apply frame_refl].
  pose proof (frame_wakeup_next (q_getters (_write_queue tr)) w) as H.
  destruct (wakeup_next _ w) as [rest w']. simpl in *.
  eapply frame_trans; [exact H|]. by apply frame_same.
Qed.

Lemma frame_put_nowait self item w : frame None w (put_nowait self item w).1.
Proof.
  unfold put_nowait, the_transport, bind.
  destruct (transports w !! self) as [tr|]; [|apply frame_refl].
  destruct (q_full _); [apply frame_refl|].
  unfold update_transport at 1, modify. simpl.
  eapply frame_trans; [|apply frame_queue_wakeup_getters]. by apply frame_same.
Qed.

Lemma frame_init protocol sp w : frame None w (__init__ protocol sp w).1.
Proof.
  destruct sp; [|apply frame_refl]. simpl.
  eapply frame_app; [simpl; by rewrite <-app_assoc|]. by repeat constructor.
Qed.

Lemma frame_writer_failed s self e w :
  wf_but s w → frame None w (writer_failed self e w).1.
Proof.
  intros Hwf. unfold writer_failed, bind. pose proof (frame_cleanup s self (Some e) w Hwf) as H.
  by destruct (_cleanup self (Some e) w) as [w' [[]|x]].
Qed.

Lemma frame_writer_iteration s self me w :
  wf_but s w → frame None w (writer_iteration self me w).1.
Proof.
  intros Hwf. unfold writer_iteration, queue_get, the_transport, bind.
  destruct (transports w !! self) as [tr|] eqn:Htr; [|apply frame_refl].
  destruct (q_items (_write_queue tr)) as [|item rest] eqn:Hq.
  - by apply frame_same.
  - unfold update_transport, modify, ret. simpl.
    remember (with_transports _ w) as w1 eqn:Ew1.
    assert (H1 : frame None w w1) by (subst w1; by apply frame_same).
    assert (Hwf1 : wf_but s w1).
    { subst w1. by apply (wf_update_queue s w self (λ q, set_q_items (tail (q_items q)) q)). }
    clear Ew1. unfold try_except, js_write, the_transport, bind.
    pose proof (frame_writer_failed s self AttributeError w1 Hwf1) as H2.
    destruct (transports w1 !! self) as [tr1|]; simpl.
    + destruct (_js_writer tr1); simpl.
      * eapply frame_trans; [exact H1|]. by apply frame_same.
      * destruct (writer_failed self AttributeError w1) as [w2 r2]. simpl in *.
        eapply frame_trans; [exact H1|]. by destruct r2.
    + destruct (writer_failed self AttributeError w1) as [w2 r2]. simpl in *.
      eapply frame_trans; [exact H1|]. by destruct r2.
Qed.

Lemma frame_queue_get_interrupted self me waited w :
  frame None w (queue_get_interrupted self me waited w).1.
Proof.
  unfold queue_get_interrupted, bind, update_transport, modify. simpl.
  remember (with_transports _ w) as w1 eqn:Ew1.
  assert (H1 : frame None w w1) by (subst w1; by apply frame_same).
  clear Ew1. unfold the_transport. destruct (transports w1 !! self) as [tr|]; [|done].
  destruct (q_items (_write_queue tr)); [done|].
  destruct waited as [[[] [[]| ]|]|]; simpl; try done;
    (eapply frame_trans; [exact H1|apply frame_queue_wakeup_getters]).
Qed.

Lemma frame_run_coro s me c waited r w :
  wf_but s w → frame None w (run_coro me c waited r w).1.
Proof.
  intros Hwf. destruct c as [self pc|self pc|owner pt pc|a pc]; simpl.
  - destruct pc, r as [v|e]; simpl; try apply frame_refl;
      try (by eapply frame_writer_iteration).
    + unfold bind. pose proof (frame_queue_get_interrupted self me waited w) as H.
      by destruct (queue_get_interrupted self me waited w) as [w' [[]|x]].
    + unfold try_except, raise. destruct (is_Exception e); [|apply frame_refl].
      pose proof (frame_writer_failed s self e w Hwf) as H.
      by destruct (writer_failed self e w) as [w' [y|x]].
  - assert (Hread : ∀ w0, frame None w w0 → frame None w (js_read self w0).1).
    { intros w0 H0. eapply frame_trans; [exact H0|].
      apply frame_same. apply js_read_frame_tasks. }
    destruct pc, r as [v|e]; simpl; try apply frame_refl;
      try (by apply Hread, frame_refl).
    destruct v as [|dn val|]; simpl; try apply frame_refl.
    destruct dn; unfold bind.
    { pose proof (frame_cleanup s self (Some (RuntimeError "Other side has closed")) w Hwf)
        as H.
      by destruct (_cleanup self _ w) as [w' [[]|x]]. }
    pose proof (data_received_frame_tasks self val w) as Ht.
    destruct (data_received self val w) as [w' [[]|x]]; simpl in *.
    + apply Hread. by apply frame_same.
    + by apply frame_same.
  - apply frame_same. destruct pc, r; done.
  - assert (Hw : frame None w (wait_then_open a w).1).
    { unfold wait_then_open, bind, gets.
      pose proof (await_closing_tasks_frame_tasks (reverse (_SERIAL_PORT_CLOSING_TASKS w)) w)
        as Ht.
      destruct (await_closing_tasks _ w) as [w' [[k|]|e]]; simpl in *;
        try (by apply frame_same).
      unfold open_serial_port, bind, gets, emit, modify, ret, raise.
      destruct (_SERIAL_PORT w'); simpl; by apply frame_same. }
    destruct pc, r; simpl; try done; try apply frame_refl.
    unfold bind, gets.
    pose proof (frame_init (protocol_factory a) (_SERIAL_PORT w) w).
    by destruct (__init__ _ _ w) as [w' [x|e]].
Qed.


(** ** One step of the loop, seen from the other tasks *)

Lemma not_done_pending tk : task_done tk = false → task_state tk = None.
Proof.
  unfold task_done. intros H. apply bool_decide_eq_false in H.
  destruct (task_state tk); [|done]. exfalso. apply H. by eexists.
Qed.

Lemma frame_add_done_callback s j k w : frame s w (add_done_callback j (CbStep k) w).1.
Proof.
  unfold add_done_callback. destruct (tasks w !! j) as [tj|] eqn:E; [|apply frame_refl].
  destruct (task_done tj) eqn:Hd; simpl; [by apply frame_same|].
  eapply frame_alter; [done|]. intros tk Htk _. assert (tk = tj) as -> by congruence.
  apply rtc_once, nudge_callback. by apply not_done_pending.
Qed.

Lemma frame_skip_alter k f w : frame (Some k) w (with_tasks (alter f k (tasks w)) w).
Proof. eapply frame_alter; [done|]. by intros tk _ []. Qed.

Lemma frame_finish_task k o w : frame (Some k) w (finish_task k o w).1.
Proof.
  unfold finish_task. destruct (tasks w !! k); [|apply frame_refl]. simpl.
  eapply frame_alter; [done|]. by intros tk' _ [].
Qed.

Lemma frame_suspend_task k c f w : frame (Some k) w (suspend_task k c f w).1.
Proof.
  unfold suspend_task, bind, update_task at 1, modify. simpl.
  remember (with_tasks _ w) as w1 eqn:E1.
  assert (H1 : frame (Some k) w w1) by (subst w1; apply frame_skip_alter).
  clear E1. destruct f as [kind st|j].
  - unfold ret, gets. simpl.
    destruct (from_option must_cancel false (tasks w1 !! k)); [|done].
    destruct st as [o|]; [done|].
    unfold update_task, cancel_waiter, bind, modify, call_soon, update_task. simpl.
    eapply frame_trans; [exact H1|].
    rewrite list_alter_alter_eq. eapply frame_alter; [done|]. by intros tk' _ [].
  - pose proof (frame_add_done_callback (Some k) j k w1) as H.
    destruct (add_done_callback j (CbStep k) w1) as [w2 [[]|x]]; simpl in *;
      [|by eapply frame_trans].
    unfold gets. simpl.
    destruct (from_option must_cancel false (tasks w2 !! k)); by eapply frame_trans.
Qed.

Lemma nudge_state tk tk' : nudge tk tk' → task_state tk' = task_state tk.
Proof.
  intros [tk0 _|tk0 _ _|tk0 k0 _]; try done.
  unfold cancel_request. destruct (task_done tk0); [done|].
  by destruct (fut_waiter tk0) as [[kind [o|]|j]|].
Qed.

Lemma nudged_state tk tk' : rtc nudge tk tk' → task_state tk' = task_state tk.
Proof.
  induction 1 as [|x y z Hxy _ IH]; [done|]. rewrite IH. by apply nudge_state.
Qed.

Lemma nudge_coro tk tk' : nudge tk tk' → task_coro tk' = task_coro tk.
Proof.
  intros [tk0 _|tk0 _ _|tk0 k0 _]; try done.
  unfold cancel_request. destruct (task_done tk0); [done|].
  by destruct (fut_waiter tk0) as [[kind [o|]|j]|].
Qed.

Lemma nudged_coro tk tk' : rtc nudge tk tk' → task_coro tk' = task_coro tk.
Proof.
  induction 1 as [|x y z Hxy _ IH]; [done|]. rewrite IH. by apply nudge_coro.
Qed.

(** A step of task [k]: the coroutine runs from the state in which the
    task's wait is over, and the task is then suspended again or finished. *)
Lemma task_step_after k w tk r w2 res :
  wf w →
  tasks w !! k = Some tk → task_done tk = false → resume_value w tk = Some r →
  run_coro k (task_coro tk) (fut_waiter tk) r
    (with_tasks (alter (λ tk, set_fut_waiter None (set_must_cancel false tk)) k (tasks w)) w)
  = (w2, res) →
  trace (task_step k w).1 = trace w2
  ∧ transports (task_step k w).1 = transports w2
  ∧ frame (Some k) w (task_step k w).1
  ∧ yield_ok (task_coro tk) res
  ∧ ∃ tk', tasks (task_step k w).1 !! k = Some tk'
      ∧ match res with
        | Ok (YAwait c f) =>
            task_state tk' = None ∧ task_coro tk' = c
            ∧ (fut_waiter tk' = Some f
               ∨ ∃ kind, f = AwFuture kind None
                   ∧ fut_waiter tk' = Some (AwFuture kind (Some OCancelled)))
        | _ => is_Some (task_state tk') ∧ task_coro tk' = task_coro tk
        end.
Proof.
  intros Hwf Hk Hdone Hres Erun. unfold task_step. rewrite Hk, Hdone, Hres, Erun.
  set (w1 := with_tasks (alter (λ tk, set_fut_waiter None (set_must_cancel false tk))
                           k (tasks w)) w) in *.
  assert (H1 : wf_but (Some k) w1).
  { eapply (wf_alter_task (Some k) w _ _ k); [done|done| |by apply wf_weaken].
    intros tk0 Htk0. split_and!; [apply same_kind_refl|done|done]. }
  assert (Hk1 : tasks w1 !! k = Some (set_fut_waiter None (set_must_cancel false tk))).
  { unfold w1. simpl. by rewrite list_lookup_alter_eq, Hk. }
  pose proof (frame_run_coro (Some k) k (task_coro tk) (fut_waiter tk) r w1 H1) as Hfr.
  rewrite Erun in Hfr. simpl in Hfr.
  destruct (proj1 Hfr k _ ltac:(done) Hk1) as (tk2 & Hk2 & Hn2).
  assert (Hst2 : task_state tk2 = None).
  { rewrite (nudged_state _ _ Hn2). simpl. by apply not_done_pending. }
  assert (Hf12 : frame (Some k) w w2).
  { eapply frame_trans; [apply (frame_skip_alter k)|]. by apply frame_weaken. }
  assert (Hco2 : task_coro tk2 = task_coro tk) by (by rewrite (nudged_coro _ _ Hn2)).
  assert (Hfin : ∀ o, ∃ tk', tasks (finish_task k o w2).1 !! k = Some tk'
                             ∧ is_Some (task_state tk') ∧ task_coro tk' = task_coro tk).
  { intros o. unfold finish_task. rewrite Hk2. simpl. rewrite list_lookup_alter_eq, Hk2.
    simpl. eexists. split; [done|]. split; [by eexists|done]. }
  assert (Hy : yield_ok (task_coro tk) res).
  { destruct (wf_run_coro (Some k) k (task_coro tk) (fut_waiter tk) r w1 H1) as (_ & Hy & _).
    by rewrite Erun in Hy. }
  destruct res as [[c f|v]|e].
  - split_and!; [apply suspend_task_trace| | |done|].
    { by destruct (suspend_task_frame k c f w2 tk2 Hk2) as (? & _). }
    { eapply frame_trans; [exact Hf12|apply frame_suspend_task]. }
    unfold suspend_task, bind, update_task at 1, modify. simpl.
    remember (with_tasks _ w2) as w3 eqn:E3.
    assert (Hk3 : tasks w3 !! k = Some (set_fut_waiter (Some f) (set_task_coro c tk2))).
    { subst w3. simpl. by rewrite list_lookup_alter_eq, Hk2. }
    clear E3. destruct f as [kind st|j].
    + unfold ret, gets. simpl. rewrite Hk3. simpl.
      destruct (must_cancel tk2); [|by eauto 10].
      destruct st as [o|]; [by eauto 10|].
      unfold update_task, cancel_waiter, bind, modify, call_soon, update_task. simpl.
      rewrite !list_lookup_alter_eq, Hk3. simpl. eauto 10.
    + assert (H4 : ∃ tk4, tasks (add_done_callback j (CbStep k) w3).1 !! k = Some tk4
                     ∧ task_state tk4 = None ∧ task_coro tk4 = c
                     ∧ fut_waiter tk4 = Some (AwTask j)).
      { unfold add_done_callback. destruct (tasks w3 !! j) as [tj|] eqn:Ej; [|by eauto].
        destruct (task_done tj); simpl; [by eauto|].
        rewrite list_lookup_alter. case_decide; subst; [|by eauto].
        rewrite Hk3. simpl. eauto. }
      destruct H4 as (tk4 & Hk4 & ? & ? & ?).
      destruct (add_done_callback j (CbStep k) w3) as [w4 [[]|x]]; simpl in *; [|by eauto 10].
      unfold gets. simpl.
      destruct (from_option must_cancel false (tasks w4 !! k)); simpl; eauto 10.
  - destruct (from_option must_cancel false (tasks w2 !! k)).
    + unfold bind, update_task, modify. simpl.
      split_and!; [by rewrite finish_task_trace|by rewrite finish_task_transports| |done|].
      * eapply frame_trans; [exact Hf12|].
        eapply frame_trans; [apply (frame_skip_alter k)|apply frame_finish_task].
      * unfold finish_task. simpl. rewrite list_lookup_alter_eq, Hk2. simpl.
        rewrite list_lookup_alter_eq, list_lookup_alter_eq, Hk2. simpl.
        eexists. split; [done|]. split; [by eexists|done].
    + split_and!; [apply finish_task_trace|apply finish_task_transports| |done|apply Hfin].
      eapply frame_trans; [exact Hf12|apply frame_finish_task].
  - destruct e; (split_and!; [apply finish_task_trace|apply finish_task_transports|
                   eapply frame_trans; [exact Hf12|apply frame_finish_task]|done|apply Hfin]).
Qed.

Lemma frame_task_step k w : wf w → frame (Some k) w (task_step k w).1.
Proof.
  intros Hwf. destruct (tasks w !! k) as [tk|] eqn:Hk.
  2:{ rewrite task_step_missing by done. apply frame_refl. }
  destruct (task_done tk) eqn:Hd.
  { unfold task_step. rewrite Hk, Hd. apply frame_refl. }
  destruct (resume_value w tk) as [r|] eqn:Hr.
  2:{ unfold task_step. rewrite Hk, Hd, Hr. apply frame_refl. }
  destruct (run_coro k (task_coro tk) (fut_waiter tk) r
              (with_tasks (alter (λ tk, set_fut_waiter None (set_must_cancel false tk))
                             k (tasks w)) w)) as [w2 res] eqn:Erun.
  by destruct (task_step_after k w tk r w2 res Hwf Hk Hd Hr Erun) as (_ & _ & ? & _).
Qed.



Lemma frame_call {A} s (m : M A) w : frame s w (m w).1 → frame s w (call m w).
Proof.
  intros H. unfold call. destruct (m w) as [w' [a|e]]; simpl in *; [done|].
  eapply frame_trans; [exact H|]. by apply frame_same.
Qed.

(** An action leaves every task alone but the one it steps. *)
Lemma frame_step a w : wf w → frame (stepping a w) w (step a w).
Proof.
  intros Hwf. destruct a as [pt|a|t' data|t'|t' p|t'| |k st]; simpl.
  - apply frame_call. by apply frame_same.
  - apply frame_call. eapply frame_app; [done|]. by repeat constructor.
  - apply frame_call. unfold the_transport, bind at 1.
    destruct (transports w !! t'); [|apply frame_refl].
    unfold bind, emit, modify, write. simpl.
    eapply frame_trans; [|apply frame_put_nowait]. by apply frame_same.
  - apply frame_call. by eapply frame_cleanup.
  - apply frame_call. by apply frame_same.
  - apply frame_call. by eapply frame_cleanup.
  - destruct (ready w) as [|cb rest] eqn:Hr; [apply frame_refl|].
    assert (Hwf' : wf (with_ready rest w)) by (by apply (wf_same None w)).
    unfold run_handle.
    assert (H : frame (match cb with CbStep k => Some k | _ => None end) w
                  (run_callback cb (with_ready rest w)).1).
    { destruct cb as [k|p t'|t' p e|k]; simpl.
      - eapply frame_trans; [|by apply frame_task_step]. by apply frame_same.
      - by apply frame_same.
      - by apply frame_same.
      - unfold remove_closing_task, bind, gets. simpl.
        case_bool_decide; by apply frame_same. }
    destruct (run_callback cb (with_ready rest w)) as [w' [[]|e]]; simpl in *.
    + by destruct cb.
    + eapply frame_trans; [by destruct cb|]. by apply frame_same.
  - apply frame_call. unfold settle.
    destruct (tasks w !! k) as [[c [[[] [o|]|j]|] mc [o'|] cbs]|]; simpl;
      try apply frame_refl.
    eapply frame_alter; [done|]. by intros tk _ [].
Qed.

(** What an action records. *)
Lemma step_emits a w : emits (step_ev a w) w (step a w).
Proof.
  assert (Hunc : ∀ e, step_ev a w (EvUncaught e)) by (intros e; left; by eexists).
  destruct a as [pt|a|t' data|t'|t' p|t'| |k st]; simpl.
  - apply call_emits; [done|]. by apply emits_same.
  - apply call_emits; [done|]. by apply emits_same.
  - apply call_emits; [done|]. unfold the_transport, bind at 1.
    destruct (transports w !! t'); [|apply emits_refl].
    unfold bind, emit, modify. simpl.
    eapply (emits_trans _ _ (with_trace (trace w ++ [EvSubmit t' data]) w));
      [eapply emits_one; [done|by right; right]|].
    apply emits_same, put_nowait_trace.
  - apply call_emits; [done|].
    eapply emits_impl; [|apply cleanup_emits]. intros ev Hev. by right; right.
  - apply call_emits; [done|]. by apply emits_same.
  - apply call_emits; [done|].
    eapply emits_impl; [|apply cleanup_emits]. intros ev Hev. by right; right.
  - destruct (ready w) as [|cb rest] eqn:Hr; [apply emits_refl|].
    unfold run_handle.
    assert (H : emits (step_ev RunOnce w) w (run_callback cb (with_ready rest w)).1).
    { destruct cb as [k|p t'|t' p e|k]; simpl.
      - eapply emits_trans; [by apply (emits_same _ w (with_ready rest w))|].
        destruct (tasks w !! k) as [tk|] eqn:Hk.
        2:{ rewrite task_step_missing by done. apply emits_refl. }
        eapply emits_impl; [|by apply (task_step_emits k (with_ready rest w) tk)].
        intros ev Hev. right; right. simpl. rewrite Hr. eauto.
      - eapply emits_one; [done|]. right; right. simpl. by rewrite Hr.
      - eapply emits_one; [done|]. right; right. simpl. by rewrite Hr.
      - unfold remove_closing_task, bind, gets. simpl.
        case_bool_decide; by apply emits_same. }
    destruct (run_callback cb (with_ready rest w)) as [w' [[]|e]]; simpl in *; [done|].
    eapply emits_trans; [exact H|]. eapply emits_one; [done|]. right; left. by eexists.
  - apply call_emits; [done|]. unfold settle.
    destruct (tasks w !! k) as [[c [[[] [o|]|j]|] mc [o'|] cbs]|] eqn:Hk; simpl;
      try apply emits_refl.
    eapply emits_one; [done|]. right; right. simpl. eauto.
Qed.

(** A step keeps every task on its coroutine. *)
Lemma step_same_kind a w k tk :
  wf w → tasks w !! k = Some tk →
  ∃ tk', tasks (step a w) !! k = Some tk' ∧ same_kind (task_coro tk) (task_coro tk').
Proof.
  intros Hwf Hk. pose proof (step_wf a w Hwf) as Hwf'.
  destruct (decide (stepping a w = Some k)) as [Hs|Hs].
  2:{ destruct (proj1 (frame_step a w Hwf) _ _ Hs Hk) as (tk' & Hk' & Hn).
      exists tk'. split; [done|]. rewrite (nudged_coro _ _ Hn). apply same_kind_refl. }
  destruct a as [pt|a|t0 data|t0|t0 p|t0| |k0 st]; simpl in Hs; try done.
  - destruct (ready w) as [|[k0| | |] rest0] eqn:Hr; try done. simplify_eq.
    assert (Hwf0 : wf (with_ready rest0 w)) by (by apply (wf_same None w)).
    assert (Htasks : tasks (step RunOnce w) = tasks (task_step k (with_ready rest0 w)).1).
    { simpl. rewrite Hr. unfold run_handle. simpl.
      by destruct (task_step k (with_ready rest0 w)) as [w' [[]|e]]. }
    rewrite Htasks.
    destruct (task_done tk) eqn:Hd.
    { unfold task_step. simpl. rewrite Hk, Hd. simpl. eauto using same_kind_refl. }
    destruct (resume_value (with_ready rest0 w) tk) as [r|] eqn:Hres.
    2:{ unfold task_step. simpl tasks at 2. rewrite Hk, Hd, Hres. simpl.
        eauto using same_kind_refl. }
    destruct (run_coro k (task_coro tk) (fut_waiter tk) r
                (with_tasks (alter (λ tk, set_fut_waiter None (set_must_cancel false tk))
                               k (tasks (with_ready rest0 w))) (with_ready rest0 w)))
      as [w2 res] eqn:Erun.
    destruct (task_step_after k (with_ready rest0 w) tk r w2 res Hwf0 Hk Hd Hres Erun)
      as (_ & _ & _ & Hy & tk' & Hk' & Hafter).
    exists tk'. split; [done|].
    destruct res as [[c f|v]|e]; simpl in Hy.
    + destruct Hafter as (_ & -> & _). tauto.
    + destruct Hafter as [_ ->]. apply same_kind_refl.
    + destruct Hafter as [_ ->]. apply same_kind_refl.
  - simplify_eq. simpl. unfold call, settle. rewrite Hk.
    destruct tk as [c [[[] [o|]|j]|] mc [o'|] cbs]; simpl;
      try (rewrite Hk; eauto using same_kind_refl).
    rewrite list_lookup_alter_eq, Hk. simpl. eauto using same_kind_refl.
Qed.


(** ** Transports are changed by shutdowns and by queue operations only *)

Lemma tr_touch_refl q tr : tr_touch q tr tr.
Proof. by repeat split. Qed.

Lemma tr_touch_trans q tr1 tr2 tr3 :
  tr_touch q tr1 tr2 → tr_touch q tr2 tr3 → tr_touch q tr1 tr3.
Proof.
  intros (?&?&?&(?&?&?&?)&Hq12) (?&?&?&(?&?&?&?)&Hq23).
  unfold tr_touch, shut_le. split_and!; try congruence; try tauto.
  intros Hq. rewrite (Hq23 Hq). by apply Hq12.
Qed.

Lemma tr_touch_weaken (q q' : Prop) tr tr' : (q → q') → tr_touch q tr tr' → tr_touch q' tr tr'.
Proof. intros Hq (?&?&?&?&?). split_and!; try done. intros Hq'. tauto. Qed.

Lemma tr_frame_refl Q w : tr_frame Q w w.
Proof.
  split.
  - intros t tr Ht. eauto using tr_touch_refl.
  - intros t tr' Hlen Ht. apply lookup_lt_Some in Ht. lia.
Qed.

Lemma tr_frame_trans Q w1 w2 w3 : tr_frame Q w1 w2 → tr_frame Q w2 w3 → tr_frame Q w1 w3.
Proof.
  intros [H12 N12] [H23 N23]. split.
  - intros t tr Ht. destruct (H12 _ _ Ht) as (tr2 & Ht2 & ?).
    destruct (H23 _ _ Ht2) as (tr3 & Ht3 & ?). eauto using tr_touch_trans.
  - intros t tr3 Hlen Ht3 HQ.
    destruct (transports w2 !! t) as [tr2|] eqn:Ht2.
    + destruct (H23 _ _ Ht2) as (tr3' & Ht3' & _ & _ & _ & _ & Hq).
      assert (tr3' = tr3) as -> by congruence.
      rewrite (Hq HQ). by eapply N12.
    + apply lookup_ge_None in Ht2. by eapply N23.
Qed.

Lemma tr_frame_weaken (Q Q' : nat → Prop) w w' :
  (∀ t, Q t → Q' t) → tr_frame Q w w' → tr_frame Q' w w'.
Proof.
  intros HQ [H N]. split.
  - intros t tr Ht. destruct (H _ _ Ht) as (tr' & Ht' & ?).
    eauto using tr_touch_weaken.
  - intros t tr' Hlen Ht' HQ'. eapply N; [done|done|]. intros Hq. by apply HQ', HQ.
Qed.

Lemma tr_frame_same Q w w' : transports w' = transports w → tr_frame Q w w'.
Proof. intros H. unfold tr_frame. rewrite H. apply tr_frame_refl. Qed.

Lemma tr_frame_app Q w w' new :
  transports w' = transports w ++ new →
  Forall (λ tr, q_items (_write_queue tr) = []) new →
  tr_frame Q w w'.
Proof.
  intros H Hnew. split.
  - intros t tr Ht. rewrite H. exists tr.
    split; [by apply lookup_app_l_Some|apply tr_touch_refl].
  - intros t tr' Hlen. rewrite H, lookup_app_r by done. intros Ht' _.
    eapply (Forall_lookup_1 _ _ _ _ Hnew Ht').
Qed.

Lemma tr_frame_alter Q w w' f t :
  transports w' = alter f t (transports w) →
  (∀ tr, tr_touch (Q t) tr (f tr)) →
  tr_frame Q w w'.
Proof.
  intros H Hf. split.
  - intros t' tr Ht. rewrite H, list_lookup_alter. case_decide; subst.
    + rewrite Ht. simpl. eauto.
    + eauto using tr_touch_refl.
  - intros t' tr' Hlen. rewrite H. intros Ht'. apply lookup_lt_Some in Ht'.
    rewrite length_alter in Ht'. lia.
Qed.

Lemma tr_frame_insert Q w w' t tr X :
  transports w !! t = Some tr →
  transports w' = <[t := X]> (transports w) →
  tr_touch (Q t) tr X →
  tr_frame Q w w'.
Proof.
  intros Ht H HX. split.
  - intros t' tr' Ht'. rewrite H. destruct (decide (t' = t)) as [->|Hne].
    + rewrite list_lookup_insert_eq by (by eapply lookup_lt_Some).
      assert (tr' = tr) as -> by congruence. eauto.
    + rewrite list_lookup_insert_ne by done. eauto using tr_touch_refl.
  - intros t' tr' Hlen. rewrite H. intros Ht'. apply lookup_lt_Some in Ht'.
    rewrite length_insert in Ht'. lia.
Qed.

(** The part of [_cleanup] after the cancellations clears fields of [self]
    and changes nothing else of any transport. *)
Lemma cleanup_tail_touch self e tr w :
  transports w !! self = Some tr →
  ∃ X, transports (cleanup_tail self e tr w).1 = <[self := X]> (transports w)
       ∧ tr_touch False tr X.
Proof.
  intros Htr.
  destruct (_js_reader tr) as [lr|] eqn:Hjr;
    [destruct (releaseLock_raises lr) as [x|] eqn:Hlr|].
  - exists tr. split; [|apply tr_touch_refl].
    unfold cleanup_tail. rewrite Hjr.
    unfold bind, emit, modify, releaseLock. rewrite Hlr. simpl.
    by rewrite list_insert_id.
  - destruct (_js_writer tr) as [lw|] eqn:Hjw;
      [destruct (releaseLock_raises lw) as [x|] eqn:Hlw|].
    + exists (set_js_reader None tr). split.
      * unfold cleanup_tail. rewrite Hjr, Hjw.
        unfold bind, emit, modify, releaseLock, update_transport, ret. rewrite Hlr, Hlw.
        simpl. by erewrite alter_to_insert.
      * by repeat split.
    + rewrite cleanup_tail_ok; [|done|].
      2:{ split; intros l; rewrite ?Hjr, ?Hjw; by intros [= <-]. }
      exists (scrubbed tr). split; [done|]. by repeat split.
    + rewrite cleanup_tail_ok; [|done|].
      2:{ split; intros l; rewrite ?Hjr, ?Hjw; [by intros [= <-]|done]. }
      exists (scrubbed tr). split; [done|]. by repeat split.
  - destruct (_js_writer tr) as [lw|] eqn:Hjw;
      [destruct (releaseLock_raises lw) as [x|] eqn:Hlw|].
    + exists tr. split; [|apply tr_touch_refl].
      unfold cleanup_tail. rewrite Hjr, Hjw.
      unfold bind, emit, modify, releaseLock, update_transport, ret. rewrite Hlw. simpl.
      by rewrite list_insert_id.
    + rewrite cleanup_tail_ok; [|done|].
      2:{ split; intros l; rewrite ?Hjr, ?Hjw; [done|by intros [= <-]]. }
      exists (scrubbed tr). split; [done|]. by repeat split.
    + rewrite cleanup_tail_ok; [|done|].
      2:{ split; intros l; rewrite ?Hjr, ?Hjw; done. }
      exists (scrubbed tr). split; [done|]. by repeat split.
Qed.

Lemma tr_frame_cleanup Q self e w : tr_frame Q w (_cleanup self e w).1.
Proof.
  eapply (tr_frame_weaken (λ _, False)); [done|].
  destruct (transports w !! self) as [tr|] eqn:Htr.
  2:{ unfold _cleanup, bind, update_transport, modify, the_transport. simpl.
      rewrite list_lookup_alter_eq, Htr. simpl. apply tr_frame_same. simpl.
      by apply alter_None. }
  rewrite (cleanup_unfold _ _ _ _ Htr).
  set (w1 := with_transports _ w).
  set (w2 := (cancel (_reader_task tr) w1).1).
  set (w3 := (cancel (_writer_task tr) w2).1).
  destruct (cancel_frame (_reader_task tr) w1) as (_&_&Ht2&_&_&_).
  destruct (cancel_frame (_writer_task tr) w2) as (_&_&Ht3&_&_&_).
  assert (H13 : transports w3 = alter (set_is_closing true) self (transports w)).
  { unfold w3. rewrite Ht3. unfold w2. by rewrite Ht2. }
  assert (H3 : transports w3 !! self = Some (set_is_closing true tr)).
  { rewrite H13. by rewrite list_lookup_alter_eq, Htr. }
  destruct (cleanup_tail_touch self e _ w3 H3) as (X & HX & Htouch).
  eapply (tr_frame_trans _ w w3).
  - eapply tr_frame_alter; [exact H13|]. intros tr0. by repeat split.
  - eapply tr_frame_insert; [exact H3|exact HX|exact Htouch].
Qed.

Lemma tr_frame_queue_wakeup_getters (Q : nat → Prop) self w :
  Q self → tr_frame Q w (queue_wakeup_getters self w).1.
Proof.
  intros HQ. unfold queue_wakeup_getters, the_transport, bind.
  destruct (transports w !! self) as [tr|]; [|apply tr_frame_refl].
  destruct (wakeup_next_frame (q_getters (_write_queue tr)) w) as (Ht & _).
  destruct (wakeup_next _ w) as [rest w']. simpl in *.
  eapply tr_frame_alter; [simpl; by rewrite Ht|]. intros tr0. by repeat split.
Qed.

Lemma tr_frame_put_nowait (Q : nat → Prop) self item w :
  Q self → tr_frame Q w (put_nowait self item w).1.
Proof.
  intros HQ. unfold put_nowait, the_transport, bind.
  destruct (transports w !! self) as [tr|]; [|apply tr_frame_refl].
  destruct (q_full _); [apply tr_frame_refl|].
  unfold update_transport at 1, modify. simpl.
  eapply tr_frame_trans; [|by apply tr_frame_queue_wakeup_getters].
  eapply tr_frame_alter; [done|]. intros tr0. by repeat split.
Qed.

Lemma tr_frame_init Q protocol sp w : tr_frame Q w (__init__ protocol sp w).1.
Proof.
  destruct sp; [|apply tr_frame_refl]. simpl.
  eapply tr_frame_app; [done|]. by repeat constructor.
Qed.

Lemma tr_frame_writer_failed Q self e w : tr_frame Q w (writer_failed self e w).1.
Proof.
  unfold writer_failed, bind. pose proof (tr_frame_cleanup Q self (Some e) w) as H.
  by destruct (_cleanup self (Some e) w) as [w' [[]|x]].
Qed.

Lemma tr_frame_writer_iteration (Q : nat → Prop) self me w :
  Q self → tr_frame Q w (writer_iteration self me w).1.
Proof.
  intros HQ. unfold writer_iteration, queue_get, the_transport, bind.
  destruct (transports w !! self) as [tr|] eqn:Htr; [|apply tr_frame_refl].
  destruct (q_items (_write_queue tr)) as [|item rest] eqn:Hq.
  - eapply tr_frame_alter; [done|]. intros tr0. by repeat split.
  - unfold update_transport, modify, ret. simpl.
    remember (with_transports _ w) as w1 eqn:Ew1.
    assert (H1 : tr_frame Q w w1).
    { subst w1. eapply tr_frame_alter; [done|]. intros tr0. by repeat split. }
    clear Ew1. unfold try_except, js_write, the_transport, bind.
    pose proof (tr_frame_writer_failed Q self AttributeError w1) as H2.
    destruct (transports w1 !! self) as [tr1|]; simpl.
    + destruct (_js_writer tr1); simpl.
      * eapply tr_frame_trans; [exact H1|]. by apply tr_frame_same.
      * destruct (writer_failed self AttributeError w1) as [w2 r2]. simpl in *.
        eapply tr_frame_trans; [exact H1|]. by destruct r2.
    + destruct (writer_failed self AttributeError w1) as [w2 r2]. simpl in *.
      eapply tr_frame_trans; [exact H1|]. by destruct r2.
Qed.

Lemma tr_frame_queue_get_interrupted (Q : nat → Prop) self me waited w :
  Q self → tr_frame Q w (queue_get_interrupted self me waited w).1.
Proof.
  intros HQ. unfold queue_get_interrupted, bind, update_transport, modify. simpl.
  remember (with_transports _ w) as w1 eqn:Ew1.
  assert (H1 : tr_frame Q w w1).
  { subst w1. eapply tr_frame_alter; [done|]. intros tr0. by repeat split. }
  clear Ew1. unfold the_transport. destruct (transports w1 !! self) as [tr|]; [|done].
  destruct (q_items (_write_queue tr)); [done|].
  destruct waited as [[[] [[]| ]|]|]; simpl; try done;
    (eapply tr_frame_trans; [exact H1|by apply tr_frame_queue_wakeup_getters]).
Qed.

Lemma tr_frame_run_coro (Q : nat → Prop) me c waited r w :
  (∀ t pc, c = WriterLoop t pc → Q t) →
  tr_frame Q w (run_coro me c waited r w).1.
Proof.
  intros HQ. destruct c as [self pc|self pc|owner pt pc|a pc]; simpl.
  - assert (Q self) by (by eapply HQ).
    destruct pc, r as [v|e]; simpl; try apply tr_frame_refl;
      try (by apply tr_frame_writer_iteration).
    + unfold bind. pose proof (tr_frame_queue_get_interrupted Q self me waited w) as H'.
      destruct (queue_get_interrupted self me waited w) as [w' [[]|x]]; by apply H'.
    + unfold try_except, raise. destruct (is_Exception e); [|apply tr_frame_refl].
      pose proof (tr_frame_writer_failed Q self e w) as H'.
      by destruct (writer_failed self e w) as [w' [y|x]].
  - assert (Hread : ∀ w0, tr_frame Q w w0 → tr_frame Q w (js_read self w0).1).
    { intros w0 H0. eapply tr_frame_trans; [exact H0|].
      apply tr_frame_same. apply js_read_frame. }
    destruct pc, r as [v|e]; simpl; try apply tr_frame_refl;
      try (by apply Hread, tr_frame_refl).
    destruct v as [|dn val|]; simpl; try apply tr_frame_refl.
    destruct dn; unfold bind.
    { pose proof (tr_frame_cleanup Q self (Some (RuntimeError "Other side has closed")) w)
        as H.
      by destruct (_cleanup self _ w) as [w' [[]|x]]. }
    destruct (data_received_frame self val w) as [_ Ht].
    destruct (data_received self val w) as [w' [[]|x]]; simpl in *.
    + apply Hread. by apply tr_frame_same.
    + by apply tr_frame_same.
  - apply tr_frame_same. destruct pc, r; done.
  - assert (Hw : tr_frame Q w (wait_then_open a w).1).
    { unfold wait_then_open, bind, gets.
      destruct (await_closing_tasks_frame (reverse (_SERIAL_PORT_CLOSING_TASKS w)) w)
        as (_ & Ht & _).
      destruct (await_closing_tasks _ w) as [w' [[k|]|e]]; simpl in *;
        try (by apply tr_frame_same).
      unfold open_serial_port, bind, gets, emit, modify, ret, raise.
      destruct (_SERIAL_PORT w'); simpl; by apply tr_frame_same. }
    destruct pc, r; simpl; try done; try apply tr_frame_refl.
    unfold bind, gets.
    pose proof (tr_frame_init Q (protocol_factory a) (_SERIAL_PORT w) w).
    by destruct (__init__ _ _ w) as [w' [x|e]].
Qed.

Lemma tr_frame_task_step (Q : nat → Prop) k w :
  (∀ tk t pc, tasks w !! k = Some tk → task_coro tk = WriterLoop t pc → Q t) →
  tr_frame Q w (task_step k w).1.
Proof.
  intros HQ.
  unfold task_step. destruct (tasks w !! k) as [tk|] eqn:Hk; [|apply tr_frame_refl].
  destruct (task_done tk); [apply tr_frame_refl|].
  destruct (resume_value w tk) as [r|]; [|apply tr_frame_refl].
  remember (with_tasks _ w) as w1 eqn:E1.
  assert (H1 : tr_frame Q w w1) by (subst w1; by apply tr_frame_same).
  assert (Hk1 : is_Some (tasks w1 !! k)).
  { subst w1. simpl. rewrite list_lookup_alter_eq, Hk. by eexists. }
  clear E1.
  pose proof (tr_frame_run_coro Q k (task_coro tk) (fut_waiter tk) r w1) as H.
  pose proof (persist_run_coro k (task_coro tk) (fut_waiter tk) r w1) as Hp.
  destruct (run_coro k (task_coro tk) (fut_waiter tk) r w1) as [w2 res]. simpl in *.
  assert (H' : tr_frame Q w w2).
  { eapply tr_frame_trans; [exact H1|]. apply H. intros t pc Hc. by eapply HQ. }
  destruct Hk1 as [tk1 Hk1]. destruct (Hp _ _ Hk1) as (tk2 & Hk2 & _).
  destruct res as [[c f|v]|e].
  - eapply tr_frame_trans; [exact H'|]. apply tr_frame_same.
    by destruct (suspend_task_frame k c f w2 tk2 Hk2) as (? & _).
  - destruct (from_option must_cancel false (tasks w2 !! k)).
    + eapply tr_frame_trans; [exact H'|]. apply tr_frame_same.
      unfold bind, update_task, modify. simpl. by rewrite finish_task_transports.
    + eapply tr_frame_trans; [exact H'|]. apply tr_frame_same, finish_task_transports.
  - destruct e; (eapply tr_frame_trans; [exact H'|]);
      apply tr_frame_same, finish_task_transports.
Qed.

Lemma tr_frame_call {A} Q (m : M A) w : tr_frame Q w (m w).1 → tr_frame Q w (call m w).
Proof.
  unfold call. destruct (m w) as [w' [a|e]]; simpl; [done|].
  intros H. eapply tr_frame_trans; [exact H|]. by apply tr_frame_same.
Qed.

(** An action that is not a call of [set_protocol] changes transports by
    shutting them down or by using their queue only. *)
Lemma step_tr_frame a w :
  (∀ t p, a ≠ Call_set_protocol t p) →
  tr_frame (λ t, queue_user a w = Some t) w (step a w).
Proof.
  intros Hns. destruct a as [pt|a|t0 data|t0|t0 p|t0| |k st]; simpl.
  - apply tr_frame_call. by apply tr_frame_same.
  - apply tr_frame_call. by apply tr_frame_same.
  - apply tr_frame_call. unfold the_transport, bind at 1.
    destruct (transports w !! t0); [|apply tr_frame_refl].
    unfold bind, emit, modify. simpl.
    eapply tr_frame_trans; [|by apply tr_frame_put_nowait]. by apply tr_frame_same.
  - apply tr_frame_call, tr_frame_cleanup.
  - by destruct (Hns t0 p).
  - apply tr_frame_call, tr_frame_cleanup.
  - destruct (ready w) as [|cb rest] eqn:Hr; [apply tr_frame_refl|].
    unfold run_handle.
    match goal with
    | |- tr_frame ?Q _ _ =>
        assert (H : tr_frame Q w (run_callback cb (with_ready rest w)).1)
    end.
    { destruct cb as [k|p t0|t0 p e|k]; simpl.
      - eapply tr_frame_trans; [|apply tr_frame_task_step].
        + by apply tr_frame_same.
        + simpl. intros tk t0 pc Hk Hc. by rewrite Hk, Hc.
      - by apply tr_frame_same.
      - by apply tr_frame_same.
      - unfold remove_closing_task, bind, gets. simpl.
        case_bool_decide; by apply tr_frame_same. }
    destruct (run_callback cb (with_ready rest w)) as [w' [[]|e]]; simpl in *; [done|].
    eapply tr_frame_trans; [exact H|]. by apply tr_frame_same.
  - apply tr_frame_call. unfold settle.
    destruct (tasks w !! k) as [[c [[[] [o|]|j]|] mc [o'|] cbs]|]; simpl;
      by apply tr_frame_same.
Qed.

(** What an action does to a transport whose protocol it does not set:
    nothing, or part of a shutdown, or, if the action uses the outbound
    queue, a queue operation. *)
Lemma step_tr_touch a w t tr :
  transports w !! t = Some tr →
  (∀ p, a ≠ Call_set_protocol t p) →
  ∃ tr', transports (step a w) !! t = Some tr'
         ∧ tr_touch (queue_user a w = Some t) tr tr'.
Proof.
  intros Ht Hset.
  assert (Hcases : (∀ t' p, a ≠ Call_set_protocol t' p) ∨ ∃ t0 p, a = Call_set_protocol t0 p).
  { destruct a; eauto; by left. }
  destruct Hcases as [Hns|(t0 & p & ->)].
  { by apply (proj1 (step_tr_frame a w Hns)). }
  assert (t0 ≠ t) by (intros ->; by eapply Hset).
  exists tr. split; [|apply tr_touch_refl].
  simpl. unfold call, set_protocol, update_transport, modify. simpl.
  by rewrite list_lookup_alter_ne.
Qed.


(** ** Counting registered callbacks *)

Lemma count_cb_app f l1 l2 : count_cb f (l1 ++ l2) = count_cb f l1 + count_cb f l2.
Proof. unfold count_cb. by rewrite filter_app, length_app. Qed.

Lemma count_cb_cons f cb l :
  count_cb f (cb :: l) = (if f cb then 1 else 0) + count_cb f l.
Proof.
  unfold count_cb. rewrite filter_cons.
  destruct (f cb) eqn:E; case_decide; simpl; try done.
Qed.

Lemma count_cb_nil f : count_cb f [] = 0.
Proof. done. Qed.

Lemma count_events_cons g ev l :
  count_events g (ev :: l) = (if g ev then 1 else 0) + count_events g l.
Proof.
  unfold count_events. rewrite filter_cons.
  destruct (g ev) eqn:E; case_decide; simpl; try done.
Qed.

Lemma count_events_snoc g l ev :
  count_events g (l ++ [ev]) = count_events g l + (if g ev then 1 else 0).
Proof. rewrite count_events_app, count_events_cons. unfold count_events. simpl. lia. Qed.

Lemma sum_alter {A} (m : A → nat) (h : A → A) k (l : list A) x :
  l !! k = Some x →
  sum_list_with m (alter h k l) + m x = sum_list_with m l + m (h x).
Proof.
  revert k. induction l as [|y l IH]; intros [|k] Hk; simplify_eq/=; [lia|].
  specialize (IH _ Hk). lia.
Qed.

Lemma sum_alter_keep {A} (m : A → nat) (h : A → A) k (l : list A) :
  (∀ x, l !! k = Some x → m (h x) = m x) →
  sum_list_with m (alter h k l) = sum_list_with m l.
Proof.
  intros H. destruct (l !! k) as [x|] eqn:E.
  - pose proof (sum_alter m h k l x E) as Hs. rewrite (H x eq_refl) in Hs. lia.
  - by rewrite alter_None.
Qed.

Section registered.
Variable f : callback → bool.
Hypothesis Hf : ∀ k, f (CbStep k) = false.

Lemma registered_eq w w' :
  ready w' = ready w → tasks w' = tasks w → registered f w' = registered f w.
Proof using Type. unfold registered. by intros -> ->. Qed.

Lemma registered_wake w w' k (h : task → task) j :
  ready w' = ready w ++ [CbStep k] →
  tasks w' = alter h j (tasks w) →
  (∀ tk, done_callbacks (h tk) = done_callbacks tk) →
  registered f w' = registered f w.
Proof using Hf.
  unfold registered. intros -> -> Hh.
  rewrite count_cb_app, count_cb_cons, Hf, count_cb_nil.
  rewrite sum_alter_keep; [lia|]. intros x _. by rewrite Hh.
Qed.

Lemma registered_alter w w' (h : task → task) j :
  ready w' = ready w →
  tasks w' = alter h j (tasks w) →
  (∀ tk, done_callbacks (h tk) = done_callbacks tk) →
  registered f w' = registered f w.
Proof using Type.
  unfold registered. intros -> -> Hh.
  rewrite sum_alter_keep; [lia|]. intros x _. by rewrite Hh.
Qed.

Lemma registered_task_cancel d k w :
  registered f (task_cancel d k w).1 = registered f w.
Proof using Hf.
  revert k w. induction d as [|d IH]; intros k w; simpl.
  - destruct (tasks w !! k) as [tk|]; [|done].
    destruct (task_done tk); [done|].
    destruct (fut_waiter tk) as [[kind [o|]|j]|]; simpl;
      try (by eapply registered_alter);
      by eapply registered_wake.
  - destruct (tasks w !! k) as [tk|]; [|done].
    destruct (task_done tk); [done|].
    destruct (fut_waiter tk) as [[kind [o|]|j]|]; simpl;
      try (by eapply registered_alter);
      try (by eapply registered_wake).
    specialize (IH j w).
    destruct (task_cancel d j w) as [w1 [[]|e]] eqn:E; simpl in *; try done;
      rewrite <-IH; by eapply registered_alter.
Qed.

Lemma registered_cancel k w : registered f (cancel k w).1 = registered f w.
Proof using Hf. unfold cancel, bind, gets. simpl. apply registered_task_cancel. Qed.

Lemma registered_wakeup_next getters w :
  registered f (wakeup_next getters w).2 = registered f w.
Proof using Hf.
  induction getters as [|g rest IH]; simpl; [done|].
  destruct (tasks w !! g) as [[c [[[] [o|]|j]|] mc [o'|] cbs]|] eqn:E; simpl; try done.
  by eapply registered_wake.
Qed.

Lemma registered_queue_wakeup_getters self w :
  registered f (queue_wakeup_getters self w).1 = registered f w.
Proof using Hf.
  unfold queue_wakeup_getters, the_transport, bind.
  destruct (transports w !! self) as [tr|]; [|done].
  pose proof (registered_wakeup_next (q_getters (_write_queue tr)) w) as H.
  destruct (wakeup_next _ w) as [rest w']. simpl in *. by rewrite <-H.
Qed.

Lemma registered_put_nowait self item w :
  registered f (put_nowait self item w).1 = registered f w.
Proof using Hf.
  unfold put_nowait, the_transport, bind.
  destruct (transports w !! self) as [tr|]; [|done].
  destruct (q_full _); [done|].
  unfold update_transport at 1, modify. simpl.
  by rewrite registered_queue_wakeup_getters.
Qed.

Lemma registered_queue_get_interrupted self me waited w :
  registered f (queue_get_interrupted self me waited w).1 = registered f w.
Proof using Hf.
  unfold queue_get_interrupted, bind, update_transport, modify. simpl.
  remember (with_transports _ w) as w1 eqn:Ew1.
  assert (H1 : registered f w1 = registered f w) by (by subst w1).
  clear Ew1. unfold the_transport. destruct (transports w1 !! self) as [tr|]; [|done].
  destruct (q_items (_write_queue tr)); [done|].
  destruct waited as [[[] [[]| ]|]|]; simpl; try done;
    by rewrite registered_queue_wakeup_getters.
Qed.

Lemma registered_add_step j k w :
  registered f (add_done_callback j (CbStep k) w).1 = registered f w.
Proof using Hf.
  unfold add_done_callback. destruct (tasks w !! j) as [tj|] eqn:E; [|done].
  destruct (task_done tj); simpl.
  - unfold registered. simpl. rewrite count_cb_app, count_cb_cons, Hf, count_cb_nil. lia.
  - unfold registered. simpl. rewrite sum_alter_keep; [done|].
    intros x _. simpl. rewrite count_cb_app, count_cb_cons, Hf, count_cb_nil. lia.
Qed.

(** A task that ends hands its callbacks over to the loop. *)
Lemma registered_finish_task k o w :
  registered f (finish_task k o w).1 = registered f w.
Proof using Type.
  unfold finish_task. destruct (tasks w !! k) as [tk|] eqn:E; [|done].
  unfold registered. simpl. rewrite count_cb_app.
  pose proof (sum_alter (λ tk, count_cb f (done_callbacks tk))
                (λ tk, set_done_callbacks [] (set_task_state (Some o) tk)) k (tasks w) tk E)
    as Hs.
  simpl in Hs. rewrite count_cb_nil in Hs. lia.
Qed.

Lemma registered_suspend_task k c a w :
  registered f (suspend_task k c a w).1 = registered f w.
Proof using Hf.
  unfold suspend_task, bind, update_task at 1, modify. simpl.
  remember (with_tasks _ w) as w1 eqn:E1.
  assert (H1 : registered f w1 = registered f w)
    by (subst w1; by eapply registered_alter).
  clear E1. destruct a as [kind st|j].
  - unfold ret, gets. simpl.
    destruct (from_option must_cancel false (tasks w1 !! k)); [|done].
    destruct st as [o|]; [done|].
    unfold update_task, cancel_waiter, bind, modify, call_soon, update_task. simpl.
    rewrite <-H1. eapply registered_wake; [done| |].
    + simpl. by rewrite list_alter_alter_eq.
    + done.
  - pose proof (registered_add_step j k w1) as H.
    destruct (add_done_callback j (CbStep k) w1) as [w2 [[]|x]]; simpl in *; [|congruence].
    unfold gets. simpl.
    destruct (from_option must_cancel false (tasks w2 !! k)); simpl; congruence.
Qed.

Lemma registered_settle k s w : registered f (settle k s w).1 = registered f w.
Proof using Hf.
  unfold settle.
  destruct (tasks w !! k) as [[c [[[] [o|]|j]|] mc [o'|] cbs]|]; simpl; try done.
  by eapply registered_wake.
Qed.

Lemma registered_new_task c w :
  registered f (create_task c w).1 = registered f w.
Proof using Hf.
  unfold registered. simpl.
  rewrite count_cb_app, count_cb_cons, Hf, count_cb_nil, sum_list_with_app. simpl.
  unfold count_cb. simpl. lia.
Qed.
End registered.

(** ** The shutdown transition, up to its tail *)

(** [_cleanup] up to its tail: the closing flag is set and the pumps are
    cancelled, which registers and records nothing that counts. *)
Lemma cleanup_head f self e w tr :
  (∀ k, f (CbStep k) = false) →
  transports w !! self = Some tr →
  ∃ w3, _cleanup self e w = cleanup_tail self e (set_is_closing true tr) w3
        ∧ registered f w3 = registered f w
        ∧ trace w3 = trace w
        ∧ transports w3 = alter (set_is_closing true) self (transports w)
        ∧ transports w3 !! self = Some (set_is_closing true tr).
Proof.
  intros Hf Htr. rewrite (cleanup_unfold _ _ _ _ Htr).
  set (w1 := with_transports _ w).
  set (w2 := (cancel (_reader_task tr) w1).1).
  set (w3 := (cancel (_writer_task tr) w2).1).
  destruct (cancel_frame (_reader_task tr) w1) as (_&_&Ht2&Hc2&_&_).
  destruct (cancel_frame (_writer_task tr) w2) as (_&_&Ht3&Hc3&_&_).
  assert (H13 : transports w3 = alter (set_is_closing true) self (transports w)).
  { unfold w3. rewrite Ht3. unfold w2. by rewrite Ht2. }
  exists w3. split_and!; [done| | |done|].
  - unfold w3. rewrite registered_cancel by done.
    unfold w2. rewrite registered_cancel by done. done.
  - unfold w3. rewrite Hc3. unfold w2. by rewrite Hc2.
  - rewrite H13. by rewrite list_lookup_alter_eq, Htr.
Qed.

(** ** Budgets that no step increases *)

Section potential.
Variable f : callback → bool.
Variable g : event → bool.
Variable stat : list transport → nat.
Hypothesis Hf : ∀ k, f (CbStep k) = false.
Hypothesis Hg : ∀ ev, g ev = true →
  (∃ t p e, ev = EvConnectionLost t p e) ∨ (∃ p t, ev = EvConnectionMade p t).
Hypothesis Hstat : ∀ trs trs',
  (∀ t tr, trs !! t = Some tr →
     ∃ tr', trs' !! t = Some tr' ∧ (_protocol tr = None → _protocol tr' = None)) →
  stat trs' ≤ stat trs.
Hypothesis Hlost : ∀ t p e,
  g (EvConnectionLost t p e) = true → f (CbConnectionLost t p e) = true.
Hypothesis Hmade : ∀ p t,
  g (EvConnectionMade p t) = true → f (CbConnectionMade p t) = true.
Hypothesis Hcleanup : ∀ self e w,
  potential f g stat (_cleanup self e w).1 ≤ potential f g stat w.
Hypothesis Hinit : ∀ p sp w,
  potential f g stat (__init__ p sp w).1 ≤ potential f g stat w.

Local Abbreviation pot := (potential f g stat).

Lemma pot_le w w' :
  count_events g (trace w') = count_events g (trace w) →
  registered f w' = registered f w →
  tr_frame (λ _, True) w w' →
  pot w' ≤ pot w.
Proof using Hstat.
  intros Hc Hr [Ht _]. unfold potential. rewrite Hc, Hr.
  assert (stat (transports w') ≤ stat (transports w)); [|lia].
  apply Hstat. intros t tr Htr. destruct (Ht _ _ Htr) as (tr' & Htr' & _ & _ & _ & Hs & _).
  exists tr'. split; [done|]. apply Hs.
Qed.

Lemma g_off ev :
  (∀ t p e, ev ≠ EvConnectionLost t p e) → (∀ p t, ev ≠ EvConnectionMade p t) →
  g ev = false.
Proof using Hg.
  intros H1 H2. destruct (g ev) eqn:E; [|done].
  destruct (Hg _ E) as [(t & p & e & ->)|(p & t & ->)]; [by destruct (H1 t p e)|].
  by destruct (H2 p t).
Qed.

Lemma count_emits (P : event → Prop) w w' :
  emits P w w' → (∀ ev, P ev → g ev = false) →
  count_events g (trace w') = count_events g (trace w).
Proof using Type.
  intros (evs & -> & Hevs) HP. rewrite count_events_app.
  assert (count_events g evs = 0); [|lia].
  induction Hevs as [|ev evs Hev _ IH]; [done|].
  rewrite count_events_cons, (HP _ Hev), IH. done.
Qed.

Lemma pot_call {A} (m : M A) w : pot (call m w) = pot (m w).1.
Proof using Hg.
  unfold call. destruct (m w) as [w' [a|e]]; simpl; [done|].
  unfold potential. simpl. rewrite count_events_snoc, g_off by done.
  unfold registered. simpl. lia.
Qed.

Lemma pot_writer_failed self e w : pot (writer_failed self e w).1 ≤ pot w.
Proof using Hcleanup.
  unfold writer_failed, bind. pose proof (Hcleanup self (Some e) w) as H.
  by destruct (_cleanup self (Some e) w) as [w' [[]|x]].
Qed.

Lemma pot_queue_alter (h : transport → transport) self w :
  (∀ tr, tr_touch True tr (h tr)) →
  pot (with_transports (alter h self (transports w)) w) ≤ pot w.
Proof using Hstat.
  intros Hh. apply pot_le; [done|done|]. by eapply tr_frame_alter.
Qed.

Lemma pot_writer_iteration self me w : pot (writer_iteration self me w).1 ≤ pot w.
Proof using Hstat Hg Hcleanup.
  unfold writer_iteration, queue_get, the_transport, bind.
  destruct (transports w !! self) as [tr|] eqn:Htr; [|done].
  destruct (q_items (_write_queue tr)) as [|item rest] eqn:Hq.
  - apply pot_queue_alter. intros tr0. by repeat split.
  - unfold update_transport, modify, ret. simpl.
    remember (with_transports _ w) as w1 eqn:Ew1.
    assert (H1 : pot w1 ≤ pot w).
    { subst w1. apply pot_queue_alter. intros tr0. by repeat split. }
    clear Ew1. unfold try_except, js_write, the_transport, bind.
    pose proof (pot_writer_failed self AttributeError w1) as H2.
    destruct (transports w1 !! self) as [tr1|]; simpl.
    + destruct (_js_writer tr1); simpl.
      * etrans; [|exact H1]. unfold potential, registered. simpl.
        rewrite count_events_snoc, g_off by done. lia.
      * destruct (writer_failed self AttributeError w1) as [w2 r2]. simpl in *.
        etrans; [|exact H1]. by destruct r2.
    + destruct (writer_failed self AttributeError w1) as [w2 r2]. simpl in *.
      etrans; [|exact H1]. by destruct r2.
Qed.

Lemma pot_queue_get_interrupted self me waited w :
  pot (queue_get_interrupted self me waited w).1 ≤ pot w.
Proof using Hstat Hf.
  apply pot_le.
  - by rewrite queue_get_interrupted_trace.
  - by apply registered_queue_get_interrupted.
  - by apply tr_frame_queue_get_interrupted.
Qed.

Lemma pot_put_nowait self item w : pot (put_nowait self item w).1 ≤ pot w.
Proof using Hstat Hf.
  apply pot_le.
  - by rewrite put_nowait_trace.
  - by apply registered_put_nowait.
  - by apply tr_frame_put_nowait.
Qed.

Lemma pot_emit ev w : g ev = false → pot (with_trace (trace w ++ [ev]) w) = pot w.
Proof using Type.
  intros Hev. unfold potential, registered. simpl.
  rewrite count_events_snoc, Hev. lia.
Qed.

Lemma pot_js_read self w : pot (js_read self w).1 = pot w.
Proof using Hg.
  unfold js_read, the_transport, bind.
  destruct (transports w !! self) as [tr|]; [|done].
  destruct (_js_reader tr); [|done]. simpl. by apply pot_emit, g_off.
Qed.

Lemma pot_data_received self data w : pot (data_received self data w).1 = pot w.
Proof using Hg.
  unfold data_received, the_transport, bind.
  destruct (transports w !! self) as [tr|]; [|done].
  destruct (_protocol tr); [|done]. simpl. by apply pot_emit, g_off.
Qed.

Lemma pot_await_closing_tasks stack w : pot (await_closing_tasks stack w).1 = pot w.
Proof using Hg.
  destruct (await_closing_tasks_frame stack w) as (Ht & Htr & Hr & _).
  unfold potential, registered. simpl in *. rewrite Ht, Htr, Hr.
  rewrite (count_emits _ _ _ (await_closing_tasks_emits stack w)); [done|].
  intros ev [m ->]. by apply g_off.
Qed.

Lemma pot_run_coro me c waited r w : pot (run_coro me c waited r w).1 ≤ pot w.
Proof using All.
  destruct c as [self pc|self pc|owner pt pc|a pc]; simpl.
  - destruct pc, r as [v|e]; simpl; try done; try apply pot_writer_iteration.
    + unfold bind. pose proof (pot_queue_get_interrupted self me waited w) as H'.
      destruct (queue_get_interrupted self me waited w) as [w' [[]|x]]; by apply H'.
    + unfold try_except, raise. destruct (is_Exception e); [|done].
      pose proof (pot_writer_failed self e w) as H'.
      by destruct (writer_failed self e w) as [w' [y|x]].
  - destruct pc, r as [v|e]; simpl; try done; try (by rewrite pot_js_read).
    destruct v as [|dn val|]; simpl; try done.
    destruct dn; unfold bind.
    { pose proof (Hcleanup self (Some (RuntimeError "Other side has closed")) w) as H.
      by destruct (_cleanup self _ w) as [w' [[]|x]]. }
    pose proof (pot_data_received self val w) as Hd.
    destruct (data_received self val w) as [w' [[]|x]]; simpl in *.
    + rewrite pot_js_read. lia.
    + lia.
  - destruct pc, r; simpl; try done.
    + unfold potential, registered. simpl.
      rewrite !count_events_snoc, !g_off by done. lia.
    + unfold potential, registered. simpl.
      rewrite !count_events_snoc, !g_off by done. lia.
  - assert (Hw : pot (wait_then_open a w).1 ≤ pot w).
    { unfold wait_then_open, bind, gets.
      pose proof (pot_await_closing_tasks (reverse (_SERIAL_PORT_CLOSING_TASKS w)) w) as Hp.
      destruct (await_closing_tasks _ w) as [w' [[k|]|e]]; simpl in *; try lia.
      unfold open_serial_port, bind, gets, emit, modify, ret, raise.
      destruct (_SERIAL_PORT w'); simpl; [|lia].
      rewrite pot_emit by (by apply g_off). lia. }
    destruct pc, r; simpl; try done.
    unfold bind, gets.
    pose proof (Hinit (protocol_factory a) (_SERIAL_PORT w) w).
    by destruct (__init__ _ _ w) as [w' [x|e]].
Qed.

Lemma pot_finish_task k o w : pot (finish_task k o w).1 = pot w.
Proof using Type.
  unfold potential.
  by rewrite finish_task_trace, finish_task_transports, registered_finish_task.
Qed.

Lemma suspend_task_transports k c a w : transports (suspend_task k c a w).1 = transports w.
Proof using Type.
  unfold suspend_task, bind, update_task at 1, modify. simpl.
  remember (with_tasks _ w) as w1 eqn:E1.
  assert (H1 : transports w1 = transports w) by (by subst w1).
  clear E1. destruct a as [kind st|j].
  - unfold ret, gets. simpl.
    destruct (from_option must_cancel false (tasks w1 !! k)); [|done].
    by destruct st as [o|].
  - destruct (add_done_callback_frame j (CbStep k) w1) as (Ht & _).
    destruct (add_done_callback j (CbStep k) w1) as [w2 [[]|x]]; simpl in *; [|congruence].
    unfold gets. simpl.
    destruct (from_option must_cancel false (tasks w2 !! k)); simpl; congruence.
Qed.

Lemma pot_suspend_task k c a w : pot (suspend_task k c a w).1 = pot w.
Proof using Hf.
  unfold potential.
  by rewrite suspend_task_trace, suspend_task_transports, registered_suspend_task.
Qed.

Lemma pot_task_step k w : pot (task_step k w).1 ≤ pot w.
Proof using All.
  unfold task_step. destruct (tasks w !! k) as [tk|] eqn:Hk; [|done].
  destruct (task_done tk); [done|].
  destruct (resume_value w tk) as [r|]; [|done].
  remember (with_tasks _ w) as w1 eqn:E1.
  assert (H1 : pot w1 = pot w).
  { subst w1. unfold potential. simpl. f_equal. f_equal.
    by eapply registered_alter. }
  clear E1.
  pose proof (pot_run_coro k (task_coro tk) (fut_waiter tk) r w1) as H.
  destruct (run_coro k (task_coro tk) (fut_waiter tk) r w1) as [w2 res]. simpl in *.
  destruct res as [[c a|v]|e].
  - rewrite pot_suspend_task. lia.
  - destruct (from_option must_cancel false (tasks w2 !! k)).
    + unfold bind, update_task, modify. simpl. rewrite pot_finish_task.
      assert (pot (with_tasks (alter (set_must_cancel false) k (tasks w2)) w2) = pot w2);
        [|lia].
      unfold potential. simpl. f_equal. f_equal. by eapply registered_alter.
    + rewrite pot_finish_task. lia.
  - destruct e; rewrite pot_finish_task; lia.
Qed.

Lemma pot_pop cb rest w :
  ready w = cb :: rest →
  pot (with_ready rest w) + (if f cb then 1 else 0) = pot w.
Proof using Type.
  intros Hr. unfold potential, registered. simpl. rewrite Hr, count_cb_cons. lia.
Qed.

(** No action increases the budget, unless it is a call of [set_protocol]
    that does. *)
Lemma pot_step a w :
  (∀ t p, a = Call_set_protocol t p →
     stat (alter (set_protocol_field (Some p)) t (transports w)) ≤ stat (transports w)) →
  pot (step a w) ≤ pot w.
Proof using All.
  intros Hset. destruct a as [pt|a|t0 data|t0|t0 p|t0| |k st]; simpl.
  - by rewrite pot_call.
  - rewrite pot_call. unfold potential. simpl trace. simpl transports.
    by rewrite registered_new_task.
  - rewrite pot_call. unfold the_transport, bind at 1.
    destruct (transports w !! t0); [|done].
    unfold bind, emit, modify, write. simpl.
    etrans; [apply pot_put_nowait|]. by rewrite pot_emit by (by apply g_off).
  - rewrite pot_call. apply Hcleanup.
  - rewrite pot_call. specialize (Hset t0 p eq_refl).
    unfold potential, registered. simpl. lia.
  - rewrite pot_call. apply Hcleanup.
  - destruct (ready w) as [|cb rest] eqn:Hr; [done|].
    pose proof (pot_pop cb rest w Hr) as Hpop.
    unfold run_handle.
    assert (H : pot (run_callback cb (with_ready rest w)).1 ≤ pot w).
    { destruct cb as [k|p t0|t0 p e|k]; simpl.
      - etrans; [apply pot_task_step|]. lia.
      - unfold potential, registered in *. simpl in *. rewrite count_events_snoc.
        destruct (g (EvConnectionMade p t0)) eqn:E; [rewrite (Hmade _ _ E) in Hpop|]; lia.
      - unfold potential, registered in *. simpl in *. rewrite count_events_snoc.
        destruct (g (EvConnectionLost t0 p e)) eqn:E; [rewrite (Hlost _ _ _ E) in Hpop|]; lia.
      - unfold remove_closing_task, bind, gets. simpl.
        case_bool_decide; simpl; unfold potential, registered in *; simpl in *; lia. }
    destruct (run_callback cb (with_ready rest w)) as [w' [[]|e]]; simpl in *; [done|].
    etrans; [|exact H]. by rewrite pot_emit by (by apply g_off).
  - rewrite pot_call. unfold potential. rewrite registered_settle by done.
    unfold settle.
    destruct (tasks w !! k) as [[c [[[] [o|]|j]|] mc [o'|] cbs]|]; simpl; try done.
    rewrite count_events_snoc, g_off; [lia| |]; by destruct c.
Qed.

Lemma pot_run sched w :
  Forall (λ a, ∀ t p trs, a = Call_set_protocol t p →
            stat (alter (set_protocol_field (Some p)) t trs) ≤ stat trs) sched →
  pot (run sched w) ≤ pot w.
Proof using All.
  intros Hs. revert w. induction Hs as [|a sched Ha _ IH]; intros w; simpl; [done|].
  etrans; [apply IH|]. apply pot_step. intros t p ->. by eapply Ha.
Qed.
End potential.


(** ** The closes that are still to come *)

Lemma starting_close_keep t tk tk' :
  task_coro tk' = task_coro tk → task_state tk' = task_state tk →
  starting_close t tk' = starting_close t tk.
Proof. unfold starting_close. by intros -> ->. Qed.

Lemma due_eq t w w' :
  tasks w' = tasks w → transports w' = transports w → closes_due t w' = closes_due t w.
Proof. unfold closes_due. by intros -> ->. Qed.

Lemma due_alter t w w' (h : task → task) k :
  tasks w' = alter h k (tasks w) → transports w' = transports w →
  (∀ tk, task_coro (h tk) = task_coro tk ∧ task_state (h tk) = task_state tk) →
  closes_due t w' = closes_due t w.
Proof.
  unfold closes_due. intros -> -> Hh. rewrite sum_alter_keep; [done|].
  intros x _. by apply starting_close_keep; apply Hh.
Qed.

Lemma closable_alter t (h : transport → transport) self trs :
  (∀ tr, _port (h tr) = _port tr) → closable t (alter h self trs) = closable t trs.
Proof.
  intros Hh. unfold closable. rewrite list_lookup_alter.
  destruct (decide (self = t)) as [<-|]; [|done].
  destruct (trs !! self) as [tr|]; simpl; [|done]. by rewrite Hh.
Qed.

Lemma due_alter_tr t w w' (h : transport → transport) self :
  tasks w' = tasks w → transports w' = alter h self (transports w) →
  (∀ tr, _port (h tr) = _port tr) →
  closes_due t w' = closes_due t w.
Proof. unfold closes_due. intros -> -> Hh. by rewrite closable_alter. Qed.

Lemma due_task_cancel t d k w : closes_due t (task_cancel d k w).1 = closes_due t w.
Proof.
  revert k w. induction d as [|d IH]; intros k w; simpl.
  - destruct (tasks w !! k) as [tk|]; [|done].
    destruct (task_done tk); [done|].
    destruct (fut_waiter tk) as [[kind [o|]|j]|]; simpl; by eapply due_alter.
  - destruct (tasks w !! k) as [tk|]; [|done].
    destruct (task_done tk); [done|].
    destruct (fut_waiter tk) as [[kind [o|]|j]|]; simpl; try (by eapply due_alter).
    specialize (IH j w).
    destruct (task_cancel d j w) as [w1 [[]|e]] eqn:E; simpl in *; try done;
      rewrite <-IH; by eapply due_alter.
Qed.

Lemma due_cancel t k w : closes_due t (cancel k w).1 = closes_due t w.
Proof. unfold cancel, bind, gets. simpl. apply due_task_cancel. Qed.

Lemma closing_task_starting t self e tr k :
  sum_list_with (starting_close t) (closing_task_of self e tr k)
  = if decide (t = self) then (if _port tr is Some _ then 1 else 0) else 0.
Proof.
  unfold closing_task_of, starting_close.
  destruct (_port tr); simpl; repeat case_decide; simpl; try done; congruence.
Qed.

(** A shutdown turns the port that can be closed into a close that is
    about to start, or leaves both as they are. *)
Lemma due_cleanup t self e w : closes_due t (_cleanup self e w).1 = closes_due t w.
Proof.
  destruct (transports w !! self) as [tr|] eqn:Htr.
  2:{ unfold _cleanup, bind, update_transport, modify, the_transport. simpl.
      rewrite list_lookup_alter_eq, Htr. simpl.
      unfold closes_due. simpl. by rewrite alter_None. }
  rewrite (cleanup_unfold _ _ _ _ Htr).
  set (w1 := with_transports _ w).
  set (w2 := (cancel (_reader_task tr) w1).1).
  set (w3 := (cancel (_writer_task tr) w2).1).
  destruct (cancel_frame (_reader_task tr) w1) as (_&_&Ht2&_&_&_).
  destruct (cancel_frame (_writer_task tr) w2) as (_&_&Ht3&_&_&_).
  assert (H3 : transports w3 !! self = Some (set_is_closing true tr)).
  { unfold w3. rewrite Ht3. unfold w2. rewrite Ht2. unfold w1. simpl.
    by rewrite list_lookup_alter_eq, Htr. }
  assert (H0 : closes_due t w3 = closes_due t w).
  { unfold w3. rewrite due_cancel. unfold w2. rewrite due_cancel.
    by eapply (due_alter_tr t w w1). }
  rewrite <-H0. clear H0.
  assert (Hlt : self < length (transports w3)) by (by eapply lookup_lt_Some).
  destruct (cleanup_tail_cases self e _ w3 H3) as [Hrel|(X&evs&x&->&_&HpX&_)].
  - rewrite (cleanup_tail_ok _ _ _ _ H3 Hrel).
    unfold closes_due. simpl. rewrite sum_list_with_app, closing_task_starting.
    unfold closable. simpl. destruct (decide (t = self)) as [->|Hne].
    + rewrite list_lookup_insert_eq by done. rewrite H3. simpl.
      destruct (_port tr); simpl; lia.
    + rewrite list_lookup_insert_ne by done. lia.
  - unfold closes_due, closable. simpl. destruct (decide (t = self)) as [->|Hne].
    + rewrite list_lookup_insert_eq by done. rewrite H3, HpX. simpl. lia.
    + by rewrite list_lookup_insert_ne.
Qed.

Lemma due_wakeup_next t getters w : closes_due t (wakeup_next getters w).2 = closes_due t w.
Proof.
  induction getters as [|g rest IH]; simpl; [done|].
  destruct (tasks w !! g) as [[c [[[] [o|]|j]|] mc [o'|] cbs]|] eqn:E; simpl; try done.
  by eapply due_alter.
Qed.

Lemma due_queue_wakeup_getters t self w :
  closes_due t (queue_wakeup_getters self w).1 = closes_due t w.
Proof.
  unfold queue_wakeup_getters, the_transport, bind.
  destruct (transports w !! self) as [tr|]; [|done].
  pose proof (due_wakeup_next t (q_getters (_write_queue tr)) w) as H.
  destruct (wakeup_next _ w) as [rest w']. simpl in *. rewrite <-H.
  by eapply due_alter_tr.
Qed.

Lemma due_put_nowait t self item w : closes_due t (put_nowait self item w).1 = closes_due t w.
Proof.
  unfold put_nowait, the_transport, bind.
  destruct (transports w !! self) as [tr|]; [|done].
  destruct (q_full _); [done|].
  unfold update_transport at 1, modify. simpl.
  rewrite due_queue_wakeup_getters. by eapply due_alter_tr.
Qed.

Lemma due_queue_get_interrupted t self me waited w :
  closes_due t (queue_get_interrupted self me waited w).1 = closes_due t w.
Proof.
  unfold queue_get_interrupted, bind, update_transport, modify. simpl.
  remember (with_transports _ w) as w1 eqn:Ew1.
  assert (H1 : closes_due t w1 = closes_due t w) by (subst w1; by eapply due_alter_tr).
  clear Ew1. unfold the_transport. destruct (transports w1 !! self) as [tr|]; [|done].
  destruct (q_items (_write_queue tr)); [done|].
  destruct waited as [[[] [[]| ]|]|]; simpl; try done;
    by rewrite due_queue_wakeup_getters.
Qed.

Lemma due_writer_failed t self e w : closes_due t (writer_failed self e w).1 = closes_due t w.
Proof.
  unfold writer_failed, bind. pose proof (due_cleanup t self (Some e) w) as H.
  by destruct (_cleanup self (Some e) w) as [w' [[]|x]].
Qed.

Lemma due_writer_iteration t self me w :
  closes_due t (writer_iteration self me w).1 = closes_due t w.
Proof.
  unfold writer_iteration, queue_get, the_transport, bind.
  destruct (transports w !! self) as [tr|] eqn:Htr; [|done].
  destruct (q_items (_write_queue tr)) as [|item rest] eqn:Hq.
  - by eapply due_alter_tr.
  - unfold update_transport, modify, ret. simpl.
    remember (with_transports _ w) as w1 eqn:Ew1.
    assert (H1 : closes_due t w1 = closes_due t w) by (subst w1; by eapply due_alter_tr).
    clear Ew1. unfold try_except, js_write, the_transport, bind.
    pose proof (due_writer_failed t self AttributeError w1) as H2.
    destruct (transports w1 !! self) as [tr1|]; simpl.
    + destruct (_js_writer tr1); simpl; [done|].
      destruct (writer_failed self AttributeError w1) as [w2 r2]. simpl in *.
      destruct r2; simpl; congruence.
    + destruct (writer_failed self AttributeError w1) as [w2 r2]. simpl in *.
      destruct r2; simpl; congruence.
Qed.

Lemma closable_app t trs tr :
  is_Some (_port tr) → closable t (trs ++ [tr]) = closable t trs.
Proof.
  intros [pt Hpt]. unfold closable. destruct (trs !! t) as [tr0|] eqn:E.
  - by rewrite (lookup_app_l_Some _ _ _ _ E).
  - apply lookup_ge_None in E. destruct (decide (t = length trs)) as [->|Hne].
    + by rewrite lookup_snoc, Hpt.
    + by rewrite lookup_ge_None_2 by (rewrite length_app; simpl; lia).
Qed.

Lemma due_init t p sp w : closes_due t (__init__ p sp w).1 = closes_due t w.
Proof.
  destruct sp as [pt|]; [|done]. simpl.
  unfold closes_due. simpl. rewrite !sum_list_with_app. simpl.
  rewrite closable_app by (by eexists). unfold starting_close. simpl. lia.
Qed.

Lemma due_run_coro t me c waited r w :
  closes_due t (run_coro me c waited r w).1 = closes_due t w.
Proof.
  destruct c as [self pc|self pc|owner pt pc|a pc]; simpl.
  - destruct pc, r as [v|e]; simpl; try done; try apply due_writer_iteration.
    + unfold bind. pose proof (due_queue_get_interrupted t self me waited w) as H'.
      by destruct (queue_get_interrupted self me waited w) as [w' [[]|x]].
    + unfold try_except, raise. destruct (is_Exception e); [|done].
      pose proof (due_writer_failed t self e w) as H'.
      by destruct (writer_failed self e w) as [w' [y|x]].
  - assert (Hread : ∀ w0, closes_due t (js_read self w0).1 = closes_due t w0).
    { intros w0. destruct (js_read_frame self w0) as (? & ? & _). by apply due_eq. }
    destruct pc, r as [v|e]; simpl; try done.
    destruct v as [|dn val|]; simpl; try done.
    destruct dn; unfold bind.
    { pose proof (due_cleanup t self (Some (RuntimeError "Other side has closed")) w) as H.
      by destruct (_cleanup self _ w) as [w' [[]|x]]. }
    destruct (data_received_frame self val w) as [Hts Htr].
    destruct (data_received self val w) as [w' [[]|x]]; simpl in *.
    + rewrite Hread. by apply due_eq.
    + by apply due_eq.
  - destruct pc, r; done.
  - assert (Hw : closes_due t (wait_then_open a w).1 = closes_due t w).
    { unfold wait_then_open, bind, gets.
      destruct (await_closing_tasks_frame (reverse (_SERIAL_PORT_CLOSING_TASKS w)) w)
        as (Hts & Htr & _).
      destruct (await_closing_tasks _ w) as [w' [[k|]|e]]; simpl in *;
        try (by apply due_eq).
      unfold open_serial_port, bind, gets, emit, modify, ret, raise.
      destruct (_SERIAL_PORT w'); simpl; by apply due_eq. }
    destruct pc, r; simpl; try done.
    unfold bind, gets.
    pose proof (due_init t (protocol_factory a) (_SERIAL_PORT w) w).
    by destruct (__init__ _ _ w) as [w' [x|e]].
Qed.

Lemma due_add_done_callback t j cb w :
  closes_due t (add_done_callback j cb w).1 = closes_due t w.
Proof.
  unfold add_done_callback. destruct (tasks w !! j) as [tj|] eqn:E; [|done].
  destruct (task_done tj); simpl; [done|]. by eapply due_alter.
Qed.

(** A task that is suspended or ends is no close that is about to start. *)
Lemma due_suspend_task t k c a w tk :
  tasks w !! k = Some tk → (∀ o pt, c ≠ ClosePort o pt CStart) →
  closes_due t (suspend_task k c a w).1 + starting_close t tk = closes_due t w.
Proof.
  intros Hk Hc. unfold suspend_task, bind, update_task at 1, modify. simpl.
  remember (with_tasks _ w) as w1 eqn:E1.
  assert (H1 : closes_due t w1 + starting_close t tk = closes_due t w).
  { subst w1. unfold closes_due. simpl.
    pose proof (sum_alter (starting_close t)
                  (λ tk, set_fut_waiter (Some a) (set_task_coro c tk)) k (tasks w) tk Hk) as Hs.
    assert (H0 : starting_close t (set_fut_waiter (Some a) (set_task_coro c tk)) = 0).
    { unfold starting_close. simpl. destruct c as [| |o pt []|]; try done.
      by destruct (Hc o pt). }
    cbv beta in Hs. rewrite H0 in Hs. lia. }
  clear E1. destruct a as [kind st|j].
  - unfold ret, gets. simpl.
    destruct (from_option must_cancel false (tasks w1 !! k)); [|done].
    destruct st as [o|]; [done|].
    unfold update_task, cancel_waiter, bind, modify, call_soon, update_task. simpl.
    rewrite <-H1. f_equal. eapply due_alter; [|done|].
    + simpl. by rewrite list_alter_alter_eq.
    + done.
  - pose proof (due_add_done_callback t j (CbStep k) w1) as H.
    destruct (add_done_callback j (CbStep k) w1) as [w2 [[]|x]]; simpl in *; [|lia].
    unfold gets. simpl.
    destruct (from_option must_cancel false (tasks w2 !! k)); simpl; lia.
Qed.

Lemma due_finish_task t k o w tk :
  tasks w !! k = Some tk →
  closes_due t (finish_task k o w).1 + starting_close t tk = closes_due t w.
Proof.
  intros Hk. unfold finish_task. rewrite Hk. unfold closes_due. simpl.
  pose proof (sum_alter (starting_close t)
                (λ tk, set_done_callbacks [] (set_task_state (Some o) tk)) k (tasks w) tk Hk)
    as Hs.
  assert (H0 : starting_close t (set_done_callbacks [] (set_task_state (Some o) tk)) = 0).
  { unfold starting_close. simpl. by destruct (task_coro tk) as [| |? ? []|]. }
  cbv beta in Hs. rewrite H0 in Hs. lia.
Qed.

Lemma due_settle t k s w : closes_due t (settle k s w).1 = closes_due t w.
Proof.
  unfold settle.
  destruct (tasks w !! k) as [[c [[[] [o|]|j]|] mc [o'|] cbs]|]; simpl; try done.
  by eapply due_alter.
Qed.

(** ** The closes made *)

Lemma closes_count t tr : count_events (is_close_ev t) tr = length (device_closes t tr).
Proof.
  induction tr as [|ev tr IH]; [done|].
  rewrite count_events_cons, IH. unfold device_closes. simpl.
  destruct ev; simpl; try done.
  case_bool_decide; case_decide; simpl; done.
Qed.

Lemma closes_emits t (P : event → Prop) w w' :
  emits P w w' → (∀ ev, P ev → is_close_ev t ev = false) →
  count_events (is_close_ev t) (trace w') = count_events (is_close_ev t) (trace w).
Proof. apply count_emits. Qed.

Lemma cleanup_ev_no_close self t ev : cleanup_ev self ev → is_close_ev t ev = false.
Proof. by intros []. Qed.

(** Only a close that is about to start calls [port.close()], once. *)
Lemma closes_run_coro t me c waited r w :
  count_events (is_close_ev t) (trace (run_coro me c waited r w).1)
  ≤ count_events (is_close_ev t) (trace w) + starting_close t (Task c None false None []).
Proof.
  destruct c as [self pc|self pc|owner pt pc|a pc].
  - rewrite (closes_emits t _ _ _ (run_coro_emits me (WriterLoop self pc) waited r w));
      [lia|].
    intros ev [[d ->]|Hev]; [done|by eapply cleanup_ev_no_close].
  - rewrite (closes_emits t _ _ _ (run_coro_emits me (ReaderLoop self pc) waited r w));
      [lia|].
    intros ev [->|[(p & d & ->)|Hev]]; [done|done|by eapply cleanup_ev_no_close].
  - destruct pc, r as [v|x]; simpl; rewrite ?count_events_snoc; simpl; try lia.
    unfold starting_close. simpl. case_bool_decide; case_decide; simpl; try lia; congruence.
  - rewrite (closes_emits t _ _ _ (run_coro_emits me (CreateConn a pc) waited r w)); [lia|].
    intros ev [[m ->]|[[pt ->]|[t0 [->| ->]]]]; done.
Qed.

Lemma budget_call {A} t (m : M A) w : closes_budget t (call m w) = closes_budget t (m w).1.
Proof.
  unfold call. destruct (m w) as [w' [a|e]]; simpl; [done|].
  unfold closes_budget, closes_due. simpl. rewrite count_events_snoc. simpl. lia.
Qed.

(** One step of a task does not increase the budget: if it calls
    [port.close()], it was a close about to start and is none afterwards. *)
Lemma budget_task_step t k w :
  wf w → closes_budget t (task_step k w).1 ≤ closes_budget t w.
Proof.
  intros Hwf. unfold task_step. destruct (tasks w !! k) as [tk|] eqn:Hk; [|done].
  destruct (task_done tk) eqn:Hd; [done|].
  destruct (resume_value w tk) as [r|]; [|done].
  set (w1 := with_tasks (alter (λ tk, set_fut_waiter None (set_must_cancel false tk))
                           k (tasks w)) w).
  assert (H1 : wf_but (Some k) w1).
  { eapply (wf_alter_task (Some k) w _ _ k); [done|done| |by apply wf_weaken].
    intros tk0 Htk0. split_and!; [apply same_kind_refl|done|done]. }
  assert (Hk1 : tasks w1 !! k = Some (set_fut_waiter None (set_must_cancel false tk))).
  { unfold w1. simpl. by rewrite list_lookup_alter_eq, Hk. }
  assert (Hd1 : closes_due t w1 = closes_due t w) by (by eapply (due_alter t w w1)).
  pose proof (frame_run_coro (Some k) k (task_coro tk) (fut_waiter tk) r w1 H1) as Hfr.
  pose proof (closes_run_coro t k (task_coro tk) (fut_waiter tk) r w1) as Hev.
  pose proof (due_run_coro t k (task_coro tk) (fut_waiter tk) r w1) as Hdue.
  destruct (wf_run_coro (Some k) k (task_coro tk) (fut_waiter tk) r w1 H1) as (_ & Hy & _).
  destruct (run_coro k (task_coro tk) (fut_waiter tk) r w1) as [w2 res]. simpl in *.
  destruct (proj1 Hfr k _ ltac:(done) Hk1) as (tk2 & Hk2 & Hn2).
  assert (Hst : task_state tk = None) by (by apply not_done_pending).
  assert (Hm2 : starting_close t tk2 = starting_close t tk).
  { apply starting_close_keep.
    - by rewrite (nudged_coro _ _ Hn2).
    - by rewrite (nudged_state _ _ Hn2). }
  assert (Hm0 : starting_close t (Task (task_coro tk) None false None [])
                = starting_close t tk).
  { unfold starting_close. simpl. by rewrite Hst. }
  rewrite Hm0 in Hev.
  unfold closes_budget.
  destruct res as [[c a|v]|e].
  - rewrite suspend_task_trace.
    assert (Hc : ∀ o pt, c ≠ ClosePort o pt CStart).
    { intros o pt ->. destruct Hy as [_ Hy]. unfold await_ok, shape_ok in Hy. simpl in Hy.
      done. }
    pose proof (due_suspend_task t k c a w2 tk2 Hk2 Hc). lia.
  - destruct (from_option must_cancel false (tasks w2 !! k)).
    + unfold bind, update_task, modify. simpl. rewrite finish_task_trace. simpl.
      set (w2' := with_tasks (alter (set_must_cancel false) k (tasks w2)) w2).
      assert (Hk2' : tasks w2' !! k = Some (set_must_cancel false tk2)).
      { unfold w2'. simpl. by rewrite list_lookup_alter_eq, Hk2. }
      pose proof (due_finish_task t k OCancelled w2' _ Hk2') as Hfin.
      assert (closes_due t w2' = closes_due t w2) by (by eapply (due_alter t w2 w2')).
      assert (starting_close t (set_must_cancel false tk2) = starting_close t tk2)
        by (by apply starting_close_keep).
      lia.
    + rewrite finish_task_trace.
      pose proof (due_finish_task t k (OResult v) w2 tk2 Hk2). lia.
  - assert (Hfin : ∀ o, count_events (is_close_ev t) (trace (finish_task k o w2).1)
                        + closes_due t (finish_task k o w2).1
                        ≤ count_events (is_close_ev t) (trace w) + closes_due t w).
    { intros o. rewrite finish_task_trace.
      pose proof (due_finish_task t k o w2 tk2 Hk2). lia. }
    destruct e; apply Hfin.
Qed.

(** No action increases the budget. *)
Lemma budget_step t a w : wf w → closes_budget t (step a w) ≤ closes_budget t w.
Proof.
  intros Hwf. destruct a as [pt|a|t0 data|t0|t0 p|t0| |k st]; simpl.
  - by rewrite budget_call.
  - rewrite budget_call. unfold closes_budget, closes_due. simpl.
    rewrite sum_list_with_app. simpl. lia.
  - rewrite budget_call. unfold the_transport, bind at 1.
    destruct (transports w !! t0); [|done].
    unfold bind, emit, modify, write. simpl.
    unfold closes_budget. rewrite put_nowait_trace, due_put_nowait. simpl.
    rewrite count_events_snoc. simpl. unfold closes_due. simpl. lia.
  - rewrite budget_call. unfold closes_budget, close.
    rewrite due_cleanup, (closes_emits t _ _ _ (cleanup_emits t0 None w)); [done|].
    apply cleanup_ev_no_close.
  - rewrite budget_call. unfold closes_budget. simpl.
    by rewrite (due_alter_tr t w _ (set_protocol_field (Some p)) t0).
  - rewrite budget_call. unfold closes_budget, __del__.
    rewrite due_cleanup, (closes_emits t _ _ _ (cleanup_emits t0 _ w)); [done|].
    apply cleanup_ev_no_close.
  - destruct (ready w) as [|cb rest] eqn:Hr; [done|].
    assert (Hwf' : wf (with_ready rest w)) by (by apply (wf_same None w)).
    assert (Hpop : closes_budget t (with_ready rest w) = closes_budget t w) by done.
    unfold run_handle.
    assert (H : closes_budget t (run_callback cb (with_ready rest w)).1 ≤ closes_budget t w).
    { rewrite <-Hpop. destruct cb as [k|p t0|t0 p e|k]; simpl.
      - by apply budget_task_step.
      - unfold closes_budget, closes_due. simpl. rewrite count_events_snoc. simpl. lia.
      - unfold closes_budget, closes_due. simpl. rewrite count_events_snoc. simpl. lia.
      - unfold remove_closing_task, bind, gets. simpl. case_bool_decide; done. }
    destruct (run_callback cb (with_ready rest w)) as [w' [[]|e]]; simpl in *; [done|].
    etrans; [|exact H]. unfold closes_budget, closes_due. simpl.
    rewrite count_events_snoc. simpl. lia.
  - rewrite budget_call. unfold closes_budget. rewrite due_settle.
    unfold settle.
    destruct (tasks w !! k) as [[c [[[] [o|]|j]|] mc [o'|] cbs]|]; simpl; try done.
    rewrite count_events_snoc.
    assert (is_close_ev t (settle_event c (outcome_of_settlement st)) = false) as ->
      by (by destruct c).
    lia.
Qed.

Lemma budget_run t sched w : wf w → closes_budget t (run sched w) ≤ closes_budget t w.
Proof.
  revert w. induction sched as [|a sched IH]; intros w Hwf; simpl; [done|].
  etrans; [apply IH; by apply step_wf|]. by apply budget_step.
Qed.


(** ** The ready queue grows at its end *)

Lemma enq_refl P w : enqueues P w w.
Proof. exists []. by rewrite app_nil_r. Qed.

Lemma enq_same P w w' : ready w' = ready w → enqueues P w w'.
Proof. intros H. exists []. by rewrite app_nil_r. Qed.

Lemma enq_trans P w1 w2 w3 : enqueues P w1 w2 → enqueues P w2 w3 → enqueues P w1 w3.
Proof.
  intros (a1 & H1 & F1) (a2 & H2 & F2). exists (a1 ++ a2).
  split; [by rewrite H2, H1, app_assoc|by apply Forall_app].
Qed.

Lemma enq_one (P : callback → Prop) w w' cb :
  ready w' = ready w ++ [cb] → P cb → enqueues P w w'.
Proof. intros H HP. exists [cb]. split; [done|by repeat constructor]. Qed.

Lemma wake_step k : wake_cb (CbStep k).
Proof. left. eauto. Qed.

Lemma enq_task_cancel d k w : enqueues wake_cb w (task_cancel d k w).1.
Proof.
  revert k w. induction d as [|d IH]; intros k w; simpl.
  - destruct (tasks w !! k) as [tk|]; [|apply enq_refl].
    destruct (task_done tk); [apply enq_refl|].
    destruct (fut_waiter tk) as [[kind [o|]|j]|]; simpl;
      try (by apply enq_same); by eapply enq_one; [|apply wake_step].
  - destruct (tasks w !! k) as [tk|]; [|apply enq_refl].
    destruct (task_done tk); [apply enq_refl|].
    destruct (fut_waiter tk) as [[kind [o|]|j]|]; simpl;
      try (by apply enq_same); try (by eapply enq_one; [|apply wake_step]).
    specialize (IH j w).
    destruct (task_cancel d j w) as [w1 [[]|e]] eqn:E; simpl in *; try done;
      (eapply enq_trans; [exact IH|]; by apply enq_same).
Qed.

Lemma enq_cancel k w : enqueues wake_cb w (cancel k w).1.
Proof. unfold cancel, bind, gets. simpl. apply enq_task_cancel. Qed.

Lemma enq_cleanup self e w : enqueues wake_cb w (_cleanup self e w).1.
Proof.
  destruct (transports w !! self) as [tr|] eqn:Htr.
  2:{ unfold _cleanup, bind, update_transport, modify, the_transport. simpl.
      rewrite list_lookup_alter_eq, Htr. simpl. by apply enq_same. }
  rewrite (cleanup_unfold _ _ _ _ Htr).
  set (w1 := with_transports _ w).
  set (w2 := (cancel (_reader_task tr) w1).1).
  set (w3 := (cancel (_writer_task tr) w2).1).
  destruct (cancel_frame (_reader_task tr) w1) as (_&_&Ht2&_&_&_).
  destruct (cancel_frame (_writer_task tr) w2) as (_&_&Ht3&_&_&_).
  assert (H3 : transports w3 !! self = Some (set_is_closing true tr)).
  { unfold w3. rewrite Ht3. unfold w2. rewrite Ht2. unfold w1. simpl.
    by rewrite list_lookup_alter_eq, Htr. }
  assert (H03 : enqueues wake_cb w w3).
  { eapply (enq_trans _ w w1); [by apply enq_same|].
    eapply (enq_trans _ w1 w2); apply enq_cancel. }
  eapply enq_trans; [exact H03|].
  destruct (cleanup_tail_spec self e _ w3 H3) as (X&reg_add&new&rdy&evs&res&->&_&_&_&Hr).
  exists rdy. split; [done|]. eapply Forall_impl; [exact Hr|]. intros cb ->. apply wake_step.
Qed.

Lemma enq_wakeup_next getters w : enqueues wake_cb w (wakeup_next getters w).2.
Proof.
  induction getters as [|g rest IH]; simpl; [apply enq_refl|].
  destruct (tasks w !! g) as [[c [[[] [o|]|j]|] mc [o'|] cbs]|] eqn:E; simpl; try done.
  by eapply enq_one; [|apply wake_step].
Qed.

Lemma enq_queue_wakeup_getters self w : enqueues wake_cb w (queue_wakeup_getters self w).1.
Proof.
  unfold queue_wakeup_getters, the_transport, bind.
  destruct (transports w !! self) as [tr|]; [|apply enq_refl].
  pose proof (enq_wakeup_next (q_getters (_write_queue tr)) w) as H.
  destruct (wakeup_next _ w) as [rest w']. simpl in *.
  eapply enq_trans; [exact H|]. by apply enq_same.
Qed.

Lemma enq_put_nowait self item w : enqueues wake_cb w (put_nowait self item w).1.
Proof.
  unfold put_nowait, the_transport, bind.
  destruct (transports w !! self) as [tr|]; [|apply enq_refl].
  destruct (q_full _); [apply enq_refl|].
  unfold update_transport at 1, modify. simpl.
  eapply enq_trans; [|apply enq_queue_wakeup_getters]. by apply enq_same.
Qed.

Lemma enq_queue_get_interrupted self me waited w :
  enqueues wake_cb w (queue_get_interrupted self me waited w).1.
Proof.
  unfold queue_get_interrupted, bind, update_transport, modify. simpl.
  remember (with_transports _ w) as w1 eqn:Ew1.
  assert (H1 : enqueues wake_cb w w1) by (subst w1; by apply enq_same).
  clear Ew1. unfold the_transport. destruct (transports w1 !! self) as [tr|]; [|done].
  destruct (q_items (_write_queue tr)); [done|].
  destruct waited as [[[] [[]| ]|]|]; simpl; try done;
    (eapply enq_trans; [exact H1|apply enq_queue_wakeup_getters]).
Qed.

Lemma enq_writer_failed self e w : enqueues wake_cb w (writer_failed self e w).1.
Proof.
  unfold writer_failed, bind. pose proof (enq_cleanup self (Some e) w) as H.
  by destruct (_cleanup self (Some e) w) as [w' [[]|x]].
Qed.

Lemma enq_writer_iteration self me w : enqueues wake_cb w (writer_iteration self me w).1.
Proof.
  unfold writer_iteration, queue_get, the_transport, bind.
  destruct (transports w !! self) as [tr|] eqn:Htr; [|apply enq_refl].
  destruct (q_items (_write_queue tr)) as [|item rest] eqn:Hq.
  - by apply enq_same.
  - unfold update_transport, modify, ret. simpl.
    remember (with_transports _ w) as w1 eqn:Ew1.
    assert (H1 : enqueues wake_cb w w1) by (subst w1; by apply enq_same).
    clear Ew1. unfold try_except, js_write, the_transport, bind.
    pose proof (enq_writer_failed self AttributeError w1) as H2.
    destruct (transports w1 !! self) as [tr1|]; simpl.
    + destruct (_js_writer tr1); simpl.
      * eapply enq_trans; [exact H1|]. by apply enq_same.
      * destruct (writer_failed self AttributeError w1) as [w2 r2]. simpl in *.
        eapply enq_trans; [exact H1|]. by destruct r2.
    + destruct (writer_failed self AttributeError w1) as [w2 r2]. simpl in *.
      eapply enq_trans; [exact H1|]. by destruct r2.
Qed.

Lemma enq_init protocol sp w : enqueues wake_cb w (__init__ protocol sp w).1.
Proof.
  destruct sp; [|apply enq_refl]. simpl.
  exists [CbStep (length (tasks w));
          CbStep (length (tasks w ++ [Task (ReaderLoop (length (transports w)) RStart)
                                        None false None []]));
          CbConnectionMade protocol (length (transports w))].
  split; [by rewrite <-!app_assoc|].
  constructor; [left; eauto|]. constructor; [left; eauto|].
  constructor; [right; eauto|constructor].
Qed.

Lemma js_read_ready self w : ready (js_read self w).1 = ready w.
Proof.
  unfold js_read, the_transport, bind.
  destruct (transports w !! self) as [tr|]; [|done]. by destruct (_js_reader tr).
Qed.

Lemma data_received_ready self data w : ready (data_received self data w).1 = ready w.
Proof.
  unfold data_received, the_transport, bind.
  destruct (transports w !! self) as [tr|]; [|done]. by destruct (_protocol tr).
Qed.

(** A step of a coroutine hands wake-ups and greetings to the loop, and
    nothing else. *)
Lemma enq_run_coro me c waited r w : enqueues wake_cb w (run_coro me c waited r w).1.
Proof.
  destruct c as [self pc|self pc|owner pt pc|a pc]; simpl.
  - destruct pc, r as [v|e]; simpl; try apply enq_refl; try apply enq_writer_iteration.
    + unfold bind. pose proof (enq_queue_get_interrupted self me waited w) as H.
      by destruct (queue_get_interrupted self me waited w) as [w' [[]|x]].
    + unfold try_except, raise. destruct (is_Exception e); [|apply enq_refl].
      pose proof (enq_writer_failed self e w) as H.
      by destruct (writer_failed self e w) as [w' [y|x]].
  - destruct pc, r as [v|e]; simpl; try apply enq_refl;
      try (by apply enq_same, js_read_ready).
    destruct v as [|dn val|]; simpl; try apply enq_refl.
    destruct dn; unfold bind.
    { pose proof (enq_cleanup self (Some (RuntimeError "Other side has closed")) w) as H.
      by destruct (_cleanup self _ w) as [w' [[]|x]]. }
    pose proof (data_received_ready self val w) as Hr.
    destruct (data_received self val w) as [w' [[]|x]]; simpl in *.
    + apply enq_same. by rewrite js_read_ready.
    + by apply enq_same.
  - apply enq_same. destruct pc, r; done.
  - assert (Hw : enqueues wake_cb w (wait_then_open a w).1).
    { unfold wait_then_open, bind, gets.
      destruct (await_closing_tasks_frame (reverse (_SERIAL_PORT_CLOSING_TASKS w)) w)
        as (_ & _ & Hr & _).
      destruct (await_closing_tasks _ w) as [w' [[k|]|e]]; simpl in *;
        try (by apply enq_same).
      unfold open_serial_port, bind, gets, emit, modify, ret, raise.
      destruct (_SERIAL_PORT w'); simpl; by apply enq_same. }
    destruct pc, r; simpl; try done; try apply enq_refl.
    unfold bind, gets.
    pose proof (enq_init (protocol_factory a) (_SERIAL_PORT w) w).
    by destruct (__init__ _ _ w) as [w' [x|e]].
Qed.

Lemma enq_add_step j k w : enqueues wake_cb w (add_done_callback j (CbStep k) w).1.
Proof.
  unfold add_done_callback. destruct (tasks w !! j) as [tj|] eqn:E; [|apply enq_refl].
  destruct (task_done tj); simpl; [|by apply enq_same].
  by eapply enq_one; [|apply wake_step].
Qed.

Lemma enq_suspend_task k c a w : enqueues wake_cb w (suspend_task k c a w).1.
Proof.
  unfold suspend_task, bind, update_task at 1, modify. simpl.
  remember (with_tasks _ w) as w1 eqn:E1.
  assert (H1 : enqueues wake_cb w w1) by (subst w1; by apply enq_same).
  clear E1. destruct a as [kind st|j].
  - unfold ret, gets. simpl.
    destruct (from_option must_cancel false (tasks w1 !! k)); [|done].
    destruct st as [o|]; [done|].
    unfold update_task, cancel_waiter, bind, modify, call_soon, update_task. simpl.
    eapply enq_trans; [exact H1|]. by eapply enq_one; [|apply wake_step].
  - pose proof (enq_add_step j k w1) as H.
    destruct (add_done_callback j (CbStep k) w1) as [w2 [[]|x]]; simpl in *;
      [|by eapply enq_trans].
    unfold gets. simpl.
    destruct (from_option must_cancel false (tasks w2 !! k)); by eapply enq_trans.
Qed.

Lemma finish_task_ready k o w tk :
  tasks w !! k = Some tk → ready (finish_task k o w).1 = ready w ++ done_callbacks tk.
Proof. intros Hk. unfold finish_task. by rewrite Hk. Qed.

(** The task that is suspended keeps its callbacks, and gains at most
    wake-ups. *)
Lemma suspend_task_detail k c f w tk2 :
  tasks w !! k = Some tk2 →
  ∃ tk' extra,
    tasks (suspend_task k c f w).1 !! k = Some tk'
    ∧ task_state tk' = task_state tk2 ∧ task_coro tk' = c
    ∧ done_callbacks tk' = done_callbacks tk2 ++ extra
    ∧ Forall (λ cb, ∃ j, cb = CbStep j) extra
    ∧ (must_cancel tk2 = false → must_cancel tk' = false ∧ fut_waiter tk' = Some f).
Proof.
  intros Hk. unfold suspend_task, bind, update_task at 1, modify. simpl.
  remember (with_tasks _ w) as w3 eqn:E3.
  assert (Hk3 : tasks w3 !! k = Some (set_fut_waiter (Some f) (set_task_coro c tk2))).
  { subst w3. simpl. by rewrite list_lookup_alter_eq, Hk. }
  clear E3. destruct f as [kind st|j].
  - unfold ret, gets. simpl. rewrite Hk3. simpl.
    destruct (must_cancel tk2) eqn:Hmc.
    + destruct st as [o|].
      * eexists _, []. split; [exact Hk3|]. simpl. rewrite app_nil_r. by split_and!.
      * unfold update_task, cancel_waiter, bind, modify, call_soon, update_task. simpl.
        rewrite !list_lookup_alter_eq, Hk3. simpl.
        eexists _, []. split; [done|]. simpl. rewrite app_nil_r. by split_and!.
    + eexists _, []. split; [exact Hk3|]. simpl. rewrite app_nil_r. by split_and!.
  - assert (H4 : ∃ tk4 extra,
                 tasks (add_done_callback j (CbStep k) w3).1 !! k = Some tk4
                 ∧ task_state tk4 = task_state tk2 ∧ task_coro tk4 = c
                 ∧ done_callbacks tk4 = done_callbacks tk2 ++ extra
                 ∧ Forall (λ cb, ∃ j, cb = CbStep j) extra
                 ∧ must_cancel tk4 = must_cancel tk2
                 ∧ fut_waiter tk4 = Some (AwTask j)).
    { unfold add_done_callback. destruct (tasks w3 !! j) as [tj|] eqn:Ej.
      2:{ eexists _, []. split; [exact Hk3|]. simpl. rewrite app_nil_r. by split_and!. }
      destruct (task_done tj); simpl.
      { eexists _, []. split; [exact Hk3|]. simpl. rewrite app_nil_r. by split_and!. }
      rewrite list_lookup_alter. case_decide; subst.
      - rewrite Hk3. simpl. eexists _, [CbStep k]. split; [done|]. simpl.
        split_and!; try done. constructor; [eauto|constructor].
      - eexists _, []. split; [exact Hk3|]. simpl. rewrite app_nil_r. by split_and!. }
    destruct H4 as (tk4 & extra & Hk4 & ? & ? & ? & ? & Hmc4 & ?).
    destruct (add_done_callback j (CbStep k) w3) as [w4 [[]|x]]; simpl in *.
    + unfold gets. simpl.
      exists tk4, extra.
      destruct (from_option must_cancel false (tasks w4 !! k)); simpl;
        (split_and!; try done; intros Hm; split; congruence).
    + exists tk4, extra. split_and!; try done. intros Hm; split; congruence.
Qed.

(** A step of task [k] in full: what it hands to the loop (wake-ups and
    greetings, and if the task ends, its own callbacks at the very end), and
    what becomes of the task. *)
Lemma task_step_detail k w tk r w2 res :
  wf w →
  tasks w !! k = Some tk → task_done tk = false → resume_value w tk = Some r →
  run_coro k (task_coro tk) (fut_waiter tk) r
    (with_tasks (alter (λ tk, set_fut_waiter None (set_must_cancel false tk)) k (tasks w)) w)
  = (w2, res) →
  ∃ added tk2 tk',
    tasks w2 !! k = Some tk2
    ∧ rtc nudge (set_fut_waiter None (set_must_cancel false tk)) tk2
    ∧ Forall wake_cb added
    ∧ ready (task_step k w).1
      = ready w ++ added
        ++ match res with Ok (YAwait _ _) => [] | _ => done_callbacks tk2 end
    ∧ tasks (task_step k w).1 !! k = Some tk'
    ∧ match res with
      | Ok (YAwait c f) =>
          task_state tk' = None ∧ task_coro tk' = c
          ∧ (∃ extra, done_callbacks tk' = done_callbacks tk2 ++ extra
                      ∧ Forall (λ cb, ∃ j, cb = CbStep j) extra)
          ∧ (must_cancel tk2 = false → must_cancel tk' = false ∧ fut_waiter tk' = Some f)
      | _ => is_Some (task_state tk') ∧ task_coro tk' = task_coro tk
             ∧ done_callbacks tk' = []
      end.
Proof.
  intros Hwf Hk Hdone Hres Erun. unfold task_step. rewrite Hk, Hdone, Hres, Erun.
  set (w1 := with_tasks (alter (λ tk, set_fut_waiter None (set_must_cancel false tk))
                           k (tasks w)) w) in *.
  assert (H1 : wf_but (Some k) w1).
  { eapply (wf_alter_task (Some k) w _ _ k); [done|done| |by apply wf_weaken].
    intros tk0 Htk0. split_and!; [apply same_kind_refl|done|done]. }
  assert (Hk1 : tasks w1 !! k = Some (set_fut_waiter None (set_must_cancel false tk))).
  { unfold w1. simpl. by rewrite list_lookup_alter_eq, Hk. }
  pose proof (frame_run_coro (Some k) k (task_coro tk) (fut_waiter tk) r w1 H1) as Hfr.
  pose proof (enq_run_coro k (task_coro tk) (fut_waiter tk) r w1) as Henq.
  rewrite Erun in Hfr, Henq. simpl in Hfr, Henq.
  destruct (proj1 Hfr k _ ltac:(done) Hk1) as (tk2 & Hk2 & Hn2).
  assert (Hst2 : task_state tk2 = None).
  { rewrite (nudged_state _ _ Hn2). simpl. by apply not_done_pending. }
  assert (Hco2 : task_coro tk2 = task_coro tk) by (by rewrite (nudged_coro _ _ Hn2)).
  destruct Henq as (a1 & Hr1 & Ha1). change (ready w1) with (ready w) in Hr1.
  assert (Hfin : ∀ o, ∃ tk', tasks (finish_task k o w2).1 !! k = Some tk'
                             ∧ is_Some (task_state tk') ∧ task_coro tk' = task_coro tk
                             ∧ done_callbacks tk' = []).
  { intros o. unfold finish_task. rewrite Hk2. simpl. rewrite list_lookup_alter_eq, Hk2.
    simpl. eexists. split; [done|]. split; [by eexists|done]. }
  destruct res as [[c f|v]|e].
  - destruct (enq_suspend_task k c f w2) as (a2 & Hr2 & Ha2).
    destruct (suspend_task_detail k c f w2 tk2 Hk2) as (tk' & extra & Hk' & Hs' & ? & ? & ? & ?).
    exists (a1 ++ a2), tk2, tk'.
    split; [done|]. split; [done|]. split; [by apply Forall_app|].
    split; [by rewrite Hr2, Hr1, app_nil_r, app_assoc|].
    split; [done|]. split; [congruence|]. split; [done|]. split; [by eauto|done].
  - destruct (from_option must_cancel false (tasks w2 !! k)).
    + unfold bind, update_task, modify. simpl.
      exists a1, tk2. eexists. split; [done|]. split; [done|]. split; [done|].
      split; [|split].
      * erewrite finish_task_ready; [|simpl; by rewrite list_lookup_alter_eq, Hk2].
        simpl. by rewrite Hr1, app_assoc.
      * unfold finish_task. simpl. rewrite list_lookup_alter_eq, Hk2. simpl.
        rewrite list_lookup_alter_eq, list_lookup_alter_eq, Hk2. simpl. done.
      * simpl. split; [by eexists|done].
    + destruct (Hfin (OResult v)) as (tk' & Hk' & ? & ? & ?).
      exists a1, tk2, tk'. split_and!; try done.
      erewrite finish_task_ready by done. by rewrite Hr1, app_assoc.
  - assert (Hall : ∀ o, ∃ added tk2 tk',
               tasks w2 !! k = Some tk2
               ∧ rtc nudge (set_fut_waiter None (set_must_cancel false tk)) tk2
               ∧ Forall wake_cb added
               ∧ ready (finish_task k o w2).1 = ready w ++ added ++ done_callbacks tk2
               ∧ tasks (finish_task k o w2).1 !! k = Some tk'
               ∧ is_Some (task_state tk') ∧ task_coro tk' = task_coro tk
               ∧ done_callbacks tk' = []).
    { intros o. destruct (Hfin o) as (tk' & Hk' & ? & ? & ?).
      exists a1, tk2, tk'. split_and!; try done.
      erewrite finish_task_ready by done. by rewrite Hr1, app_assoc. }
    destruct e; apply Hall.
Qed.


(** ** The port and the protocol are cleared together *)

Lemma shut_step_refl tr : shut_step tr tr.
Proof. by left. Qed.

Lemma shut_step_trans tr1 tr2 tr3 : shut_step tr1 tr2 → shut_step tr2 tr3 → shut_step tr1 tr3.
Proof.
  intros [[? ?]|[? ?]] [[? ?]|[? ?]]; [left|right|right|right]; split; congruence.
Qed.

Lemma shut_step_coupled tr tr' : shut_step tr tr' → coupled tr → coupled tr'.
Proof. unfold coupled. intros [[-> ->]|[_ ->]]; tauto. Qed.

Lemma shut_frame_refl w : shut_frame w w.
Proof.
  split.
  - intros t tr Ht. eauto using shut_step_refl.
  - intros t tr' Hlen Ht. apply lookup_lt_Some in Ht. lia.
Qed.

Lemma shut_frame_trans w1 w2 w3 : shut_frame w1 w2 → shut_frame w2 w3 → shut_frame w1 w3.
Proof.
  intros [H12 N12] [H23 N23]. split.
  - intros t tr Ht. destruct (H12 _ _ Ht) as (tr2 & Ht2 & ?).
    destruct (H23 _ _ Ht2) as (tr3 & Ht3 & ?). eauto using shut_step_trans.
  - intros t tr3 Hlen Ht3.
    destruct (transports w2 !! t) as [tr2|] eqn:Ht2.
    + destruct (H23 _ _ Ht2) as (tr3' & Ht3' & Hs).
      assert (tr3' = tr3) as -> by congruence.
      eapply shut_step_coupled; [exact Hs|]. by eapply N12.
    + apply lookup_ge_None in Ht2. by eapply N23.
Qed.

Lemma shut_frame_same w w' : transports w' = transports w → shut_frame w w'.
Proof. intros H. unfold shut_frame. rewrite H. apply shut_frame_refl. Qed.

Lemma shut_frame_app w w' new :
  transports w' = transports w ++ new → Forall coupled new → shut_frame w w'.
Proof.
  intros H Hnew. split.
  - intros t tr Ht. rewrite H. exists tr.
    split; [by apply lookup_app_l_Some|apply shut_step_refl].
  - intros t tr' Hlen. rewrite H, lookup_app_r by done. intros Ht'.
    eapply (Forall_lookup_1 _ _ _ _ Hnew Ht').
Qed.

Lemma shut_frame_alter w w' f t :
  transports w' = alter f t (transports w) →
  (∀ tr, shut_step tr (f tr)) →
  shut_frame w w'.
Proof.
  intros H Hf. split.
  - intros t' tr Ht. rewrite H, list_lookup_alter. case_decide; subst.
    + rewrite Ht. simpl. eauto.
    + eauto using shut_step_refl.
  - intros t' tr' Hlen. rewrite H. intros Ht'. apply lookup_lt_Some in Ht'.
    rewrite length_alter in Ht'. lia.
Qed.

Lemma shut_frame_insert w w' t tr X :
  transports w !! t = Some tr →
  transports w' = <[t := X]> (transports w) →
  shut_step tr X →
  shut_frame w w'.
Proof.
  intros Ht H HX. split.
  - intros t' tr' Ht'. rewrite H. destruct (decide (t' = t)) as [->|Hne].
    + rewrite list_lookup_insert_eq by (by eapply lookup_lt_Some).
      assert (tr' = tr) as -> by congruence. eauto.
    + rewrite list_lookup_insert_ne by done. eauto using shut_step_refl.
  - intros t' tr' Hlen. rewrite H. intros Ht'. apply lookup_lt_Some in Ht'.
    rewrite length_insert in Ht'. lia.
Qed.

Lemma shut_frame_cleanup self e w : shut_frame w (_cleanup self e w).1.
Proof.
  destruct (transports w !! self) as [tr|] eqn:Htr.
  2:{ unfold _cleanup, bind, update_transport, modify, the_transport. simpl.
      rewrite list_lookup_alter_eq, Htr. simpl. apply shut_frame_same. simpl.
      by apply alter_None. }
  rewrite (cleanup_unfold _ _ _ _ Htr).
  set (w1 := with_transports _ w).
  set (w2 := (cancel (_reader_task tr) w1).1).
  set (w3 := (cancel (_writer_task tr) w2).1).
  destruct (cancel_frame (_reader_task tr) w1) as (_&_&Ht2&_&_&_).
  destruct (cancel_frame (_writer_task tr) w2) as (_&_&Ht3&_&_&_).
  assert (H13 : transports w3 = alter (set_is_closing true) self (transports w)).
  { unfold w3. rewrite Ht3. unfold w2. by rewrite Ht2. }
  assert (H3 : transports w3 !! self = Some (set_is_closing true tr)).
  { rewrite H13. by rewrite list_lookup_alter_eq, Htr. }
  eapply (shut_frame_trans w w3).
  { eapply shut_frame_alter; [exact H13|]. intros tr0. by left. }
  destruct (cleanup_tail_cases self e _ w3 H3) as [Hrel|(X&evs&x&->&HpX&HqX&_)].
  - rewrite (cleanup_tail_ok _ _ _ _ H3 Hrel). simpl.
    eapply shut_frame_insert; [exact H3|done|]. by right.
  - simpl. eapply shut_frame_insert; [exact H3|done|]. by left.
Qed.

Lemma shut_frame_queue_wakeup_getters self w : shut_frame w (queue_wakeup_getters self w).1.
Proof.
  unfold queue_wakeup_getters, the_transport, bind.
  destruct (transports w !! self) as [tr|]; [|apply shut_frame_refl].
  destruct (wakeup_next_frame (q_getters (_write_queue tr)) w) as (Ht & _).
  destruct (wakeup_next _ w) as [rest w']. simpl in *.
  eapply shut_frame_alter; [simpl; by rewrite Ht|]. intros tr0. by left.
Qed.

Lemma shut_frame_put_nowait self item w : shut_frame w (put_nowait self item w).1.
Proof.
  unfold put_nowait, the_transport, bind.
  destruct (transports w !! self) as [tr|]; [|apply shut_frame_refl].
  destruct (q_full _); [apply shut_frame_refl|].
  unfold update_transport at 1, modify. simpl.
  eapply shut_frame_trans; [|apply shut_frame_queue_wakeup_getters].
  eapply shut_frame_alter; [done|]. intros tr0. by left.
Qed.

Lemma shut_frame_init protocol sp w : shut_frame w (__init__ protocol sp w).1.
Proof.
  destruct sp; [|apply shut_frame_refl]. simpl.
  eapply shut_frame_app; [done|]. by repeat constructor.
Qed.

Lemma shut_frame_writer_failed self e w : shut_frame w (writer_failed self e w).1.
Proof.
  unfold writer_failed, bind. pose proof (shut_frame_cleanup self (Some e) w) as H.
  by destruct (_cleanup self (Some e) w) as [w' [[]|x]].
Qed.

Lemma shut_frame_writer_iteration self me w : shut_frame w (writer_iteration self me w).1.
Proof.
  unfold writer_iteration, queue_get, the_transport, bind.
  destruct (transports w !! self) as [tr|] eqn:Htr; [|apply shut_frame_refl].
  destruct (q_items (_write_queue tr)) as [|item rest] eqn:Hq.
  - eapply shut_frame_alter; [done|]. intros tr0. by left.
  - unfold update_transport, modify, ret. simpl.
    remember (with_transports _ w) as w1 eqn:Ew1.
    assert (H1 : shut_frame w w1).
    { subst w1. eapply shut_frame_alter; [done|]. intros tr0. by left. }
    clear Ew1. unfold try_except, js_write, the_transport, bind.
    pose proof (shut_frame_writer_failed self AttributeError w1) as H2.
    destruct (transports w1 !! self) as [tr1|]; simpl.
    + destruct (_js_writer tr1); simpl.
      * eapply shut_frame_trans; [exact H1|]. by apply shut_frame_same.
      * destruct (writer_failed self AttributeError w1) as [w2 r2]. simpl in *.
        eapply shut_frame_trans; [exact H1|]. by destruct r2.
    + destruct (writer_failed self AttributeError w1) as [w2 r2]. simpl in *.
      eapply shut_frame_trans; [exact H1|]. by destruct r2.
Qed.

Lemma shut_frame_queue_get_interrupted self me waited w :
  shut_frame w (queue_get_interrupted self me waited w).1.
Proof.
  unfold queue_get_interrupted, bind, update_transport, modify. simpl.
  remember (with_transports _ w) as w1 eqn:Ew1.
  assert (H1 : shut_frame w w1).
  { subst w1. eapply shut_frame_alter; [done|]. intros tr0. by left. }
  clear Ew1. unfold the_transport. destruct (transports w1 !! self) as [tr|]; [|done].
  destruct (q_items (_write_queue tr)); [done|].
  destruct waited as [[[] [[]| ]|]|]; simpl; try done;
    (eapply shut_frame_trans; [exact H1|apply shut_frame_queue_wakeup_getters]).
Qed.

Lemma shut_frame_run_coro me c waited r w : shut_frame w (run_coro me c waited r w).1.
Proof.
  destruct c as [self pc|self pc|owner pt pc|a pc]; simpl.
  - destruct pc, r as [v|e]; simpl; try apply shut_frame_refl;
      try (by apply shut_frame_writer_iteration).
    + unfold bind. pose proof (shut_frame_queue_get_interrupted self me waited w) as H'.
      destruct (queue_get_interrupted self me waited w) as [w' [[]|x]]; by apply H'.
    + unfold try_except, raise. destruct (is_Exception e); [|apply shut_frame_refl].
      pose proof (shut_frame_writer_failed self e w) as H'.
      by destruct (writer_failed self e w) as [w' [y|x]].
  - assert (Hread : ∀ w0, shut_frame w w0 → shut_frame w (js_read self w0).1).
    { intros w0 H0. eapply shut_frame_trans; [exact H0|].
      apply shut_frame_same. apply js_read_frame. }
    destruct pc, r as [v|e]; simpl; try apply shut_frame_refl;
      try (by apply Hread, shut_frame_refl).
    destruct v as [|dn val|]; simpl; try apply shut_frame_refl.
    destruct dn; unfold bind.
    { pose proof (shut_frame_cleanup self (Some (RuntimeError "Other side has closed")) w)
        as H.
      by destruct (_cleanup self _ w) as [w' [[]|x]]. }
    destruct (data_received_frame self val w) as [_ Ht].
    destruct (data_received self val w) as [w' [[]|x]]; simpl in *.
    + apply Hread. by apply shut_frame_same.
    + by apply shut_frame_same.
  - apply shut_frame_same. destruct pc, r; done.
  - assert (Hw : shut_frame w (wait_then_open a w).1).
    { unfold wait_then_open, bind, gets.
      destruct (await_closing_tasks_frame (reverse (_SERIAL_PORT_CLOSING_TASKS w)) w)
        as (_ & Ht & _).
      destruct (await_closing_tasks _ w) as [w' [[k|]|e]]; simpl in *;
        try (by apply shut_frame_same).
      unfold open_serial_port, bind, gets, emit, modify, ret, raise.
      destruct (_SERIAL_PORT w'); simpl; by apply shut_frame_same. }
    destruct pc, r; simpl; try done; try apply shut_frame_refl.
    unfold bind, gets.
    pose proof (shut_frame_init (protocol_factory a) (_SERIAL_PORT w) w).
    by destruct (__init__ _ _ w) as [w' [x|e]].
Qed.

Lemma shut_frame_task_step k w : shut_frame w (task_step k w).1.
Proof.
  unfold task_step. destruct (tasks w !! k) as [tk|] eqn:Hk; [|apply shut_frame_refl].
  destruct (task_done tk); [apply shut_frame_refl|].
  destruct (resume_value w tk) as [r|]; [|apply shut_frame_refl].
  remember (with_tasks _ w) as w1 eqn:E1.
  assert (H1 : shut_frame w w1) by (subst w1; by apply shut_frame_same).
  clear E1.
  pose proof (shut_frame_run_coro k (task_coro tk) (fut_waiter tk) r w1) as H.
  destruct (run_coro k (task_coro tk) (fut_waiter tk) r w1) as [w2 res]. simpl in *.
  assert (H' : shut_frame w w2) by (by eapply shut_frame_trans).
  destruct res as [[c f|v]|e].
  - eapply shut_frame_trans; [exact H'|]. apply shut_frame_same, suspend_task_transports.
  - destruct (from_option must_cancel false (tasks w2 !! k)).
    + eapply shut_frame_trans; [exact H'|]. apply shut_frame_same.
      unfold bind, update_task, modify. simpl. by rewrite finish_task_transports.
    + eapply shut_frame_trans; [exact H'|]. apply shut_frame_same, finish_task_transports.
  - destruct e; (eapply shut_frame_trans; [exact H'|]);
      apply shut_frame_same, finish_task_transports.
Qed.

Lemma shut_frame_call {A} (m : M A) w : shut_frame w (m w).1 → shut_frame w (call m w).
Proof.
  unfold call. destruct (m w) as [w' [a|e]]; simpl; [done|].
  intros H. eapply shut_frame_trans; [exact H|]. by apply shut_frame_same.
Qed.

(** An action that is not a call of [set_protocol] leaves the port and the
    protocol of every transport as they are, or clears both. *)
Lemma step_shut_frame a w :
  (∀ t p, a ≠ Call_set_protocol t p) → shut_frame w (step a w).
Proof.
  intros Hns. destruct a as [pt|a|t0 data|t0|t0 p|t0| |k st]; simpl.
  - apply shut_frame_call. by apply shut_frame_same.
  - apply shut_frame_call. by apply shut_frame_same.
  - apply shut_frame_call. unfold the_transport, bind at 1.
    destruct (transports w !! t0); [|apply shut_frame_refl].
    unfold bind, emit, modify. simpl.
    eapply shut_frame_trans; [|apply shut_frame_put_nowait]. by apply shut_frame_same.
  - apply shut_frame_call, shut_frame_cleanup.
  - by destruct (Hns t0 p).
  - apply shut_frame_call, shut_frame_cleanup.
  - destruct (ready w) as [|cb rest] eqn:Hr; [apply shut_frame_refl|].
    unfold run_handle.
    assert (H : shut_frame w (run_callback cb (with_ready rest w)).1).
    { destruct cb as [k|p t0|t0 p e|k]; simpl.
      - eapply shut_frame_trans; [|apply shut_frame_task_step]. by apply shut_frame_same.
      - by apply shut_frame_same.
      - by apply shut_frame_same.
      - unfold remove_closing_task, bind, gets. simpl.
        case_bool_decide; by apply shut_frame_same. }
    destruct (run_callback cb (with_ready rest w)) as [w' [[]|e]]; simpl in *; [done|].
    eapply shut_frame_trans; [exact H|]. by apply shut_frame_same.
  - apply shut_frame_call. unfold settle.
    destruct (tasks w !! k) as [[c [[[] [o|]|j]|] mc [o'|] cbs]|]; simpl;
      by apply shut_frame_same.
Qed.

Lemma step_shut_step a w t tr :
  transports w !! t = Some tr →
  keeps_protocol t a →
  ∃ tr', transports (step a w) !! t = Some tr' ∧ shut_step tr tr'.
Proof.
  intros Ht Hset.
  assert (Hcases : (∀ t' p, a ≠ Call_set_protocol t' p) ∨ ∃ t0 p, a = Call_set_protocol t0 p).
  { destruct a; eauto; by left. }
  destruct Hcases as [Hns|(t0 & p & ->)].
  { by apply (proj1 (step_shut_frame a w Hns)). }
  assert (t0 ≠ t) by (intros ->; by eapply Hset).
  exists tr. split; [|apply shut_step_refl].
  simpl. unfold call, set_protocol, update_transport, modify. simpl.
  by rewrite list_lookup_alter_ne.
Qed.


(** ** The stream locks are released together *)

Lemma lock_frame_refl w : lock_frame w w.
Proof. by intros H. Qed.

Lemma lock_frame_trans w1 w2 w3 : lock_frame w1 w2 → lock_frame w2 w3 → lock_frame w1 w3.
Proof. intros H12 H23 H. by apply H23, H12. Qed.

Lemma lock_frame_same w w' : transports w' = transports w → lock_frame w w'.
Proof. intros H. unfold lock_frame. by rewrite H. Qed.

Lemma lock_frame_app w w' new :
  transports w' = transports w ++ new → Forall locks_ok new → lock_frame w w'.
Proof.
  intros H Hnew Hw t tr. rewrite H. intros [Ht|[_ Ht]]%lookup_app_Some; [by eapply Hw|].
  by eapply (Forall_lookup_1 _ _ _ _ Hnew Ht).
Qed.

Lemma lock_frame_alter w w' f t :
  transports w' = alter f t (transports w) →
  (∀ tr, locks_ok tr → locks_ok (f tr)) →
  lock_frame w w'.
Proof.
  intros H Hf Hw t' tr'. rewrite H. destruct (decide (t' = t)) as [->|Hne].
  - rewrite list_lookup_alter_eq.
    destruct (transports w !! t) as [tr|] eqn:Ht; simpl; [|done].
    intros [= <-]. by eapply Hf, Hw.
  - rewrite list_lookup_alter_ne by done. by apply Hw.
Qed.

Lemma lock_frame_insert w w' t tr X :
  transports w !! t = Some tr →
  transports w' = <[t := X]> (transports w) →
  (locks_ok tr → locks_ok X) →
  lock_frame w w'.
Proof.
  intros Ht H HX Hw t' tr'. rewrite H. destruct (decide (t' = t)) as [->|Hne].
  - rewrite list_lookup_insert_eq by (by eapply lookup_lt_Some).
    intros [= <-]. by eapply HX, Hw.
  - rewrite list_lookup_insert_ne by done. by apply Hw.
Qed.

(** What the releases of a shutdown do to the locks: both are released; or
    the reader's release raises and both are kept; or the writer's release
    raises, after the reader lock has been released if it was held. *)
Lemma cleanup_tail_locks self e tr w :
  transports w !! self = Some tr →
  ∃ X, transports (cleanup_tail self e tr w).1 = <[self := X]> (transports w)
       ∧ (locks_ok tr → locks_ok X).
Proof.
  intros Htr.
  assert (Hok : releases_return tr →
            ∃ X, transports (cleanup_tail self e tr w).1 = <[self := X]> (transports w)
                 ∧ (locks_ok tr → locks_ok X)).
  { intros Hrel. rewrite (cleanup_tail_ok _ _ _ _ Htr Hrel). simpl. by eexists. }
  destruct (_js_reader tr) as [lr|] eqn:Hjr;
    [destruct (releaseLock_raises lr) as [x|] eqn:Hlr|].
  - exists tr. split; [|done].
    unfold cleanup_tail. rewrite Hjr.
    unfold bind, emit, modify, releaseLock. rewrite Hlr. simpl.
    by rewrite list_insert_id.
  - destruct (_js_writer tr) as [lw|] eqn:Hjw;
      [destruct (releaseLock_raises lw) as [x|] eqn:Hlw|].
    + exists (set_js_reader None tr).
      split; [|intros _; unfold locks_ok; simpl; by rewrite Hjw, Hlw].
      unfold cleanup_tail. rewrite Hjr, Hjw.
      unfold bind, emit, modify, releaseLock, update_transport, ret. rewrite Hlr, Hlw. simpl.
      by erewrite alter_to_insert.
    + apply Hok. split; intros l; rewrite ?Hjr, ?Hjw; by intros [= <-].
    + apply Hok. split; intros l; rewrite ?Hjr, ?Hjw; [by intros [= <-]|done].
  - destruct (_js_writer tr) as [lw|] eqn:Hjw;
      [destruct (releaseLock_raises lw) as [x|] eqn:Hlw|].
    + exists tr. split; [|done].
      unfold cleanup_tail. rewrite Hjr, Hjw.
      unfold bind, emit, modify, releaseLock, update_transport, ret. rewrite Hlw. simpl.
      by rewrite list_insert_id.
    + apply Hok. split; intros l; rewrite ?Hjr, ?Hjw; [done|by intros [= <-]].
    + apply Hok. split; intros l; rewrite ?Hjr, ?Hjw; done.
Qed.

Lemma lock_frame_cleanup self e w : lock_frame w (_cleanup self e w).1.
Proof.
  destruct (transports w !! self) as [tr|] eqn:Htr.
  2:{ unfold _cleanup, bind, update_transport, modify, the_transport. simpl.
      rewrite list_lookup_alter_eq, Htr. simpl. apply lock_frame_same. simpl.
      by apply alter_None. }
  rewrite (cleanup_unfold _ _ _ _ Htr).
  set (w1 := with_transports _ w).
  set (w2 := (cancel (_reader_task tr) w1).1).
  set (w3 := (cancel (_writer_task tr) w2).1).
  destruct (cancel_frame (_reader_task tr) w1) as (_&_&Ht2&_&_&_).
  destruct (cancel_frame (_writer_task tr) w2) as (_&_&Ht3&_&_&_).
  assert (H13 : transports w3 = alter (set_is_closing true) self (transports w)).
  { unfold w3. rewrite Ht3. unfold w2. by rewrite Ht2. }
  assert (H3 : transports w3 !! self = Some (set_is_closing true tr)).
  { rewrite H13. by rewrite list_lookup_alter_eq, Htr. }
  eapply (lock_frame_trans w w3).
  { eapply lock_frame_alter; [exact H13|]. by intros tr0. }
  destruct (cleanup_tail_locks self e _ w3 H3) as (X & HX & Hl).
  eapply lock_frame_insert; [exact H3|exact HX|exact Hl].
Qed.

Lemma lock_frame_queue_wakeup_getters self w : lock_frame w (queue_wakeup_getters self w).1.
Proof.
  unfold queue_wakeup_getters, the_transport, bind.
  destruct (transports w !! self) as [tr|]; [|apply lock_frame_refl].
  destruct (wakeup_next_frame (q_getters (_write_queue tr)) w) as (Ht & _).
  destruct (wakeup_next _ w) as [rest w']. simpl in *.
  eapply lock_frame_alter; [simpl; by rewrite Ht|]. by intros tr0.
Qed.

Lemma lock_frame_put_nowait self item w : lock_frame w (put_nowait self item w).1.
Proof.
  unfold put_nowait, the_transport, bind.
  destruct (transports w !! self) as [tr|]; [|apply lock_frame_refl].
  destruct (q_full _); [apply lock_frame_refl|].
  unfold update_transport at 1, modify. simpl.
  eapply lock_frame_trans; [|apply lock_frame_queue_wakeup_getters].
  eapply lock_frame_alter; [done|]. by intros tr0.
Qed.

Lemma lock_frame_init protocol sp w : lock_frame w (__init__ protocol sp w).1.
Proof.
  destruct sp; [|apply lock_frame_refl]. simpl.
  eapply lock_frame_app; [done|]. by repeat constructor.
Qed.

Lemma lock_frame_writer_failed self e w : lock_frame w (writer_failed self e w).1.
Proof.
  unfold writer_failed, bind. pose proof (lock_frame_cleanup self (Some e) w) as H.
  by destruct (_cleanup self (Some e) w) as [w' [[]|x]].
Qed.

Lemma lock_frame_writer_iteration self me w : lock_frame w (writer_iteration self me w).1.
Proof.
  unfold writer_iteration, queue_get, the_transport, bind.
  destruct (transports w !! self) as [tr|] eqn:Htr; [|apply lock_frame_refl].
  destruct (q_items (_write_queue tr)) as [|item rest] eqn:Hq.
  - eapply lock_frame_alter; [done|]. by intros tr0.
  - unfold update_transport, modify, ret. simpl.
    remember (with_transports _ w) as w1 eqn:Ew1.
    assert (H1 : lock_frame w w1).
    { subst w1. eapply lock_frame_alter; [done|]. by intros tr0. }
    clear Ew1. unfold try_except, js_write, the_transport, bind.
    pose proof (lock_frame_writer_failed self AttributeError w1) as H2.
    destruct (transports w1 !! self) as [tr1|]; simpl.
    + destruct (_js_writer tr1); simpl.
      * eapply lock_frame_trans; [exact H1|]. by apply lock_frame_same.
      * destruct (writer_failed self AttributeError w1) as [w2 r2]. simpl in *.
        eapply lock_frame_trans; [exact H1|]. by destruct r2.
    + destruct (writer_failed self AttributeError w1) as [w2 r2]. simpl in *.
      eapply lock_frame_trans; [exact H1|]. by destruct r2.
Qed.

Lemma lock_frame_queue_get_interrupted self me waited w :
  lock_frame w (queue_get_interrupted self me waited w).1.
Proof.
  unfold queue_get_interrupted, bind, update_transport, modify. simpl.
  remember (with_transports _ w) as w1 eqn:Ew1.
  assert (H1 : lock_frame w w1).
  { subst w1. eapply lock_frame_alter; [done|]. by intros tr0. }
  clear Ew1. unfold the_transport. destruct (transports w1 !! self) as [tr|]; [|done].
  destruct (q_items (_write_queue tr)); [done|].
  destruct waited as [[[] [[]| ]|]|]; simpl; try done;
    (eapply lock_frame_trans; [exact H1|apply lock_frame_queue_wakeup_getters]).
Qed.

Lemma lock_frame_run_coro me c waited r w : lock_frame w (run_coro me c waited r w).1.
Proof.
  destruct c as [self pc|self pc|owner pt pc|a pc]; simpl.
  - destruct pc, r as [v|e]; simpl; try apply lock_frame_refl;
      try (by apply lock_frame_writer_iteration).
    + unfold bind. pose proof (lock_frame_queue_get_interrupted self me waited w) as H'.
      destruct (queue_get_interrupted self me waited w) as [w' [[]|x]]; by apply H'.
    + unfold try_except, raise. destruct (is_Exception e); [|apply lock_frame_refl].
      pose proof (lock_frame_writer_failed self e w) as H'.
      by destruct (writer_failed self e w) as [w' [y|x]].
  - assert (Hread : ∀ w0, lock_frame w w0 → lock_frame w (js_read self w0).1).
    { intros w0 H0. eapply lock_frame_trans; [exact H0|].
      apply lock_frame_same. apply js_read_frame. }
    destruct pc, r as [v|e]; simpl; try apply lock_frame_refl;
      try (by apply Hread, lock_frame_refl).
    destruct v as [|dn val|]; simpl; try apply lock_frame_refl.
    destruct dn; unfold bind.
    { pose proof (lock_frame_cleanup self (Some (RuntimeError "Other side has closed")) w)
        as H.
      by destruct (_cleanup self _ w) as [w' [[]|x]]. }
    destruct (data_received_frame self val w) as [_ Ht].
    destruct (data_received self val w) as [w' [[]|x]]; simpl in *.
    + apply Hread. by apply lock_frame_same.
    + by apply lock_frame_same.
  - apply lock_frame_same. destruct pc, r; done.
  - assert (Hw : lock_frame w (wait_then_open a w).1).
    { unfold wait_then_open, bind, gets.
      destruct (await_closing_tasks_frame (reverse (_SERIAL_PORT_CLOSING_TASKS w)) w)
        as (_ & Ht & _).
      destruct (await_closing_tasks _ w) as [w' [[k|]|e]]; simpl in *;
        try (by apply lock_frame_same).
      unfold open_serial_port, bind, gets, emit, modify, ret, raise.
      destruct (_SERIAL_PORT w'); simpl; by apply lock_frame_same. }
    destruct pc, r; simpl; try done; try apply lock_frame_refl.
    unfold bind, gets.
    pose proof (lock_frame_init (protocol_factory a) (_SERIAL_PORT w) w).
    by destruct (__init__ _ _ w) as [w' [x|e]].
Qed.

Lemma lock_frame_task_step k w : lock_frame w (task_step k w).1.
Proof.
  unfold task_step. destruct (tasks w !! k) as [tk|] eqn:Hk; [|apply lock_frame_refl].
  destruct (task_done tk); [apply lock_frame_refl|].
  destruct (resume_value w tk) as [r|]; [|apply lock_frame_refl].
  remember (with_tasks _ w) as w1 eqn:E1.
  assert (H1 : lock_frame w w1) by (subst w1; by apply lock_frame_same).
  clear E1.
  pose proof (lock_frame_run_coro k (task_coro tk) (fut_waiter tk) r w1) as H.
  destruct (run_coro k (task_coro tk) (fut_waiter tk) r w1) as [w2 res]. simpl in *.
  assert (H' : lock_frame w w2) by (by eapply lock_frame_trans).
  destruct res as [[c f|v]|e].
  - eapply lock_frame_trans; [exact H'|]. apply lock_frame_same, suspend_task_transports.
  - destruct (from_option must_cancel false (tasks w2 !! k)).
    + eapply lock_frame_trans; [exact H'|]. apply lock_frame_same.
      unfold bind, update_task, modify. simpl. by rewrite finish_task_transports.
    + eapply lock_frame_trans; [exact H'|]. apply lock_frame_same, finish_task_transports.
  - destruct e; (eapply lock_frame_trans; [exact H'|]);
      apply lock_frame_same, finish_task_transports.
Qed.

Lemma lock_frame_call {A} (m : M A) w : lock_frame w (m w).1 → lock_frame w (call m w).
Proof.
  unfold call. destruct (m w) as [w' [a|e]]; simpl; [done|].
  intros H. eapply lock_frame_trans; [exact H|]. by apply lock_frame_same.
Qed.

(** No action breaks the pairing of the locks. *)
Lemma step_lock_frame a w : lock_frame w (step a w).
Proof.
  destruct a as [pt|a|t0 data|t0|t0 p|t0| |k st]; simpl.
  - apply lock_frame_call. by apply lock_frame_same.
  - apply lock_frame_call. by apply lock_frame_same.
  - apply lock_frame_call. unfold the_transport, bind at 1.
    destruct (transports w !! t0); [|apply lock_frame_refl].
    unfold bind, emit, modify. simpl.
    eapply lock_frame_trans; [|apply lock_frame_put_nowait]. by apply lock_frame_same.
  - apply lock_frame_call, lock_frame_cleanup.
  - apply lock_frame_call. eapply lock_frame_alter; [done|]. by intros tr0.
  - apply lock_frame_call, lock_frame_cleanup.
  - destruct (ready w) as [|cb rest] eqn:Hr; [apply lock_frame_refl|].
    unfold run_handle.
    assert (H : lock_frame w (run_callback cb (with_ready rest w)).1).
    { destruct cb as [k|p t0|t0 p e|k]; simpl.
      - eapply lock_frame_trans; [|apply lock_frame_task_step]. by apply lock_frame_same.
      - by apply lock_frame_same.
      - by apply lock_frame_same.
      - unfold remove_closing_task, bind, gets. simpl.
        case_bool_decide; by apply lock_frame_same. }
    destruct (run_callback cb (with_ready rest w)) as [w' [[]|e]]; simpl in *; [done|].
    eapply lock_frame_trans; [exact H|]. by apply lock_frame_same.
  - apply lock_frame_call. unfold settle.
    destruct (tasks w !! k) as [[c [[[] [o|]|j]|] mc [o'|] cbs]|]; simpl;
      by apply lock_frame_same.
Qed.

Lemma run_locks_ok sched t tr :
  transports (run sched init) !! t = Some tr → locks_ok tr.
Proof.
  revert t tr. induction sched as [|a sched IH] using rev_ind; intros t tr.
  - intros H. change (transports (run [] init)) with (@nil transport) in H.
    by rewrite lookup_nil in H.
  - rewrite run_app. simpl. by apply step_lock_frame.
Qed.


(** ** Erasing the unused arguments commutes with every operation *)

Lemma map_result_id {A} (r : result A) : map_result id r = r.
Proof. by destruct r. Qed.

Lemma commutes_ret {A} (g : A → A) a : commutes g (ret a) (ret (g a)).
Proof. by intros w. Qed.

Lemma commutes_raise {A} (g : A → A) e : commutes g (raise e) (raise e).
Proof. by intros w. Qed.

Lemma commutes_bind {A B} (gA : A → A) (gB : B → B) (m m' : M A) (f f' : A → M B) :
  commutes gA m m' → (∀ x, commutes gB (f x) (f' (gA x))) →
  commutes gB (bind m f) (bind m' f').
Proof.
  intros Hm Hf w. unfold bind. rewrite Hm.
  destruct (m w) as [w1 [x|e]]; simpl; [apply Hf|done].
Qed.

Lemma commutes_gets {A} (f : world → A) :
  (∀ w, f (canon_world w) = f w) → commutes id (gets f) (gets f).
Proof. intros H w. unfold gets. simpl. by rewrite H. Qed.

Lemma commutes_modify (f : world → world) :
  (∀ w, f (canon_world w) = canon_world (f w)) → commutes id (modify f) (modify f).
Proof. intros H w. unfold modify. simpl. by rewrite H. Qed.

Lemma commutes_emit ev : commutes id (emit ev) (emit ev).
Proof. by apply commutes_modify. Qed.

Lemma commutes_call_soon cb : commutes id (call_soon cb) (call_soon cb).
Proof. by apply commutes_modify. Qed.

Lemma canon_alter (f : task → task) (k : nat) (l : list task) :
  (∀ tk, f (canon_task tk) = canon_task (f tk)) →
  alter f k (canon_task <$> l) = canon_task <$> alter f k l.
Proof.
  intros H. symmetry. apply list_fmap_alter. apply Forall_forall. intros x _. by rewrite H.
Qed.

Lemma commutes_update_task k f :
  (∀ tk, f (canon_task tk) = canon_task (f tk)) →
  commutes id (update_task k f) (update_task k f).
Proof.
  intros H. apply commutes_modify. intros w. unfold canon_world. simpl.
  by rewrite canon_alter.
Qed.

Lemma commutes_update_transport t f :
  commutes id (update_transport t f) (update_transport t f).
Proof. by apply commutes_modify. Qed.

Lemma commutes_the_transport self : commutes id (the_transport self) (the_transport self).
Proof. intros w. unfold the_transport. simpl. by destruct (transports w !! self). Qed.

Lemma commutes_create_task c : commutes id (create_task c) (create_task (canon_coro c)).
Proof.
  intros w. unfold create_task, bind, gets, modify, call_soon, modify, canon_world. simpl.
  by rewrite length_fmap, fmap_app.
Qed.

Lemma commutes_cancel_waiter k kind :
  commutes id (cancel_waiter k kind) (cancel_waiter k kind).
Proof.
  unfold cancel_waiter. eapply (commutes_bind id); [by apply commutes_update_task|].
  intros _. apply commutes_call_soon.
Qed.

Lemma canon_lookup w k : tasks (canon_world w) !! k = canon_task <$> tasks w !! k.
Proof. unfold canon_world. simpl. by rewrite list_lookup_fmap. Qed.

Ltac erase :=
  unfold bind, update_task, cancel_waiter, update_transport, modify, call_soon, emit, ret,
    raise, gets, canon_world;
  simpl; rewrite ?list_lookup_fmap, ?length_fmap, ?canon_alter by done; try done.

Lemma commutes_task_cancel d k : commutes id (task_cancel d k) (task_cancel d k).
Proof.
  revert k. induction d as [|d IH]; intros k w; simpl; rewrite list_lookup_fmap.
  - destruct (tasks w !! k) as [tk|]; simpl; [|done].
    change (task_done (canon_task tk)) with (task_done tk).
    destruct (task_done tk); [done|].
    destruct (fut_waiter tk) as [[kind [o|]|j]|]; simpl; try done.
    all: try (by erase).
  - destruct (tasks w !! k) as [tk|]; simpl; [|done].
    change (task_done (canon_task tk)) with (task_done tk).
    destruct (task_done tk); [done|].
    destruct (fut_waiter tk) as [[kind [o|]|j]|]; simpl; try done.
    all: try (by erase).
    rewrite IH. destruct (task_cancel d j w) as [w1 [[]|e]]; simpl; try done.
    all: by erase.
Qed.

Lemma commutes_cancel k : commutes id (cancel k) (cancel k).
Proof.
  intros w. unfold cancel, bind, gets. simpl. rewrite length_fmap.
  apply commutes_task_cancel.
Qed.

Lemma commutes_ret_id {A} (a : A) : commutes id (ret a) (ret a).
Proof. by intros w. Qed.

Lemma commutes_ext {A} (g : A → A) (m1 m2 m' : M A) :
  (∀ w, m1 w = m2 w) → commutes g m2 m' → commutes g m1 m'.
Proof. intros H Hc w. by rewrite H. Qed.

Lemma commutes_bind_id {A B} (gB : B → B) (m m' : M A) (f f' : A → M B) :
  commutes id m m' → (∀ x, commutes gB (f x) (f' x)) →
  commutes gB (bind m f) (bind m' f').
Proof. intros Hm Hf. by apply (commutes_bind id). Qed.

Create HintDb comm.
#[local] Hint Resolve commutes_ret_id commutes_raise commutes_emit commutes_call_soon
  commutes_update_transport commutes_the_transport commutes_cancel commutes_create_task
  commutes_cancel_waiter : comm.
#[local] Hint Extern 1 (commutes canon_yield (ret _) _) =>
  apply (commutes_ret canon_yield) : comm.
#[local] Hint Extern 3 (commutes _ (bind _ _) _) =>
  eapply commutes_bind_id; [|intros ?; cbv beta] : comm.
#[local] Hint Extern 2 (commutes _ (update_task _ _) _) =>
  apply commutes_update_task; done : comm.
#[local] Hint Extern 4 (commutes _ (match ?x with _ => _ end) _) => destruct x : comm.
#[local] Hint Extern 4 (commutes _ (if ?x then _ else _) _) => destruct x : comm.
#[local] Hint Extern 2 (commutes _ (modify _) _) => apply commutes_modify; done : comm.
#[local] Hint Extern 2 (commutes _ (gets _) _) => apply commutes_gets; done : comm.

Ltac comm := solve [eauto 30 with comm].

Lemma commutes_add_done_callback k cb :
  commutes id (add_done_callback k cb) (add_done_callback k cb).
Proof.
  intros w. unfold add_done_callback. simpl. rewrite list_lookup_fmap.
  destruct (tasks w !! k) as [tk|]; simpl; [|done].
  change (task_done (canon_task tk)) with (task_done tk).
  destruct (task_done tk); by erase.
Qed.

Lemma commutes_finish_task k o : commutes id (finish_task k o) (finish_task k o).
Proof.
  intros w. unfold finish_task. simpl. rewrite list_lookup_fmap.
  destruct (tasks w !! k) as [tk|]; simpl; [|done]. by erase.
Qed.

Lemma canon_wakeup_next getters w :
  wakeup_next getters (canon_world w)
  = ((wakeup_next getters w).1, canon_world (wakeup_next getters w).2).
Proof.
  induction getters as [|g rest IH]; simpl; [done|]. rewrite list_lookup_fmap.
  destruct (tasks w !! g) as [[c [[[] [o|]|j]|] mc [o'|] cbs]|] eqn:E; simpl; try done.
  by erase.
Qed.

Lemma commutes_queue_wakeup_getters self :
  commutes id (queue_wakeup_getters self) (queue_wakeup_getters self).
Proof.
  intros w. unfold queue_wakeup_getters, the_transport, bind. simpl.
  destruct (transports w !! self) as [tr|]; [|done].
  rewrite canon_wakeup_next. by destruct (wakeup_next _ w) as [rest w'].
Qed.
#[local] Hint Resolve commutes_add_done_callback commutes_finish_task
  commutes_queue_wakeup_getters : comm.

Lemma commutes_put_nowait self item :
  commutes id (put_nowait self item) (put_nowait self item).
Proof. unfold put_nowait. comm. Qed.

Lemma commutes_queue_get self me : commutes id (queue_get self me) (queue_get self me).
Proof. unfold queue_get. comm. Qed.

Lemma commutes_queue_get_interrupted self me waited :
  commutes id (queue_get_interrupted self me waited) (queue_get_interrupted self me waited).
Proof. unfold queue_get_interrupted. comm. Qed.

Lemma commutes_releaseLock l : commutes id (releaseLock l) (releaseLock l).
Proof. unfold releaseLock. comm. Qed.
#[local] Hint Resolve commutes_put_nowait commutes_queue_get commutes_queue_get_interrupted
  commutes_releaseLock : comm.

Lemma commutes_cleanup self e : commutes id (_cleanup self e) (_cleanup self e).
Proof. unfold _cleanup. comm. Qed.
#[local] Hint Resolve commutes_cleanup : comm.

Lemma commutes_try_except {A} (g : A → A) (body body' : M A) (handler handler' : exn → M A) :
  commutes g body body' → (∀ e, commutes g (handler e) (handler' e)) →
  commutes g (try_except body handler) (try_except body' handler').
Proof.
  intros Hb Hh w. unfold try_except. rewrite Hb.
  destruct (body w) as [w1 [x|e]]; simpl; [done|].
  destruct (is_Exception e); [apply Hh|done].
Qed.

Lemma commutes_close_port owner pt pc r :
  commutes canon_yield (close_port owner pt pc r) (close_port owner pt pc r).
Proof. unfold close_port. destruct pc, r; comm. Qed.

Lemma commutes_init protocol sp : commutes id (__init__ protocol sp) (__init__ protocol sp).
Proof.
  destruct sp as [pt|]; [|apply commutes_raise].
  intros w. unfold __init__, bind, gets, emit, modify, create_task, call_soon, modify, ret,
    canon_world. simpl. rewrite !length_app, !length_fmap, !fmap_app. simpl.
  reflexivity.
Qed.

Lemma commutes_js_write self chunk : commutes id (js_write self chunk) (js_write self chunk).
Proof. unfold js_write. comm. Qed.

Lemma commutes_writer_failed self e :
  commutes canon_yield (writer_failed self e) (writer_failed self e).
Proof. unfold writer_failed. comm. Qed.
#[local] Hint Resolve commutes_close_port commutes_init commutes_js_write
  commutes_writer_failed : comm.
#[local] Hint Extern 3 (commutes _ (try_except _ _) _) =>
  apply commutes_try_except; [|intros ?] : comm.

Lemma commutes_writer_iteration self me :
  commutes canon_yield (writer_iteration self me) (writer_iteration self me).
Proof. unfold writer_iteration. comm. Qed.
#[local] Hint Resolve commutes_writer_iteration : comm.

Lemma commutes_writer_loop self me pc waited r :
  commutes canon_yield (_writer_loop self me pc waited r) (_writer_loop self me pc waited r).
Proof. unfold _writer_loop. destruct pc, r; comm. Qed.

Lemma commutes_js_read self : commutes canon_yield (js_read self) (js_read self).
Proof. unfold js_read. comm. Qed.

Lemma commutes_data_received self data :
  commutes id (data_received self data) (data_received self data).
Proof. unfold data_received. comm. Qed.
#[local] Hint Resolve commutes_writer_loop commutes_js_read commutes_data_received : comm.

Lemma commutes_reader_loop self pc r :
  commutes canon_yield (_reader_loop self pc r) (_reader_loop self pc r).
Proof. unfold _reader_loop. destruct pc, r as [[]|]; comm. Qed.

Lemma commutes_await_closing_tasks stack :
  commutes id (await_closing_tasks stack) (await_closing_tasks stack).
Proof.
  induction stack as [|k below IH]; simpl; [apply commutes_ret_id|].
  eapply commutes_bind_id; [apply commutes_emit|]. intros _.
  eapply commutes_bind_id; [by apply commutes_modify|]. intros _.
  eapply (commutes_bind (fmap canon_task)).
  { intros w. unfold gets. simpl. by rewrite list_lookup_fmap. }
  intros [tk|]; simpl; [|apply commutes_raise].
  destruct (task_state tk) as [[]|]; comm.
Qed.

Lemma commutes_open_serial_port a :
  commutes canon_yield (open_serial_port a) (open_serial_port (canon_args a)).
Proof.
  unfold open_serial_port. eapply commutes_bind_id; [by apply commutes_gets|].
  intros [pt|]; [|apply commutes_raise].
  eapply commutes_bind_id; [apply commutes_emit|]. intros _.
  apply (commutes_ret canon_yield).
Qed.

Lemma commutes_wait_then_open a :
  commutes canon_yield (wait_then_open a) (wait_then_open (canon_args a)).
Proof.
  unfold wait_then_open. eapply commutes_bind_id; [by apply commutes_gets|]. intros reg.
  eapply commutes_bind_id; [apply commutes_await_closing_tasks|].
  intros [k|]; [apply (commutes_ret canon_yield)|apply commutes_open_serial_port].
Qed.

Lemma commutes_create_serial_connection a pc r :
  commutes canon_yield (create_serial_connection a pc r)
    (create_serial_connection (canon_args a) pc r).
Proof.
  unfold create_serial_connection.
  destruct pc, r; try apply commutes_wait_then_open; try apply commutes_raise.
  simpl. comm.
Qed.

(** A step of a coroutine. *)
Lemma commutes_run_coro me c waited r :
  commutes canon_yield (run_coro me c waited r) (run_coro me (canon_coro c) waited r).
Proof.
  destruct c; simpl.
  - apply commutes_writer_loop.
  - apply commutes_reader_loop.
  - apply commutes_close_port.
  - apply commutes_create_serial_connection.
Qed.

(** The loop. *)
Lemma canon_resume_value w tk : resume_value (canon_world w) (canon_task tk) = resume_value w tk.
Proof.
  unfold resume_value. simpl. destruct (must_cancel tk); [done|].
  destruct (fut_waiter tk) as [[kind st|j]|]; try done.
  rewrite list_lookup_fmap. by destruct (tasks w !! j).
Qed.

Lemma canon_must_cancel w k :
  from_option must_cancel false (tasks (canon_world w) !! k)
  = from_option must_cancel false (tasks w !! k).
Proof. simpl. rewrite list_lookup_fmap. by destruct (tasks w !! k). Qed.

Lemma commutes_suspend_task k c f :
  commutes id (suspend_task k c f) (suspend_task k (canon_coro c) f).
Proof.
  unfold suspend_task.
  eapply commutes_bind_id.
  { intros w. unfold update_task, modify, canon_world. simpl.
    assert (Ha : alter (λ tk, set_fut_waiter (Some f) (set_task_coro (canon_coro c) tk)) k
                   (canon_task <$> tasks w)
                 = canon_task <$> alter (λ tk, set_fut_waiter (Some f) (set_task_coro c tk)) k
                                    (tasks w)).
    { symmetry. apply list_fmap_alter. apply Forall_forall. by intros x _. }
    by rewrite Ha. }
  intros _. eapply commutes_bind_id; [destruct f; comm|]. intros _.
  eapply commutes_bind_id.
  { apply commutes_gets. intros w. apply canon_must_cancel. }
  intros requested. cbv beta. destruct requested; [|apply commutes_ret_id].
  destruct f as [kind [o|]|j]; comm.
Qed.

Lemma commutes_task_step k : commutes id (task_step k) (task_step k).
Proof.
  intros w. unfold task_step. simpl. rewrite list_lookup_fmap.
  destruct (tasks w !! k) as [tk|] eqn:Hk; simpl; [|done].
  change (task_done (canon_task tk)) with (task_done tk).
  destruct (task_done tk); [done|].
  fold (canon_world w). rewrite canon_resume_value.
  destruct (resume_value w tk) as [r|]; [|done].
  rewrite canon_alter by done.
  set (w1 := with_tasks (alter _ k (tasks w)) w).
  match goal with
  | |- context [run_coro k (canon_coro (task_coro tk)) (fut_waiter tk) r ?x] =>
      change x with (canon_world w1)
  end.
  rewrite (commutes_run_coro k (task_coro tk) (fut_waiter tk) r w1).
  destruct (run_coro k (task_coro tk) (fut_waiter tk) r w1) as [w2 [[c f|v]|e]];
    cbn [fst snd map_result canon_yield].
  - apply commutes_suspend_task.
  - rewrite canon_must_cancel.
    destruct (from_option must_cancel false (tasks w2 !! k)).
    + assert (H : commutes id (update_task k (set_must_cancel false) ;; finish_task k OCancelled)
                    (update_task k (set_must_cancel false) ;; finish_task k OCancelled))
        by comm.
      apply H.
    + apply commutes_finish_task.
  - destruct e; apply commutes_finish_task.
Qed.

Lemma commutes_remove_closing_task k :
  commutes id (remove_closing_task k) (remove_closing_task k).
Proof. unfold remove_closing_task. comm. Qed.

Lemma commutes_run_callback cb : commutes id (run_callback cb) (run_callback cb).
Proof.
  destruct cb; simpl;
    [apply commutes_task_step|apply commutes_emit|apply commutes_emit
    |apply commutes_remove_closing_task].
Qed.

Lemma commutes_settle k s : commutes id (settle k s) (settle k s).
Proof.
  intros w. unfold settle. simpl. rewrite list_lookup_fmap.
  destruct (tasks w !! k) as [[c [[[] [o|]|j]|] mc [o'|] cbs]|] eqn:E; simpl; try done.
  assert (Hev : settle_event (canon_coro c) (outcome_of_settlement s)
                = settle_event c (outcome_of_settlement s)) by (by destruct c).
  rewrite Hev. by erase.
Qed.

Lemma canon_call {A} (g : A → A) (m m' : M A) w :
  commutes g m m' → call m' (canon_world w) = canon_world (call m w).
Proof. intros H. unfold call. rewrite H. by destruct (m w) as [w1 [x|e]]. Qed.

Lemma canon_run_handle cb w : run_handle cb (canon_world w) = canon_world (run_handle cb w).
Proof.
  unfold run_handle. rewrite (commutes_run_callback cb w).
  by destruct (run_callback cb w) as [w1 [x|e]].
Qed.

(** An action on the erased state is the action with its arguments erased;
    the four arguments take part in nothing else. *)
Lemma canon_step a w : step (canon_action a) (canon_world w) = canon_world (step a w).
Proof.
  destruct a as [pt|a|t data|t|t p|t| |k st]; simpl.
  - eapply (canon_call id). unfold set_global_serial_port. comm.
  - eapply (canon_call id). apply (commutes_create_task (CreateConn a KStart)).
  - eapply (canon_call id). unfold write. comm.
  - eapply (canon_call id). apply commutes_cleanup.
  - eapply (canon_call id). unfold set_protocol. comm.
  - eapply (canon_call id). apply commutes_cleanup.
  - destruct (ready w) as [|cb rest]; [done|]. apply (canon_run_handle cb (with_ready rest w)).
  - eapply (canon_call id). apply commutes_settle.
Qed.

Lemma canon_run sched w :
  run (canon_action <$> sched) (canon_world w) = canon_world (run sched w).
Proof.
  revert w. induction sched as [|a sched IH]; intros w; [done|].
  simpl. rewrite canon_step. apply IH.
Qed.

Lemma same_action_canon a1 a2 : same_action a1 a2 → canon_action a1 = canon_action a2.
Proof.
  destruct a1, a2; simpl; try done; try (by intros ->).
  intros (H1 & H2 & H3). unfold canon_args. by rewrite H1, H2, H3.
Qed.

Lemma same_schedule_canon s1 s2 :
  Forall2 same_action s1 s2 → canon_action <$> s1 = canon_action <$> s2.
Proof.
  induction 1 as [|a1 a2 s1 s2 Ha _ IH]; [done|]. rewrite !fmap_cons.
  by rewrite (same_action_canon _ _ Ha), IH.
Qed.


(** ** The consumer is told after the port is closed *)

Lemma count_cb_pos f l : 0 < count_cb f l → ∃ cb, cb ∈ l ∧ f cb = true.
Proof.
  induction l as [|cb l IH]; [unfold count_cb; simpl; lia|].
  rewrite count_cb_cons. destruct (f cb) eqn:E.
  - intros _. exists cb. split; [by left|done].
  - intros H. destruct IH as (cb' & ? & ?); [simpl in H; lia|].
    exists cb'. split; [by right|done].
Qed.

Lemma count_cb_zero f l : Forall (λ cb, f cb = false) l → count_cb f l = 0.
Proof.
  induction 1 as [|cb l Hcb _ IH]; [done|]. by rewrite count_cb_cons, Hcb, IH.
Qed.

Lemma wake_cb_not_lost t cb : wake_cb cb → is_lost_cb t cb = false.
Proof. by intros [[k ->]|(p & t0 & ->)]. Qed.

Lemma enq_count t w w' :
  enqueues wake_cb w w' →
  count_cb (is_lost_cb t) (ready w') = count_cb (is_lost_cb t) (ready w).
Proof.
  intros (added & -> & Hadd). rewrite count_cb_app, (count_cb_zero _ added); [lia|].
  eapply Forall_impl; [exact Hadd|]. apply wake_cb_not_lost.
Qed.

Lemma close_settled_app t l1 l2 :
  close_settled t (l1 ++ l2) = close_settled t l1 || close_settled t l2.
Proof. unfold close_settled. apply existsb_app. Qed.

Lemma settled_mono t (P : event → Prop) w w' :
  emits P w w' → close_settled t (trace w) = true → close_settled t (trace w') = true.
Proof. intros (evs & -> & _) H. by rewrite close_settled_app, H. Qed.

Lemma lost_app t l1 l2 : lost t (l1 ++ l2) = lost t l1 ++ lost t l2.
Proof. apply omap_app. Qed.

Lemma hushed_lost t evs : Forall (hushed t) evs → lost t evs = [].
Proof.
  induction 1 as [|ev evs Hev _ IH]; [done|].
  change (ev :: evs) with ([ev] ++ evs). rewrite lost_app, IH, app_nil_r.
  unfold lost. simpl. destruct ev; try done. case_decide; [|done]. subst.
  by destruct (Hev p e).
Qed.

Lemma emits_hushed t w w' :
  emits (hushed t) w w' → lost t (trace w') = lost t (trace w).
Proof. intros (evs & -> & H). by rewrite lost_app, (hushed_lost _ _ H), app_nil_r. Qed.

(** *** Tasks *)

Lemma same_kind_close t c c' :
  same_kind c c' →
  match c' with ClosePort t' _ _ => t' = t | _ => False end →
  match c with ClosePort t' _ _ => t' = t | _ => False end.
Proof. destruct c, c'; simpl; try done. by intros [-> _]. Qed.

Lemma task_ok_mono t (b b' : bool) tk : (b = true → b' = true) → task_ok t b tk → task_ok t b' tk.
Proof.
  intros Hb [H1 H2]. split; [done|]. intros Hc Hst. destruct (H2 Hc Hst) as [Hmc Hf].
  split; [done|]. destruct (fut_waiter tk) as [[[] [o|]|j]|]; try done.
  destruct Hf. split; [done|]. by apply Hb.
Qed.

Lemma nudge_task_ok t b tk tk' : nudge tk tk' → task_ok t b tk → task_ok t b tk'.
Proof.
  intros [tk0 Hp|tk0 Hf Hst|tk0 k0 Hst] [H1 H2].
  - assert (Hno : ¬ is_close_of t tk0).
    { unfold is_close_of. destruct Hp as [x Hp]. intros Hc.
      destruct (task_coro tk0); simpl in *; done. }
    assert (Hcb : done_callbacks (cancel_request tk0) = done_callbacks tk0).
    { unfold cancel_request. destruct (task_done tk0); [done|].
      by destruct (fut_waiter tk0) as [[kind [o|]|j]|]. }
    split.
    + unfold holds_lost. rewrite Hcb. intros Hh. by destruct Hno, (H1 Hh).
    + unfold is_close_of. rewrite task_coro_cancel_request. intros Hc. by destruct Hno.
  - split; [done|]. intros Hc. destruct (H2 Hc Hst) as [_ Hg]. by rewrite Hf in Hg.
  - split.
    + unfold holds_lost. simpl. rewrite count_cb_app, count_cb_cons. simpl.
      rewrite count_cb_nil. intros Hh. apply H1. unfold holds_lost. lia.
    + done.
Qed.

Lemma nudged_task_ok t b tk tk' : rtc nudge tk tk' → task_ok t b tk → task_ok t b tk'.
Proof. induction 1; eauto using nudge_task_ok. Qed.

Lemma nudge_count t tk tk' :
  nudge tk tk' →
  count_cb (is_lost_cb t) (done_callbacks tk') = count_cb (is_lost_cb t) (done_callbacks tk).
Proof.
  intros [tk0 Hp|tk0 Hf Hst|tk0 k0 Hst]; simpl; try done.
  - unfold cancel_request. destruct (task_done tk0); [done|].
    by destruct (fut_waiter tk0) as [[kind [o|]|j]|].
  - rewrite count_cb_app, count_cb_cons. simpl. rewrite count_cb_nil. lia.
Qed.

Lemma nudged_count t tk tk' :
  rtc nudge tk tk' →
  count_cb (is_lost_cb t) (done_callbacks tk') = count_cb (is_lost_cb t) (done_callbacks tk).
Proof.
  induction 1 as [|x y z Hxy _ IH]; [done|]. rewrite IH. by apply nudge_count.
Qed.

Lemma nudge_must_cancel tk tk' :
  nudge tk tk' → pump_of (task_coro tk) = None → must_cancel tk' = must_cancel tk.
Proof.
  intros [tk0 Hp|tk0 Hf Hst|tk0 k0 Hst] Hn; try done.
  rewrite Hn in Hp. by destruct Hp.
Qed.

Lemma nudged_must_cancel tk tk' :
  rtc nudge tk tk' → pump_of (task_coro tk) = None → must_cancel tk' = must_cancel tk.
Proof.
  induction 1 as [|x y z Hxy _ IH]; [done|]. intros Hn.
  rewrite IH; [by apply nudge_must_cancel|]. by rewrite (nudge_coro _ _ Hxy).
Qed.

Lemma fresh_task_ok t b tk : fresh tk → task_ok t b tk.
Proof.
  intros (Hfut & Hst & Hat & Hmc & Hcbs). split.
  - intros Hh. destruct (count_cb_pos _ _ Hh) as (cb & Hin & Hcb).
    rewrite Forall_forall in Hcbs. destruct (Hcbs _ Hin) as [[k ->]|(t' & pt & Hc & Hs)]; [done|].
    destruct Hs as [(p & e & ->)|[k ->]]; [|done].
    simpl in Hcb. apply bool_decide_eq_true in Hcb. subst.
    unfold is_close_of. by rewrite Hc.
  - unfold is_close_of. intros Hc _.
    destruct (task_coro tk) as [| |t' pt pc|] eqn:E; try done. subst t'.
    split; [by apply Hmc|]. rewrite Hfut. destruct pc; [|done]. eauto.
Qed.

(** *** A shutdown of a transport that holds its port calls nobody *)

Lemma cleanup_hushed t self e w :
  (∀ tr, transports w !! t = Some tr → coupled tr) →
  emits (hushed t) w (_cleanup self e w).1.
Proof.
  intros Hcoup. destruct (decide (self = t)) as [->|Hne].
  2:{ eapply emits_impl; [|apply cleanup_emits]. intros ev [] ? ?; congruence. }
  destruct (transports w !! t) as [tr|] eqn:Htr.
  2:{ unfold _cleanup, bind, update_transport, modify, the_transport. simpl.
      rewrite list_lookup_alter_eq, Htr. simpl. by apply emits_same. }
  rewrite (cleanup_unfold _ _ _ _ Htr).
  set (w1 := with_transports _ w).
  set (w2 := (cancel (_reader_task tr) w1).1).
  set (w3 := (cancel (_writer_task tr) w2).1).
  destruct (cancel_frame (_reader_task tr) w1) as (_&_&Ht2&Hc2&_&_).
  destruct (cancel_frame (_writer_task tr) w2) as (_&_&Ht3&Hc3&_&_).
  assert (H3 : transports w3 !! t = Some (set_is_closing true tr)).
  { unfold w3. rewrite Ht3. unfold w2. rewrite Ht2. unfold w1. simpl.
    by rewrite list_lookup_alter_eq, Htr. }
  assert (Hc03 : trace w3 = trace w).
  { unfold w3. rewrite Hc3. unfold w2. by rewrite Hc2. }
  eapply (emits_trans _ w w3); [by apply emits_same|].
  destruct (cleanup_tail_cases t e _ w3 H3) as [Hrel|(X&evs&x&->&_&_&Hevs)].
  - rewrite (cleanup_tail_ok _ _ _ _ H3 Hrel). eexists. split; [done|].
    specialize (Hcoup tr eq_refl). unfold coupled in Hcoup.
    unfold cleanup_events. simpl.
    destruct (_js_reader tr), (_js_writer tr), (_port tr), (_protocol tr);
      repeat constructor; try done.
    all: by specialize (Hcoup eq_refl).
  - eexists. split; [done|]. eapply Forall_impl; [exact Hevs|].
    by intros ev [->| ->].
Qed.

Lemma writer_failed_hushed t self e w :
  (∀ tr, transports w !! t = Some tr → coupled tr) →
  emits (hushed t) w (writer_failed self e w).1.
Proof.
  intros Hc. unfold writer_failed, bind. pose proof (cleanup_hushed t self (Some e) w Hc) as H.
  by destruct (_cleanup self (Some e) w) as [w' [[]|x]].
Qed.

Lemma writer_iteration_hushed t self me w :
  (∀ tr, transports w !! t = Some tr → coupled tr) →
  emits (hushed t) w (writer_iteration self me w).1.
Proof.
  intros Hc. unfold writer_iteration, queue_get, the_transport, bind.
  destruct (transports w !! self) as [tr|] eqn:Htr; [|apply emits_refl].
  destruct (q_items (_write_queue tr)) as [|item rest] eqn:Hq.
  - by apply emits_same.
  - unfold update_transport, modify, ret. simpl.
    remember (with_transports _ w) as w1 eqn:Ew1.
    assert (H1 : emits (hushed t) w w1) by (subst w1; by apply emits_same).
    assert (Hc1 : ∀ tr1, transports w1 !! t = Some tr1 → coupled tr1).
    { subst w1. simpl. intros tr1. rewrite list_lookup_alter.
      destruct (decide (self = t)) as [->|]; [|apply Hc].
      rewrite Htr. simpl. intros [= <-]. by apply (Hc tr). }
    clear Ew1. unfold try_except, js_write, the_transport, bind.
    pose proof (writer_failed_hushed t self AttributeError w1 Hc1) as H2.
    destruct (transports w1 !! self) as [tr1|]; simpl.
    + destruct (_js_writer tr1); simpl.
      * eapply emits_trans; [exact H1|]. by eapply emits_one.
      * destruct (writer_failed self AttributeError w1) as [w2 r2]. simpl in *.
        eapply emits_trans; [exact H1|]. by destruct r2.
    + destruct (writer_failed self AttributeError w1) as [w2 r2]. simpl in *.
      eapply emits_trans; [exact H1|]. by destruct r2.
Qed.

Lemma run_coro_hushed t me c waited r w :
  (∀ tr, transports w !! t = Some tr → coupled tr) →
  emits (hushed t) w (run_coro me c waited r w).1.
Proof.
  intros Hc. destruct c as [self pc|self pc|owner pt pc|a pc].
  - simpl. destruct pc, r as [v|e]; simpl; try apply emits_refl;
      try (by apply writer_iteration_hushed).
    + unfold bind. pose proof (queue_get_interrupted_trace self me waited w) as H.
      destruct (queue_get_interrupted self me waited w) as [w' [[]|x]]; by apply emits_same.
    + unfold try_except, raise. destruct (is_Exception e); [|apply emits_refl].
      pose proof (writer_failed_hushed t self e w Hc) as H.
      by destruct (writer_failed self e w) as [w' [y|x]].
  - simpl.
    assert (Hread : ∀ w0, emits (hushed t) w w0 → emits (hushed t) w (js_read self w0).1).
    { intros w0 H0. eapply emits_trans; [exact H0|].
      unfold js_read, the_transport, bind.
      destruct (transports w0 !! self) as [tr|]; [|apply emits_refl].
      destruct (_js_reader tr); [|apply emits_refl]. by eapply emits_one. }
    destruct pc, r as [v|e]; simpl; try apply emits_refl;
      try (by apply Hread, emits_refl).
    destruct v as [|dn val|]; simpl; try apply emits_refl.
    destruct dn; unfold bind.
    { pose proof (cleanup_hushed t self (Some (RuntimeError "Other side has closed")) w Hc)
        as H.
      by destruct (_cleanup self _ w) as [w' [[]|x]]. }
    assert (Hd : emits (hushed t) w (data_received self val w).1).
    { unfold data_received, the_transport, bind.
      destruct (transports w !! self) as [tr|]; [|apply emits_refl].
      destruct (_protocol tr); [|apply emits_refl]. by eapply emits_one. }
    destruct (data_received self val w) as [w' [[]|x]]; simpl in *; [by apply Hread|done].
  - eapply emits_impl; [|apply (run_coro_emits me (ClosePort owner pt pc))].
    intros ev [[m ->]| ->]; done.
  - eapply emits_impl; [|apply (run_coro_emits me (CreateConn a pc))].
    intros ev [[m ->]|[[pt ->]|[t0 [->| ->]]]]; done.
Qed.

Lemma task_step_hushed t k w :
  (∀ tr, transports w !! t = Some tr → coupled tr) →
  emits (hushed t) w (task_step k w).1.
Proof.
  intros Hc. unfold task_step. destruct (tasks w !! k) as [tk|]; [|apply emits_refl].
  destruct (task_done tk); [apply emits_refl|].
  destruct (resume_value w tk) as [r|]; [|apply emits_refl].
  remember (with_tasks _ w) as w1 eqn:E1.
  assert (Hc1 : ∀ tr, transports w1 !! t = Some tr → coupled tr) by (by subst w1).
  assert (Ht1 : trace w1 = trace w) by (by subst w1). clear E1.
  pose proof (run_coro_hushed t k (task_coro tk) (fut_waiter tk) r w1 Hc1) as H.
  destruct (run_coro k (task_coro tk) (fut_waiter tk) r w1) as [w2 res]. simpl in *.
  assert (H' : emits (hushed t) w w2).
  { eapply emits_trans; [by apply emits_same|exact H]. }
  destruct res as [[c f|v]|e].
  - eapply emits_trans; [exact H'|]. apply emits_same, suspend_task_trace.
  - destruct (from_option must_cancel false (tasks w2 !! k)).
    + eapply emits_trans; [exact H'|]. apply emits_same.
      unfold bind, update_task, modify. simpl. by rewrite finish_task_trace.
    + eapply emits_trans; [exact H'|]. apply emits_same, finish_task_trace.
  - destruct e; (eapply emits_trans; [exact H'|]); apply emits_same, finish_task_trace.
Qed.

(** *** A step of a close task *)

Lemma same_kind_is_close t tk tk' :
  same_kind (task_coro tk) (task_coro tk') → is_close_of t tk ↔ is_close_of t tk'.
Proof.
  unfold is_close_of. destruct (task_coro tk), (task_coro tk'); simpl; try done.
  intros [-> _]. done.
Qed.

(** A close that can run has not started, and then it calls [port.close()]
    and waits for it; or the device has settled the close, and then it
    ends. *)
Lemma close_step_cases t b w k tk r w2 res :
  wf w → tasks w !! k = Some tk → is_close_of t tk → guarded t b tk →
  task_done tk = false → resume_value w tk = Some r →
  run_coro k (task_coro tk) (fut_waiter tk) r
    (with_tasks (alter (λ tk, set_fut_waiter None (set_must_cancel false tk)) k (tasks w)) w)
  = (w2, res) →
  (fut_waiter tk = None
   ∧ ∃ pt, task_coro tk = ClosePort t pt CStart
           ∧ res = Ok (YAwait (ClosePort t pt CAwait) (AwFuture FutJs None)))
  ∨ (b = true ∧ ∀ c f, res ≠ Ok (YAwait c f)).
Proof.
  intros Hwf Hk Hc Hg Hd Hres Erun.
  destruct (Hg (not_done_pending _ Hd)) as [Hmc Hf].
  pose proof (wf_shape _ _ Hwf _ _ Hk) as Hsh. unfold shape_ok in Hsh.
  unfold resume_value in Hres. rewrite Hmc in Hres.
  unfold is_close_of in Hc.
  destruct (fut_waiter tk) as [[[] [o|]|j]|] eqn:Hfw; try done.
  - destruct Hf as [Ho ->]. right. split; [done|].
    destruct (task_coro tk) as [| |t' pt pc|] eqn:Hco; try done. destruct pc; [done|].
    simpl in Erun. intros c f ->.
    destruct r as [v|e]; simpl in Erun; by inversion Erun.
  - left. split; [done|]. destruct Hf as [pt Hco]. exists pt. split; [done|].
    rewrite Hco in Erun. simpl in Hres. injection Hres as <-. simpl in Erun.
    by inversion Erun.
Qed.

(** One step of a task keeps the task in order, and if it hands the
    notification to the loop, the device has settled the close. *)
Lemma own_step_notify t k w tk :
  wf w → tasks w !! k = Some tk →
  task_ok t (close_settled t (trace w)) tk →
  ∃ added fin tk',
    ready (task_step k w).1 = ready w ++ added ++ fin
    ∧ Forall wake_cb added
    ∧ (0 < count_cb (is_lost_cb t) fin → close_settled t (trace w) = true)
    ∧ tasks (task_step k w).1 !! k = Some tk'
    ∧ task_ok t (close_settled t (trace w)) tk'.
Proof.
  intros Hwf Hk Hok.
  assert (Hidle : task_step k w = (w, Ok tt) →
    ∃ added fin tk',
      ready (task_step k w).1 = ready w ++ added ++ fin
      ∧ Forall wake_cb added
      ∧ (0 < count_cb (is_lost_cb t) fin → close_settled t (trace w) = true)
      ∧ tasks (task_step k w).1 !! k = Some tk'
      ∧ task_ok t (close_settled t (trace w)) tk').
  { intros ->. exists [], [], tk. simpl. rewrite app_nil_r. split_and!; try done.
    unfold count_cb. simpl. lia. }
  destruct (task_done tk) eqn:Hd.
  { apply Hidle. unfold task_step. by rewrite Hk, Hd. }
  destruct (resume_value w tk) as [r|] eqn:Hres.
  2:{ apply Hidle. unfold task_step. by rewrite Hk, Hd, Hres. }
  clear Hidle.
  destruct (run_coro k (task_coro tk) (fut_waiter tk) r
              (with_tasks (alter (λ tk, set_fut_waiter None (set_must_cancel false tk))
                             k (tasks w)) w)) as [w2 res] eqn:Erun.
  destruct (task_step_detail k w tk r w2 res Hwf Hk Hd Hres Erun)
    as (added & tk2 & tk' & Hk2 & Hn2 & Hadd & Hready & Hk' & Hafter).
  destruct (task_step_after k w tk r w2 res Hwf Hk Hd Hres Erun) as (_ & _ & _ & Hy & _).
  pose proof (not_done_pending _ Hd) as Hst.
  assert (Hcnt : count_cb (is_lost_cb t) (done_callbacks tk2)
                 = count_cb (is_lost_cb t) (done_callbacks tk)).
  { by rewrite (nudged_count t _ _ Hn2). }
  destruct Hok as [Hok1 Hok2].
  assert (Hcases : is_close_of t tk →
    (fut_waiter tk = None
     ∧ ∃ pt, task_coro tk = ClosePort t pt CStart
             ∧ res = Ok (YAwait (ClosePort t pt CAwait) (AwFuture FutJs None)))
    ∨ (close_settled t (trace w) = true ∧ ∀ c f, res ≠ Ok (YAwait c f))).
  { intros Hc. eapply close_step_cases; try done. by apply Hok2. }
  exists added, (match res with Ok (YAwait _ _) => [] | _ => done_callbacks tk2 end), tk'.
  split; [done|]. split; [done|]. split; [|split; [done|]].
  - intros Hfin.
    assert (Hh : holds_lost t tk).
    { unfold holds_lost. rewrite <-Hcnt. destruct res as [[c f|v]|e]; try done.
      unfold count_cb in Hfin. simpl in Hfin. lia. }
    destruct (Hok1 Hh) as [Hc _].
    destruct (Hcases Hc) as [(_ & pt & _ & ->)|[Hs _]]; [|done].
    unfold count_cb in Hfin. simpl in Hfin. lia.
  - destruct res as [[c f|v]|e].
    + destruct Hafter as (Hst' & Hco' & (extra & Hcb' & Hex) & Hmc').
      assert (Hkind : is_close_of t tk ↔ is_close_of t tk').
      { apply same_kind_is_close. rewrite Hco'. by destruct Hy. }
      split.
      * unfold holds_lost. rewrite Hcb', count_cb_app, Hcnt.
        rewrite (count_cb_zero _ extra).
        2:{ eapply Forall_impl; [exact Hex|]. by intros cb [j ->]. }
        intros Hh. destruct (Hok1 ltac:(unfold holds_lost; lia)) as [Hc _].
        split; [by apply Hkind|done].
      * intros Hc'. apply Hkind in Hc'.
        destruct (Hcases Hc') as [(Hfw & pt & Hco & Hr)|[_ Hno]]; [|by destruct (Hno c f)].
        injection Hr as -> ->.
        assert (Hmc2 : must_cancel tk2 = false).
        { rewrite (nudged_must_cancel _ _ Hn2); [done|]. simpl. by rewrite Hco. }
        destruct (Hmc' Hmc2) as [Hm Hf]. intros _. split; [done|]. by rewrite Hf.
    + destruct Hafter as ([o Ho] & Hco' & Hcb'). split.
      * unfold holds_lost. rewrite Hcb'. unfold count_cb. simpl. lia.
      * intros _ Hst'. congruence.
    + destruct Hafter as ([o Ho] & Hco' & Hcb'). split.
      * unfold holds_lost. rewrite Hcb'. unfold count_cb. simpl. lia.
      * intros _ Hst'. congruence.
Qed.

(** *** One action *)

Lemma run_once_step k rest w :
  ready w = CbStep k :: rest →
  tasks (step RunOnce w) = tasks (task_step k (with_ready rest w)).1
  ∧ ready (step RunOnce w) = ready (task_step k (with_ready rest w)).1
  ∧ transports (step RunOnce w) = transports (task_step k (with_ready rest w)).1
  ∧ ∃ extra, trace (step RunOnce w) = trace (task_step k (with_ready rest w)).1 ++ extra
             ∧ Forall (λ ev, ∃ e, ev = EvLoopException e) extra.
Proof.
  intros Hr. simpl. rewrite Hr. unfold run_handle. simpl.
  destruct (task_step k (with_ready rest w)) as [w' [[]|e]]; simpl.
  - split_and!; try done. exists []. by rewrite app_nil_r.
  - split_and!; try done. exists [EvLoopException e]. split; [done|].
    constructor; [eauto|constructor].
Qed.

Lemma step_tasks_ok t a w :
  wf w → notify_after_close t w →
  ∀ k tk', tasks (step a w) !! k = Some tk' →
    task_ok t (close_settled t (trace (step a w))) tk'.
Proof.
  intros Hwf (Htasks & _ & _) k tk' Hk'.
  assert (Hmono : close_settled t (trace w) = true →
                  close_settled t (trace (step a w)) = true).
  { eapply settled_mono, step_emits. }
  destruct (tasks w !! k) as [tk|] eqn:Hk.
  - specialize (Htasks _ _ Hk).
    destruct (decide (stepping a w = Some k)) as [Hs|Hs].
    + destruct a as [pt|a|t0 data|t0|t0 p|t0| |k0 st]; simpl in Hs; try done.
      * destruct (ready w) as [|[k0| | |] rest] eqn:Hr; try done. simplify_eq.
        assert (Hwf0 : wf (with_ready rest w)) by (by apply (wf_same None w)).
        destruct (run_once_step k rest w Hr) as (Hts & _ & _ & _).
        destruct (own_step_notify t k (with_ready rest w) tk Hwf0 Hk Htasks)
          as (added & fin & tk1 & _ & _ & _ & Hk1 & Hok1).
        rewrite Hts, Hk1 in Hk'. simplify_eq.
        eapply task_ok_mono; [exact Hmono|exact Hok1].
      * simplify_eq. revert Hk' Hmono. simpl. unfold call, settle. rewrite Hk.
        destruct tk as [c [[[] [o|]|j]|] mc [o'|] cbs]; simpl;
          try (rewrite Hk; intros [= <-] Hmono; by eapply task_ok_mono).
        rewrite list_lookup_alter_eq, Hk. simpl. intros [= <-] _.
        destruct Htasks as [H1 H2]. split; [done|].
        intros Hc _. destruct (H2 Hc eq_refl) as [Hmc _]. split; [done|]. simpl.
        split; [by destruct st|].
        rewrite close_settled_app. unfold is_close_of in Hc. simpl in Hc.
        destruct c as [| |t' pt pc|]; try done. subst t'. simpl.
        rewrite bool_decide_eq_true_2 by done. simpl. apply orb_true_r.
    + destruct (proj1 (frame_step a w Hwf) _ _ Hs Hk) as (tk2 & Hk2 & Hn).
      assert (tk2 = tk') as -> by congruence.
      eapply task_ok_mono; [exact Hmono|]. by eapply nudged_task_ok.
  - destruct (decide (stepping a w = Some k)) as [Hs|Hs].
    + exfalso. destruct a as [pt|a|t0 data|t0|t0 p|t0| |k0 st]; simpl in Hs; try done.
      * destruct (ready w) as [|[k0| | |] rest] eqn:Hr; try done. simplify_eq.
        destruct (run_once_step k rest w Hr) as (Hts & _).
        rewrite Hts, task_step_missing in Hk' by done. simpl in Hk'. congruence.
      * simplify_eq. revert Hk'. simpl. unfold call, settle. rewrite Hk. simpl. congruence.
    + apply fresh_task_ok. eapply (proj2 (frame_step a w Hwf)); [exact Hs| |exact Hk'].
      by apply lookup_ge_None.
Qed.

Lemma step_coupled t a w :
  keeps_protocol t a →
  (∀ tr, transports w !! t = Some tr → coupled tr) →
  ∀ tr', transports (step a w) !! t = Some tr' → coupled tr'.
Proof.
  intros Hkeep Hc tr' Ht'.
  assert (Hcases : (∀ t' p, a ≠ Call_set_protocol t' p) ∨ ∃ t0 p, a = Call_set_protocol t0 p).
  { destruct a; eauto; by left. }
  destruct Hcases as [Hns|(t0 & p & ->)].
  - destruct (step_shut_frame a w Hns) as [H1 H2].
    destruct (transports w !! t) as [tr|] eqn:Ht.
    + destruct (H1 _ _ Ht) as (tr2 & Ht2 & Hs). assert (tr2 = tr') as -> by congruence.
      eapply shut_step_coupled; [exact Hs|]. by apply Hc.
    + eapply H2; [|exact Ht']. by apply lookup_ge_None.
  - assert (t0 ≠ t) by (intros ->; by eapply Hkeep).
    revert Ht'. simpl. unfold call, set_protocol, update_transport, modify. simpl.
    rewrite list_lookup_alter_ne by done. apply Hc.
Qed.

(** An action other than a turn of the loop hands only wake-ups to the
    loop and, on a transport that holds its port, calls nobody. *)
Lemma step_calm t a w :
  a ≠ RunOnce →
  (∀ tr, transports w !! t = Some tr → coupled tr) →
  enqueues wake_cb w (step a w) ∧ emits (hushed t) w (step a w).
Proof.
  intros Ha Hc.
  assert (Hcall : ∀ {A} (m : M A),
            enqueues wake_cb w (m w).1 ∧ emits (hushed t) w (m w).1 →
            enqueues wake_cb w (call m w) ∧ emits (hushed t) w (call m w)).
  { intros A m [He Hh]. unfold call. destruct (m w) as [w' [x|e]]; simpl in *; [done|].
    split.
    - eapply enq_trans; [exact He|]. by apply enq_same.
    - eapply emits_trans; [exact Hh|]. by eapply emits_one. }
  destruct a as [pt|a|t0 data|t0|t0 p|t0| |k st]; simpl; try done.
  - apply Hcall. split; [by apply enq_same|by apply emits_same].
  - apply Hcall. split; [by eapply enq_one; [|apply wake_step]|by apply emits_same].
  - apply Hcall. unfold the_transport, bind, emit, modify, write.
    destruct (transports w !! t0); simpl; [|split; [apply enq_refl|apply emits_refl]].
    split.
    + eapply enq_trans; [|apply enq_put_nowait]. by apply enq_same.
    + eapply emits_trans; [|apply emits_same, put_nowait_trace]. by eapply emits_one.
  - apply Hcall. split; [apply enq_cleanup|by apply cleanup_hushed].
  - apply Hcall. split; [by apply enq_same|by apply emits_same].
  - apply Hcall. split; [apply enq_cleanup|by apply cleanup_hushed].
  - apply Hcall. unfold settle.
    destruct (tasks w !! k) as [[c [[[] [o|]|j]|] mc [o'|] cbs]|]; simpl;
      try (split; [apply enq_refl|apply emits_refl]).
    split; [by eapply enq_one; [|apply wake_step]|].
    eapply emits_one; [done|]. by destruct c.
Qed.

Lemma step_late t a w :
  wf w → notify_after_close t w →
  0 < count_cb (is_lost_cb t) (ready (step a w)) + length (lost t (trace (step a w))) →
  close_settled t (trace (step a w)) = true.
Proof.
  intros Hwf (Htasks & Hcoup & Hlate) Hpos.
  eapply settled_mono; [apply step_emits|].
  assert (Hcases : a = RunOnce ∨ a ≠ RunOnce) by (destruct a; eauto).
  destruct Hcases as [->|Ha].
  2:{ destruct (step_calm t a w Ha Hcoup) as [He Hh].
      apply Hlate. by rewrite <-(enq_count t _ _ He), <-(emits_hushed _ _ _ Hh). }
  revert Hpos. simpl. destruct (ready w) as [|cb rest] eqn:Hr.
  { by rewrite Hr. }
  rewrite count_cb_cons in Hlate.
  assert (Hexc : ∀ w' e, lost t (trace w' ++ [EvLoopException e]) = lost t (trace w')).
  { intros w' e. by rewrite lost_app, app_nil_r. }
  destruct cb as [k|p t0|t0 p e|k]; unfold run_handle; simpl.
  - destruct (tasks w !! k) as [tk|] eqn:Hk.
    2:{ rewrite task_step_missing by done. simpl. intros Hpos. apply Hlate. simpl. lia. }
    assert (Hwf0 : wf (with_ready rest w)) by (by apply (wf_same None w)).
    destruct (own_step_notify t k (with_ready rest w) tk Hwf0 Hk (Htasks _ _ Hk))
      as (added & fin & tk1 & Hrd & Hadd & Hfin & _ & _).
    pose proof (task_step_hushed t k (with_ready rest w) Hcoup) as Hh.
    apply emits_hushed in Hh. simpl in Hrd, Hh, Hfin.
    assert (Hcount : count_cb (is_lost_cb t) (ready (task_step k (with_ready rest w)).1)
                     = count_cb (is_lost_cb t) rest + count_cb (is_lost_cb t) fin).
    { rewrite Hrd, !count_cb_app, (count_cb_zero _ added); [lia|].
      eapply Forall_impl; [exact Hadd|]. apply wake_cb_not_lost. }
    assert (Hgo : 0 < count_cb (is_lost_cb t) (ready (task_step k (with_ready rest w)).1)
                      + length (lost t (trace (task_step k (with_ready rest w)).1)) →
                  close_settled t (trace w) = true).
    { rewrite Hcount, Hh. intros Hpos.
      destruct (decide (0 < count_cb (is_lost_cb t) fin)) as [Hf|Hf]; [by apply Hfin|].
      apply Hlate. simpl. lia. }
    destruct (task_step k (with_ready rest w)) as [w' [[]|x]]; simpl in *; [done|].
    rewrite Hexc. done.
  - rewrite lost_app, app_nil_r. simpl. intros Hpos. apply Hlate. simpl. lia.
  - destruct (decide (t0 = t)) as [->|Hne].
    + intros _. apply Hlate. simpl. rewrite bool_decide_eq_true_2 by done. lia.
    + rewrite lost_app. unfold lost at 2. simpl. rewrite decide_False by done.
      rewrite app_nil_r. intros Hpos. apply Hlate. simpl. lia.
  - unfold remove_closing_task, bind, gets. simpl.
    case_bool_decide; simpl; rewrite ?Hexc; intros Hpos; apply Hlate; simpl; lia.
Qed.

Lemma step_notify t a w :
  wf w → keeps_protocol t a → notify_after_close t w → notify_after_close t (step a w).
Proof.
  intros Hwf Hkeep Hinv. split_and!.
  - by apply step_tasks_ok.
  - apply step_coupled; [done|]. by destruct Hinv as (_ & ? & _).
  - by apply step_late.
Qed.

Lemma run_notify t sched w :
  wf w → Forall (keeps_protocol t) sched → notify_after_close t w →
  notify_after_close t (run sched w).
Proof.
  intros Hwf Hs. revert w Hwf. induction Hs as [|a sched Ha _ IH]; intros w Hwf Hinv; [done|].
  simpl. apply IH; [by apply step_wf|by apply step_notify].
Qed.

Lemma notify_init t : notify_after_close t init.
Proof.
  split_and!; try done. simpl. unfold count_cb. simpl. lia.
Qed.

(** X24.  The consumer is told that the connection is lost only after the
    device has closed the port.  The runs considered are those of [step]:
    calls of the module, turns of the loop and settlements by the device; no
    task is cancelled from outside the module, as a timeout around
    [create_serial_connection] would do to the close task it awaits.  As
    long as [set_protocol] is not called on a transport, at every moment of
    such a run at which [connection_lost] has been called for it, or is
    waiting in the loop to be called, the [port.close()] detached by its
    shutdown has settled. *)
Theorem connection_lost_after_close_settled sched t :
  Forall (keeps_protocol t) sched →
  0 < count_cb (is_lost_cb t) (ready (run sched init))
      + length (lost t (trace (run sched init))) →
  close_settled t (trace (run sched init)) = true.
Proof.
  intros Hs.
  by destruct (run_notify t sched init wf_init_world Hs (notify_init t)) as (_ & _ & ?).
Qed.

Lemma connection_lost_after_close_settled_witness :
  lost 0 (trace (run Scenario.close_to_end init)) = [(7, None)]
  ∧ close_settled 0 (trace (run Scenario.close_to_end init)) = true.
Proof.
  split; [vm_compute; reflexivity|].
  apply (connection_lost_after_close_settled Scenario.close_to_end 0).
  - repeat constructor; intros p; discriminate.
  - vm_compute. lia.
Defined.


(** ** The arguments of [create_serial_connection] *)

(** With nothing to wait for, the call opens the selected port at once. *)
Lemma create_serial_connection_opens a pc v w pt :
  pc ≠ KOpen →
  _SERIAL_PORT_CLOSING_TASKS w = [] →
  _SERIAL_PORT w = Some pt →
  create_serial_connection a pc (Send v) w
  = (with_trace
       (trace w ++ [EvPortOpen pt (baudrate a)
                      (if rtscts a then Some "hardware"%string else None)]) w,
     Ok (YAwait (CreateConn a KOpen) (AwFuture FutJs None))).
Proof.
  intros Hpc Hreg Hsp.
  assert (H : wait_then_open a w
              = (with_trace
                   (trace w ++ [EvPortOpen pt (baudrate a)
                                  (if rtscts a then Some "hardware"%string else None)]) w,
                 Ok (YAwait (CreateConn a KOpen) (AwFuture FutJs None)))).
  { unfold wait_then_open, bind, gets. rewrite Hreg. simpl.
    unfold open_serial_port, bind, gets, emit, modify, ret. by rewrite Hsp. }
  by destruct pc.
Qed.

(** Whenever a step of the call opens a port, it is the port selected at
    that moment, with the rate and the flow control of the call. *)
Lemma create_serial_connection_open_calls a pc r w :
  emits (λ ev, ∀ pt b f, ev = EvPortOpen pt b f →
                 _SERIAL_PORT w = Some pt ∧ b = baudrate a
                 ∧ f = (if rtscts a then Some "hardware"%string else None))
    w (create_serial_connection a pc r w).1.
Proof.
  assert (Hw : emits (λ ev, ∀ pt b f, ev = EvPortOpen pt b f →
                         _SERIAL_PORT w = Some pt ∧ b = baudrate a
                         ∧ f = (if rtscts a then Some "hardware"%string else None))
                 w (wait_then_open a w).1).
  { unfold wait_then_open, bind, gets.
    pose proof (await_closing_tasks_emits (reverse (_SERIAL_PORT_CLOSING_TASKS w)) w) as He.
    destruct (await_closing_tasks_frame (reverse (_SERIAL_PORT_CLOSING_TASKS w)) w)
      as (_ & _ & _ & Hsp).
    assert (He' : emits (λ ev, ∀ pt b f, ev = EvPortOpen pt b f →
                            _SERIAL_PORT w = Some pt ∧ b = baudrate a
                            ∧ f = (if rtscts a then Some "hardware"%string else None))
                    w (await_closing_tasks (reverse (_SERIAL_PORT_CLOSING_TASKS w)) w).1).
    { eapply emits_impl; [|exact He]. by intros ev [m ->] pt b f. }
    destruct (await_closing_tasks _ w) as [w' [[k|]|e]]; simpl in *; try done.
    unfold open_serial_port, bind, gets, emit, modify, ret, raise.
    destruct (_SERIAL_PORT w') as [pt|] eqn:Hpt; simpl; [|done].
    eapply emits_trans; [exact He'|]. eapply emits_one; [done|].
    intros pt' b f [= <- <- <-]. by rewrite <-Hsp. }
  destruct pc, r; simpl; try done; try apply emits_refl.
  unfold bind, gets.
  pose proof (init_emits (protocol_factory a) (_SERIAL_PORT w) w) as Hi.
  assert (Hi' : emits (λ ev, ∀ pt b f, ev = EvPortOpen pt b f →
                          _SERIAL_PORT w = Some pt ∧ b = baudrate a
                          ∧ f = (if rtscts a then Some "hardware"%string else None))
                  w (__init__ (protocol_factory a) (_SERIAL_PORT w) w).1).
  { eapply emits_impl; [|exact Hi]. by intros ev [t [-> | ->]] pt b f. }
  by destruct (__init__ _ _ w) as [w' [x|e]].
Qed.

(** C10.  Take two runs that are the same but for the [url], [parity],
    [stopbits] and [xonxoff] of their calls of [create_serial_connection].
    They record the same events, among them the same calls of [open], and
    reach the same state: the same transports, the same queue of the loop,
    the same registry, the same selected port, and the same tasks, up to the
    four arguments held by the calls that are running.  With nothing to wait
    for, a call of [create_serial_connection] opens the port held in
    [_SERIAL_PORT] at once, with [baudRate = baudrate], and with
    [flowControl = "hardware"] exactly when [rtscts] is true; and whenever a
    step of the call opens a port, it is that port, with these options. *)
Theorem create_serial_connection_ignores_placeholders s1 s2 :
  Forall2 same_action s1 s2 →
  (trace (run s1 init) = trace (run s2 init)
   ∧ transports (run s1 init) = transports (run s2 init)
   ∧ ready (run s1 init) = ready (run s2 init)
   ∧ _SERIAL_PORT_CLOSING_TASKS (run s1 init) = _SERIAL_PORT_CLOSING_TASKS (run s2 init)
   ∧ _SERIAL_PORT (run s1 init) = _SERIAL_PORT (run s2 init)
   ∧ canon_task <$> tasks (run s1 init) = canon_task <$> tasks (run s2 init))
  ∧ (∀ a pc v w pt,
       pc ≠ KOpen → _SERIAL_PORT_CLOSING_TASKS w = [] → _SERIAL_PORT w = Some pt →
       create_serial_connection a pc (Send v) w
       = (with_trace
            (trace w ++ [EvPortOpen pt (baudrate a)
                           (if rtscts a then Some "hardware"%string else None)]) w,
          Ok (YAwait (CreateConn a KOpen) (AwFuture FutJs None))))
  ∧ (∀ a pc r w,
       ∃ evs, trace (create_serial_connection a pc r w).1 = trace w ++ evs
              ∧ ∀ pt b f, EvPortOpen pt b f ∈ evs →
                  _SERIAL_PORT w = Some pt ∧ b = baudrate a
                  ∧ f = (if rtscts a then Some "hardware"%string else None)).
Proof.
  intros Hs. split; [|split].
  - pose proof (canon_run s1 init) as H1. pose proof (canon_run s2 init) as H2.
    rewrite (same_schedule_canon s1 s2 Hs) in H1.
    assert (H : canon_world (run s1 init) = canon_world (run s2 init)) by congruence.
    split_and!.
    + exact (f_equal trace H).
    + exact (f_equal transports H).
    + exact (f_equal ready H).
    + exact (f_equal _SERIAL_PORT_CLOSING_TASKS H).
    + exact (f_equal _SERIAL_PORT H).
    + exact (f_equal tasks H).
  - intros a pc v w pt. apply create_serial_connection_opens.
  - intros a pc r w.
    destruct (create_serial_connection_open_calls a pc r w) as (evs & Ht & Hall).
    exists evs. split; [done|]. intros pt b f Hin.
    by apply (proj1 (Forall_forall _ _) Hall _ Hin pt b f).
Qed.

Lemma create_serial_connection_ignores_placeholders_witness :
  Forall2 same_action (Scenario.connect_on Scenario.usb Scenario.args)
    (Scenario.connect_on Scenario.usb Scenario.args')
  ∧ Scenario.args ≠ Scenario.args'
  ∧ trace (run (Scenario.connect_on Scenario.usb Scenario.args) init)
    = trace (run (Scenario.connect_on Scenario.usb Scenario.args') init)
  ∧ transports (run (Scenario.connect_on Scenario.usb Scenario.args) init)
    = transports (run (Scenario.connect_on Scenario.usb Scenario.args') init).
Proof.
  assert (H : Forall2 same_action (Scenario.connect_on Scenario.usb Scenario.args)
                (Scenario.connect_on Scenario.usb Scenario.args')).
  { repeat constructor. }
  split; [exact H|]. split; [discriminate|].
  destruct (create_serial_connection_ignores_placeholders _ _ H)
    as ((Ht & Htr & _) & _).
  split; [exact Ht|exact Htr].
Defined.


(** ** Shutdowns started by the application *)

Lemma shuts_down_step t a w :
  shuts_down t a → step a w = call (_cleanup t (shutdown_error a)) w.
Proof. by intros [->| ->]. Qed.

(** A shutdown whose releases return, spelled out. *)
Lemma shutdown_step a t w tr rk wk :
  wf w → shuts_down t a →
  transports w !! t = Some tr → releases_return tr →
  tasks w !! _reader_task tr = Some rk →
  tasks w !! _writer_task tr = Some wk →
  step a w
  = World (_SERIAL_PORT w)
      (_SERIAL_PORT_CLOSING_TASKS w
         ++ (if _port tr is Some _ then [length (tasks w)] else []))
      (alter cancel_request (_writer_task tr)
         (alter cancel_request (_reader_task tr) (tasks w))
         ++ closing_task_of t (shutdown_error a) tr (length (tasks w)))
      (<[t := scrubbed (set_is_closing true tr)]> (transports w))
      (ready w ++ cancel_wakeup (_reader_task tr) rk
         ++ cancel_wakeup (_writer_task tr) wk
         ++ (if _port tr is Some _ then [CbStep (length (tasks w))] else []))
      (trace w ++ cleanup_events t (shutdown_error a) tr).
Proof.
  intros Hwf Ha Htr Hrel Hrk Hwk. rewrite (shuts_down_step t a w Ha).
  destruct (wf_pump_tasks _ _ _ _ Hwf Htr) as (rk0 & wk0 & Hrk0 & Hlr & Hwk0 & Hlw & Hne).
  assert (rk0 = rk) as -> by congruence. assert (wk0 = wk) as -> by congruence.
  unfold call. by rewrite (cleanup_ok t (shutdown_error a) w tr rk wk).
Qed.

Lemma shutdown_sets_flag a t w tr :
  wf w → shuts_down t a → transports w !! t = Some tr →
  ∃ tr', transports (step a w) !! t = Some tr' ∧ _is_closing tr' = true.
Proof.
  intros Hwf Ha Htr. rewrite (shuts_down_step t a w Ha).
  destruct (wf_pump_tasks _ _ _ _ Hwf Htr) as (rk & wk & Hrk & Hlr & Hwk & Hlw & Hne).
  destruct (cleanup_spec t (shutdown_error a) w tr rk wk Htr Hrk Hlr Hwk Hlw Hne)
    as (X & reg_add & new & rdy & evs & res & E & (_ & Hcl & _) & _).
  exists X. unfold call. rewrite E. split; [|done].
  destruct res; simpl; apply list_lookup_insert_eq; by eapply lookup_lt_Some.
Qed.

Lemma shutdown_quiet a t t' w : shuts_down t a → emits (quiet t') w (step a w).
Proof.
  intros Ha. eapply emits_impl; [|apply step_emits].
  intros ev [[e ->]|[[e ->]|Hev]]; [done|done|].
  destruct Ha as [->| ->]; simpl in Hev; by eapply cleanup_ev_quiet.
Qed.

(** X3.  A shutdown started by [close()] or by the finaliser is final, even
    if it is cut short by an exception: from then on [is_closing()] returns
    [True], and whatever happens afterwards the device is neither written
    to nor read from on behalf of the transport, and the consumer receives
    no data. *)
Theorem nothing_moves_after_shutdown sched sched' a t tr :
  transports (run sched init) !! t = Some tr →
  shuts_down t a →
  (is_closing t (run sched' (step a (run sched init)))).2 = Ok true
  ∧ written t (trace (run sched' (step a (run sched init))))
    = written t (trace (run sched init))
  ∧ reads t (trace (run sched' (step a (run sched init))))
    = reads t (trace (run sched init))
  ∧ delivered t (trace (run sched' (step a (run sched init))))
    = delivered t (trace (run sched init)).
Proof.
  intros Htr Ha. set (w := run sched init) in *.
  pose proof (reachable_wf sched) as Hwf. fold w in Hwf.
  destruct (shutdown_sets_flag a t w tr Hwf Ha Htr) as (tr1 & Htr1 & Hcl1).
  assert (Hwf1 : wf (step a w)) by (by apply step_wf).
  assert (Hq : emits (quiet t) w (run sched' (step a w))).
  { eapply emits_trans; [by apply (shutdown_quiet a t t)|by eapply run_quiet_when_closing]. }
  split_and!.
  - destruct (run_tr_mono sched' (step a w) t tr1 Htr1) as (tr2 & Htr2 & _ & _ & Hcl2).
    unfold is_closing, the_transport, bind. rewrite Htr2. simpl. by rewrite Hcl2.
  - by apply emits_written.
  - by apply emits_reads.
  - by apply emits_delivered.
Qed.

Lemma nothing_moves_after_shutdown_witness :
  ∃ tr,
    transports (run Scenario.three_writes init) !! 0 = Some tr
    ∧ shuts_down 0 (Call_close 0)
    ∧ (is_closing 0 (run [RunOnce; Call_write 0 Scenario.A; RunOnce]
                       (step (Call_close 0) (run Scenario.three_writes init)))).2 = Ok true
    ∧ written 0 (trace (run [RunOnce; Call_write 0 Scenario.A; RunOnce]
                          (step (Call_close 0) (run Scenario.three_writes init))))
      = written 0 (trace (run Scenario.three_writes init))
    ∧ reads 0 (trace (run [RunOnce; Call_write 0 Scenario.A; RunOnce]
                        (step (Call_close 0) (run Scenario.three_writes init))))
      = reads 0 (trace (run Scenario.three_writes init))
    ∧ delivered 0 (trace (run [RunOnce; Call_write 0 Scenario.A; RunOnce]
                            (step (Call_close 0) (run Scenario.three_writes init))))
      = delivered 0 (trace (run Scenario.three_writes init)).
Proof.
  destruct (transports (run Scenario.three_writes init) !! 0) as [tr|] eqn:Htr;
    [|by vm_compute in Htr].
  exists tr. split; [done|]. split; [by left|].
  exact (nothing_moves_after_shutdown Scenario.three_writes
           [RunOnce; Call_write 0 Scenario.A; RunOnce] (Call_close 0) 0 tr Htr
           (or_introl eq_refl)).
Defined.

(** Along a run that does not set the protocol of [t], the transport object
    of [t] is only shut down further or has its queue used. *)
Lemma run_tr_touch sched w t tr :
  transports w !! t = Some tr →
  Forall (keeps_protocol t) sched →
  ∃ tr', transports (run sched w) !! t = Some tr' ∧ tr_touch True tr tr'.
Proof.
  revert w tr. induction sched as [|a sched IH]; intros w tr Ht Hk.
  { exists tr. split; [done|apply tr_touch_refl]. }
  apply Forall_cons in Hk as [Ha Hk]. simpl.
  destruct (step_tr_touch a w t tr Ht Ha) as (tr1 & Ht1 & H1).
  destruct (IH (step a w) tr1 Ht1 Hk) as (tr2 & Ht2 & H2).
  exists tr2. split; [done|].
  eapply tr_touch_trans; [|exact H2]. by eapply tr_touch_weaken.
Qed.

(** X4.  As long as a transport is not closing, [get_protocol()] returns:
    its assertion holds, and the result is the protocol the transport
    delivers to. *)
Theorem get_protocol_returns_while_open sched t tr :
  transports (run sched init) !! t = Some tr →
  _is_closing tr = false →
  ∃ p, get_protocol t (run sched init) = (run sched init, Ok p)
       ∧ _protocol tr = Some p.
Proof.
  intros Htr Hcl.
  destruct (wf_open _ _ (reachable_wf sched) _ _ Htr Hcl) as (_ & _ & _ & [p Hp]).
  exists p. unfold get_protocol, the_transport, bind. by rewrite Htr, Hp.
Qed.

Lemma get_protocol_returns_while_open_witness :
  ∃ tr,
    transports (run Scenario.three_writes init) !! 0 = Some tr
    ∧ _is_closing tr = false
    ∧ ∃ p, get_protocol 0 (run Scenario.three_writes init)
           = (run Scenario.three_writes init, Ok p)
           ∧ _protocol tr = Some p.
Proof.
  destruct (transports (run Scenario.three_writes init) !! 0) as [tr|] eqn:Htr;
    [|by vm_compute in Htr].
  assert (Hcl : _is_closing tr = false).
  { vm_compute in Htr. by injection Htr as <-. }
  exists tr. split; [done|]. split; [done|].
  exact (get_protocol_returns_while_open Scenario.three_writes 0 tr Htr Hcl).
Defined.

(** X5.  After a shutdown whose lock releases return, [get_protocol()]
    fails its assertion, and keeps failing it until [set_protocol] is
    called on the transport. *)
Theorem get_protocol_fails_after_shutdown sched sched' a t tr :
  transports (run sched init) !! t = Some tr →
  releases_return tr →
  shuts_down t a →
  Forall (keeps_protocol t) sched' →
  (get_protocol t (run sched' (step a (run sched init)))).2 = Raise AssertionError.
Proof.
  intros Htr Hrel Ha Hkeep. set (w := run sched init) in *.
  pose proof (reachable_wf sched) as Hwf. fold w in Hwf.
  destruct (wf_pumps _ _ Hwf _ _ Htr) as [(rk & ? & Hrk & _) (wk & ? & Hwk & _)].
  assert (Htr1 : transports (step a w) !! t = Some (scrubbed (set_is_closing true tr))).
  { rewrite (shutdown_step a t w tr rk wk Hwf Ha Htr Hrel Hrk Hwk). simpl.
    apply list_lookup_insert_eq. by eapply lookup_lt_Some. }
  destruct (run_tr_touch sched' (step a w) t _ Htr1 Hkeep)
    as (tr2 & Htr2 & _ & _ & _ & (_ & _ & _ & Hp) & _).
  unfold get_protocol, the_transport, bind. rewrite Htr2. simpl. by rewrite Hp.
Qed.

Lemma get_protocol_fails_after_shutdown_witness :
  ∃ tr,
    transports (run Scenario.connect init) !! 0 = Some tr
    ∧ releases_return tr
    ∧ shuts_down 0 (Call_close 0)
    ∧ Forall (keeps_protocol 0) [RunOnce; Call_write 0 Scenario.A; RunOnce]
    ∧ (get_protocol 0 (run [RunOnce; Call_write 0 Scenario.A; RunOnce]
                         (step (Call_close 0) (run Scenario.connect init)))).2
      = Raise AssertionError.
Proof.
  assert (Hl : transports (run Scenario.connect init) !! 0
               = Some (Transport (Some 7) (Some Scenario.usb) (Queue 0 [] [2]) false
                         (Some (JsLock None)) (Some (JsLock None)) 1 2))
    by (vm_compute; reflexivity).
  assert (Hrel : releases_return
                   (Transport (Some 7) (Some Scenario.usb) (Queue 0 [] [2]) false
                      (Some (JsLock None)) (Some (JsLock None)) 1 2)).
  { split; intros l [= <-]; reflexivity. }
  assert (Hk : Forall (keeps_protocol 0) [RunOnce; Call_write 0 Scenario.A; RunOnce]).
  { repeat constructor; by intros p. }
  eexists. split; [exact Hl|]. split; [exact Hrel|]. split; [by left|]. split; [exact Hk|].
  exact (get_protocol_fails_after_shutdown Scenario.connect
           [RunOnce; Call_write 0 Scenario.A; RunOnce] (Call_close 0) 0 _ Hl Hrel
           (or_introl eq_refl) Hk).
Defined.

Lemma scrubbed_fixpoint tr :
  _port tr = None → _js_reader tr = None → _js_writer tr = None → _protocol tr = None →
  _is_closing tr = true →
  scrubbed (set_is_closing true tr) = tr.
Proof. destruct tr. simpl. by intros -> -> -> -> ->. Qed.

(** X6.  Shutting down is idempotent.  Once a shutdown of a transport whose
    lock releases return has run, a later [close()] or finalisation of the
    same transport, after any activity that does not set its protocol,
    records nothing: no lock is released, no close task is detached or
    registered, nobody is notified, and no transport changes. *)
Theorem second_shutdown_is_silent sched sched' a a' t tr :
  transports (run sched init) !! t = Some tr →
  releases_return tr →
  shuts_down t a → shuts_down t a' →
  Forall (keeps_protocol t) sched' →
  trace (step a' (run sched' (step a (run sched init))))
  = trace (run sched' (step a (run sched init)))
  ∧ _SERIAL_PORT_CLOSING_TASKS (step a' (run sched' (step a (run sched init))))
    = _SERIAL_PORT_CLOSING_TASKS (run sched' (step a (run sched init)))
  ∧ transports (step a' (run sched' (step a (run sched init))))
    = transports (run sched' (step a (run sched init)))
  ∧ length (tasks (step a' (run sched' (step a (run sched init)))))
    = length (tasks (run sched' (step a (run sched init)))).
Proof.
  intros Htr Hrel Ha Ha' Hkeep. set (w := run sched init) in *.
  pose proof (reachable_wf sched) as Hwf. fold w in Hwf.
  destruct (wf_pumps _ _ Hwf _ _ Htr) as [(rk & ? & Hrk & _) (wk & ? & Hwk & _)].
  assert (Htr1 : transports (step a w) !! t = Some (scrubbed (set_is_closing true tr))).
  { rewrite (shutdown_step a t w tr rk wk Hwf Ha Htr Hrel Hrk Hwk). simpl.
    apply list_lookup_insert_eq. by eapply lookup_lt_Some. }
  destruct (run_tr_touch sched' (step a w) t _ Htr1 Hkeep)
    as (tr2 & Htr2 & _ & _ & Hcl & (Hpo & Hjr & Hjw & Hp) & _).
  set (w2 := run sched' (step a w)) in *.
  assert (Hwf2 : wf w2) by (apply run_wf; by apply step_wf).
  destruct (wf_pumps _ _ Hwf2 _ _ Htr2) as [(rk2 & ? & Hrk2 & _) (wk2 & ? & Hwk2 & _)].
  assert (Hrel2 : releases_return tr2).
  { split; intros l; [rewrite Hjr|rewrite Hjw]; done. }
  rewrite (shutdown_step a' t w2 tr2 rk2 wk2 Hwf2 Ha' Htr2 Hrel2 Hrk2 Hwk2).
  unfold cleanup_events, closing_task_of. rewrite Hpo, Hjr, Hjw, Hp by done. simpl.
  rewrite !app_nil_r, !length_alter.
  rewrite scrubbed_fixpoint by (by auto). by rewrite list_insert_id.
Qed.

Lemma second_shutdown_is_silent_witness :
  ∃ tr,
    transports (run Scenario.connect init) !! 0 = Some tr
    ∧ releases_return tr
    ∧ shuts_down 0 (Call_close 0) ∧ shuts_down 0 (Collect 0)
    ∧ Forall (keeps_protocol 0) [RunOnce; Call_write 0 Scenario.A; RunOnce]
    ∧ trace (step (Collect 0) (run [RunOnce; Call_write 0 Scenario.A; RunOnce]
                                 (step (Call_close 0) (run Scenario.connect init))))
      = trace (run [RunOnce; Call_write 0 Scenario.A; RunOnce]
                 (step (Call_close 0) (run Scenario.connect init)))
    ∧ _SERIAL_PORT_CLOSING_TASKS
        (step (Collect 0) (run [RunOnce; Call_write 0 Scenario.A; RunOnce]
                             (step (Call_close 0) (run Scenario.connect init))))
      = _SERIAL_PORT_CLOSING_TASKS
          (run [RunOnce; Call_write 0 Scenario.A; RunOnce]
             (step (Call_close 0) (run Scenario.connect init)))
    ∧ transports (step (Collect 0) (run [RunOnce; Call_write 0 Scenario.A; RunOnce]
                                      (step (Call_close 0) (run Scenario.connect init))))
      = transports (run [RunOnce; Call_write 0 Scenario.A; RunOnce]
                      (step (Call_close 0) (run Scenario.connect init)))
    ∧ length (tasks (step (Collect 0) (run [RunOnce; Call_write 0 Scenario.A; RunOnce]
                                         (step (Call_close 0) (run Scenario.connect init)))))
      = length (tasks (run [RunOnce; Call_write 0 Scenario.A; RunOnce]
                         (step (Call_close 0) (run Scenario.connect init)))).
Proof.
  assert (Hl : transports (run Scenario.connect init) !! 0
               = Some (Transport (Some 7) (Some Scenario.usb) (Queue 0 [] [2]) false
                         (Some (JsLock None)) (Some (JsLock None)) 1 2))
    by (vm_compute; reflexivity).
  assert (Hrel : releases_return
                   (Transport (Some 7) (Some Scenario.usb) (Queue 0 [] [2]) false
                      (Some (JsLock None)) (Some (JsLock None)) 1 2)).
  { split; intros l [= <-]; reflexivity. }
  assert (Hk : Forall (keeps_protocol 0) [RunOnce; Call_write 0 Scenario.A; RunOnce]).
  { repeat constructor; by intros p. }
  eexists. split; [exact Hl|]. split; [exact Hrel|].
  split; [by left|]. split; [by right|]. split; [exact Hk|].
  exact (second_shutdown_is_silent Scenario.connect
           [RunOnce; Call_write 0 Scenario.A; RunOnce] (Call_close 0) (Collect 0) 0 _
           Hl Hrel (or_introl eq_refl) (or_intror eq_refl) Hk).
Defined.

(** X7.  What [close()] and the finaliser do to a transport that is still
    open, when the lock releases return: the reader lock is released, then
    the writer lock; the device close is only detached, as a new task that is
    appended to the registry and whose first step is the last entry of the
    loop's queue; the protocol is not notified during the call, its
    [connection_lost] is registered on the close task together with the
    removal from the registry; and the transport is left without port,
    protocol and locks. *)
Theorem shutdown_detaches_close_and_defers_notification sched a t tr :
  transports (run sched init) !! t = Some tr →
  _is_closing tr = false →
  releases_return tr →
  shuts_down t a →
  ∃ p pt,
    _protocol tr = Some p ∧ _port tr = Some pt
    ∧ trace (step a (run sched init))
      = trace (run sched init) ++ [EvReleaseReader t; EvReleaseWriter t]
    ∧ _SERIAL_PORT_CLOSING_TASKS (step a (run sched init))
      = _SERIAL_PORT_CLOSING_TASKS (run sched init) ++ [length (tasks (run sched init))]
    ∧ tasks (step a (run sched init)) !! length (tasks (run sched init))
      = Some (Task (ClosePort t pt CStart) None false None
                [CbConnectionLost t p (shutdown_error a);
                 CbRemoveClosing (length (tasks (run sched init)))])
    ∧ length (tasks (step a (run sched init))) = S (length (tasks (run sched init)))
    ∧ last (ready (step a (run sched init)))
      = Some (CbStep (length (tasks (run sched init))))
    ∧ transports (step a (run sched init)) !! t
      = Some (Transport None None (_write_queue tr) true None None
                (_reader_task tr) (_writer_task tr)).
Proof.
  intros Htr Hcl Hrel Ha. set (w := run sched init) in *.
  pose proof (reachable_wf sched) as Hwf. fold w in Hwf.
  destruct (wf_pumps _ _ Hwf _ _ Htr) as [(rk & ? & Hrk & _) (wk & ? & Hwk & _)].
  destruct (wf_open _ _ Hwf _ _ Htr Hcl) as ([lr Hlr] & [lw Hlw] & [pt Hpt] & [p Hp]).
  exists p, pt. split; [done|]. split; [done|].
  rewrite (shutdown_step a t w tr rk wk Hwf Ha Htr Hrel Hrk Hwk).
  unfold cleanup_events, closing_task_of. rewrite Hlr, Hlw, Hpt, Hp. simpl.
  split_and!.
  - done.
  - done.
  - rewrite lookup_app_r by (by rewrite !length_alter).
    by rewrite !length_alter, Nat.sub_diag.
  - rewrite length_app, !length_alter. simpl. lia.
  - rewrite !app_assoc. apply last_snoc.
  - apply list_lookup_insert_eq. by eapply lookup_lt_Some.
Qed.

Lemma shutdown_detaches_close_and_defers_notification_witness :
  ∃ tr,
    transports (run Scenario.connect init) !! 0 = Some tr
    ∧ _is_closing tr = false
    ∧ releases_return tr
    ∧ shuts_down 0 (Collect 0)
    ∧ ∃ p pt,
        _protocol tr = Some p ∧ _port tr = Some pt
        ∧ trace (step (Collect 0) (run Scenario.connect init))
          = trace (run Scenario.connect init) ++ [EvReleaseReader 0; EvReleaseWriter 0]
        ∧ _SERIAL_PORT_CLOSING_TASKS (step (Collect 0) (run Scenario.connect init))
          = _SERIAL_PORT_CLOSING_TASKS (run Scenario.connect init)
            ++ [length (tasks (run Scenario.connect init))]
        ∧ tasks (step (Collect 0) (run Scenario.connect init))
            !! length (tasks (run Scenario.connect init))
          = Some (Task (ClosePort 0 pt CStart) None false None
                    [CbConnectionLost 0 p (shutdown_error (Collect 0));
                     CbRemoveClosing (length (tasks (run Scenario.connect init)))])
        ∧ length (tasks (step (Collect 0) (run Scenario.connect init)))
          = S (length (tasks (run Scenario.connect init)))
        ∧ last (ready (step (Collect 0) (run Scenario.connect init)))
          = Some (CbStep (length (tasks (run Scenario.connect init))))
        ∧ transports (step (Collect 0) (run Scenario.connect init)) !! 0
          = Some (Transport None None (_write_queue tr) true None None
                    (_reader_task tr) (_writer_task tr)).
Proof.
  assert (Hl : transports (run Scenario.connect init) !! 0
               = Some (Transport (Some 7) (Some Scenario.usb) (Queue 0 [] [2]) false
                         (Some (JsLock None)) (Some (JsLock None)) 1 2))
    by (vm_compute; reflexivity).
  assert (Hrel : releases_return
                   (Transport (Some 7) (Some Scenario.usb) (Queue 0 [] [2]) false
                      (Some (JsLock None)) (Some (JsLock None)) 1 2)).
  { split; intros l [= <-]; reflexivity. }
  eexists. split; [exact Hl|]. split; [reflexivity|]. split; [exact Hrel|].
  split; [by right|].
  exact (shutdown_detaches_close_and_defers_notification Scenario.connect (Collect 0) 0 _
           Hl eq_refl Hrel (or_intror eq_refl)).
Defined.

(** X13.  [set_protocol] on a transport that has been shut down arms the
    notification again: the next [close()] or finalisation calls
    [connection_lost] of the new protocol at once, during the call, with the
    exception of that shutdown; no lock is released, no close task is
    detached or registered, and the protocol is cleared again. *)
Theorem renewed_protocol_is_notified_at_once sched sched' a a' t tr p :
  transports (run sched init) !! t = Some tr →
  releases_return tr →
  shuts_down t a → shuts_down t a' →
  Forall (keeps_protocol t) sched' →
  trace (step a' (step (Call_set_protocol t p) (run sched' (step a (run sched init)))))
  = trace (run sched' (step a (run sched init)))
    ++ [EvConnectionLost t p (shutdown_error a')]
  ∧ _SERIAL_PORT_CLOSING_TASKS
      (step a' (step (Call_set_protocol t p) (run sched' (step a (run sched init)))))
    = _SERIAL_PORT_CLOSING_TASKS (run sched' (step a (run sched init)))
  ∧ length (tasks (step a' (step (Call_set_protocol t p)
                              (run sched' (step a (run sched init))))))
    = length (tasks (run sched' (step a (run sched init))))
  ∧ (get_protocol t (step a' (step (Call_set_protocol t p)
                               (run sched' (step a (run sched init)))))).2
    = Raise AssertionError.
Proof.
  intros Htr Hrel Ha Ha' Hkeep. set (w := run sched init) in *.
  pose proof (reachable_wf sched) as Hwf. fold w in Hwf.
  destruct (wf_pumps _ _ Hwf _ _ Htr) as [(rk & ? & Hrk & _) (wk & ? & Hwk & _)].
  assert (Htr1 : transports (step a w) !! t = Some (scrubbed (set_is_closing true tr))).
  { rewrite (shutdown_step a t w tr rk wk Hwf Ha Htr Hrel Hrk Hwk). simpl.
    apply list_lookup_insert_eq. by eapply lookup_lt_Some. }
  destruct (run_tr_touch sched' (step a w) t _ Htr1 Hkeep)
    as (tr2 & Htr2 & _ & _ & Hcl & (Hpo & Hjr & Hjw & Hp) & _).
  set (w2 := run sched' (step a w)) in *.
  assert (Hwf2 : wf w2) by (apply run_wf; by apply step_wf).
  set (w3 := step (Call_set_protocol t p) w2).
  assert (Hwf3 : wf w3) by (by apply step_wf).
  assert (E3 : w3 = with_transports (alter (set_protocol_field (Some p)) t (transports w2)) w2)
    by done.
  assert (Htr3 : transports w3 !! t = Some (set_protocol_field (Some p) tr2)).
  { rewrite E3. simpl. by rewrite list_lookup_alter_eq, Htr2. }
  destruct (wf_pumps _ _ Hwf3 _ _ Htr3) as [(rk3 & ? & Hrk3 & _) (wk3 & ? & Hwk3 & _)].
  assert (Hrel3 : releases_return (set_protocol_field (Some p) tr2)).
  { split; intros l; simpl; [rewrite Hjr|rewrite Hjw]; done. }
  rewrite (shutdown_step a' t w3 _ rk3 wk3 Hwf3 Ha' Htr3 Hrel3 Hrk3 Hwk3).
  unfold cleanup_events, closing_task_of. simpl.
  rewrite Hpo, Hjr, Hjw by done. simpl.
  rewrite !app_nil_r, !length_alter. split_and!; try done.
  unfold get_protocol, the_transport, bind. simpl.
  rewrite list_lookup_insert_eq by (by eapply lookup_lt_Some). done.
Qed.

Lemma renewed_protocol_is_notified_at_once_witness :
  ∃ tr,
    transports (run Scenario.connect init) !! 0 = Some tr
    ∧ releases_return tr
    ∧ shuts_down 0 (Call_close 0) ∧ shuts_down 0 (Collect 0)
    ∧ Forall (keeps_protocol 0) [RunOnce; RunOnce]
    ∧ trace (step (Collect 0) (step (Call_set_protocol 0 9)
               (run [RunOnce; RunOnce] (step (Call_close 0) (run Scenario.connect init)))))
      = trace (run [RunOnce; RunOnce] (step (Call_close 0) (run Scenario.connect init)))
        ++ [EvConnectionLost 0 9 (shutdown_error (Collect 0))]
    ∧ _SERIAL_PORT_CLOSING_TASKS
        (step (Collect 0) (step (Call_set_protocol 0 9)
           (run [RunOnce; RunOnce] (step (Call_close 0) (run Scenario.connect init)))))
      = _SERIAL_PORT_CLOSING_TASKS
          (run [RunOnce; RunOnce] (step (Call_close 0) (run Scenario.connect init)))
    ∧ length (tasks (step (Collect 0) (step (Call_set_protocol 0 9)
                (run [RunOnce; RunOnce] (step (Call_close 0) (run Scenario.connect init))))))
      = length (tasks (run [RunOnce; RunOnce]
                         (step (Call_close 0) (run Scenario.connect init))))
    ∧ (get_protocol 0 (step (Collect 0) (step (Call_set_protocol 0 9)
           (run [RunOnce; RunOnce] (step (Call_close 0) (run Scenario.connect init)))))).2
      = Raise AssertionError.
Proof.
  assert (Hl : transports (run Scenario.connect init) !! 0
               = Some (Transport (Some 7) (Some Scenario.usb) (Queue 0 [] [2]) false
                         (Some (JsLock None)) (Some (JsLock None)) 1 2))
    by (vm_compute; reflexivity).
  assert (Hrel : releases_return
                   (Transport (Some 7) (Some Scenario.usb) (Queue 0 [] [2]) false
                      (Some (JsLock None)) (Some (JsLock None)) 1 2)).
  { split; intros l [= <-]; reflexivity. }
  assert (Hk : Forall (keeps_protocol 0) [RunOnce; RunOnce]).
  { repeat constructor; by intros p. }
  eexists. split; [exact Hl|]. split; [exact Hrel|].
  split; [by left|]. split; [by right|]. split; [exact Hk|].
  exact (renewed_protocol_is_notified_at_once Scenario.connect [RunOnce; RunOnce]
           (Call_close 0) (Collect 0) 0 _ 9 Hl Hrel (or_introl eq_refl)
           (or_intror eq_refl) Hk).
Defined.


(** ** The detached close *)

Lemma remove_first_absent k l : k ∉ l → remove_first k l = l.
Proof.
  induction l as [|x l IH]; [done|]. intros Hk. simpl.
  rewrite decide_False by (intros ->; apply Hk; by left).
  rewrite IH; [done|]. intros Hin. apply Hk. by right.
Qed.

(** X8.  The device has settled the [port.close()] a close task waits for,
    and the task's wake-up is the only entry of the loop's queue.  The task
    holds the two callbacks of the shutdown that detached it, followed by
    the wake-ups [more] of the connection attempts that await it.  Three
    turns of the loop later the task has finished, the protocol has been
    notified with the exception of the shutdown, whether the close succeeded
    or was rejected, and the task has been removed from the registry; if the
    registry no longer holds the task, because an attempt has popped it, the
    removal raises [ValueError] into the loop, after the notification.  The
    wake-ups [more] are what is left in the queue. *)
Theorem close_task_notifies_on_any_outcome w kc t pt p e s more :
  tasks w !! kc
  = Some (Task (ClosePort t pt CAwait)
            (Some (AwFuture FutJs (Some (outcome_of_settlement s)))) false None
            (CbConnectionLost t p e :: CbRemoveClosing kc :: more)) →
  ready w = [CbStep kc] →
  trace (run [RunOnce; RunOnce; RunOnce] w)
  = trace w ++ close_completion_events t p e s
                 (bool_decide (kc ∈ _SERIAL_PORT_CLOSING_TASKS w))
  ∧ _SERIAL_PORT_CLOSING_TASKS (run [RunOnce; RunOnce; RunOnce] w)
    = remove_first kc (_SERIAL_PORT_CLOSING_TASKS w)
  ∧ ready (run [RunOnce; RunOnce; RunOnce] w) = more
  ∧ tasks (run [RunOnce; RunOnce; RunOnce] w) !! kc
    = Some (Task (ClosePort t pt CAwait) None false (Some (close_task_outcome s)) [])
  ∧ transports (run [RunOnce; RunOnce; RunOnce] w) = transports w.
Proof.
  intros Hk Hr.
  set (ts1 := alter (λ tk, set_done_callbacks [] (set_task_state (Some (close_task_outcome s)) tk))
                kc (alter (λ tk, set_fut_waiter None (set_must_cancel false tk)) kc (tasks w))).
  assert (E1 : step RunOnce w
               = World (_SERIAL_PORT w) (_SERIAL_PORT_CLOSING_TASKS w) ts1 (transports w)
                   (CbConnectionLost t p e :: CbRemoveClosing kc :: more)
                   (trace w ++ (if s is Resolve _
                                then [EvLog DEBUG "Closed serial port"] else []))).
  { simpl. rewrite Hr. unfold run_handle, run_callback, task_step.
    simpl. rewrite Hk. simpl.
    destruct s as [v|code]; simpl.
    - rewrite list_lookup_alter_eq, Hk. simpl.
      unfold finish_task. simpl. rewrite list_lookup_alter_eq, Hk. simpl. done.
    - unfold finish_task. simpl. rewrite list_lookup_alter_eq, Hk. simpl.
      by rewrite app_nil_r. }
  change (run [RunOnce; RunOnce; RunOnce] w)
    with (step RunOnce (step RunOnce (step RunOnce w))).
  rewrite E1. simpl. unfold run_handle. simpl.
  unfold remove_closing_task, bind, gets, modify, raise. simpl.
  unfold close_completion_events.
  assert (Hk1 : ts1 !! kc = Some (Task (ClosePort t pt CAwait) None false
                                    (Some (close_task_outcome s)) [])).
  { unfold ts1. by rewrite !list_lookup_alter_eq, Hk. }
  case_bool_decide; simpl; rewrite <-?app_assoc; split_and!; try done.
  by rewrite remove_first_absent.
Qed.

Lemma close_task_notifies_on_any_outcome_witness :
  tasks (run (Scenario.reopen ++ [Settle 3 (Resolve VNone)]) init) !! 3
  = Some (Task (ClosePort 0 Scenario.usb CAwait)
            (Some (AwFuture FutJs (Some (outcome_of_settlement (Resolve VNone))))) false None
            [CbConnectionLost 0 7 None; CbRemoveClosing 3; CbStep 4])
  ∧ ready (run (Scenario.reopen ++ [Settle 3 (Resolve VNone)]) init) = [CbStep 3]
  ∧ _SERIAL_PORT_CLOSING_TASKS (run (Scenario.reopen ++ [Settle 3 (Resolve VNone)]) init) = []
  ∧ trace (run [RunOnce; RunOnce; RunOnce]
             (run (Scenario.reopen ++ [Settle 3 (Resolve VNone)]) init))
    = trace (run (Scenario.reopen ++ [Settle 3 (Resolve VNone)]) init)
      ++ [EvLog DEBUG "Closed serial port"; EvConnectionLost 0 7 None;
          EvLoopException ValueError]
  ∧ ready (run [RunOnce; RunOnce; RunOnce]
             (run (Scenario.reopen ++ [Settle 3 (Resolve VNone)]) init))
    = [CbStep 4].
Proof.
  assert (Hk : tasks (run (Scenario.reopen ++ [Settle 3 (Resolve VNone)]) init) !! 3
               = Some (Task (ClosePort 0 Scenario.usb CAwait)
                         (Some (AwFuture FutJs (Some (outcome_of_settlement (Resolve VNone)))))
                         false None
                         [CbConnectionLost 0 7 None; CbRemoveClosing 3; CbStep 4]))
    by (vm_compute; reflexivity).
  assert (Hr : ready (run (Scenario.reopen ++ [Settle 3 (Resolve VNone)]) init) = [CbStep 3])
    by (vm_compute; reflexivity).
  assert (Hg : _SERIAL_PORT_CLOSING_TASKS
                 (run (Scenario.reopen ++ [Settle 3 (Resolve VNone)]) init) = [])
    by (vm_compute; reflexivity).
  split; [exact Hk|]. split; [exact Hr|]. split; [exact Hg|].
  destruct (close_task_notifies_on_any_outcome
              (run (Scenario.reopen ++ [Settle 3 (Resolve VNone)]) init)
              3 0 Scenario.usb 7 None (Resolve VNone) [CbStep 4] Hk Hr)
    as (Ht & _ & Hrd & _).
  split; [|exact Hrd]. rewrite Ht, Hg. reflexivity.
Defined.


(** ** The outbound direction *)

Lemma submitted_app t l1 l2 : submitted t (l1 ++ l2) = submitted t l1 ++ submitted t l2.
Proof. apply omap_app. Qed.

Lemma not_outbound_silent t evs :
  Forall (not_outbound t) evs → submitted t evs = [] ∧ written t evs = [].
Proof.
  induction 1 as [|ev evs Hev _ [IH1 IH2]]; [done|].
  change (ev :: evs) with ([ev] ++ evs).
  rewrite submitted_app, written_app, IH1, IH2, !app_nil_r.
  unfold submitted, written. destruct ev; simpl in *; try done.
  - split; [done|]. by rewrite decide_False.
  - split; [|done]. by rewrite decide_False.
Qed.

Lemma emits_outbound t w w' :
  emits (not_outbound t) w w' →
  submitted t (trace w') = submitted t (trace w) ∧ written t (trace w') = written t (trace w).
Proof.
  intros (evs & -> & Hevs). destruct (not_outbound_silent t evs Hevs) as [Ha Hd].
  by rewrite submitted_app, written_app, Ha, Hd, !app_nil_r.
Qed.

Lemma cleanup_ev_not_outbound self t ev : cleanup_ev self ev → not_outbound t ev.
Proof. by intros []. Qed.

(** An action that does not use the queue of [t] records neither a call of
    [write] on [t] nor a device write of [t]. *)
Lemma step_not_outbound a w t :
  queue_user a w ≠ Some t → emits (not_outbound t) w (step a w).
Proof.
  intros Hnot. eapply emits_impl; [|apply step_emits].
  intros ev [[e ->]|[[e ->]|Hev]]; [done|done|].
  destruct a as [pt|a|t' data|t'|t' p|t'| |k st]; simpl in Hev; try done.
  - subst. simpl in *. congruence.
  - by eapply cleanup_ev_not_outbound.
  - by eapply cleanup_ev_not_outbound.
  - simpl in Hnot. destruct (ready w) as [|[k|p t'|t' p e|k] rest]; try done.
    + destruct Hev as (tk & Hk & Hev). rewrite Hk in Hnot.
      destruct (task_coro tk) as [t0 pc|t0 pc|t0 pt pc|a pc] eqn:Hc; simpl in Hev.
      * destruct Hev as [[d ->]|Hev]; [simpl; congruence|].
        by eapply cleanup_ev_not_outbound.
      * destruct Hev as [->|[(p & d & ->)|Hev]]; [done|done|].
        by eapply cleanup_ev_not_outbound.
      * by destruct Hev as [[m ->]| ->].
      * by destruct Hev as [[m ->]|[[pt' ->]|[t' [-> | ->]]]].
    + by subst.
    + by subst.
  - destruct Hev as (c & mc & cbs & Hk & ->). by destruct c.
Qed.

Lemma queue_wakeup_getters_items self w t :
  trace (queue_wakeup_getters self w).1 = trace w
  ∧ ∀ tr, transports w !! t = Some tr →
      ∃ tr', transports (queue_wakeup_getters self w).1 !! t = Some tr'
             ∧ q_items (_write_queue tr') = q_items (_write_queue tr).
Proof.
  unfold queue_wakeup_getters, the_transport, bind.
  destruct (transports w !! self) as [tr0|]; [|by eauto].
  destruct (wakeup_next_frame (q_getters (_write_queue tr0)) w) as (Ht & Hc & _).
  destruct (wakeup_next _ w) as [rest w']. simpl in *.
  split; [done|]. intros tr Htr. rewrite Ht, list_lookup_alter.
  case_decide; subst; rewrite Htr; simpl; eauto.
Qed.

Lemma queue_get_interrupted_items self me waited w t :
  trace (queue_get_interrupted self me waited w).1 = trace w
  ∧ ∀ tr, transports w !! t = Some tr →
      ∃ tr', transports (queue_get_interrupted self me waited w).1 !! t = Some tr'
             ∧ q_items (_write_queue tr') = q_items (_write_queue tr).
Proof.
  unfold queue_get_interrupted, bind, update_transport, modify. simpl.
  remember (with_transports _ w) as w1 eqn:Ew1.
  assert (H1 : trace w1 = trace w
               ∧ ∀ tr, transports w !! t = Some tr →
                   ∃ tr', transports w1 !! t = Some tr'
                          ∧ q_items (_write_queue tr') = q_items (_write_queue tr)).
  { subst w1. simpl. split; [done|]. intros tr Htr. rewrite list_lookup_alter.
    case_decide; subst; rewrite Htr; simpl; eauto. }
  clear Ew1. destruct H1 as [Hc1 Hq1].
  assert (Hwake : trace (queue_wakeup_getters self w1).1 = trace w
                  ∧ ∀ tr, transports w !! t = Some tr →
                      ∃ tr', transports (queue_wakeup_getters self w1).1 !! t = Some tr'
                             ∧ q_items (_write_queue tr') = q_items (_write_queue tr)).
  { destruct (queue_wakeup_getters_items self w1 t) as [Hc Hq]. split; [congruence|].
    intros tr Htr. destruct (Hq1 _ Htr) as (tr1 & Htr1 & E1).
    destruct (Hq _ Htr1) as (tr2 & Htr2 & E2). exists tr2. split; [done|congruence]. }
  unfold the_transport. destruct (transports w1 !! self) as [tr0|]; [|done].
  destruct (q_items (_write_queue tr0)); [done|].
  destruct waited as [[[] [[]| ]|]|]; simpl; done.
Qed.

(** A step of the writer of [t] moves the chunk at the head of the queue to
    the device, or nothing. *)
Lemma writer_step_outbound k w tk t pc tr :
  wf w → tasks w !! k = Some tk → task_coro tk = WriterLoop t pc →
  transports w !! t = Some tr →
  outbound_ok t w → outbound_ok t (task_step k w).1.
Proof.
  intros Hwf Hk Hc Htr Hinv. unfold outbound_ok in Hinv. rewrite Htr in Hinv.
  destruct (task_done tk) eqn:Hd.
  { unfold task_step. rewrite Hk, Hd. unfold outbound_ok. simpl. by rewrite Htr. }
  destruct (resume_value w tk) as [r|] eqn:Hr.
  2:{ unfold task_step. rewrite Hk, Hd, Hr. unfold outbound_ok. simpl. by rewrite Htr. }
  destruct (run_coro k (task_coro tk) (fut_waiter tk) r
              (with_tasks (alter (λ tk, set_fut_waiter None (set_must_cancel false tk))
                             k (tasks w)) w)) as [w2 res] eqn:Erun.
  destruct (task_step_after k w tk r w2 res Hwf Hk Hd Hr Erun)
    as (Htrace & Htrans & _).
  assert (Hst : task_state tk = None) by (by apply not_done_pending).
  unfold outbound_ok. rewrite Htrace, Htrans.
  set (w1 := with_tasks _ w) in Erun.
  assert (Htr1 : transports w1 !! t = Some tr) by done.
  rewrite Hc in Erun. simpl in Erun.
  assert (Hiter : ∀ v, r = Send v → writer_iteration t k w1 = (w2, res) →
            submitted t (trace w2)
            = written t (trace w2)
              ++ match transports w2 !! t with
                 | Some tr => q_items (_write_queue tr)
                 | None => []
                 end).
  { intros v -> Ew.
    assert (Hncl : _is_closing tr = false).
    { destruct (_is_closing tr) eqn:E; [|done]. exfalso.
      eapply (resume_send_not_doomed w tk v Hst Hr).
      eapply (wf_doom _ _ Hwf k tk t tr); eauto. by rewrite Hc. }
    destruct (wf_open _ _ Hwf _ _ Htr Hncl) as (_ & [lw Hlw] & _).
    unfold writer_iteration, queue_get, the_transport, bind in Ew. rewrite Htr1 in Ew.
    destruct (q_items (_write_queue tr)) as [|d rest] eqn:Hq.
    - unfold update_transport, modify, ret in Ew. simpl in Ew.
      injection Ew as <- <-. simpl. rewrite list_lookup_alter_eq, Htr. simpl.
      by rewrite Hq.
    - unfold update_transport, modify, ret, try_except, js_write, the_transport, bind in Ew.
      simpl in Ew. rewrite list_lookup_alter_eq, Htr in Ew. simpl in Ew.
      rewrite Hlw in Ew. simpl in Ew. injection Ew as <- <-. simpl.
      rewrite list_lookup_alter_eq, Htr. simpl. rewrite Hq. simpl.
      rewrite written_app, submitted_app, Hinv.
      change (submitted t [EvWrite t d]) with (@nil bytes).
      replace (written t [EvWrite t d]) with [d]
        by (unfold written; simpl; by rewrite decide_True).
      by rewrite app_nil_r, <-app_assoc. }
  destruct r as [v|e].
  { destruct pc; simpl in Erun; by eapply Hiter. }
  destruct pc; simpl in Erun.
  - injection Erun as <- <-. simpl. by rewrite Htr.
  - unfold bind in Erun.
    destruct (queue_get_interrupted_items t k (fut_waiter tk) w1 t) as [Hc1 Hq1].
    destruct (Hq1 _ Htr1) as (tr2 & Htr2 & Eq2).
    destruct (queue_get_interrupted t k (fut_waiter tk) w1) as [w' [[]|x]]; simpl in *;
      injection Erun as <- <-; rewrite Hc1, Htr2, Eq2; done.
  - unfold try_except, raise in Erun.
    destruct (is_Exception e).
    + unfold writer_failed, bind in Erun.
      pose proof (cleanup_emits t (Some e) w1) as Hem.
      destruct (proj1 (tr_frame_cleanup (λ _, False) t (Some e) w1) _ _ Htr1)
        as (tr2 & Htr2 & _ & _ & _ & _ & Hq2).
      destruct (emits_outbound t w1 (_cleanup t (Some e) w1).1) as [Hs Hw].
      { eapply emits_impl; [|exact Hem]. apply cleanup_ev_not_outbound. }
      destruct (_cleanup t (Some e) w1) as [w' [[]|x]]; simpl in *;
        injection Erun as <- <-; rewrite Hs, Hw, Htr2, Hq2 by tauto; done.
    + injection Erun as <- <-. simpl. by rewrite Htr.
Qed.

(** Every action keeps the queue and the device in step with the calls of
    [write]. *)
Lemma step_outbound a w t : wf w → outbound_ok t w → outbound_ok t (step a w).
Proof.
  intros Hwf Hinv.
  destruct (decide (queue_user a w = Some t)) as [Hu|Hu].
  - destruct a as [pt|a|t0 data|t0|t0 p|t0| |k st]; simpl in Hu; try done.
    + (* write *)
      injection Hu as ->. simpl. unfold call, the_transport, bind at 1.
      destruct (transports w !! t) as [tr|] eqn:Htr.
      2:{ simpl. unfold outbound_ok in *. simpl. rewrite Htr in *.
          rewrite submitted_app, written_app.
          change (submitted t [EvUncaught AttributeError]) with (@nil bytes).
          change (written t [EvUncaught AttributeError]) with (@nil bytes).
          by rewrite !app_nil_r in *. }
      unfold bind, emit, modify, write. simpl.
      destruct (put_nowait_ok t data (with_trace (trace w ++ [EvSubmit t data]) w) tr Htr
                  (wf_unbounded _ _ Hwf _ _ Htr)) as (w' & tr' & E & Htr' & Hq & _ & Hc).
      rewrite E. simpl. unfold outbound_ok in *. rewrite Htr', Hq, Hc. simpl.
      rewrite Htr in Hinv. rewrite submitted_app, written_app, Hinv.
      change (written t [EvSubmit t data]) with (@nil bytes).
      replace (submitted t [EvSubmit t data]) with [data]
        by (unfold submitted; simpl; by rewrite decide_True).
      by rewrite app_nil_r, <-app_assoc.
    + (* the writer runs *)
      destruct (ready w) as [|[k| | |] rest] eqn:Hr; try done.
      destruct (tasks w !! k) as [tk|] eqn:Hk; [|done].
      destruct (task_coro tk) as [t0 pc| | |] eqn:Hc; try done. injection Hu as ->.
      destruct (wf_owner _ _ Hwf k tk t Hk) as (tr & Htr & _); [by rewrite Hc|].
      assert (Hwf0 : wf (with_ready rest w)) by (by apply (wf_same None w)).
      pose proof (writer_step_outbound k (with_ready rest w) tk t pc tr Hwf0 Hk Hc Htr Hinv)
        as Hout.
      simpl. rewrite Hr. unfold run_handle. simpl.
      destruct (task_step k (with_ready rest w)) as [w' [[]|e]]; simpl in *; [done|].
      unfold outbound_ok in *. simpl.
      rewrite submitted_app, written_app.
      change (submitted t [EvLoopException e]) with (@nil bytes).
      change (written t [EvLoopException e]) with (@nil bytes).
      by rewrite !app_nil_r.
  - destruct (emits_outbound t w (step a w) (step_not_outbound a w t Hu)) as [Hs Hw].
    unfold outbound_ok in *. rewrite Hs, Hw, Hinv. f_equal.
    assert (Hcases : (∀ t' p, a ≠ Call_set_protocol t' p) ∨ ∃ t0 p, a = Call_set_protocol t0 p).
    { destruct a; eauto; by left. }
    destruct Hcases as [Hns|(t0 & p & ->)].
    + destruct (step_tr_frame a w Hns) as [Hold Hnew].
      destruct (transports w !! t) as [tr|] eqn:Htr.
      * destruct (Hold _ _ Htr) as (tr' & Htr' & _ & _ & _ & _ & Hq).
        rewrite Htr'. by rewrite (Hq Hu).
      * destruct (transports (step a w) !! t) as [tr'|] eqn:Htr'; [|done].
        symmetry. eapply Hnew; [|exact Htr'|exact Hu]. by apply lookup_ge_None.
    + simpl. unfold call, set_protocol, update_transport, modify. simpl.
      rewrite list_lookup_alter. case_decide; [|done]. subst.
      by destruct (transports w !! t).
Qed.

Lemma run_outbound sched w t : wf w → outbound_ok t w → outbound_ok t (run sched w).
Proof.
  revert w. induction sched as [|a sched IH]; intros w Hwf Hinv; [done|].
  simpl. apply IH; [by apply step_wf|by apply step_outbound].
Qed.

(** X10.  Outbound data is first in, first out, and nothing is lost or
    duplicated on the way to the device: at every moment of every run, the
    chunks that were handed to [write] on a transport are exactly the chunks
    that have been passed to the device's writer, in the same order,
    followed by the chunks that are still in the queue. *)
Theorem writes_reach_the_device_in_order sched t tr :
  transports (run sched init) !! t = Some tr →
  submitted t (trace (run sched init))
  = written t (trace (run sched init)) ++ q_items (_write_queue tr).
Proof.
  intros Htr. pose proof (run_outbound sched init t wf_init_world eq_refl) as H.
  unfold outbound_ok in H. by rewrite Htr in H.
Qed.

Lemma writes_reach_the_device_in_order_witness :
  ∃ tr,
    transports (run Scenario.second_write_rejected init) !! 0 = Some tr
    ∧ submitted 0 (trace (run Scenario.second_write_rejected init))
      = written 0 (trace (run Scenario.second_write_rejected init))
        ++ q_items (_write_queue tr).
Proof.
  assert (Hl : transports (run Scenario.second_write_rejected init) !! 0
               = Some (Transport (Some 7) (Some Scenario.usb) (Queue 0 [Scenario.C] []) false
                         (Some (JsLock None)) (Some (JsLock None)) 1 2))
    by (vm_compute; reflexivity).
  eexists. split; [exact Hl|].
  exact (writes_reach_the_device_in_order Scenario.second_write_rejected 0 _ Hl).
Defined.


(** ** Releasing the stream locks *)

(** C8 as stated does not hold: [_cleanup] has no handler around the two
    [releaseLock()] calls.  On a port whose reader release raises, [close()]
    raises to its caller after the attempt on the reader, and the writer is
    never released.  On a port whose writer release raises, the reader has
    been released and the writer has not: the transport is left with one lock
    of the two. *)
Lemma release_failure_leaves_locks_unpaired :
  (let w := run (Scenario.connect_on Scenario.stuck_reader Scenario.args ++ [Call_close 0]) init in
   reader_releases 0 (trace w) = 1
   ∧ writer_releases 0 (trace w) = 0
   ∧ last (trace w) = Some (EvUncaught (JsException 11)))
  ∧ (let w := run (Scenario.connect_on Scenario.stuck_writer Scenario.args ++ [Call_close 0]) init in
     ∃ tr, transports w !! 0 = Some tr
           ∧ _js_reader tr = None
           ∧ is_Some (_js_writer tr)
           ∧ ¬ locks_paired tr).
Proof.
  split.
  - vm_compute. by repeat split.
  - eexists. split; [vm_compute; reflexivity|]. simpl.
    split_and!; [done|by eexists|]. intros [H _]. by specialize (H eq_refl).
Qed.

(** A [releaseLock()] that raises cuts the shutdown short: the exception
    leaves [_cleanup]; if it is the reader's, both locks are kept; if it is
    the writer's, the reader lock has been released and the writer lock is
    kept. *)
Lemma cleanup_reader_raises self e w tr lr x :
  transports w !! self = Some tr →
  _js_reader tr = Some lr → releaseLock_raises lr = Some x →
  ∃ w1 tr1, _cleanup self e w = (w1, Raise x)
            ∧ transports w1 !! self = Some tr1
            ∧ _js_reader tr1 = Some lr ∧ _js_writer tr1 = _js_writer tr.
Proof.
  intros Htr Hjr Hlr. rewrite (cleanup_unfold _ _ _ _ Htr).
  set (w1 := with_transports _ w).
  set (w2 := (cancel (_reader_task tr) w1).1).
  set (w3 := (cancel (_writer_task tr) w2).1).
  destruct (cancel_frame (_reader_task tr) w1) as (_&_&Ht2&_&_&_).
  destruct (cancel_frame (_writer_task tr) w2) as (_&_&Ht3&_&_&_).
  assert (H3 : transports w3 !! self = Some (set_is_closing true tr)).
  { unfold w3. rewrite Ht3. unfold w2. rewrite Ht2. unfold w1. simpl.
    by rewrite list_lookup_alter_eq, Htr. }
  clearbody w3.
  unfold cleanup_tail. simpl. rewrite Hjr.
  unfold bind, emit, modify, releaseLock. rewrite Hlr. simpl.
  eexists _, _. split; [reflexivity|]. simpl. split; [exact H3|]. by split.
Qed.

Lemma cleanup_writer_raises self e w tr lw x :
  transports w !! self = Some tr →
  (∀ lr, _js_reader tr = Some lr → releaseLock_raises lr = None) →
  _js_writer tr = Some lw → releaseLock_raises lw = Some x →
  ∃ w1 tr1, _cleanup self e w = (w1, Raise x)
            ∧ transports w1 !! self = Some tr1
            ∧ _js_reader tr1 = None ∧ _js_writer tr1 = Some lw.
Proof.
  intros Htr Hr Hjw Hlw. rewrite (cleanup_unfold _ _ _ _ Htr).
  set (w1 := with_transports _ w).
  set (w2 := (cancel (_reader_task tr) w1).1).
  set (w3 := (cancel (_writer_task tr) w2).1).
  destruct (cancel_frame (_reader_task tr) w1) as (_&_&Ht2&_&_&_).
  destruct (cancel_frame (_writer_task tr) w2) as (_&_&Ht3&_&_&_).
  assert (H3 : transports w3 !! self = Some (set_is_closing true tr)).
  { unfold w3. rewrite Ht3. unfold w2. rewrite Ht2. unfold w1. simpl.
    by rewrite list_lookup_alter_eq, Htr. }
  assert (Hlt : self < length (transports w3)) by (by eapply lookup_lt_Some).
  clearbody w3.
  unfold cleanup_tail. simpl. rewrite Hjw.
  destruct (_js_reader tr) as [lr|] eqn:Hjr.
  - unfold bind, emit, modify, releaseLock, update_transport, ret.
    rewrite (Hr lr eq_refl), Hlw. simpl.
    eexists _, _. split; [reflexivity|]. simpl.
    rewrite list_lookup_alter_eq, H3. simpl. split; [reflexivity|]. by split.
  - unfold bind, emit, modify, releaseLock, update_transport, ret. rewrite Hlw. simpl.
    eexists _, _. split; [reflexivity|]. simpl. split; [exact H3|]. by split.
Qed.

(** C8, amended.  In a state reached by a run, take a transport.  Provided
    the [releaseLock()] calls of the locks it holds return: its locks are
    both held or both released; a shutdown transition returns and leaves
    both locks released; each lock is released exactly if it was held,
    whatever the state of the other; and a second transition releases
    nothing and raises nothing.  An exception raised by a [releaseLock()]
    call leaves the transition: if it is the reader's, both locks are kept;
    if it is the writer's, the reader lock has been released and the writer
    lock is kept. *)
Theorem shutdown_releases_both_locks sched self e e' tr :
  transports (run sched init) !! self = Some tr →
  (releases_return tr →
   locks_paired tr
   ∧ ∃ w1 w2 tr1 tr2,
       _cleanup self e (run sched init) = (w1, Ok tt)
       ∧ transports w1 !! self = Some tr1
       ∧ _js_reader tr1 = None ∧ _js_writer tr1 = None
       ∧ reader_releases self (trace w1)
         = reader_releases self (trace (run sched init))
           + (if _js_reader tr is Some _ then 1 else 0)
       ∧ writer_releases self (trace w1)
         = writer_releases self (trace (run sched init))
           + (if _js_writer tr is Some _ then 1 else 0)
       ∧ _cleanup self e' w1 = (w2, Ok tt)
       ∧ transports w2 !! self = Some tr2
       ∧ _js_reader tr2 = None ∧ _js_writer tr2 = None
       ∧ reader_releases self (trace w2) = reader_releases self (trace w1)
       ∧ writer_releases self (trace w2) = writer_releases self (trace w1))
  ∧ (∀ lr x, _js_reader tr = Some lr → releaseLock_raises lr = Some x →
       ∃ w1 tr1, _cleanup self e (run sched init) = (w1, Raise x)
                 ∧ transports w1 !! self = Some tr1
                 ∧ _js_reader tr1 = Some lr ∧ _js_writer tr1 = _js_writer tr)
  ∧ (∀ lw x, (∀ lr, _js_reader tr = Some lr → releaseLock_raises lr = None) →
       _js_writer tr = Some lw → releaseLock_raises lw = Some x →
       ∃ w1 tr1, _cleanup self e (run sched init) = (w1, Raise x)
                 ∧ transports w1 !! self = Some tr1
                 ∧ _js_reader tr1 = None ∧ _js_writer tr1 = Some lw).
Proof.
  intros Htr. set (w := run sched init) in *.
  split; [|split].
  2:{ intros lr x Hjr Hlr. by eapply cleanup_reader_raises. }
  2:{ intros lw x Hr Hjw Hlw. by eapply cleanup_writer_raises. }
  intros Hrel. split.
  { pose proof (run_locks_ok sched self tr Htr) as Hok.
    destruct Hrel as [Hr Hw]. unfold locks_ok in Hok. unfold locks_paired.
    destruct (_js_reader tr) as [lr|], (_js_writer tr) as [lw|]; try done.
    by destruct Hok, (Hw lw). }
  destruct (cleanup_returns self e w tr Htr Hrel) as (w1 & E1 & Ht1 & Hc1 & _).
  assert (H1 : transports w1 !! self = Some (scrubbed (set_is_closing true tr))).
  { rewrite Ht1. apply list_lookup_insert_eq. by eapply lookup_lt_Some. }
  assert (Hrel1 : releases_return (scrubbed (set_is_closing true tr))).
  { split; intros l; simpl; discriminate. }
  destruct (cleanup_returns self e' w1 _ H1 Hrel1) as (w2 & E2 & Ht2 & Hc2 & _).
  exists w1, w2, (scrubbed (set_is_closing true tr)),
    (scrubbed (set_is_closing true (scrubbed (set_is_closing true tr)))).
  split_and!; try done.
  - rewrite Hc1. unfold reader_releases at 1. rewrite count_events_app.
    fold (reader_releases self (trace w)).
    fold (reader_releases self (cleanup_events self e tr)).
    by rewrite reader_releases_cleanup_events.
  - rewrite Hc1. unfold writer_releases at 1. rewrite count_events_app.
    fold (writer_releases self (trace w)).
    fold (writer_releases self (cleanup_events self e tr)).
    by rewrite writer_releases_cleanup_events.
  - rewrite Ht2. apply list_lookup_insert_eq. by eapply lookup_lt_Some.
  - rewrite Hc2. unfold reader_releases at 1. rewrite count_events_app.
    fold (reader_releases self (trace w1)).
    fold (reader_releases self (cleanup_events self e' (scrubbed (set_is_closing true tr)))).
    rewrite reader_releases_cleanup_events. simpl. lia.
  - rewrite Hc2. unfold writer_releases at 1. rewrite count_events_app.
    fold (writer_releases self (trace w1)).
    fold (writer_releases self (cleanup_events self e' (scrubbed (set_is_closing true tr)))).
    rewrite writer_releases_cleanup_events. simpl. lia.
Qed.

Lemma shutdown_releases_both_locks_witness :
  ∃ tr, transports (run Scenario.connect init) !! 0 = Some tr
        ∧ releases_return tr
        ∧ locks_paired tr
        ∧ ∃ w1 w2 tr1 tr2,
            _cleanup 0 None (run Scenario.connect init) = (w1, Ok tt)
            ∧ transports w1 !! 0 = Some tr1
            ∧ _js_reader tr1 = None ∧ _js_writer tr1 = None
            ∧ reader_releases 0 (trace w1)
              = reader_releases 0 (trace (run Scenario.connect init))
                + (if _js_reader tr is Some _ then 1 else 0)
            ∧ writer_releases 0 (trace w1)
              = writer_releases 0 (trace (run Scenario.connect init))
                + (if _js_writer tr is Some _ then 1 else 0)
            ∧ _cleanup 0 (Some AttributeError) w1 = (w2, Ok tt)
            ∧ transports w2 !! 0 = Some tr2
            ∧ _js_reader tr2 = None ∧ _js_writer tr2 = None
            ∧ reader_releases 0 (trace w2) = reader_releases 0 (trace w1)
            ∧ writer_releases 0 (trace w2) = writer_releases 0 (trace w1).
Proof.
  eexists.
  assert (Hl : transports (run Scenario.connect init) !! 0
               = Some (Transport (Some 7) (Some Scenario.usb) (Queue 0 [] [2]) false
                         (Some (JsLock None)) (Some (JsLock None)) 1 2))
    by (vm_compute; reflexivity).
  assert (Hr : releases_return
                 (Transport (Some 7) (Some Scenario.usb) (Queue 0 [] [2]) false
                    (Some (JsLock None)) (Some (JsLock None)) 1 2)).
  { split; intros l [= <-]; reflexivity. }
  split; [exact Hl|]. split; [exact Hr|].
  exact (proj1 (shutdown_releases_both_locks Scenario.connect 0 None (Some AttributeError)
                  _ Hl) Hr).
Defined.


(** ** The consumer is told once that the connection is lost *)

Lemma lost_count t tr : count_events (is_lost_ev t) tr = length (lost t tr).
Proof.
  induction tr as [|ev tr IH]; [done|].
  rewrite count_events_cons, IH. unfold lost. simpl.
  destruct ev; simpl; try done.
  case_bool_decide; case_decide; simpl; done.
Qed.

Lemma unnotified_mono t trs trs' :
  (∀ t0 tr, trs !! t0 = Some tr →
     ∃ tr', trs' !! t0 = Some tr' ∧ (_protocol tr = None → _protocol tr' = None)) →
  unnotified t trs' ≤ unnotified t trs.
Proof.
  intros H. unfold unnotified. destruct (trs !! t) as [tr|] eqn:E.
  - destruct (H _ _ E) as (tr' & -> & Hp).
    destruct (_protocol tr); [destruct (_protocol tr'); lia|]. by rewrite Hp.
  - destruct (trs' !! t) as [tr'|]; [destruct (_protocol tr')|]; lia.
Qed.

Lemma is_lost_ev_only t ev :
  is_lost_ev t ev = true →
  (∃ t0 p e, ev = EvConnectionLost t0 p e) ∨ (∃ p t0, ev = EvConnectionMade p t0).
Proof. destruct ev; try done. intros _. left. eauto. Qed.

Lemma lost_cleanup_events t self e tr :
  count_events (is_lost_ev t) (cleanup_events self e tr)
  = if decide (t = self)
    then match _port tr, _protocol tr with None, Some _ => 1 | _, _ => 0 end
    else 0.
Proof.
  unfold cleanup_events.
  destruct (_js_reader tr), (_js_writer tr), (_port tr), (_protocol tr); simpl;
    rewrite ?count_events_cons; simpl;
    case_decide; try case_bool_decide; simpl; try done; congruence.
Qed.

Lemma lost_closing_task t self e tr k :
  sum_list_with (λ tk, count_cb (is_lost_cb t) (done_callbacks tk))
    (closing_task_of self e tr k)
  = if decide (t = self)
    then match _port tr, _protocol tr with Some _, Some _ => 1 | _, _ => 0 end
    else 0.
Proof.
  unfold closing_task_of.
  destruct (_port tr), (_protocol tr); simpl;
    rewrite ?count_cb_cons; simpl;
    case_decide; try case_bool_decide; simpl; try done; congruence.
Qed.

(** A shutdown turns the consumer still to be notified into a notification
    made or registered, or leaves everything as it is. *)
Lemma owed_cleanup t self e w : owed t (_cleanup self e w).1 ≤ owed t w.
Proof.
  destruct (transports w !! self) as [tr|] eqn:Htr.
  2:{ unfold _cleanup, bind, update_transport, modify, the_transport. simpl.
      rewrite list_lookup_alter_eq, Htr. simpl.
      unfold owed, potential, registered. simpl. by rewrite alter_None. }
  destruct (cleanup_head (is_lost_cb t) self e w tr ltac:(done) Htr)
    as (w3 & -> & Hr3 & Hc3 & Ht3 & H3).
  assert (Hu3 : unnotified t (transports w3) = unnotified t (transports w)).
  { rewrite Ht3. unfold unnotified. rewrite list_lookup_alter.
    destruct (decide (self = t)) as [<-|Hne]; [|done]. by rewrite Htr. }
  assert (H0 : owed t w3 = owed t w).
  { unfold owed, potential. by rewrite Hr3, Hc3, Hu3. }
  rewrite <-H0. clear H0 Hu3 Hr3 Hc3 Ht3.
  assert (Hlt : self < length (transports w3)) by (by eapply lookup_lt_Some).
  destruct (cleanup_tail_cases self e _ w3 H3) as [Hrel|(X&evs&x&->&HpX&_&Hevs)].
  - rewrite (cleanup_tail_ok _ _ _ _ H3 Hrel).
    unfold owed, potential, registered. simpl.
    rewrite count_events_app, count_cb_app, sum_list_with_app.
    rewrite lost_cleanup_events, lost_closing_task.
    assert (Hrd : count_cb (is_lost_cb t)
                    (if _port tr is Some _ then [CbStep (length (tasks w3))] else []) = 0).
    { by destruct (_port tr). }
    rewrite Hrd. unfold unnotified.
    destruct (decide (t = self)) as [->|Hne].
    + rewrite list_lookup_insert_eq by done. rewrite H3. simpl.
      destruct (_port tr), (_protocol tr); simpl; lia.
    + rewrite list_lookup_insert_ne by done. lia.
  - unfold owed, potential, registered. simpl.
    rewrite count_events_app.
    assert (Hev : count_events (is_lost_ev t) evs = 0).
    { clear -Hevs. induction Hevs as [|ev evs Hev _ IH]; [done|].
      rewrite count_events_cons, IH. by destruct Hev as [->| ->]. }
    rewrite Hev. unfold unnotified.
    destruct (decide (t = self)) as [->|Hne].
    + rewrite list_lookup_insert_eq by done. rewrite H3, HpX. simpl. lia.
    + rewrite list_lookup_insert_ne by done. lia.
Qed.

Lemma owed_init t p sp w : owed t (__init__ p sp w).1 ≤ owed t w.
Proof.
  destruct sp as [pt|]; [|done]. simpl.
  unfold owed, potential, registered. simpl.
  rewrite !count_events_snoc, !count_cb_app, !sum_list_with_app. simpl.
  rewrite !count_cb_cons, !count_cb_nil. simpl.
  assert (unnotified t (transports w ++
            [Transport (Some p) (Some pt) (Queue 0 [] []) false (Some (getReader pt))
               (Some (getWriter pt)) (length (tasks w)) (length (tasks w ++ [Task (ReaderLoop (length (transports w)) RStart) None false None []]))])
          ≤ unnotified t (transports w)); [|lia].
  apply unnotified_mono. intros t0 tr Ht0. exists tr.
  split; [by apply lookup_app_l_Some|done].
Qed.

Lemma owed_run t sched w :
  Forall (keeps_protocol t) sched → owed t (run sched w) ≤ owed t w.
Proof.
  intros Hs. unfold owed.
  apply pot_run; try done.
  - apply is_lost_ev_only.
  - apply unnotified_mono.
  - apply owed_cleanup.
  - apply owed_init.
  - eapply Forall_impl; [exact Hs|]. intros a Ha t0 p trs ->.
    assert (t0 ≠ t) by (intros ->; by eapply Ha).
    unfold unnotified. by rewrite list_lookup_alter_ne.
Qed.

(** X20.  As long as [set_protocol] is not called on a transport, its
    consumer is told at most once that the connection is lost: in every
    run, the calls of [connection_lost] caused by the shutdown of the
    transport, together with the calls that are still registered on a close
    task or handed to the loop, number at most one. *)
Theorem connection_lost_at_most_once sched t :
  Forall (keeps_protocol t) sched →
  length (lost t (trace (run sched init)))
  + registered (is_lost_cb t) (run sched init) ≤ 1.
Proof.
  intros Hs. pose proof (owed_run t sched init Hs) as H.
  unfold owed, potential in H. rewrite lost_count in H.
  change (count_events (is_lost_ev t) (trace init)) with 0 in H.
  change (registered (is_lost_cb t) init) with 0 in H.
  change (unnotified t (transports init)) with 1 in H. lia.
Qed.

Lemma connection_lost_at_most_once_witness :
  lost 0 (trace (run Scenario.close_to_end init)) = [(7, None)]
  ∧ length (lost 0 (trace (run Scenario.close_to_end init)))
    + registered (is_lost_cb 0) (run Scenario.close_to_end init) ≤ 1.
Proof.
  split; [vm_compute; reflexivity|].
  apply (connection_lost_at_most_once Scenario.close_to_end 0).
  repeat constructor; intros p; discriminate.
Defined.

(** ** The consumer is greeted once *)

Lemma made_count t tr : count_events (is_made_ev t) tr = length (made t tr).
Proof.
  induction tr as [|ev tr IH]; [done|].
  rewrite count_events_cons, IH. unfold made. simpl.
  destruct ev; simpl; try done.
  case_bool_decide; case_decide; simpl; done.
Qed.

Lemma unbuilt_mono t trs trs' :
  (∀ t0 tr, trs !! t0 = Some tr →
     ∃ tr', trs' !! t0 = Some tr' ∧ (_protocol tr = None → _protocol tr' = None)) →
  unbuilt t trs' ≤ unbuilt t trs.
Proof.
  intros H. unfold unbuilt. destruct (trs !! t) as [tr|] eqn:E.
  - by destruct (H _ _ E) as (tr' & -> & _).
  - destruct (trs' !! t); lia.
Qed.

Lemma is_made_ev_only t ev :
  is_made_ev t ev = true →
  (∃ t0 p e, ev = EvConnectionLost t0 p e) ∨ (∃ p t0, ev = EvConnectionMade p t0).
Proof. destruct ev; try done. intros _. right. eauto. Qed.

(** A shutdown greets nobody. *)
Lemma greeting_cleanup t self e w : greeting t (_cleanup self e w).1 ≤ greeting t w.
Proof.
  destruct (transports w !! self) as [tr|] eqn:Htr.
  2:{ unfold _cleanup, bind, update_transport, modify, the_transport. simpl.
      rewrite list_lookup_alter_eq, Htr. simpl.
      unfold greeting, potential, registered. simpl. by rewrite alter_None. }
  destruct (cleanup_head (is_made_cb t) self e w tr ltac:(done) Htr)
    as (w3 & -> & Hr3 & Hc3 & Ht3 & H3).
  assert (Hu3 : unbuilt t (transports w3) = unbuilt t (transports w)).
  { rewrite Ht3. unfold unbuilt. rewrite list_lookup_alter.
    destruct (decide (self = t)) as [<-|Hne]; [|done]. by rewrite Htr. }
  assert (H0 : greeting t w3 = greeting t w).
  { unfold greeting, potential. by rewrite Hr3, Hc3, Hu3. }
  rewrite <-H0. clear H0 Hu3 Hr3 Hc3 Ht3.
  assert (Hlt : self < length (transports w3)) by (by eapply lookup_lt_Some).
  assert (Hins : ∀ X, unbuilt t (<[self := X]> (transports w3)) = unbuilt t (transports w3)).
  { intros X. unfold unbuilt. destruct (decide (t = self)) as [->|Hne].
    - rewrite list_lookup_insert_eq by done. by rewrite H3.
    - by rewrite list_lookup_insert_ne. }
  destruct (cleanup_tail_cases self e _ w3 H3) as [Hrel|(X&evs&x&->&HpX&_&Hevs)].
  - rewrite (cleanup_tail_ok _ _ _ _ H3 Hrel).
    unfold greeting, potential, registered. simpl.
    rewrite count_events_app, count_cb_app, sum_list_with_app, Hins.
    assert (Hev : count_events (is_made_ev t) (cleanup_events self e (set_is_closing true tr))
                  = 0).
    { unfold cleanup_events. simpl.
      by destruct (_js_reader tr), (_js_writer tr), (_port tr), (_protocol tr). }
    assert (Hrd : count_cb (is_made_cb t)
                    (if _port tr is Some _ then [CbStep (length (tasks w3))] else []) = 0).
    { by destruct (_port tr). }
    assert (Hnew : sum_list_with (λ tk, count_cb (is_made_cb t) (done_callbacks tk))
                     (closing_task_of self e (set_is_closing true tr) (length (tasks w3)))
                   = 0).
    { unfold closing_task_of. simpl. by destruct (_port tr), (_protocol tr). }
    rewrite Hev, Hnew. simpl in Hrd. rewrite Hrd. lia.
  - unfold greeting, potential, registered. simpl.
    rewrite count_events_app, Hins.
    assert (Hev : count_events (is_made_ev t) evs = 0).
    { clear -Hevs. induction Hevs as [|ev evs Hev _ IH]; [done|].
      rewrite count_events_cons, IH. by destruct Hev as [->| ->]. }
    rewrite Hev. lia.
Qed.

(** Building a transport registers its greeting. *)
Lemma greeting_init t p sp w : greeting t (__init__ p sp w).1 ≤ greeting t w.
Proof.
  destruct sp as [pt|]; [|done]. simpl.
  unfold greeting, potential, registered. simpl.
  rewrite !count_events_snoc, !count_cb_app, !sum_list_with_app. simpl.
  rewrite !count_cb_cons, !count_cb_nil. simpl.
  unfold unbuilt. destruct (decide (length (transports w) = t)) as [<-|Hne].
  - rewrite lookup_snoc.
    assert (transports w !! length (transports w) = None) as -> by (by apply lookup_ge_None).
    rewrite bool_decide_eq_true_2 by done. lia.
  - rewrite bool_decide_eq_false_2 by done.
    destruct (transports w !! t) as [tr|] eqn:E.
    + rewrite (lookup_app_l_Some _ _ _ _ E). lia.
    + apply lookup_ge_None in E.
      rewrite lookup_ge_None_2 by (rewrite length_app; simpl; lia). lia.
Qed.

Lemma greeting_run t sched w : greeting t (run sched w) ≤ greeting t w.
Proof.
  unfold greeting. apply pot_run; try done.
  - apply is_made_ev_only.
  - apply unbuilt_mono.
  - apply greeting_cleanup.
  - apply greeting_init.
  - apply Forall_forall. intros a _ t0 p trs _.
    unfold unbuilt. rewrite list_lookup_alter.
    destruct (decide (t0 = t)) as [->|]; [|done]. destruct (trs !! t); simpl; lia.
Qed.

(** X21.  The consumer of a transport is greeted at most once: in every
    run, the calls of [connection_made] for a transport, together with the
    calls still handed to the loop, number at most one. *)
Theorem connection_made_at_most_once sched t :
  length (made t (trace (run sched init)))
  + registered (is_made_cb t) (run sched init) ≤ 1.
Proof.
  pose proof (greeting_run t sched init) as H.
  unfold greeting, potential in H. rewrite made_count in H.
  change (count_events (is_made_ev t) (trace init)) with 0 in H.
  change (registered (is_made_cb t) init) with 0 in H.
  change (unbuilt t (transports init)) with 1 in H. lia.
Qed.

(** ** After the farewell *)

(** X22.  Once [connection_lost] has been called for a transport on which
    [set_protocol] is not called, the consumer is left alone: whatever
    happens afterwards, [data_received] is not called again, there is no
    second [connection_lost], and the device is neither read nor written on
    behalf of that transport. *)
Theorem nothing_after_connection_lost sched sched' t :
  Forall (keeps_protocol t) sched →
  Forall (keeps_protocol t) sched' →
  lost t (trace (run sched init)) ≠ [] →
  delivered t (trace (run sched' (run sched init))) = delivered t (trace (run sched init))
  ∧ lost t (trace (run sched' (run sched init))) = lost t (trace (run sched init))
  ∧ reads t (trace (run sched' (run sched init))) = reads t (trace (run sched init))
  ∧ written t (trace (run sched' (run sched init))) = written t (trace (run sched init)).
Proof.
  intros Hs Hs' Hlost. set (w := run sched init) in *.
  pose proof (reachable_wf sched) as Hwf. fold w in Hwf.
  pose proof (owed_run t sched init Hs) as H1. fold w in H1.
  pose proof (owed_run t sched' w Hs') as H2.
  unfold owed, potential in H1, H2.
  change (count_events (is_lost_ev t) (trace init)) with 0 in H1.
  change (registered (is_lost_cb t) init) with 0 in H1.
  change (unnotified t (transports init)) with 1 in H1.
  rewrite !lost_count in *.
  assert (Hlen : 1 ≤ length (lost t (trace w))).
  { destruct (lost t (trace w)); [done|simpl; lia]. }
  assert (Hu : unnotified t (transports w) = 0) by lia.
  unfold unnotified in Hu.
  destruct (transports w !! t) as [tr|] eqn:Htr; [|done].
  assert (Hcl : _is_closing tr = true).
  { destruct (_is_closing tr) eqn:Hc; [done|].
    destruct (wf_open _ _ Hwf _ _ Htr Hc) as (_ & _ & _ & [p Hp]).
    by rewrite Hp in Hu. }
  pose proof (run_quiet_when_closing sched' w t tr Hwf Htr Hcl) as Hq.
  split_and!; [by apply emits_delivered| |by apply emits_reads|by apply emits_written].
  destruct Hq as (evs & Hev & _). rewrite Hev in *.
  unfold lost in *. rewrite omap_app in *. rewrite length_app in H2.
  match goal with |- _ ++ ?l = _ => destruct l; [by rewrite app_nil_r|simpl in H2; lia] end.
Qed.

Lemma nothing_after_connection_lost_witness :
  lost 0 (trace (run Scenario.close_to_end init)) = [(7, None)]
  ∧ delivered 0 (trace (run [Settle 1 (Resolve (VRead false Scenario.A)); RunOnce;
                             Call_close 0; RunOnce]
                          (run Scenario.close_to_end init)))
    = delivered 0 (trace (run Scenario.close_to_end init)).
Proof.
  split; [vm_compute; reflexivity|].
  apply (nothing_after_connection_lost Scenario.close_to_end
           [Settle 1 (Resolve (VRead false Scenario.A)); RunOnce; Call_close 0; RunOnce] 0).
  - repeat constructor; intros p; discriminate.
  - repeat constructor; intros p; discriminate.
  - vm_compute. discriminate.
Defined.

(** ** The device is closed once *)

(** X23.  [port.close()] is called at most once for the port of each
    transport, however often and from wherever the shutdown runs: in every
    run, the calls made, the detached close tasks that have not made their
    call yet, and the port the transport still holds (or will be built
    with) number at most one. *)
Theorem port_closed_at_most_once sched t :
  length (device_closes t (trace (run sched init)))
  + closes_due t (run sched init) ≤ 1.
Proof.
  pose proof (budget_run t sched init wf_init_world) as H.
  unfold closes_budget in H. rewrite closes_count in H.
  change (count_events (is_close_ev t) (trace init)) with 0 in H.
  change (closes_due t init) with 1 in H. lia.
Qed.


(** ** The selected port *)

Lemma cleanup_serial_port self e w : _SERIAL_PORT (_cleanup self e w).1 = _SERIAL_PORT w.
Proof.
  destruct (transports w !! self) as [tr|] eqn:Htr.
  2:{ unfold _cleanup, bind, update_transport, modify, the_transport. simpl.
      by rewrite list_lookup_alter_eq, Htr. }
  rewrite (cleanup_unfold _ _ _ _ Htr).
  set (w1 := with_transports _ w).
  set (w2 := (cancel (_reader_task tr) w1).1).
  set (w3 := (cancel (_writer_task tr) w2).1).
  destruct (cancel_frame (_reader_task tr) w1) as (Hs2&_&Ht2&_&_&_).
  destruct (cancel_frame (_writer_task tr) w2) as (Hs3&_&Ht3&_&_&_).
  assert (H3 : transports w3 !! self = Some (set_is_closing true tr)).
  { unfold w3. rewrite Ht3. unfold w2. rewrite Ht2. unfold w1. simpl.
    by rewrite list_lookup_alter_eq, Htr. }
  destruct (cleanup_tail_spec self e _ w3 H3) as (X&reg_add&new&rdy&evs&res&->&_).
  simpl. unfold w3. rewrite Hs3. unfold w2. by rewrite Hs2.
Qed.

Lemma queue_wakeup_getters_serial_port self w :
  _SERIAL_PORT (queue_wakeup_getters self w).1 = _SERIAL_PORT w.
Proof.
  unfold queue_wakeup_getters, the_transport, bind.
  destruct (transports w !! self) as [tr|]; [|done].
  destruct (wakeup_next_frame (q_getters (_write_queue tr)) w) as (_ & _ & Hs & _).
  by destruct (wakeup_next _ w) as [rest w'].
Qed.

Lemma put_nowait_serial_port self item w :
  _SERIAL_PORT (put_nowait self item w).1 = _SERIAL_PORT w.
Proof.
  unfold put_nowait, the_transport, bind.
  destruct (transports w !! self) as [tr|]; [|done].
  destruct (q_full _); [done|].
  unfold update_transport at 1, modify. simpl.
  by rewrite queue_wakeup_getters_serial_port.
Qed.

Lemma writer_failed_serial_port self e w :
  _SERIAL_PORT (writer_failed self e w).1 = _SERIAL_PORT w.
Proof.
  unfold writer_failed, bind. pose proof (cleanup_serial_port self (Some e) w) as H.
  by destruct (_cleanup self (Some e) w) as [w' [[]|x]].
Qed.

Lemma writer_iteration_serial_port self me w :
  _SERIAL_PORT (writer_iteration self me w).1 = _SERIAL_PORT w.
Proof.
  unfold writer_iteration, queue_get, the_transport, bind.
  destruct (transports w !! self) as [tr|] eqn:Htr; [|done].
  destruct (q_items (_write_queue tr)) as [|item rest] eqn:Hq; [done|].
  unfold update_transport, modify, ret. simpl.
  remember (with_transports _ w) as w1 eqn:Ew1.
  assert (H1 : _SERIAL_PORT w1 = _SERIAL_PORT w) by (by subst w1).
  clear Ew1. unfold try_except, js_write, the_transport, bind.
  pose proof (writer_failed_serial_port self AttributeError w1) as H2.
  destruct (transports w1 !! self) as [tr1|]; simpl.
  + destruct (_js_writer tr1); simpl; [done|].
    destruct (writer_failed self AttributeError w1) as [w2 r2]. simpl in *.
    destruct r2; congruence.
  + destruct (writer_failed self AttributeError w1) as [w2 r2]. simpl in *.
    destruct r2; congruence.
Qed.

Lemma queue_get_interrupted_serial_port self me waited w :
  _SERIAL_PORT (queue_get_interrupted self me waited w).1 = _SERIAL_PORT w.
Proof.
  unfold queue_get_interrupted, bind, update_transport, modify. simpl.
  remember (with_transports _ w) as w1 eqn:Ew1.
  assert (H1 : _SERIAL_PORT w1 = _SERIAL_PORT w) by (by subst w1).
  clear Ew1. unfold the_transport. destruct (transports w1 !! self) as [tr|]; [|done].
  destruct (q_items (_write_queue tr)); [done|].
  destruct waited as [[[] [[]| ]|]|]; simpl; try done;
    by rewrite queue_wakeup_getters_serial_port.
Qed.

Lemma wait_then_open_serial_port a w :
  _SERIAL_PORT (wait_then_open a w).1 = _SERIAL_PORT w.
Proof.
  unfold wait_then_open, bind, gets.
  destruct (await_closing_tasks_frame (reverse (_SERIAL_PORT_CLOSING_TASKS w)) w)
    as (_ & _ & _ & Hs).
  destruct (await_closing_tasks _ w) as [w' [[k|]|e]]; simpl in *; try done.
  unfold open_serial_port, bind, gets, emit, modify, ret, raise. simpl.
  destruct (_SERIAL_PORT w') eqn:E; simpl; congruence.
Qed.

Lemma run_coro_serial_port me c waited r w :
  _SERIAL_PORT (run_coro me c waited r w).1 = _SERIAL_PORT w.
Proof.
  destruct c as [self pc|self pc|owner pt pc|a pc]; simpl.
  - destruct pc, r as [v|e]; simpl; try done; try apply writer_iteration_serial_port.
    + unfold bind. pose proof (queue_get_interrupted_serial_port self me waited w) as H.
      by destruct (queue_get_interrupted self me waited w) as [w' [[]|x]].
    + unfold try_except, raise. destruct (is_Exception e); [|done].
      apply writer_failed_serial_port.
  - assert (Hread : ∀ w0, _SERIAL_PORT (js_read self w0).1 = _SERIAL_PORT w0).
    { intros w0. unfold js_read, the_transport, bind.
      destruct (transports w0 !! self) as [tr|]; [|done]. by destruct (_js_reader tr). }
    destruct pc, r as [v|e]; simpl; try done.
    destruct v as [|dn val|]; simpl; try done.
    destruct dn; unfold bind.
    { pose proof (cleanup_serial_port self (Some (RuntimeError "Other side has closed")) w)
        as H.
      by destruct (_cleanup self _ w) as [w' [[]|x]]. }
    assert (Hd : _SERIAL_PORT (data_received self val w).1 = _SERIAL_PORT w).
    { unfold data_received, the_transport, bind.
      destruct (transports w !! self) as [tr|]; [|done]. by destruct (_protocol tr). }
    destruct (data_received self val w) as [w' [[]|x]]; simpl in *; [|done].
    by rewrite Hread.
  - by destruct pc, r.
  - destruct pc, r; simpl; try done; try apply wait_then_open_serial_port.
    unfold bind, gets. simpl. destruct (_SERIAL_PORT w) eqn:E; simpl; done.
Qed.

Lemma finish_task_serial_port k o w : _SERIAL_PORT (finish_task k o w).1 = _SERIAL_PORT w.
Proof. unfold finish_task. by destruct (tasks w !! k). Qed.

Lemma suspend_task_serial_port k c f w :
  _SERIAL_PORT (suspend_task k c f w).1 = _SERIAL_PORT w.
Proof.
  unfold suspend_task, bind, update_task at 1, modify. simpl.
  remember (with_tasks _ w) as w1 eqn:E1.
  assert (H1 : _SERIAL_PORT w1 = _SERIAL_PORT w) by (by subst w1). clear E1.
  destruct f as [kind st|j].
  - unfold ret, gets. simpl.
    destruct (from_option must_cancel false (tasks w1 !! k)); [|done].
    by destruct st.
  - assert (H2 : _SERIAL_PORT (add_done_callback j (CbStep k) w1).1 = _SERIAL_PORT w1).
    { unfold add_done_callback. destruct (tasks w1 !! j) as [tj|]; [|done].
      by destruct (task_done tj). }
    destruct (add_done_callback j (CbStep k) w1) as [w2 [[]|x]]; simpl in *; [|congruence].
    unfold gets. simpl.
    destruct (from_option must_cancel false (tasks w2 !! k)); simpl; congruence.
Qed.

Lemma task_step_serial_port k w : _SERIAL_PORT (task_step k w).1 = _SERIAL_PORT w.
Proof.
  unfold task_step. destruct (tasks w !! k) as [tk|]; [|done].
  destruct (task_done tk); [done|].
  destruct (resume_value w tk) as [r|]; [|done].
  remember (with_tasks _ w) as w1 eqn:E1.
  assert (H1 : _SERIAL_PORT w1 = _SERIAL_PORT w) by (by subst w1). clear E1.
  pose proof (run_coro_serial_port k (task_coro tk) (fut_waiter tk) r w1) as H.
  destruct (run_coro k (task_coro tk) (fut_waiter tk) r w1) as [w2 res]. simpl in *.
  destruct res as [[c f|v]|e].
  - rewrite suspend_task_serial_port. congruence.
  - destruct (from_option must_cancel false (tasks w2 !! k)).
    + unfold bind, update_task, modify. simpl. rewrite finish_task_serial_port. simpl.
      congruence.
    + rewrite finish_task_serial_port. congruence.
  - destruct e; rewrite finish_task_serial_port; congruence.
Qed.

(** Only [set_global_serial_port] assigns the selected port. *)
Lemma step_serial_port a w : keeps_port a → _SERIAL_PORT (step a w) = _SERIAL_PORT w.
Proof.
  intros Hk.
  assert (Hcall : ∀ A (m : M A), _SERIAL_PORT (m w).1 = _SERIAL_PORT w →
                                 _SERIAL_PORT (call m w) = _SERIAL_PORT w).
  { intros A m H. unfold call. by destruct (m w) as [w' [x|e]]. }
  destruct a as [pt|a|t data|t|t p|t| |k st]; unfold step.
  - by destruct (Hk pt).
  - by apply Hcall.
  - apply Hcall. unfold the_transport, bind at 1.
    destruct (transports w !! t); [|done].
    unfold bind, emit, modify, write. simpl. by rewrite put_nowait_serial_port.
  - apply Hcall, cleanup_serial_port.
  - by apply Hcall.
  - apply Hcall, cleanup_serial_port.
  - destruct (ready w) as [|cb rest]; [done|]. unfold run_handle.
    assert (H : _SERIAL_PORT (run_callback cb (with_ready rest w)).1 = _SERIAL_PORT w).
    { destruct cb as [k|p t|t p e|k]; simpl; try done.
      - by rewrite task_step_serial_port.
      - unfold remove_closing_task, bind, gets. simpl. by case_bool_decide. }
    by destruct (run_callback cb (with_ready rest w)) as [w' [[]|e]].
  - apply Hcall. unfold settle.
    by destruct (tasks w !! k) as [[c [[[] [o|]|j]|] mc [o'|] cbs]|].
Qed.

Lemma opens_app l1 l2 : opens (l1 ++ l2) = opens l1 + opens l2.
Proof. unfold opens. apply count_events_app. Qed.

Lemma not_open_silent evs : Forall not_open evs → opens evs = 0.
Proof.
  induction 1 as [|ev evs Hev _ IH]; [done|].
  change (ev :: evs) with ([ev] ++ evs). rewrite opens_app, IH.
  by destruct ev.
Qed.

Lemma emits_opens w w' : emits not_open w w' → opens (trace w') = opens (trace w).
Proof.
  intros (evs & -> & Hevs). rewrite opens_app, (not_open_silent evs Hevs). lia.
Qed.

(** Without a selected port, a step of a coroutine that is not a pump
    opens nothing and creates no transport. *)
Lemma run_coro_without_port me c waited r w :
  _SERIAL_PORT w = None → pump_of c = None →
  transports (run_coro me c waited r w).1 = transports w
  ∧ emits not_open w (run_coro me c waited r w).1.
Proof.
  intros Hsp Hc. destruct c as [self pc|self pc|owner pt pc|a pc]; simpl in *; try done.
  - destruct (close_port_frame owner pt pc r w) as (_ & Ht & _). split; [done|].
    eapply emits_impl; [|apply (run_coro_emits me (ClosePort owner pt pc) waited r w)].
    by intros ev [[m ->]| ->].
  - assert (Hw : transports (wait_then_open a w).1 = transports w
                 ∧ emits not_open w (wait_then_open a w).1).
    { unfold wait_then_open, bind, gets.
      destruct (await_closing_tasks_frame (reverse (_SERIAL_PORT_CLOSING_TASKS w)) w)
        as (_ & Ht & _ & Hs).
      pose proof (await_closing_tasks_emits (reverse (_SERIAL_PORT_CLOSING_TASKS w)) w)
        as Hem.
      assert (Hem' : emits not_open w
                       (await_closing_tasks (reverse (_SERIAL_PORT_CLOSING_TASKS w)) w).1).
      { eapply emits_impl; [|exact Hem]. by intros ev [m ->]. }
      destruct (await_closing_tasks _ w) as [w' [[k|]|e]]; simpl in *; try done.
      unfold open_serial_port, bind, gets, raise. simpl. rewrite Hs, Hsp. done. }
    destruct pc, r; simpl; try done; try (split; [done|apply emits_refl]).
    unfold bind, gets. simpl. rewrite Hsp. simpl. split; [done|apply emits_refl].
Qed.

Lemma step_without_port a w :
  wf w → _SERIAL_PORT w = None → transports w = [] → keeps_port a →
  transports (step a w) = [] ∧ emits not_open w (step a w).
Proof.
  intros Hwf Hsp Htr Hk.
  assert (Hnone : ∀ t, transports w !! t = None) by (intros t; by rewrite Htr).
  assert (Hcall : ∀ A (m : M A) P, (∀ e, P (EvUncaught e)) →
            transports (m w).1 = [] ∧ emits P w (m w).1 →
            transports (call m w) = [] ∧ emits P w (call m w)).
  { intros A m P HP [H1 H2]. split; [|by apply call_emits].
    unfold call. by destruct (m w) as [w' [x|e]]. }
  destruct a as [pt|a|t data|t|t p|t| |k st]; unfold step.
  - by destruct (Hk pt).
  - apply Hcall; [done|]. split; [done|]. by apply emits_same.
  - apply Hcall; [done|]. unfold the_transport, bind. rewrite Hnone. simpl.
    split; [done|apply emits_refl].
  - apply Hcall; [done|]. unfold close, _cleanup, bind, update_transport, modify,
      the_transport. simpl. rewrite list_lookup_alter_eq, Hnone. simpl. rewrite Htr.
    split; [done|]. by apply emits_same.
  - apply Hcall; [done|]. unfold set_protocol, update_transport, modify. simpl.
    rewrite Htr. split; [done|]. by apply emits_same.
  - apply Hcall; [done|]. unfold __del__, _cleanup, bind, update_transport, modify,
      the_transport. simpl. rewrite list_lookup_alter_eq, Hnone. simpl. rewrite Htr.
    split; [done|]. by apply emits_same.
  - destruct (ready w) as [|cb rest] eqn:Hr; [split; [done|apply emits_refl]|].
    unfold run_handle.
    assert (H : transports (run_callback cb (with_ready rest w)).1 = []
                ∧ emits not_open w (run_callback cb (with_ready rest w)).1).
    { destruct cb as [k|p t|t p e|k]; simpl.
      - assert (Hwf0 : wf (with_ready rest w)) by (by apply (wf_same None w)).
        destruct (tasks w !! k) as [tk|] eqn:Hk0.
        2:{ rewrite task_step_missing by done. split; [done|]. by apply emits_same. }
        destruct (task_done tk) eqn:Hd.
        { unfold task_step. simpl. rewrite Hk0, Hd. split; [done|]. by apply emits_same. }
        destruct (resume_value (with_ready rest w) tk) as [r|] eqn:Hres.
        2:{ unfold task_step. simpl tasks. rewrite Hk0, Hd, Hres.
            split; [done|]. by apply emits_same. }
        destruct (run_coro k (task_coro tk) (fut_waiter tk) r
                    (with_tasks (alter (λ tk, set_fut_waiter None (set_must_cancel false tk))
                                   k (tasks (with_ready rest w))) (with_ready rest w)))
          as [w2 res] eqn:Erun.
        destruct (task_step_after k (with_ready rest w) tk r w2 res Hwf0 Hk0 Hd Hres Erun)
          as (Htrace & Htrans & _).
        assert (Hp : pump_of (task_coro tk) = None).
        { destruct (pump_of (task_coro tk)) as [t|] eqn:Hp; [|done].
          destruct (wf_owner _ _ Hwf k tk t Hk0 Hp) as (tr & Ht & _). by rewrite Hnone in Ht. }
        match type of Erun with run_coro _ _ _ _ ?w1 = _ =>
          destruct (run_coro_without_port k (task_coro tk) (fut_waiter tk) r w1 Hsp Hp)
            as [Ht2 Hem2] end.
        rewrite Erun in Ht2, Hem2. simpl in Ht2, Hem2.
        rewrite Htrans, Ht2. split; [done|].
        destruct Hem2 as (evs & Ev & Hevs). exists evs. split; [|done].
        by rewrite Htrace, Ev.
      - split; [done|]. by eapply emits_one.
      - split; [done|]. by eapply emits_one.
      - unfold remove_closing_task, bind, gets. simpl.
        case_bool_decide; (split; [done|]; by apply emits_same). }
    destruct H as [H1 H2].
    destruct (run_callback cb (with_ready rest w)) as [w' [[]|e]]; simpl in *; [done|].
    split; [done|]. eapply emits_trans; [exact H2|]. by eapply emits_one.
  - apply Hcall; [done|]. unfold settle.
    destruct (tasks w !! k) as [[c [[[] [o|]|j]|] mc [o'|] cbs]|]; simpl;
      try (split; [done|apply emits_refl]).
    split; [done|]. eapply emits_one; [done|]. by destruct c.
Qed.

(** X12.  Nothing connects without a selected port.  In a run in which
    [set_global_serial_port] is never called, whatever else is called and
    however often [create_serial_connection] is attempted, [port.open()] is
    never called and no transport is ever created. *)
Theorem no_connection_without_selected_port sched :
  Forall keeps_port sched →
  transports (run sched init) = []
  ∧ opens (trace (run sched init)) = 0
  ∧ _SERIAL_PORT (run sched init) = None.
Proof.
  intros Hk.
  assert (H : ∀ w, wf w → _SERIAL_PORT w = None → transports w = [] →
                   transports (run sched w) = []
                   ∧ opens (trace (run sched w)) = opens (trace w)
                   ∧ _SERIAL_PORT (run sched w) = None).
  { induction Hk as [|a sched Ha _ IH]; intros w Hwf Hsp Htr; [done|].
    destruct (step_without_port a w Hwf Hsp Htr Ha) as [Htr1 Hem1].
    destruct (IH (step a w)) as (H1 & H2 & H3);
      [by apply step_wf|by rewrite step_serial_port|done|].
    simpl. split; [done|]. split; [|done]. rewrite H2. by apply emits_opens. }
  apply (H init wf_init_world); done.
Qed.

Lemma no_connection_without_selected_port_witness :
  Forall keeps_port
    [Call_create_serial_connection Scenario.args; RunOnce; Call_write 0 Scenario.A;
     Call_close 0; RunOnce]
  ∧ transports (run [Call_create_serial_connection Scenario.args; RunOnce;
                     Call_write 0 Scenario.A; Call_close 0; RunOnce] init) = []
  ∧ opens (trace (run [Call_create_serial_connection Scenario.args; RunOnce;
                       Call_write 0 Scenario.A; Call_close 0; RunOnce] init)) = 0
  ∧ _SERIAL_PORT (run [Call_create_serial_connection Scenario.args; RunOnce;
                       Call_write 0 Scenario.A; Call_close 0; RunOnce] init) = None.
Proof.
  assert (Hk : Forall keeps_port
                 [Call_create_serial_connection Scenario.args; RunOnce;
                  Call_write 0 Scenario.A; Call_close 0; RunOnce]).
  { repeat constructor; by intros pt. }
  split; [exact Hk|].
  exact (no_connection_without_selected_port _ Hk).
Defined.


(** ** Progress *)

(** X14.  On an open transport whose writer task waits on the empty queue,
    with nothing else for the loop to do, [write(d)] followed by one turn of
    the loop hands [d] to the device: the call wakes the writer, and the
    writer takes the chunk, calls the device's [write] with it and waits for
    that write. *)
Theorem idle_transport_writes_at_next_turn sched t tr k cbs d :
  transports (run sched init) !! t = Some tr →
  _is_closing tr = false →
  _write_queue tr = Queue 0 [] [k] →
  tasks (run sched init) !! k
  = Some (Task (WriterLoop t WGet) (Some (AwFuture FutGetter None)) false None cbs) →
  ready (run sched init) = [] →
  trace (run [Call_write t d; RunOnce] (run sched init))
  = trace (run sched init) ++ [EvSubmit t d; EvWrite t d]
  ∧ tasks (run [Call_write t d; RunOnce] (run sched init)) !! k
    = Some (Task (WriterLoop t WWrite) (Some (AwFuture FutJs None)) false None cbs)
  ∧ ready (run [Call_write t d; RunOnce] (run sched init)) = []
  ∧ ∃ tr', transports (run [Call_write t d; RunOnce] (run sched init)) !! t = Some tr'
           ∧ _write_queue tr' = Queue 0 [] [].
Proof.
  intros Htr Hcl Hq Hk Hrd. set (w := run sched init) in *.
  pose proof (reachable_wf sched) as Hwf. fold w in Hwf.
  destruct (wf_open _ _ Hwf _ _ Htr Hcl) as (_ & [lw Hlw] & _).
  set (tr1 := set_write_queue (Queue 0 [d] []) tr).
  set (ts1 := alter (set_fut_waiter (Some (AwFuture FutGetter (Some (OResult VNone)))))
                k (tasks w)).
  assert (E1 : step (Call_write t d) w
               = World (_SERIAL_PORT w) (_SERIAL_PORT_CLOSING_TASKS w) ts1
                   (alter (λ _, tr1) t (transports w)) [CbStep k]
                   (trace w ++ [EvSubmit t d])).
  { unfold step, call, the_transport, bind at 1. rewrite Htr.
    unfold bind, emit, modify, write, put_nowait, the_transport, bind. simpl.
    rewrite Htr, Hq. unfold q_full. simpl.
    unfold update_transport, modify, queue_wakeup_getters, the_transport, bind. simpl.
    rewrite list_lookup_alter_eq, Htr. simpl. rewrite Hq. simpl. rewrite Hk. simpl.
    rewrite Hrd. unfold with_transports, with_ready, with_tasks, with_trace. simpl.
    f_equal. rewrite list_alter_alter_eq.
    apply list_alter_ext; [|done]. intros tr0 Htr0.
    assert (tr0 = tr) as -> by congruence. unfold tr1. simpl. by rewrite Hq. }
  change (run [Call_write t d; RunOnce] w) with (step RunOnce (step (Call_write t d) w)).
  rewrite E1.
  assert (Hk1 : ts1 !! k = Some (Task (WriterLoop t WGet)
                                   (Some (AwFuture FutGetter (Some (OResult VNone))))
                                   false None cbs)).
  { unfold ts1. by rewrite list_lookup_alter_eq, Hk. }
  assert (Ht1 : alter (λ _, tr1) t (transports w) !! t = Some tr1).
  { by rewrite list_lookup_alter_eq, Htr. }
  unfold step. simpl. unfold run_handle, run_callback, task_step. simpl.
  rewrite Hk1. simpl.
  unfold writer_iteration, queue_get, the_transport, bind. simpl. rewrite Ht1. simpl.
  unfold update_transport, modify, ret, try_except, js_write, the_transport, bind. simpl.
  rewrite list_lookup_alter_eq, Ht1. simpl. rewrite Hlw. simpl.
  unfold suspend_task, bind, update_task, modify, gets, ret. simpl.
  rewrite !list_lookup_alter_eq, Hk1. simpl.
  split_and!.
  - by rewrite <-app_assoc.
  - by rewrite !list_lookup_alter_eq, Hk1.
  - done.
  - eexists. rewrite list_lookup_alter_eq, Ht1. simpl. split; [done|]. done.
Qed.

Lemma idle_transport_writes_at_next_turn_witness :
  ∃ tr,
    transports (run Scenario.connect init) !! 0 = Some tr
    ∧ _is_closing tr = false
    ∧ _write_queue tr = Queue 0 [] [2]
    ∧ ready (run Scenario.connect init) = []
    ∧ trace (run [Call_write 0 Scenario.A; RunOnce] (run Scenario.connect init))
      = trace (run Scenario.connect init) ++ [EvSubmit 0 Scenario.A; EvWrite 0 Scenario.A]
    ∧ tasks (run [Call_write 0 Scenario.A; RunOnce] (run Scenario.connect init)) !! 2
      = Some (Task (WriterLoop 0 WWrite) (Some (AwFuture FutJs None)) false None [])
    ∧ ready (run [Call_write 0 Scenario.A; RunOnce] (run Scenario.connect init)) = []
    ∧ ∃ tr', transports (run [Call_write 0 Scenario.A; RunOnce]
                           (run Scenario.connect init)) !! 0 = Some tr'
             ∧ _write_queue tr' = Queue 0 [] [].
Proof.
  assert (Hl : transports (run Scenario.connect init) !! 0
               = Some (Transport (Some 7) (Some Scenario.usb) (Queue 0 [] [2]) false
                         (Some (JsLock None)) (Some (JsLock None)) 1 2))
    by (vm_compute; reflexivity).
  assert (Hk : tasks (run Scenario.connect init) !! 2
               = Some (Task (WriterLoop 0 WGet) (Some (AwFuture FutGetter None))
                         false None []))
    by (vm_compute; reflexivity).
  assert (Hr : ready (run Scenario.connect init) = []) by (vm_compute; reflexivity).
  eexists. split; [exact Hl|]. split; [reflexivity|]. split; [reflexivity|].
  split; [exact Hr|].
  exact (idle_transport_writes_at_next_turn Scenario.connect 0 _ 2 [] Scenario.A
           Hl eq_refl eq_refl Hk Hr).
Defined.

(** X15.  A connection attempt is resumed after [port.open()] has resolved.
    The step constructs the transport around the port that is selected at
    that moment: it takes the reader lock, then the writer lock, creates the
    reader task and the writer task, and schedules, in this order, the first
    step of the reader, the first step of the writer and [connection_made];
    the attempt returns the transport and the protocol made by the factory,
    and only then are its own callbacks scheduled. *)
Theorem resolved_open_builds_the_transport w k rest a pt v cbs :
  ready w = CbStep k :: rest →
  tasks w !! k
  = Some (Task (CreateConn a KOpen) (Some (AwFuture FutJs (Some (OResult v))))
            false None cbs) →
  _SERIAL_PORT w = Some pt →
  transports (step RunOnce w)
  = transports w
    ++ [Transport (Some (protocol_factory a)) (Some pt) (Queue 0 [] []) false
          (Some (getReader pt)) (Some (getWriter pt))
          (length (tasks w)) (S (length (tasks w)))]
  ∧ tasks (step RunOnce w) !! length (tasks w)
    = Some (Task (ReaderLoop (length (transports w)) RStart) None false None [])
  ∧ tasks (step RunOnce w) !! S (length (tasks w))
    = Some (Task (WriterLoop (length (transports w)) WStart) None false None [])
  ∧ tasks (step RunOnce w) !! k
    = Some (Task (CreateConn a KOpen) None false
              (Some (OResult (VConn (length (transports w)) (protocol_factory a)))) [])
  ∧ ready (step RunOnce w)
    = rest ++ [CbStep (length (tasks w)); CbStep (S (length (tasks w)));
               CbConnectionMade (protocol_factory a) (length (transports w))] ++ cbs
  ∧ trace (step RunOnce w)
    = trace w ++ [EvGetReader (length (transports w)); EvGetWriter (length (transports w))].
Proof.
  intros Hrd Hk Hsp.
  assert (Hlt : k < length (tasks w)) by (by eapply lookup_lt_Some).
  simpl. rewrite Hrd. unfold run_handle, run_callback, task_step. simpl.
  rewrite Hk. simpl. unfold bind, gets. simpl. rewrite Hsp. simpl.
  unfold bind, gets, emit, modify, create_task, call_soon, ret. simpl.
  rewrite !length_app, !length_alter. simpl.
  rewrite <-?app_assoc. simpl.
  rewrite (lookup_app_l _ _ k) by (by rewrite length_alter).
  rewrite list_lookup_alter_eq, Hk. simpl.
  unfold finish_task. simpl.
  rewrite (lookup_app_l _ _ k) by (by rewrite length_alter).
  rewrite list_lookup_alter_eq, Hk. simpl.
  rewrite alter_app_l by (by rewrite length_alter).
  replace (length (tasks w) + 1) with (S (length (tasks w))) by lia.
  split_and!.
  - done.
  - rewrite lookup_app_r by (by rewrite !length_alter).
    by rewrite !length_alter, Nat.sub_diag.
  - rewrite lookup_app_r by (rewrite !length_alter; lia).
    rewrite !length_alter. by replace (S (length (tasks w)) - length (tasks w)) with 1 by lia.
  - rewrite lookup_app_l by (by rewrite !length_alter).
    by rewrite !list_lookup_alter_eq, Hk.
  - by rewrite <-?app_assoc.
  - by rewrite <-?app_assoc.
Qed.

Lemma resolved_open_builds_the_transport_witness :
  ready (run (Scenario.open_settled (Resolve VNone)) init) = CbStep 0 :: []
  ∧ _SERIAL_PORT (run (Scenario.open_settled (Resolve VNone)) init) = Some Scenario.usb
  ∧ transports (step RunOnce (run (Scenario.open_settled (Resolve VNone)) init))
    = transports (run (Scenario.open_settled (Resolve VNone)) init)
      ++ [Transport (Some (protocol_factory Scenario.args)) (Some Scenario.usb)
            (Queue 0 [] []) false
            (Some (getReader Scenario.usb)) (Some (getWriter Scenario.usb))
            (length (tasks (run (Scenario.open_settled (Resolve VNone)) init)))
            (S (length (tasks (run (Scenario.open_settled (Resolve VNone)) init))))]
  ∧ tasks (step RunOnce (run (Scenario.open_settled (Resolve VNone)) init))
      !! length (tasks (run (Scenario.open_settled (Resolve VNone)) init))
    = Some (Task (ReaderLoop
                    (length (transports (run (Scenario.open_settled (Resolve VNone)) init)))
                    RStart) None false None [])
  ∧ tasks (step RunOnce (run (Scenario.open_settled (Resolve VNone)) init))
      !! S (length (tasks (run (Scenario.open_settled (Resolve VNone)) init)))
    = Some (Task (WriterLoop
                    (length (transports (run (Scenario.open_settled (Resolve VNone)) init)))
                    WStart) None false None [])
  ∧ tasks (step RunOnce (run (Scenario.open_settled (Resolve VNone)) init)) !! 0
    = Some (Task (CreateConn Scenario.args KOpen) None false
              (Some (OResult
                       (VConn (length (transports
                                         (run (Scenario.open_settled (Resolve VNone)) init)))
                          (protocol_factory Scenario.args)))) [])
  ∧ ready (step RunOnce (run (Scenario.open_settled (Resolve VNone)) init))
    = [] ++ [CbStep (length (tasks (run (Scenario.open_settled (Resolve VNone)) init)));
             CbStep (S (length (tasks (run (Scenario.open_settled (Resolve VNone)) init))));
             CbConnectionMade (protocol_factory Scenario.args)
               (length (transports (run (Scenario.open_settled (Resolve VNone)) init)))]
         ++ []
  ∧ trace (step RunOnce (run (Scenario.open_settled (Resolve VNone)) init))
    = trace (run (Scenario.open_settled (Resolve VNone)) init)
      ++ [EvGetReader (length (transports
                                 (run (Scenario.open_settled (Resolve VNone)) init)));
          EvGetWriter (length (transports
                                 (run (Scenario.open_settled (Resolve VNone)) init)))].
Proof.
  assert (Hr : ready (run (Scenario.open_settled (Resolve VNone)) init) = CbStep 0 :: [])
    by (vm_compute; reflexivity).
  assert (Hk : tasks (run (Scenario.open_settled (Resolve VNone)) init) !! 0
               = Some (Task (CreateConn Scenario.args KOpen)
                         (Some (AwFuture FutJs (Some (OResult VNone)))) false None []))
    by (vm_compute; reflexivity).
  assert (Hs : _SERIAL_PORT (run (Scenario.open_settled (Resolve VNone)) init)
               = Some Scenario.usb)
    by (vm_compute; reflexivity).
  split; [exact Hr|]. split; [exact Hs|].
  exact (resolved_open_builds_the_transport
           (run (Scenario.open_settled (Resolve VNone)) init) 0 [] Scenario.args
           Scenario.usb VNone [] Hr Hk Hs).
Defined.

(** X16.  A connection attempt is resumed after the device has rejected
    [port.open()].  The rejection is the outcome of the attempt; no
    transport is constructed, no lock is taken, no task is created and
    nothing is recorded. *)
Theorem rejected_open_fails_the_attempt w k rest a code cbs :
  ready w = CbStep k :: rest →
  tasks w !! k
  = Some (Task (CreateConn a KOpen)
            (Some (AwFuture FutJs (Some (OException (JsException code))))) false None cbs) →
  transports (step RunOnce w) = transports w
  ∧ length (tasks (step RunOnce w)) = length (tasks w)
  ∧ tasks (step RunOnce w) !! k
    = Some (Task (CreateConn a KOpen) None false
              (Some (OException (JsException code))) [])
  ∧ ready (step RunOnce w) = rest ++ cbs
  ∧ trace (step RunOnce w) = trace w
  ∧ _SERIAL_PORT_CLOSING_TASKS (step RunOnce w) = _SERIAL_PORT_CLOSING_TASKS w.
Proof.
  intros Hrd Hk.
  simpl. rewrite Hrd. unfold run_handle, run_callback, task_step. simpl.
  rewrite Hk. simpl. unfold finish_task. simpl.
  rewrite list_lookup_alter_eq, Hk. simpl.
  split_and!; try done.
  - by rewrite !length_alter.
  - by rewrite !list_lookup_alter_eq, Hk.
Qed.

Lemma rejected_open_fails_the_attempt_witness :
  ready (run (Scenario.open_settled (Reject 3)) init) = CbStep 0 :: []
  ∧ transports (step RunOnce (run (Scenario.open_settled (Reject 3)) init))
    = transports (run (Scenario.open_settled (Reject 3)) init)
  ∧ length (tasks (step RunOnce (run (Scenario.open_settled (Reject 3)) init)))
    = length (tasks (run (Scenario.open_settled (Reject 3)) init))
  ∧ tasks (step RunOnce (run (Scenario.open_settled (Reject 3)) init)) !! 0
    = Some (Task (CreateConn Scenario.args KOpen) None false
              (Some (OException (JsException 3))) [])
  ∧ ready (step RunOnce (run (Scenario.open_settled (Reject 3)) init)) = [] ++ []
  ∧ trace (step RunOnce (run (Scenario.open_settled (Reject 3)) init))
    = trace (run (Scenario.open_settled (Reject 3)) init)
  ∧ _SERIAL_PORT_CLOSING_TASKS (step RunOnce (run (Scenario.open_settled (Reject 3)) init))
    = _SERIAL_PORT_CLOSING_TASKS (run (Scenario.open_settled (Reject 3)) init).
Proof.
  assert (Hr : ready (run (Scenario.open_settled (Reject 3)) init) = CbStep 0 :: [])
    by (vm_compute; reflexivity).
  assert (Hk : tasks (run (Scenario.open_settled (Reject 3)) init) !! 0
               = Some (Task (CreateConn Scenario.args KOpen)
                         (Some (AwFuture FutJs (Some (OException (JsException 3)))))
                         false None []))
    by (vm_compute; reflexivity).
  split; [exact Hr|].
  exact (rejected_open_fails_the_attempt
           (run (Scenario.open_settled (Reject 3)) init) 0 [] Scenario.args 3 [] Hr Hk).
Defined.

(** X18.  A writer whose device write was cancelled by a shutdown does not
    shut down again: [CancelledError] is not an [Exception], so the [except]
    clause of the writer's loop does not run.  The writer task ends
    cancelled; nothing is recorded, no transport changes, no task is
    created. *)
Theorem cancelled_write_does_not_shut_down_again w k rest t mc cbs :
  ready w = CbStep k :: rest →
  tasks w !! k
  = Some (Task (WriterLoop t WWrite) (Some (AwFuture FutJs (Some OCancelled))) mc None cbs) →
  trace (step RunOnce w) = trace w
  ∧ transports (step RunOnce w) = transports w
  ∧ _SERIAL_PORT_CLOSING_TASKS (step RunOnce w) = _SERIAL_PORT_CLOSING_TASKS w
  ∧ length (tasks (step RunOnce w)) = length (tasks w)
  ∧ tasks (step RunOnce w) !! k
    = Some (Task (WriterLoop t WWrite) None false (Some OCancelled) [])
  ∧ ready (step RunOnce w) = rest ++ cbs.
Proof.
  intros Hrd Hk.
  simpl. rewrite Hrd. unfold run_handle, run_callback, task_step. simpl.
  rewrite Hk. simpl.
  assert (Hres : resume_value (with_ready rest w)
                   (Task (WriterLoop t WWrite) (Some (AwFuture FutJs (Some OCancelled)))
                      mc None cbs) = Some (Throw CancelledError)).
  { unfold resume_value. simpl. by destruct mc. }
  rewrite Hres. simpl. unfold try_except, raise. simpl.
  unfold finish_task. simpl. rewrite list_lookup_alter_eq, Hk. simpl.
  split_and!; try done.
  - by rewrite !length_alter.
  - by rewrite !list_lookup_alter_eq, Hk.
Qed.

Lemma cancelled_write_does_not_shut_down_again_witness :
  ready (run Scenario.close_during_write init) = CbStep 2 :: [CbStep 3]
  ∧ trace (step RunOnce (run Scenario.close_during_write init))
    = trace (run Scenario.close_during_write init)
  ∧ transports (step RunOnce (run Scenario.close_during_write init))
    = transports (run Scenario.close_during_write init)
  ∧ _SERIAL_PORT_CLOSING_TASKS (step RunOnce (run Scenario.close_during_write init))
    = _SERIAL_PORT_CLOSING_TASKS (run Scenario.close_during_write init)
  ∧ length (tasks (step RunOnce (run Scenario.close_during_write init)))
    = length (tasks (run Scenario.close_during_write init))
  ∧ tasks (step RunOnce (run Scenario.close_during_write init)) !! 2
    = Some (Task (WriterLoop 0 WWrite) None false (Some OCancelled) [])
  ∧ ready (step RunOnce (run Scenario.close_during_write init)) = [CbStep 3] ++ [].
Proof.
  assert (Hr : ready (run Scenario.close_during_write init) = CbStep 2 :: [CbStep 3])
    by (vm_compute; reflexivity).
  assert (Hk : tasks (run Scenario.close_during_write init) !! 2
               = Some (Task (WriterLoop 0 WWrite)
                         (Some (AwFuture FutJs (Some OCancelled))) false None []))
    by (vm_compute; reflexivity).
  split; [exact Hr|].
  exact (cancelled_write_does_not_shut_down_again
           (run Scenario.close_during_write init) 2 [CbStep 3] 0 false [] Hr Hk).
Defined.

(** X19.  A connection attempt that waited for a close is resumed when the
    close task has finished and the registry is empty.  If the close
    succeeded, the attempt calls [port.open()] on the selected port with its
    [baudRate] and [flowControl] and waits for it.  If the device rejected
    the close, the rejection is raised by the [await] and becomes the
    outcome of the attempt: the port is not opened. *)
Theorem attempt_continues_as_the_awaited_close_ended w k rest a kc tkc pt s cbs :
  ready w = CbStep k :: rest →
  tasks w !! k = Some (Task (CreateConn a KWait) (Some (AwTask kc)) false None cbs) →
  tasks w !! kc = Some tkc →
  task_state tkc = Some (close_task_outcome s) →
  _SERIAL_PORT_CLOSING_TASKS w = [] →
  _SERIAL_PORT w = Some pt →
  attempt_after_close a pt s cbs k w (step RunOnce w).
Proof.
  intros Hrd Hk Hkc Hst Hreg Hsp.
  unfold attempt_after_close. simpl. rewrite Hrd.
  unfold run_handle, run_callback, task_step. simpl. rewrite Hk. simpl.
  unfold resume_value. simpl. rewrite Hkc. simpl. rewrite Hst.
  destruct s as [v|code]; simpl.
  - unfold wait_then_open, bind, gets. simpl. rewrite Hreg. simpl.
    unfold open_serial_port, bind, gets, emit, modify, ret. simpl. rewrite Hsp. simpl.
    unfold suspend_task, bind, update_task, modify, gets, ret. simpl.
    rewrite !list_lookup_alter_eq, Hk. simpl.
    split_and!; try done. by rewrite !list_lookup_alter_eq, Hk.
  - unfold finish_task. simpl. rewrite list_lookup_alter_eq, Hk. simpl.
    split_and!; try done. by rewrite !list_lookup_alter_eq, Hk.
Qed.

Lemma attempt_continues_as_the_awaited_close_ended_witness :
  ∃ tkc,
    ready (run (Scenario.reopen_close_settled (Reject 6)) init) = CbStep 4 :: []
    ∧ tasks (run (Scenario.reopen_close_settled (Reject 6)) init) !! 3 = Some tkc
    ∧ task_state tkc = Some (close_task_outcome (Reject 6))
    ∧ _SERIAL_PORT_CLOSING_TASKS (run (Scenario.reopen_close_settled (Reject 6)) init) = []
    ∧ _SERIAL_PORT (run (Scenario.reopen_close_settled (Reject 6)) init)
      = Some Scenario.usb
    ∧ attempt_after_close Scenario.args Scenario.usb (Reject 6) [] 4
        (run (Scenario.reopen_close_settled (Reject 6)) init)
        (step RunOnce (run (Scenario.reopen_close_settled (Reject 6)) init)).
Proof.
  assert (Hr : ready (run (Scenario.reopen_close_settled (Reject 6)) init) = CbStep 4 :: [])
    by (vm_compute; reflexivity).
  assert (Hk : tasks (run (Scenario.reopen_close_settled (Reject 6)) init) !! 4
               = Some (Task (CreateConn Scenario.args KWait) (Some (AwTask 3))
                         false None []))
    by (vm_compute; reflexivity).
  assert (Hkc : tasks (run (Scenario.reopen_close_settled (Reject 6)) init) !! 3
                = Some (Task (ClosePort 0 Scenario.usb CAwait) None false
                          (Some (OException (JsException 6))) []))
    by (vm_compute; reflexivity).
  assert (Hreg : _SERIAL_PORT_CLOSING_TASKS
                   (run (Scenario.reopen_close_settled (Reject 6)) init) = [])
    by (vm_compute; reflexivity).
  assert (Hsp : _SERIAL_PORT (run (Scenario.reopen_close_settled (Reject 6)) init)
                = Some Scenario.usb)
    by (vm_compute; reflexivity).
  eexists. split; [exact Hr|]. split; [exact Hkc|]. split; [reflexivity|].
  split; [exact Hreg|]. split; [exact Hsp|].
  exact (attempt_continues_as_the_awaited_close_ended
           (run (Scenario.reopen_close_settled (Reject 6)) init) 4 [] Scenario.args 3 _
           Scenario.usb (Reject 6) [] Hr Hk Hkc eq_refl Hreg Hsp).
Defined.


(** ** The inbound direction *)

Lemma arrived_app t l1 l2 : arrived t (l1 ++ l2) = arrived t l1 ++ arrived t l2.
Proof. apply omap_app. Qed.

Lemma not_inbound_silent t evs :
  Forall (not_inbound t) evs → arrived t evs = [] ∧ delivered t evs = [].
Proof.
  induction 1 as [|ev evs Hev _ [IH1 IH2]]; [done|].
  change (ev :: evs) with ([ev] ++ evs).
  rewrite arrived_app, delivered_app, IH1, IH2, !app_nil_r.
  unfold arrived, delivered. destruct ev; simpl in *; try done.
  - split; [|done]. destruct o as [[| [] |]| |]; try done. by rewrite decide_False.
  - split; [done|]. by rewrite decide_False.
Qed.

Lemma emits_inbound t w w' :
  emits (not_inbound t) w w' →
  arrived t (trace w') = arrived t (trace w) ∧ delivered t (trace w') = delivered t (trace w).
Proof.
  intros (evs & -> & Hevs). destruct (not_inbound_silent t evs Hevs) as [Ha Hd].
  by rewrite arrived_app, delivered_app, Ha, Hd, !app_nil_r.
Qed.

Lemma cleanup_ev_not_inbound self t ev : cleanup_ev self ev → not_inbound t ev.
Proof. by intros []. Qed.

Lemma nudge_backlog tk tk' rest :
  nudge tk tk' → inbound_backlog tk rest → inbound_backlog tk' rest.
Proof.
  intros [tk0 _|tk0 Hf Hs|tk0 k0 _]; unfold inbound_backlog; simpl; try done.
  - unfold cancel_request. destruct (task_done tk0) eqn:Hd; [done|].
    rewrite (not_done_pending _ Hd).
    destruct (fut_waiter tk0) as [[kind [o|]|j]|] eqn:Hf; simpl;
      rewrite ?(not_done_pending _ Hd), ?Hf; try done.
  - by rewrite Hs, Hf.
Qed.

Lemma nudged_backlog tk tk' rest :
  rtc nudge tk tk' → inbound_backlog tk rest → inbound_backlog tk' rest.
Proof. induction 1; eauto using nudge_backlog. Qed.

Lemma fresh_backlog tk : fresh tk → inbound_backlog tk [].
Proof. intros (Hf & Hs & _). unfold inbound_backlog. by rewrite Hs, Hf. Qed.

Lemma done_backlog tk rest :
  is_Some (task_state tk) → length rest ≤ 1 → inbound_backlog tk rest.
Proof. intros [o Ho]. unfold inbound_backlog. by rewrite Ho. Qed.

Lemma backlog_short tk rest : inbound_backlog tk rest → length rest ≤ 1.
Proof.
  unfold inbound_backlog. destruct (task_state tk); [done|].
  repeat case_match; intros ->; simpl; lia.
Qed.

Lemma resume_send w tk v :
  task_state tk = None → (∀ j, fut_waiter tk ≠ Some (AwTask j)) →
  resume_value w tk = Some (Send v) →
  must_cancel tk = false
  ∧ (fut_waiter tk = None ∧ v = VNone
     ∨ ∃ kind, fut_waiter tk = Some (AwFuture kind (Some (OResult v)))).
Proof.
  intros Hst Hleaf. unfold resume_value. destruct (must_cancel tk); [done|].
  destruct (fut_waiter tk) as [[kind [o|]|j]|]; simpl; try done.
  - destruct o; simpl; intros [= <-]; eauto.
  - by destruct (Hleaf j).
  - intros [= <-]. eauto.
Qed.

Lemma js_read_inbound t w w2 res :
  js_read t w = (w2, res) →
  arrived t (trace w2) = arrived t (trace w)
  ∧ delivered t (trace w2) = delivered t (trace w)
  ∧ match res with
    | Ok (YAwait c f) => f = AwFuture FutJs None
    | Ok (YReturn _) => False
    | Raise _ => True
    end.
Proof.
  unfold js_read, the_transport, bind. destruct (transports w !! t) as [tr|].
  - destruct (_js_reader tr); simpl; intros [= <- <-]; simpl; [|done].
    by rewrite arrived_app, delivered_app, !app_nil_r.
  - by intros [= <- <-].
Qed.

(** A step of the reader of [t] delivers the chunk it is resumed with, and
    nothing else. *)
Lemma reader_step_inbound k w tk t pc rest :
  wf w → tasks w !! k = Some tk → task_coro tk = ReaderLoop t pc →
  arrived t (trace w) = delivered t (trace w) ++ rest → inbound_backlog tk rest →
  ∃ rest',
    arrived t (trace (task_step k w).1) = delivered t (trace (task_step k w).1) ++ rest'
    ∧ ∀ tk', tasks (task_step k w).1 !! k = Some tk' → inbound_backlog tk' rest'.
Proof.
  intros Hwf Hk Hc Harr Hback.
  destruct (task_done tk) eqn:Hd.
  { unfold task_step. rewrite Hk, Hd. exists rest. split; [done|].
    simpl. intros tk' Hk'. by assert (tk' = tk) as -> by congruence. }
  destruct (resume_value w tk) as [r|] eqn:Hr.
  2:{ unfold task_step. rewrite Hk, Hd, Hr. exists rest. split; [done|].
      simpl. intros tk' Hk'. by assert (tk' = tk) as -> by congruence. }
  destruct (run_coro k (task_coro tk) (fut_waiter tk) r
              (with_tasks (alter (λ tk, set_fut_waiter None (set_must_cancel false tk))
                             k (tasks w)) w)) as [w2 res] eqn:Erun.
  destruct (task_step_after k w tk r w2 res Hwf Hk Hd Hr Erun)
    as (Htr & _ & _ & _ & tk' & Hk' & Hres).
  assert (Hst : task_state tk = None) by (by apply not_done_pending).
  pose proof (wf_shape _ _ Hwf _ _ Hk) as Hshape.
  assert (Hleaf : ∀ j, fut_waiter tk ≠ Some (AwTask j)).
  { intros j Hj. unfold shape_ok in Hshape. rewrite Hj, Hc in Hshape. by destruct pc. }
  pose proof (backlog_short _ _ Hback) as Hshort.
  assert (Hkey : ∃ rest',
             arrived t (trace w2) = delivered t (trace w2) ++ rest'
             ∧ length rest' ≤ 1
             ∧ match res with
               | Ok (YAwait c f) => rest' = [] ∧ f = AwFuture FutJs None
               | _ => True
               end).
  { rewrite Hc in Erun. simpl in Erun.
    destruct r as [v|e].
    2:{ exists rest. destruct pc; simpl in Erun; injection Erun as <- <-; done. }
    destruct (resume_send w tk v Hst Hleaf Hr) as [Hmc Hfut].
    assert (Hrest : rest = match v with VRead false d => [d] | _ => [] end).
    { unfold inbound_backlog in Hback. rewrite Hst in Hback.
      destruct Hfut as [[Hf ->]|[kind Hf]]; rewrite Hf in Hback; [done|].
      unfold shape_ok in Hshape. rewrite Hf, Hc in Hshape.
      destruct pc, kind; try done. by destruct v as [|[] ?|]. }
    destruct pc; simpl in Erun.
    - destruct (js_read_inbound _ _ _ _ Erun) as (Ha & Hdl & Hy). simpl in Ha, Hdl.
      assert (rest = []) as ->.
      { destruct Hfut as [[Hf ->]|[kind Hf]]; [done|].
        unfold shape_ok in Hshape. by rewrite Hf, Hc in Hshape. }
      exists []. rewrite Ha, Hdl. split; [done|]. split; [simpl; lia|].
      by destruct res as [[c f|?]|?].
    - destruct v as [|dn val|]; simpl in Erun.
      + injection Erun as <- <-. by exists rest.
      + destruct dn.
        * unfold bind in Erun.
          pose proof (cleanup_emits t (Some (RuntimeError "Other side has closed"))
                        (with_tasks (alter (λ tk, set_fut_waiter None (set_must_cancel false tk))
                                       k (tasks w)) w)) as Hem.
          destruct (_cleanup t _ _) as [w' [[]|x]]; simpl in *;
            injection Erun as <- <-;
            (destruct (emits_inbound t _ _
                         (emits_impl _ _ _ _ (cleanup_ev_not_inbound t t) Hem)) as [Ha Hdl]);
            simpl in Ha, Hdl; exists rest; by rewrite Ha, Hdl.
        * subst rest. unfold data_received, the_transport, bind in Erun. simpl in Erun.
          destruct (transports w !! t) as [tr|]; simpl in Erun.
          2:{ injection Erun as <- <-. by exists [val]. }
          destruct (_protocol tr) as [p|]; simpl in Erun.
          2:{ injection Erun as <- <-. by exists [val]. }
          destruct (js_read_inbound _ _ _ _ Erun) as (Ha & Hdl & Hy). simpl in Ha, Hdl.
          exists []. rewrite Ha, Hdl, arrived_app, delivered_app, Harr, !app_nil_r.
          split_and!.
          -- f_equal. unfold delivered. simpl. by rewrite decide_True.
          -- simpl. lia.
          -- by destruct res as [[c f|?]|?].
      + injection Erun as <- <-. by exists rest. }
  destruct Hkey as (rest' & Harr' & Hlen' & Hy). exists rest'. rewrite Htr. split; [done|].
  intros tk'' Hk''. assert (tk'' = tk') as -> by congruence.
  destruct res as [[c f|v]|e]; try (apply done_backlog; tauto).
  destruct Hy as [-> ->]. destruct Hres as (Hst' & _ & Hf').
  unfold inbound_backlog. rewrite Hst'.
  destruct Hf' as [->|(kind & [= <-] & ->)]; done.
Qed.

Lemma reader_is_reader w k tk t pc tr :
  wf w → tasks w !! k = Some tk → task_coro tk = ReaderLoop t pc →
  transports w !! t = Some tr → k = _reader_task tr.
Proof.
  intros Hwf Hk Hc Ht.
  destruct (wf_owner _ _ Hwf k tk t Hk) as (tr0 & Ht0 & Hor); [by rewrite Hc|].
  assert (tr0 = tr) as -> by congruence.
  destruct Hor as [->| ->]; [done|].
  destruct (wf_pumps _ _ Hwf _ _ Ht) as [_ (wk & pc' & Hwk & Hwc)]. congruence.
Qed.

(** An action that does not step or settle the reader of [t] records
    neither an arrival nor a delivery for [t]. *)
Lemma step_not_inbound a w t :
  (∀ k tk pc, stepping a w = Some k → tasks w !! k = Some tk →
     task_coro tk ≠ ReaderLoop t pc) →
  emits (not_inbound t) w (step a w).
Proof.
  intros Hnot. eapply emits_impl; [|apply step_emits].
  intros ev [[e ->]|[[e ->]|Hev]]; [done|done|].
  destruct a as [pt|a|t' data|t'|t' p|t'| |k st]; simpl in Hev; try done.
  - by subst.
  - by eapply cleanup_ev_not_inbound.
  - by eapply cleanup_ev_not_inbound.
  - simpl in Hnot. destruct (ready w) as [|[k|p t'|t' p e|k] rest]; try done.
    + destruct Hev as (tk & Hk & Hev).
      destruct (task_coro tk) as [t0 pc|t0 pc|t0 pt pc|a pc] eqn:Hc; simpl in Hev.
      * destruct Hev as [[d ->]|Hev]; [done|]. by eapply cleanup_ev_not_inbound.
      * assert (t0 ≠ t).
        { intros ->. by eapply (Hnot k tk pc). }
        destruct Hev as [->|[(p & d & ->)|Hev]]; [done|done|].
        by eapply cleanup_ev_not_inbound.
      * by destruct Hev as [[m ->]| ->].
      * by destruct Hev as [[m ->]|[[pt' ->]|[t' [-> | ->]]]].
    + by subst.
    + by subst.
  - destruct Hev as (c & mc & cbs & Hk & ->). simpl in Hnot.
    destruct c as [t0 pc|t0 pc|t0 pt pc|a pc]; simpl; try done.
    intros ->. by eapply (Hnot k _ pc).
Qed.

Lemma step_idle a w k :
  stepping a w = Some k → tasks w !! k = None →
  tasks (step a w) = tasks w ∧ transports (step a w) = transports w
  ∧ trace (step a w) = trace w.
Proof.
  intros Hs Hk. destruct a; simpl in *; try done.
  - destruct (ready w) as [|[k'| | |] rest]; try done. simplify_eq.
    unfold run_handle. simpl. by rewrite task_step_missing.
  - simplify_eq. unfold call, settle. by rewrite Hk.
Qed.

(** Every action keeps the consumer in step with the device. *)
Lemma step_inbound a w t : wf w → inbound_ok t w → inbound_ok t (step a w).
Proof.
  intros Hwf (rest & Harr & Hview).
  pose proof (step_wf a w Hwf) as Hwf'.
  destruct (transports w !! t) as [tr|] eqn:Ht.
  - destruct (step_tr_mono a w t tr Ht) as (tr' & Ht' & Hrk' & _ & _).
    destruct (wf_pumps _ _ Hwf _ _ Ht) as [(tk & pc & Hk & Hc) _].
    specialize (Hview tk Hk).
    destruct (decide (stepping a w = Some (_reader_task tr))) as [Hs|Hs].
    + destruct a as [pt|a|t0 data|t0|t0 p|t0| |k st]; simpl in Hs; try done.
      * destruct (ready w) as [|[k| | |] rest0] eqn:Hr; try done. simplify_eq.
        assert (Hwf0 : wf (with_ready rest0 w)) by (by apply (wf_same None w)).
        destruct (reader_step_inbound (_reader_task tr) (with_ready rest0 w) tk t pc rest
                    Hwf0 Hk Hc Harr Hview) as (rest' & Harr' & Hview').
        assert (Hstep : trace (step RunOnce w)
                        = trace (task_step (_reader_task tr) (with_ready rest0 w)).1
                          ++ match (task_step (_reader_task tr) (with_ready rest0 w)).2 with
                             | Ok _ => []
                             | Raise e => [EvLoopException e]
                             end
                        ∧ tasks (step RunOnce w)
                          = tasks (task_step (_reader_task tr) (with_ready rest0 w)).1).
        { simpl. rewrite Hr. unfold run_handle. simpl.
          destruct (task_step (_reader_task tr) (with_ready rest0 w)) as [w' [[]|e]];
            simpl; by rewrite ?app_nil_r. }
        destruct Hstep as [Htrace Htasks].
        exists rest'. unfold inbound_ok. rewrite Ht', Htrace, Htasks, Hrk'.
        rewrite arrived_app, delivered_app.
        split; [|exact Hview'].
        destruct (task_step (_reader_task tr) (with_ready rest0 w)).2; simpl;
          by rewrite !app_nil_r.
      * simplify_eq. unfold inbound_ok. rewrite Ht'. simpl in *.
        unfold call, settle in *. rewrite Hk in *.
        destruct tk as [c [[[] [o|]|j]|] mc [o'|] cbs]; simpl in *;
          try (exists rest; split; [done|];
               intros tk'; rewrite Hrk', Hk; by intros [= <-]).
        subst c. unfold inbound_backlog in Hview. simpl in Hview. subst rest.
        unfold bind, emit, update_task, call_soon, modify. simpl.
        exists (match outcome_of_settlement st with
                | OResult (VRead false d) => [d]
                | _ => []
                end).
        rewrite arrived_app, delivered_app, Harr, !app_nil_r. split.
        -- f_equal. unfold arrived. simpl.
           destruct (outcome_of_settlement st) as [[|[] d|]| |]; try done.
           by rewrite decide_True.
        -- intros tk'. rewrite Hrk', list_lookup_alter_eq, Hk. simpl. intros [= <-].
           unfold inbound_backlog. simpl.
           by destruct (outcome_of_settlement st) as [[|[] d|]| |].
    + destruct (emits_inbound t w (step a w)) as [Ha Hdl].
      { apply step_not_inbound. intros k tk0 pc0 Hsk Hk0 Hc0. apply Hs.
        rewrite Hsk. f_equal. exact (reader_is_reader w k tk0 t pc0 tr Hwf Hk0 Hc0 Ht). }
      exists rest. unfold inbound_ok. rewrite Ha, Hdl, Ht'. split; [done|].
      intros tk'. rewrite Hrk'. intros Hk'.
      destruct (proj1 (frame_step a w Hwf) _ _ Hs Hk) as (tk2 & Hk2 & Hn).
      assert (tk2 = tk') as -> by congruence.
      by eapply nudged_backlog.
  - subst rest.
    assert (Hnone : ∀ k tk pc, tasks w !! k = Some tk → task_coro tk ≠ ReaderLoop t pc).
    { intros k tk pc Hk Hc.
      destruct (wf_owner _ _ Hwf k tk t Hk) as (tr0 & Ht0 & _); [by rewrite Hc|].
      congruence. }
    destruct (emits_inbound t w (step a w)) as [Ha Hdl].
    { apply step_not_inbound. intros k tk pc _. apply Hnone. }
    exists []. unfold inbound_ok. rewrite Ha, Hdl. split; [done|].
    destruct (transports (step a w) !! t) as [tr'|] eqn:Ht'; [|done].
    intros tk' Hk'.
    destruct (wf_pumps _ _ Hwf' _ _ Ht') as [(tk0 & pc & Hk0 & Hc0) _].
    assert (tk0 = tk') as -> by congruence.
    destruct (decide (stepping a w = Some (_reader_task tr'))) as [Hs|Hs].
    + destruct (tasks w !! _reader_task tr') as [tk|] eqn:Hk.
      * exfalso. destruct (step_same_kind a w _ tk Hwf Hk) as (tk2 & Hk2 & Hsk).
        assert (tk2 = tk') as -> by congruence.
        rewrite Hc0 in Hsk. destruct (task_coro tk) as [| t0 pc0 | |] eqn:Hctk; try done.
        simpl in Hsk. subst t0. by eapply (Hnone _ tk pc0 Hk).
      * destruct (step_idle a w _ Hs Hk) as (Htk & _ & _). rewrite Htk in Hk'. congruence.
    + destruct (tasks w !! _reader_task tr') as [tk|] eqn:Hk.
      * exfalso. destruct (proj1 (frame_step a w Hwf) _ _ Hs Hk) as (tk2 & Hk2 & Hn).
        assert (tk2 = tk') as -> by congruence.
        eapply (Hnone _ tk pc Hk). by rewrite <-(nudged_coro _ _ Hn).
      * apply fresh_backlog. eapply (proj2 (frame_step a w Hwf)); [exact Hs| |exact Hk'].
        by apply lookup_ge_None.
Qed.

Lemma run_inbound sched w t : wf w → inbound_ok t w → inbound_ok t (run sched w).
Proof.
  revert w. induction sched as [|a sched IH]; intros w Hwf Hinv; [done|].
  simpl. apply IH; [by apply step_wf|by apply step_inbound].
Qed.

Lemma inbound_init t : inbound_ok t init.
Proof. by exists []. Qed.

(** X1.  Inbound data reaches the consumer in the order in which the device
    returned it, nothing is skipped and nothing is delivered twice: at every
    moment of every run, the chunks handed to [data_received] are the chunks
    that the reads of the transport returned, in the same order, except at
    most the last one, which the reader task has not been resumed with yet. *)
Theorem delivered_in_arrival_order sched t :
  ∃ rest,
    arrived t (trace (run sched init)) = delivered t (trace (run sched init)) ++ rest
    ∧ length rest ≤ 1.
Proof.
  destruct (run_inbound sched init t wf_init_world (inbound_init t)) as (rest & Harr & Hview).
  exists rest. split; [done|].
  destruct (transports (run sched init) !! t) as [tr|] eqn:Ht; [|subst; simpl; lia].
  destruct (wf_pumps _ _ (reachable_wf sched) _ _ Ht) as [(tk & pc & Hk & _) _].
  eapply backlog_short, Hview, Hk.
Qed.

(** The step in which the reader of [t] receives the end of the stream,
    spelled out. *)
Lemma end_of_stream_step w k rest t tr wk cbs val :
  wf w →
  ready w = CbStep k :: rest →
  tasks w !! k
  = Some (Task (ReaderLoop t RRead)
            (Some (AwFuture FutJs (Some (OResult (VRead true val))))) false None cbs) →
  transports w !! t = Some tr →
  tasks w !! _writer_task tr = Some wk →
  releases_return tr →
  _reader_task tr = k ∧ _writer_task tr ≠ k ∧ _is_closing tr = false
  ∧ ∃ ts' rd',
      step RunOnce w
      = World (_SERIAL_PORT w)
          (_SERIAL_PORT_CLOSING_TASKS w ++ (if _port tr is Some _ then [length (tasks w)] else []))
          (alter (λ tk, set_done_callbacks [] (set_task_state (Some OCancelled) tk)) k ts'
             ++ closing_task_of t (Some (RuntimeError "Other side has closed")) tr
                  (length (tasks w)))
          (<[t := scrubbed (set_is_closing true tr)]> (transports w))
          rd'
          (trace w ++ cleanup_events t (Some (RuntimeError "Other side has closed")) tr)
      ∧ length ts' = length (tasks w).
Proof.
  intros Hwf Hrd Hk Htr Hwk Hrel.
  set (tk := Task _ _ _ _ _) in Hk.
  assert (Hkr : k = _reader_task tr) by (by eapply (reader_is_reader w k tk t RRead tr)).
  destruct (wf_pump_tasks _ _ _ _ Hwf Htr) as (rk0 & wk0 & Hrk0 & Hlr & Hwk0 & Hlw & Hne).
  assert (wk0 = wk) as -> by congruence.
  assert (Hcl : _is_closing tr = false).
  { destruct (_is_closing tr) eqn:E; [|done]. exfalso.
    pose proof (wf_doom _ _ Hwf k tk t tr Hk eq_refl Htr E) as Hd.
    destruct Hd as [[? Hd]|[Hd|[kind Hd]]]; [done|done|done|]; simpl in Hd; done. }
  split_and!; [done|congruence|done|].
  simpl. rewrite Hrd. unfold run_handle. simpl.
  unfold task_step. simpl. rewrite Hk. simpl.
  set (w1 := with_tasks _ (with_ready rest w)).
  assert (Hk1 : tasks w1 !! k = Some (Task (ReaderLoop t RRead) None false None cbs)).
  { unfold w1. simpl. by rewrite list_lookup_alter_eq, Hk. }
  assert (Hw1 : tasks w1 !! _writer_task tr = Some wk).
  { unfold w1. simpl. rewrite list_lookup_alter_ne by congruence. done. }
  unfold bind.
  rewrite (cleanup_ok t (Some (RuntimeError "Other side has closed")) w1 tr
             (Task (ReaderLoop t RRead) None false None cbs) wk);
    [|done|done|by rewrite <-Hkr|by intros j|done|done|done].
  unfold ret. rewrite <-Hkr. simpl.
  rewrite lookup_app_l by (rewrite !length_alter; by eapply lookup_lt_Some).
  rewrite list_lookup_alter_ne by congruence.
  rewrite list_lookup_alter_eq, list_lookup_alter_eq, Hk. simpl.
  unfold update_task, modify, finish_task. simpl.
  rewrite alter_app_l by (rewrite !length_alter; by eapply lookup_lt_Some).
  rewrite lookup_app_l by (rewrite !length_alter; by eapply lookup_lt_Some).
  rewrite list_lookup_alter_eq, (list_lookup_alter_ne _ _ (_writer_task tr) k) by congruence.
  rewrite !list_lookup_alter_eq, Hk. simpl.
  rewrite alter_app_l by (rewrite !length_alter; by eapply lookup_lt_Some).
  rewrite !length_alter.
  eexists _, _. split; [reflexivity|]. by rewrite !length_alter.
Qed.

(** The same step on any port: the shutdown may be cut short by a
    [releaseLock()] that raises, but the transport is marked closing, the
    reader task ends, and nothing but the releases and the notification of
    the shutdown is recorded. *)
Lemma end_of_stream_step_any w k rest t tr cbs val :
  wf w →
  ready w = CbStep k :: rest →
  tasks w !! k
  = Some (Task (ReaderLoop t RRead)
            (Some (AwFuture FutJs (Some (OResult (VRead true val))))) false None cbs) →
  transports w !! t = Some tr →
  ∃ tr' tk' evs,
    transports (step RunOnce w) !! t = Some tr'
    ∧ _is_closing tr' = true
    ∧ tasks (step RunOnce w) !! k = Some tk'
    ∧ is_Some (task_state tk')
    ∧ trace (step RunOnce w) = trace w ++ evs
    ∧ Forall (cleanup_ev t) evs.
Proof.
  intros Hwf Hrd Hk Htr.
  set (tk := Task _ _ _ _ _) in Hk.
  assert (Hkr : k = _reader_task tr) by (by eapply (reader_is_reader w k tk t RRead tr)).
  destruct (wf_pump_tasks _ _ _ _ Hwf Htr) as (rk0 & wk & Hrk0 & Hlr & Hwk & Hlw & Hne).
  simpl. rewrite Hrd. unfold run_handle. simpl.
  unfold task_step. simpl. rewrite Hk. simpl.
  set (w1 := with_tasks _ (with_ready rest w)).
  assert (Hk1 : tasks w1 !! k = Some (Task (ReaderLoop t RRead) None false None cbs)).
  { unfold w1. simpl. by rewrite list_lookup_alter_eq, Hk. }
  assert (Hw1 : tasks w1 !! _writer_task tr = Some wk).
  { unfold w1. simpl. rewrite list_lookup_alter_ne by congruence. done. }
  unfold bind.
  destruct (cleanup_spec t (Some (RuntimeError "Other side has closed")) w1 tr
              (Task (ReaderLoop t RRead) None false None cbs) wk)
    as (X & reg_add & new & rdy & evs & res & E & (Hq & Hc & _) & Hev & _);
    [done|by rewrite <-Hkr|by intros j|done|done|done|].
  rewrite E.
  assert (Hlt : t < length (transports w)) by (by eapply lookup_lt_Some).
  assert (Hklt : k < length (tasks w)) by (by eapply lookup_lt_Some).
  set (w2 := World _ _ _ _ _ _).
  assert (Ht2 : transports w2 !! t = Some X).
  { unfold w2. simpl. by apply list_lookup_insert_eq. }
  assert (Hc2 : trace w2 = trace w ++ evs) by done.
  assert (Hk2 : ∀ h, is_Some (alter h k (tasks w2) !! k)).
  { intros h. apply lookup_lt_is_Some. unfold w2, w1. simpl.
    rewrite length_alter, length_app, !length_alter. lia. }
  assert (Hfin : ∀ o w3, is_Some (tasks w3 !! k) →
            ∃ w4 tk', finish_task k o w3 = (w4, Ok tt)
                      ∧ transports w4 = transports w3 ∧ trace w4 = trace w3
                      ∧ tasks w4 !! k = Some tk' ∧ is_Some (task_state tk')).
  { intros o w3 [tk3 H3]. unfold finish_task. rewrite H3. simpl.
    eexists _, _. split; [reflexivity|]. simpl. split_and!; try done.
    - by rewrite list_lookup_alter_eq, H3.
    - by eexists. }
  assert (Hk2' : is_Some (tasks w2 !! k)).
  { specialize (Hk2 id). by rewrite list_alter_id in Hk2. }
  assert (Hgoal : ∀ o w3, is_Some (tasks w3 !! k) →
            transports w3 = transports w2 → trace w3 = trace w2 →
            ∃ tr' tk' evs0,
              transports (let (w', r) := finish_task k o w3 in
                          match r with
                          | Ok _ => w'
                          | Raise e => with_trace (trace w' ++ [EvLoopException e]) w'
                          end) !! t = Some tr'
              ∧ _is_closing tr' = true
              ∧ tasks (let (w', r) := finish_task k o w3 in
                       match r with
                       | Ok _ => w'
                       | Raise e => with_trace (trace w' ++ [EvLoopException e]) w'
                       end) !! k = Some tk'
              ∧ is_Some (task_state tk')
              ∧ trace (let (w', r) := finish_task k o w3 in
                       match r with
                       | Ok _ => w'
                       | Raise e => with_trace (trace w' ++ [EvLoopException e]) w'
                       end) = trace w ++ evs0
              ∧ Forall (cleanup_ev t) evs0).
  { intros o w3 H3 Ht3 Hc3.
    destruct (Hfin o w3 H3) as (w4 & tk' & -> & Ht4 & Hc4 & Hk4 & Hs4).
    exists X, tk', evs. rewrite Ht4, Ht3, Hc4, Hc3. by split_and!. }
  clearbody w2. clear E.
  destruct res as [[]|x]; simpl.
  - destruct (from_option must_cancel false (tasks w2 !! k)).
    + unfold update_task, modify. simpl. apply Hgoal; try done. apply (Hk2 _).
    + by apply Hgoal.
  - destruct x; by apply Hgoal.
Qed.

Lemma cleanup_events_quiet t self e tr : Forall (quiet t) (cleanup_events self e tr).
Proof.
  unfold cleanup_events.
  destruct (_js_reader tr), (_js_writer tr), (_port tr), (_protocol tr); simpl;
    repeat constructor.
Qed.

(** X2.  The reader of transport [t], with no cancellation pending on it,
    is about to be resumed with a read result whose [done] flag is set.
    Everything the device returned before has been delivered to the
    consumer.  When the reader runs, the transport is closing and the reader
    task has finished; and whatever happens afterwards, the device is never
    read again and the consumer receives no further data.  Provided the
    [releaseLock()] calls of the locks the transport holds return, the
    notification registered on the detached close carries
    [RuntimeError("Other side has closed")]. *)
Theorem end_of_stream_shuts_down sched sched' k rest t tr cbs val :
  ready (run sched init) = CbStep k :: rest →
  tasks (run sched init) !! k
  = Some (Task (ReaderLoop t RRead)
            (Some (AwFuture FutJs (Some (OResult (VRead true val))))) false None cbs) →
  transports (run sched init) !! t = Some tr →
  ∃ tr' tk',
    arrived t (trace (run sched init)) = delivered t (trace (run sched init))
    ∧ transports (step RunOnce (run sched init)) !! t = Some tr'
    ∧ _is_closing tr' = true
    ∧ tasks (step RunOnce (run sched init)) !! k = Some tk'
    ∧ is_Some (task_state tk')
    ∧ reads t (trace (run sched' (step RunOnce (run sched init))))
      = reads t (trace (run sched init))
    ∧ delivered t (trace (run sched' (step RunOnce (run sched init))))
      = delivered t (trace (run sched init))
    ∧ (releases_return tr →
       ∃ p pt kc tkc,
         _protocol tr = Some p
         ∧ tasks (step RunOnce (run sched init)) !! kc = Some tkc
         ∧ task_coro tkc = ClosePort t pt CStart
         ∧ done_callbacks tkc
           = [CbConnectionLost t p (Some (RuntimeError "Other side has closed"));
              CbRemoveClosing kc]).
Proof.
  intros Hrd Hk Htr. set (w := run sched init) in *.
  pose proof (reachable_wf sched) as Hwf. fold w in Hwf.
  destruct (end_of_stream_step_any w k rest t tr cbs val Hwf Hrd Hk Htr)
    as (tr' & tk' & evs & Htr' & Hcl' & Hk' & Hst' & Hev & Hcev).
  assert (Hwf' : wf (step RunOnce w)) by (by apply step_wf).
  assert (Hqu : Forall (quiet t) evs).
  { eapply Forall_impl; [exact Hcev|]. intros ev. apply cleanup_ev_quiet. }
  destruct (quiet_silent t evs Hqu) as (_ & Hdl0 & Hrd0).
  assert (Hkr : k = _reader_task tr).
  { by eapply (reader_is_reader w k _ t RRead tr). }
  exists tr', tk'. split_and!; try done.
  - destruct (run_inbound sched init t wf_init_world (inbound_init t))
      as (rest0 & Harr & Hview).
    fold w in Harr, Hview. rewrite Htr in Hview. rewrite <-Hkr in Hview.
    specialize (Hview _ Hk). unfold inbound_backlog in Hview. simpl in Hview.
    subst rest0. by rewrite app_nil_r in Harr.
  - rewrite (emits_reads t (step RunOnce w) (run sched' (step RunOnce w)))
      by (by eapply run_quiet_when_closing).
    rewrite Hev, reads_app, Hrd0. lia.
  - rewrite (emits_delivered t (step RunOnce w) (run sched' (step RunOnce w)))
      by (by eapply run_quiet_when_closing).
    rewrite Hev, delivered_app, Hdl0. apply app_nil_r.
  - intros Hrel.
    destruct (wf_pumps _ _ Hwf _ _ Htr) as [_ (wk & pc1 & Hwk & _)].
    destruct (end_of_stream_step w k rest t tr wk cbs val Hwf Hrd Hk Htr Hwk Hrel)
      as (_ & Hne & Hcl & ts' & rd' & Estep & Hlen).
    destruct (wf_open _ _ Hwf _ _ Htr Hcl) as (_ & _ & [pt Hpt] & [p Hp]).
    exists p, pt, (length (tasks w)),
      (Task (ClosePort t pt CStart) None false None
         [CbConnectionLost t p (Some (RuntimeError "Other side has closed"));
          CbRemoveClosing (length (tasks w))]).
    split_and!; try done.
    rewrite Estep. simpl. unfold closing_task_of. rewrite Hpt, Hp.
    replace (length (tasks w)) with
      (length (alter (λ tk, set_done_callbacks [] (set_task_state (Some OCancelled) tk)) k ts'))
      at 1 by (rewrite length_alter; done).
    apply lookup_snoc.
Qed.

Lemma end_of_stream_shuts_down_witness :
  ∃ tr,
    ready (run Scenario.stream_ends init) = CbStep 1 :: []
    ∧ transports (run Scenario.stream_ends init) !! 0 = Some tr
    ∧ ∃ tr' tk',
        arrived 0 (trace (run Scenario.stream_ends init))
        = delivered 0 (trace (run Scenario.stream_ends init))
        ∧ transports (step RunOnce (run Scenario.stream_ends init)) !! 0 = Some tr'
        ∧ _is_closing tr' = true
        ∧ tasks (step RunOnce (run Scenario.stream_ends init)) !! 1 = Some tk'
        ∧ is_Some (task_state tk')
        ∧ reads 0 (trace (run [RunOnce; RunOnce]
                            (step RunOnce (run Scenario.stream_ends init))))
          = reads 0 (trace (run Scenario.stream_ends init))
        ∧ delivered 0 (trace (run [RunOnce; RunOnce]
                                (step RunOnce (run Scenario.stream_ends init))))
          = delivered 0 (trace (run Scenario.stream_ends init))
        ∧ (releases_return tr →
           ∃ p pt kc tkc,
             _protocol tr = Some p
             ∧ tasks (step RunOnce (run Scenario.stream_ends init)) !! kc = Some tkc
             ∧ task_coro tkc = ClosePort 0 pt CStart
             ∧ done_callbacks tkc
               = [CbConnectionLost 0 p (Some (RuntimeError "Other side has closed"));
                  CbRemoveClosing kc]).
Proof.
  eexists.
  assert (Hr : ready (run Scenario.stream_ends init) = CbStep 1 :: [])
    by (vm_compute; reflexivity).
  assert (Hk : tasks (run Scenario.stream_ends init) !! 1
               = Some (Task (ReaderLoop 0 RRead)
                         (Some (AwFuture FutJs (Some (OResult (VRead true [])))))
                         false None []))
    by (vm_compute; reflexivity).
  assert (Hl : transports (run Scenario.stream_ends init) !! 0
               = Some (Transport (Some 7) (Some Scenario.usb) (Queue 0 [] [2]) false
                         (Some (JsLock None)) (Some (JsLock None)) 1 2))
    by (vm_compute; reflexivity).
  split; [exact Hr|]. split; [exact Hl|].
  exact (end_of_stream_shuts_down Scenario.stream_ends [RunOnce; RunOnce]
           1 [] 0 _ [] [] Hr Hk Hl).
Defined.

(** X9.  The reader of transport [t] is about to be resumed with a chunk,
    empty or not, whose [done] flag is not set.  When it runs, the chunk is
    handed to the protocol the transport holds at that moment, the next
    read is issued at once, and the reader waits for it; nothing else
    changes. *)
Theorem chunk_goes_to_current_protocol sched k rest t tr cbs val :
  ready (run sched init) = CbStep k :: rest →
  tasks (run sched init) !! k
  = Some (Task (ReaderLoop t RRead)
            (Some (AwFuture FutJs (Some (OResult (VRead false val))))) false None cbs) →
  transports (run sched init) !! t = Some tr →
  ∃ p,
    _protocol tr = Some p
    ∧ trace (step RunOnce (run sched init))
      = trace (run sched init) ++ [EvDataReceived t p val; EvRead t]
    ∧ tasks (step RunOnce (run sched init)) !! k
      = Some (Task (ReaderLoop t RRead) (Some (AwFuture FutJs None)) false None cbs)
    ∧ transports (step RunOnce (run sched init)) = transports (run sched init)
    ∧ ready (step RunOnce (run sched init)) = rest.
Proof.
  intros Hrd Hk Htr. set (w := run sched init) in *.
  pose proof (reachable_wf sched) as Hwf. fold w in Hwf.
  set (tk := Task _ _ _ _ _) in Hk.
  assert (Hcl : _is_closing tr = false).
  { destruct (_is_closing tr) eqn:E; [|done]. exfalso.
    pose proof (wf_doom _ _ Hwf k tk t tr Hk eq_refl Htr E) as Hd.
    destruct Hd as [[? Hd]|[Hd|[kind Hd]]]; [done|done|done|]; simpl in Hd; done. }
  destruct (wf_open _ _ Hwf _ _ Htr Hcl) as ([lr Hlr] & _ & _ & [p Hp]).
  exists p. split; [done|].
  simpl. rewrite Hrd. unfold run_handle, run_callback, task_step. simpl.
  rewrite Hk. simpl.
  unfold data_received, js_read, the_transport, bind. simpl. rewrite Htr, Hp. simpl.
  rewrite Htr, Hlr. simpl.
  unfold suspend_task, bind, update_task, modify, gets, ret. simpl.
  rewrite !list_lookup_alter_eq, Hk. simpl.
  split_and!; try done.
  - by rewrite <-app_assoc.
  - by rewrite !list_lookup_alter_eq, Hk.
Qed.

Lemma chunk_goes_to_current_protocol_witness :
  ∃ tr,
    ready (run (Scenario.connect ++ [Settle 1 (Resolve (VRead false []))]) init)
    = CbStep 1 :: []
    ∧ transports (run (Scenario.connect ++ [Settle 1 (Resolve (VRead false []))]) init) !! 0
      = Some tr
    ∧ ∃ p,
        _protocol tr = Some p
        ∧ trace (step RunOnce
                   (run (Scenario.connect ++ [Settle 1 (Resolve (VRead false []))]) init))
          = trace (run (Scenario.connect ++ [Settle 1 (Resolve (VRead false []))]) init)
            ++ [EvDataReceived 0 p []; EvRead 0]
        ∧ tasks (step RunOnce
                   (run (Scenario.connect ++ [Settle 1 (Resolve (VRead false []))]) init))
            !! 1
          = Some (Task (ReaderLoop 0 RRead) (Some (AwFuture FutJs None)) false None [])
        ∧ transports (step RunOnce
                        (run (Scenario.connect ++ [Settle 1 (Resolve (VRead false []))])
                           init))
          = transports (run (Scenario.connect ++ [Settle 1 (Resolve (VRead false []))]) init)
        ∧ ready (step RunOnce
                   (run (Scenario.connect ++ [Settle 1 (Resolve (VRead false []))]) init))
          = [].
Proof.
  assert (Hr : ready (run (Scenario.connect ++ [Settle 1 (Resolve (VRead false []))]) init)
               = CbStep 1 :: [])
    by (vm_compute; reflexivity).
  assert (Hk : tasks (run (Scenario.connect ++ [Settle 1 (Resolve (VRead false []))]) init)
                 !! 1
               = Some (Task (ReaderLoop 0 RRead)
                         (Some (AwFuture FutJs (Some (OResult (VRead false [])))))
                         false None []))
    by (vm_compute; reflexivity).
  assert (Hl : transports (run (Scenario.connect ++ [Settle 1 (Resolve (VRead false []))])
                             init) !! 0
               = Some (Transport (Some 7) (Some Scenario.usb) (Queue 0 [] [2]) false
                         (Some (JsLock None)) (Some (JsLock None)) 1 2))
    by (vm_compute; reflexivity).
  eexists. split; [exact Hr|]. split; [exact Hl|].
  exact (chunk_goes_to_current_protocol
           (Scenario.connect ++ [Settle 1 (Resolve (VRead false []))]) 1 [] 0 _ [] [] Hr Hk Hl).
Defined.

(** *** A reader that has finished *)

Lemma no_reading_silent t evs :
  Forall (no_reading t) evs → reads t evs = 0 ∧ delivered t evs = [].
Proof.
  induction 1 as [|ev evs Hev _ [IH1 IH2]]; [done|].
  change (ev :: evs) with ([ev] ++ evs).
  rewrite reads_app, delivered_app, IH1, IH2, app_nil_r.
  unfold reads, count_events, delivered. rewrite filter_cons, filter_nil.
  destruct ev; simpl in *; try done.
  - split; [|done]. case_decide as Hd; [|done]. by apply bool_decide_unpack in Hd.
  - split; [done|]. by rewrite decide_False.
Qed.

Lemma emits_no_reading t w w' :
  emits (no_reading t) w w' →
  reads t (trace w') = reads t (trace w) ∧ delivered t (trace w') = delivered t (trace w).
Proof.
  intros (evs & -> & Hevs). destruct (no_reading_silent t evs Hevs) as [Ha Hd].
  rewrite reads_app, delivered_app, Ha, Hd, app_nil_r. split; [lia|done].
Qed.

Lemma cleanup_ev_no_reading self t ev : cleanup_ev self ev → no_reading t ev.
Proof. by intros []. Qed.

Lemma step_no_reading a w t :
  (∀ k tk pc, stepping a w = Some k → tasks w !! k = Some tk →
     task_coro tk ≠ ReaderLoop t pc) →
  emits (no_reading t) w (step a w).
Proof.
  intros Hnot. eapply emits_impl; [|apply step_emits].
  intros ev [[e ->]|[[e ->]|Hev]]; [done|done|].
  destruct a as [pt|a|t' data|t'|t' p|t'| |k st]; simpl in Hev; try done.
  - by subst.
  - by eapply cleanup_ev_no_reading.
  - by eapply cleanup_ev_no_reading.
  - simpl in Hnot. destruct (ready w) as [|[k|p t'|t' p e|k] rest]; try done.
    + destruct Hev as (tk & Hk & Hev).
      destruct (task_coro tk) as [t0 pc|t0 pc|t0 pt pc|a pc] eqn:Hc; simpl in Hev.
      * destruct Hev as [[d ->]|Hev]; [done|]. by eapply cleanup_ev_no_reading.
      * assert (t0 ≠ t).
        { intros ->. by eapply (Hnot k tk pc). }
        destruct Hev as [->|[(p & d & ->)|Hev]]; [done|done|].
        by eapply cleanup_ev_no_reading.
      * by destruct Hev as [[m ->]| ->].
      * by destruct Hev as [[m ->]|[[pt' ->]|[t' [-> | ->]]]].
    + by subst.
    + by subst.
  - destruct Hev as (c & mc & cbs & Hk & ->). by destruct c.
Qed.

(** Once the reader task of [t] has finished, no action reads from the
    device of [t] or delivers to its consumer, and the reader stays
    finished. *)
Lemma step_reader_done a w t tr rk :
  wf w → transports w !! t = Some tr →
  tasks w !! _reader_task tr = Some rk → is_Some (task_state rk) →
  emits (no_reading t) w (step a w)
  ∧ ∃ tr' rk', transports (step a w) !! t = Some tr'
      ∧ tasks (step a w) !! _reader_task tr' = Some rk' ∧ is_Some (task_state rk').
Proof.
  intros Hwf Ht Hk Hdone.
  destruct (step_tr_mono a w t tr Ht) as (tr' & Ht' & Hrk' & _ & _).
  assert (Hd : task_done rk = true) by (unfold task_done; by apply bool_decide_eq_true).
  destruct (decide (stepping a w = Some (_reader_task tr))) as [Hs|Hs].
  - assert (E : trace (step a w) = trace w ∧ tasks (step a w) = tasks w).
    { destruct a as [pt|a|t0 data|t0|t0 p|t0| |k st]; simpl in Hs; try done.
      - destruct (ready w) as [|[k| | |] rest0] eqn:Hr; try done. simplify_eq.
        simpl. rewrite Hr. unfold run_handle, run_callback, task_step. simpl.
        by rewrite Hk, Hd.
      - simplify_eq. simpl. unfold call, settle. rewrite Hk.
        destruct Hdone as [o Ho]. destruct rk as [c [[[] [o1|]|j]|] mc [o'|] cbs]; done. }
    destruct E as [Etr Ets]. split; [by apply emits_same|].
    exists tr', rk. by rewrite Ets, Hrk'.
  - split.
    + apply step_no_reading. intros k tk0 pc0 Hsk Hk0 Hc0. apply Hs.
      rewrite Hsk. f_equal. exact (reader_is_reader w k tk0 t pc0 tr Hwf Hk0 Hc0 Ht).
    + destruct (proj1 (frame_step a w Hwf) _ _ Hs Hk) as (rk' & Hk' & Hn).
      exists tr', rk'. rewrite Hrk'. split_and!; [done|done|].
      by rewrite (nudged_state _ _ Hn).
Qed.

Lemma run_reader_done sched w t tr rk :
  wf w → transports w !! t = Some tr →
  tasks w !! _reader_task tr = Some rk → is_Some (task_state rk) →
  emits (no_reading t) w (run sched w).
Proof.
  revert w tr rk. induction sched as [|a sched IH]; intros w tr rk Hwf Ht Hk Hdone.
  { apply emits_refl. }
  destruct (step_reader_done a w t tr rk Hwf Ht Hk Hdone) as (Hem & tr' & rk' & Ht' & Hk' & Hd').
  simpl. eapply emits_trans; [exact Hem|].
  eapply IH; [by apply step_wf|done|done|done].
Qed.

(** X17.  A rejected read is not handled.  When the reader task of an open
    transport is resumed with the rejection of its [read()], the exception
    becomes the outcome of the reader task and nothing else happens: no
    shutdown is started, nothing is recorded, the transport stays as it was,
    not closing, and no [connection_lost] is registered; but from then on
    the device is never read again and the consumer receives no data. *)
Theorem rejected_read_stops_the_reader_silently sched sched' k rest t tr cbs code :
  ready (run sched init) = CbStep k :: rest →
  tasks (run sched init) !! k
  = Some (Task (ReaderLoop t RRead)
            (Some (AwFuture FutJs (Some (OException (JsException code))))) false None cbs) →
  transports (run sched init) !! t = Some tr →
  _is_closing tr = false
  ∧ trace (step RunOnce (run sched init)) = trace (run sched init)
  ∧ transports (step RunOnce (run sched init)) = transports (run sched init)
  ∧ _SERIAL_PORT_CLOSING_TASKS (step RunOnce (run sched init))
    = _SERIAL_PORT_CLOSING_TASKS (run sched init)
  ∧ length (tasks (step RunOnce (run sched init))) = length (tasks (run sched init))
  ∧ tasks (step RunOnce (run sched init)) !! k
    = Some (Task (ReaderLoop t RRead) None false
              (Some (OException (JsException code))) [])
  ∧ ready (step RunOnce (run sched init)) = rest ++ cbs
  ∧ reads t (trace (run sched' (step RunOnce (run sched init))))
    = reads t (trace (run sched init))
  ∧ delivered t (trace (run sched' (step RunOnce (run sched init))))
    = delivered t (trace (run sched init)).
Proof.
  intros Hrd Hk Htr. set (w := run sched init) in *.
  pose proof (reachable_wf sched) as Hwf. fold w in Hwf.
  set (tk := Task _ _ _ _ _) in Hk.
  assert (Hkr : k = _reader_task tr) by (by eapply (reader_is_reader w k tk t RRead tr)).
  assert (Hcl : _is_closing tr = false).
  { destruct (_is_closing tr) eqn:E; [|done]. exfalso.
    pose proof (wf_doom _ _ Hwf k tk t tr Hk eq_refl Htr E) as Hd.
    destruct Hd as [[? Hd]|[Hd|[kind Hd]]]; [done|done|done|]; simpl in Hd; done. }
  assert (E : step RunOnce w
              = World (_SERIAL_PORT w) (_SERIAL_PORT_CLOSING_TASKS w)
                  (alter (λ tk, set_done_callbacks []
                                  (set_task_state (Some (OException (JsException code))) tk))
                     k (alter (λ tk, set_fut_waiter None (set_must_cancel false tk))
                          k (tasks w)))
                  (transports w) (rest ++ cbs) (trace w)).
  { simpl. rewrite Hrd. unfold run_handle, run_callback, task_step. simpl.
    rewrite Hk. simpl. unfold finish_task. simpl.
    by rewrite list_lookup_alter_eq, Hk. }
  assert (Hk' : tasks (step RunOnce w) !! k
                = Some (Task (ReaderLoop t RRead) None false
                          (Some (OException (JsException code))) [])).
  { rewrite E. simpl. by rewrite !list_lookup_alter_eq, Hk. }
  assert (Hquiet : emits (no_reading t) (step RunOnce w) (run sched' (step RunOnce w))).
  { eapply (run_reader_done sched' (step RunOnce w) t tr); [by apply step_wf| | |].
    - by rewrite E.
    - rewrite <-Hkr. exact Hk'.
    - by eexists. }
  destruct (emits_no_reading t _ _ Hquiet) as [Hr Hd].
  split_and!; try done.
  - by rewrite E.
  - by rewrite E.
  - by rewrite E.
  - rewrite E. simpl. by rewrite !length_alter.
  - by rewrite E.
  - rewrite Hr. by rewrite E.
  - rewrite Hd. by rewrite E.
Qed.

Lemma rejected_read_stops_the_reader_silently_witness :
  ∃ tr,
    ready (run (Scenario.connect ++ [Settle 1 (Reject 4)]) init) = CbStep 1 :: []
    ∧ transports (run (Scenario.connect ++ [Settle 1 (Reject 4)]) init) !! 0 = Some tr
    ∧ _is_closing tr = false
    ∧ trace (step RunOnce (run (Scenario.connect ++ [Settle 1 (Reject 4)]) init))
      = trace (run (Scenario.connect ++ [Settle 1 (Reject 4)]) init)
    ∧ transports (step RunOnce (run (Scenario.connect ++ [Settle 1 (Reject 4)]) init))
      = transports (run (Scenario.connect ++ [Settle 1 (Reject 4)]) init)
    ∧ _SERIAL_PORT_CLOSING_TASKS
        (step RunOnce (run (Scenario.connect ++ [Settle 1 (Reject 4)]) init))
      = _SERIAL_PORT_CLOSING_TASKS (run (Scenario.connect ++ [Settle 1 (Reject 4)]) init)
    ∧ length (tasks (step RunOnce (run (Scenario.connect ++ [Settle 1 (Reject 4)]) init)))
      = length (tasks (run (Scenario.connect ++ [Settle 1 (Reject 4)]) init))
    ∧ tasks (step RunOnce (run (Scenario.connect ++ [Settle 1 (Reject 4)]) init)) !! 1
      = Some (Task (ReaderLoop 0 RRead) None false (Some (OException (JsException 4))) [])
    ∧ ready (step RunOnce (run (Scenario.connect ++ [Settle 1 (Reject 4)]) init)) = [] ++ []
    ∧ reads 0 (trace (run [Settle 1 (Resolve (VRead false Scenario.A)); RunOnce]
                        (step RunOnce
                           (run (Scenario.connect ++ [Settle 1 (Reject 4)]) init))))
      = reads 0 (trace (run (Scenario.connect ++ [Settle 1 (Reject 4)]) init))
    ∧ delivered 0 (trace (run [Settle 1 (Resolve (VRead false Scenario.A)); RunOnce]
                            (step RunOnce
                               (run (Scenario.connect ++ [Settle 1 (Reject 4)]) init))))
      = delivered 0 (trace (run (Scenario.connect ++ [Settle 1 (Reject 4)]) init)).
Proof.
  assert (Hr : ready (run (Scenario.connect ++ [Settle 1 (Reject 4)]) init) = CbStep 1 :: [])
    by (vm_compute; reflexivity).
  assert (Hk : tasks (run (Scenario.connect ++ [Settle 1 (Reject 4)]) init) !! 1
               = Some (Task (ReaderLoop 0 RRead)
                         (Some (AwFuture FutJs (Some (OException (JsException 4)))))
                         false None []))
    by (vm_compute; reflexivity).
  assert (Hl : transports (run (Scenario.connect ++ [Settle 1 (Reject 4)]) init) !! 0
               = Some (Transport (Some 7) (Some Scenario.usb) (Queue 0 [] [2]) false
                         (Some (JsLock None)) (Some (JsLock None)) 1 2))
    by (vm_compute; reflexivity).
  eexists. split; [exact Hr|]. split; [exact Hl|].
  exact (rejected_read_stops_the_reader_silently
           (Scenario.connect ++ [Settle 1 (Reject 4)])
           [Settle 1 (Resolve (VRead false Scenario.A)); RunOnce] 1 [] 0 _ [] 4 Hr Hk Hl).
Defined.


(** ** One device write at a time *)

Lemma write_marks_app t l1 l2 :
  write_marks t (l1 ++ l2) = write_marks t l1 ++ write_marks t l2.
Proof. apply omap_app. Qed.

Lemma track_app b l1 l2 : track b (l1 ++ l2) = track b l1 ≫= λ b', track b' l2.
Proof.
  revert b. induction l1 as [|[] l1 IH]; intros b; simpl; [done| |];
    destruct b; simpl; try done; apply IH.
Qed.

Lemma track_one_at_a_time b l : is_Some (track b l) → one_at_a_time b l = true.
Proof.
  revert b. induction l as [|[] l IH]; intros b; simpl; [done| |];
    destruct b; simpl; try (by intros [? ?]); apply IH.
Qed.

Lemma not_mark_silent t evs : Forall (not_mark t) evs → write_marks t evs = [].
Proof.
  induction 1 as [|ev evs Hev _ IH]; [done|].
  change (ev :: evs) with ([ev] ++ evs). rewrite write_marks_app, IH, app_nil_r.
  unfold write_marks. destruct ev; simpl in *; try done; by rewrite decide_False.
Qed.

Lemma emits_marks t w w' :
  emits (not_mark t) w w' → write_marks t (trace w') = write_marks t (trace w).
Proof.
  intros (evs & -> & Hevs). by rewrite write_marks_app, (not_mark_silent t evs Hevs), app_nil_r.
Qed.

Lemma cleanup_ev_not_mark self t ev : cleanup_ev self ev → not_mark t ev.
Proof. by intros []. Qed.

Lemma nudge_write_view tk tk' b : nudge tk tk' → write_view tk b → write_view tk' b.
Proof.
  intros [tk0 _|tk0 Hf Hs|tk0 k0 _]; unfold write_view; simpl; try done.
  - unfold cancel_request. destruct (task_done tk0) eqn:Hd; [done|].
    rewrite (not_done_pending _ Hd).
    destruct (fut_waiter tk0) as [[kind [o|]|j]|] eqn:Hf; simpl;
      rewrite ?(not_done_pending _ Hd), ?Hf; try done.
    by destruct kind.
  - by rewrite Hs, Hf.
Qed.

Lemma nudged_write_view tk tk' b : rtc nudge tk tk' → write_view tk b → write_view tk' b.
Proof. induction 1; eauto using nudge_write_view. Qed.

Lemma fresh_write_view tk : fresh tk → write_view tk false.
Proof. intros (Hf & Hs & _). unfold write_view. by rewrite Hs, Hf. Qed.

Lemma done_write_view tk b : is_Some (task_state tk) → write_view tk b.
Proof. intros [o Ho]. unfold write_view. by rewrite Ho. Qed.

Lemma writer_is_writer w k tk t pc tr :
  wf w → tasks w !! k = Some tk → task_coro tk = WriterLoop t pc →
  transports w !! t = Some tr → k = _writer_task tr.
Proof.
  intros Hwf Hk Hc Ht.
  destruct (wf_owner _ _ Hwf k tk t Hk) as (tr0 & Ht0 & Hor); [by rewrite Hc|].
  assert (tr0 = tr) as -> by congruence.
  destruct Hor as [->| ->]; [|done].
  destruct (wf_pumps _ _ Hwf _ _ Ht) as [(rk & pc' & Hrk & Hrc) _]. congruence.
Qed.

(** An action that does not step or settle the writer of [t] records
    neither the beginning nor the completion of a write of [t]. *)
Lemma step_not_mark a w t :
  (∀ k tk pc, stepping a w = Some k → tasks w !! k = Some tk →
     task_coro tk ≠ WriterLoop t pc) →
  emits (not_mark t) w (step a w).
Proof.
  intros Hnot. eapply emits_impl; [|apply step_emits].
  intros ev [[e ->]|[[e ->]|Hev]]; [done|done|].
  destruct a as [pt|a|t' data|t'|t' p|t'| |k st]; simpl in Hev; try done.
  - by subst.
  - by eapply cleanup_ev_not_mark.
  - by eapply cleanup_ev_not_mark.
  - simpl in Hnot. destruct (ready w) as [|[k|p t'|t' p e|k] rest]; try done.
    + destruct Hev as (tk & Hk & Hev).
      destruct (task_coro tk) as [t0 pc|t0 pc|t0 pt pc|a pc] eqn:Hc; simpl in Hev.
      * assert (t0 ≠ t).
        { intros ->. by eapply (Hnot k tk pc). }
        destruct Hev as [[d ->]|Hev]; [done|]. by eapply cleanup_ev_not_mark.
      * destruct Hev as [->|[(p & d & ->)|Hev]]; [done|done|].
        by eapply cleanup_ev_not_mark.
      * by destruct Hev as [[m ->]| ->].
      * by destruct Hev as [[m ->]|[[pt' ->]|[t' [-> | ->]]]].
    + by subst.
    + by subst.
  - destruct Hev as (c & mc & cbs & Hk & ->). simpl in Hnot.
    destruct c as [t0 pc|t0 pc|t0 pt pc|a pc]; simpl; try done.
    intros ->. by eapply (Hnot k _ pc).
Qed.

Lemma writer_failed_marks t e w :
  write_marks t (trace (writer_failed t e w).1) = write_marks t (trace w)
  ∧ ∀ c f, (writer_failed t e w).2 ≠ Ok (YAwait c f).
Proof.
  unfold writer_failed, bind.
  pose proof (emits_marks t w (_cleanup t (Some e) w).1
                (emits_impl _ _ _ _ (cleanup_ev_not_mark t t) (cleanup_emits t (Some e) w)))
    as Hm.
  by destruct (_cleanup t (Some e) w) as [w' [[]|x]].
Qed.

(** One turn of the writer's loop begins at most one write. *)
Lemma writer_iteration_marks t k w :
  (write_marks t (trace (writer_iteration t k w).1) = write_marks t (trace w)
   ∧ ∀ c f, (writer_iteration t k w).2 = Ok (YAwait c f) → f = AwFuture FutGetter None)
  ∨ (write_marks t (trace (writer_iteration t k w).1) = write_marks t (trace w) ++ [WBegin]
     ∧ (writer_iteration t k w).2 = Ok (YAwait (WriterLoop t WWrite) (AwFuture FutJs None))).
Proof.
  unfold writer_iteration, queue_get, the_transport, bind.
  destruct (transports w !! t) as [tr|] eqn:Htr; [|by left].
  destruct (q_items (_write_queue tr)) as [|d rest] eqn:Hq.
  { left. simpl. split; [done|]. by intros c f [= <- <-]. }
  unfold update_transport, modify, ret, try_except, js_write, the_transport, bind. simpl.
  rewrite list_lookup_alter_eq, Htr. simpl.
  destruct (_js_writer tr) as [lw|]; simpl.
  - right. rewrite write_marks_app. split; [|done]. f_equal.
    unfold write_marks. simpl. by rewrite decide_True.
  - left.
    match goal with |- context [writer_failed t ?e ?w0] =>
      destruct (writer_failed_marks t e w0) as [Hm Hy] end.
    split; [exact Hm|]. intros c f Hres. by destruct (Hy c f).
Qed.

(** A step of the writer of [t] begins a write only if none is
    outstanding. *)
Lemma writer_step_marks k w tk t pc b :
  wf w → tasks w !! k = Some tk → task_coro tk = WriterLoop t pc →
  track false (write_marks t (trace w)) = Some b → write_view tk b →
  ∃ b', track false (write_marks t (trace (task_step k w).1)) = Some b'
        ∧ ∀ tk', tasks (task_step k w).1 !! k = Some tk' → write_view tk' b'.
Proof.
  intros Hwf Hk Hc Hmarks Hview.
  destruct (task_done tk) eqn:Hd.
  { unfold task_step. rewrite Hk, Hd. exists b. split; [done|].
    simpl. intros tk' Hk'. by assert (tk' = tk) as -> by congruence. }
  destruct (resume_value w tk) as [r|] eqn:Hr.
  2:{ unfold task_step. rewrite Hk, Hd, Hr. exists b. split; [done|].
      simpl. intros tk' Hk'. by assert (tk' = tk) as -> by congruence. }
  destruct (run_coro k (task_coro tk) (fut_waiter tk) r
              (with_tasks (alter (λ tk, set_fut_waiter None (set_must_cancel false tk))
                             k (tasks w)) w)) as [w2 res] eqn:Erun.
  destruct (task_step_after k w tk r w2 res Hwf Hk Hd Hr Erun)
    as (Htr & _ & _ & _ & tk' & Hk' & Hres).
  assert (Hst : task_state tk = None) by (by apply not_done_pending).
  pose proof (wf_shape _ _ Hwf _ _ Hk) as Hshape.
  assert (Hleaf : ∀ j, fut_waiter tk ≠ Some (AwTask j)).
  { intros j Hj. unfold shape_ok in Hshape. rewrite Hj, Hc in Hshape. by destruct pc. }
  set (w1 := with_tasks _ w) in Erun.
  assert (Hkey : ∃ b',
             track false (write_marks t (trace w2)) = Some b'
             ∧ match res with
               | Ok (YAwait c f) =>
                   (f = AwFuture FutJs None ∧ b' = true)
                   ∨ (f = AwFuture FutGetter None ∧ b' = false)
               | _ => True
               end).
  { rewrite Hc in Erun. simpl in Erun.
    destruct r as [v|e].
    - assert (Hb : b = false).
      { destruct (resume_send w tk v Hst Hleaf Hr) as [_ Hfut].
        unfold write_view in Hview. rewrite Hst in Hview.
        destruct Hfut as [[Hf _]|[kind Hf]]; rewrite Hf in Hview; [done|].
        by destruct kind. }
      subst b.
      assert (Hit : writer_iteration t k w1 = (w2, res)) by (by destruct pc).
      destruct (writer_iteration_marks t k w1) as [[Hm Hy]|[Hm Hy]];
        rewrite Hit in Hm, Hy; simpl in Hm, Hy.
      + exists false. rewrite Hm. split; [done|].
        destruct res as [[c f|?]|?]; try done. right. split; [|done]. by eapply Hy.
      + exists true. rewrite Hm, track_app. simpl in *. rewrite Hmarks. simpl.
        split; [done|]. subst res. by left.
    - exists b. destruct pc; simpl in Erun.
      + by injection Erun as <- <-.
      + unfold bind in Erun.
        pose proof (queue_get_interrupted_trace t k (fut_waiter tk) w1) as Hc1.
        destruct (queue_get_interrupted t k (fut_waiter tk) w1) as [w' [[]|x]]; simpl in *;
          injection Erun as <- <-; by rewrite Hc1.
      + unfold try_except, raise in Erun. destruct (is_Exception e).
        * destruct (writer_failed_marks t e w1) as [Hm Hy]. rewrite Erun in Hm, Hy.
          simpl in *. rewrite Hm. split; [done|].
          destruct res as [[c f|?]|?]; try done. by destruct (Hy c f).
        * by injection Erun as <- <-. }
  destruct Hkey as (b' & Hm' & Hy). exists b'. rewrite Htr. split; [done|].
  intros tk'' Hk''. assert (tk'' = tk') as -> by congruence.
  destruct res as [[c f|v]|e]; try (apply done_write_view; tauto).
  destruct Hres as (Hst' & _ & Hf'). unfold write_view. rewrite Hst'.
  destruct Hy as [[-> ->]|[-> ->]]; destruct Hf' as [->|(kind & [= <-] & ->)]; done.
Qed.

(** Every action keeps the writes of [t] apart. *)
Lemma step_marks a w t : wf w → marks_ok t w → marks_ok t (step a w).
Proof.
  intros Hwf (b & Hmarks & Hview).
  pose proof (step_wf a w Hwf) as Hwf'.
  destruct (transports w !! t) as [tr|] eqn:Ht.
  - destruct (step_tr_mono a w t tr Ht) as (tr' & Ht' & _ & Hwk' & _).
    destruct (wf_pumps _ _ Hwf _ _ Ht) as [_ (tk & pc & Hk & Hc)].
    specialize (Hview tk Hk).
    destruct (decide (stepping a w = Some (_writer_task tr))) as [Hs|Hs].
    + destruct a as [pt|a|t0 data|t0|t0 p|t0| |k st]; simpl in Hs; try done.
      * destruct (ready w) as [|[k| | |] rest0] eqn:Hr; try done. simplify_eq.
        assert (Hwf0 : wf (with_ready rest0 w)) by (by apply (wf_same None w)).
        destruct (writer_step_marks (_writer_task tr) (with_ready rest0 w) tk t pc b
                    Hwf0 Hk Hc Hmarks Hview) as (b' & Hm' & Hview').
        assert (Hstep : trace (step RunOnce w)
                        = trace (task_step (_writer_task tr) (with_ready rest0 w)).1
                          ++ match (task_step (_writer_task tr) (with_ready rest0 w)).2 with
                             | Ok _ => []
                             | Raise e => [EvLoopException e]
                             end
                        ∧ tasks (step RunOnce w)
                          = tasks (task_step (_writer_task tr) (with_ready rest0 w)).1).
        { simpl. rewrite Hr. unfold run_handle. simpl.
          destruct (task_step (_writer_task tr) (with_ready rest0 w)) as [w' [[]|e]];
            simpl; by rewrite ?app_nil_r. }
        destruct Hstep as [Htrace Htasks].
        exists b'. unfold marks_ok. rewrite Ht', Htrace, Htasks, Hwk'.
        rewrite write_marks_app.
        split; [|exact Hview'].
        destruct (task_step (_writer_task tr) (with_ready rest0 w)).2; simpl;
          by rewrite !app_nil_r.
      * simplify_eq. unfold marks_ok. rewrite Ht'. simpl in *.
        unfold call, settle in *. rewrite Hk in *.
        destruct tk as [c [[[] [o|]|j]|] mc [o'|] cbs]; simpl in *;
          try (exists b; split; [done|];
               intros tk'; rewrite Hwk', Hk; by intros [= <-]).
        subst c. unfold write_view in Hview. simpl in Hview. subst b.
        unfold bind, emit, update_task, call_soon, modify. simpl.
        exists false. rewrite write_marks_app, track_app, Hmarks. simpl. split.
        -- unfold write_marks. simpl. by rewrite decide_True.
        -- intros tk'. rewrite Hwk', list_lookup_alter_eq, Hk. simpl. intros [= <-].
           unfold write_view. simpl. by destruct st.
    + rewrite <-(emits_marks t w (step a w)) in Hmarks.
      2:{ apply step_not_mark. intros k tk0 pc0 Hsk Hk0 Hc0. apply Hs.
          rewrite Hsk. f_equal. exact (writer_is_writer w k tk0 t pc0 tr Hwf Hk0 Hc0 Ht). }
      exists b. unfold marks_ok. rewrite Ht'. split; [done|].
      intros tk'. rewrite Hwk'. intros Hk'.
      destruct (proj1 (frame_step a w Hwf) _ _ Hs Hk) as (tk2 & Hk2 & Hn).
      assert (tk2 = tk') as -> by congruence.
      by eapply nudged_write_view.
  - subst b.
    assert (Hnone : ∀ k tk pc, tasks w !! k = Some tk → task_coro tk ≠ WriterLoop t pc).
    { intros k tk pc Hk Hc.
      destruct (wf_owner _ _ Hwf k tk t Hk) as (tr0 & Ht0 & _); [by rewrite Hc|].
      congruence. }
    rewrite <-(emits_marks t w (step a w)) in Hmarks.
    2:{ apply step_not_mark. intros k tk pc _. apply Hnone. }
    exists false. unfold marks_ok. split; [done|].
    destruct (transports (step a w) !! t) as [tr'|] eqn:Ht'; [|done].
    intros tk' Hk'.
    destruct (wf_pumps _ _ Hwf' _ _ Ht') as [_ (tk0 & pc & Hk0 & Hc0)].
    assert (tk0 = tk') as -> by congruence.
    destruct (decide (stepping a w = Some (_writer_task tr'))) as [Hs|Hs].
    + destruct (tasks w !! _writer_task tr') as [tk|] eqn:Hk.
      * exfalso. destruct (step_same_kind a w _ tk Hwf Hk) as (tk2 & Hk2 & Hsk).
        assert (tk2 = tk') as -> by congruence.
        rewrite Hc0 in Hsk. destruct (task_coro tk) as [t0 pc0| | |] eqn:Hctk; try done.
        simpl in Hsk. subst t0. by eapply (Hnone _ tk pc0 Hk).
      * destruct (step_idle a w _ Hs Hk) as (Htk & _ & _). rewrite Htk in Hk'. congruence.
    + destruct (tasks w !! _writer_task tr') as [tk|] eqn:Hk.
      * exfalso. destruct (proj1 (frame_step a w Hwf) _ _ Hs Hk) as (tk2 & Hk2 & Hn).
        assert (tk2 = tk') as -> by congruence.
        eapply (Hnone _ tk pc Hk). by rewrite <-(nudged_coro _ _ Hn).
      * apply fresh_write_view. eapply (proj2 (frame_step a w Hwf)); [exact Hs| |exact Hk'].
        by apply lookup_ge_None.
Qed.

Lemma run_marks sched w t : wf w → marks_ok t w → marks_ok t (run sched w).
Proof.
  revert w. induction sched as [|a sched IH]; intros w Hwf Hinv; [done|].
  simpl. apply IH; [by apply step_wf|by apply step_marks].
Qed.

(** X11.  The device is given one chunk at a time: in every run, a
    transport's writer calls [write] on the device only when its previous
    [write] has settled, and a completion is only ever the completion of the
    one outstanding write. *)
Theorem one_device_write_at_a_time sched t :
  one_at_a_time false (write_marks t (trace (run sched init))) = true.
Proof.
  destruct (run_marks sched init t wf_init_world) as (b & Hm & _).
  { by exists false. }
  apply track_one_at_a_time. by exists b.
Qed.


(** ** The end of the stream *)

Lemma off_stream_both t ev : no_reading t ev → not_inbound t ev → off_stream t ev.
Proof. by destruct ev. Qed.

Lemma cleanup_ev_off_stream self t ev : cleanup_ev self ev → off_stream t ev.
Proof. by intros []. Qed.

Lemma emits_off_stream t w w' :
  emits (no_reading t) w w' → emits (not_inbound t) w w' → emits (off_stream t) w w'.
Proof.
  intros (evs & H & F) (evs' & H' & F'). exists evs. split; [done|].
  assert (evs' = evs) as -> by (rewrite H in H'; by apply app_inv_head in H').
  rewrite Forall_forall in *. intros ev Hev. apply off_stream_both; eauto.
Qed.

Lemma off_stream_silent t evs :
  Forall (off_stream t) evs →
  reads t evs = 0 ∧ delivered t evs = [] ∧ arrived t evs = [].
Proof.
  induction 1 as [|ev evs Hev _ (IH1 & IH2 & IH3)]; [done|].
  change (ev :: evs) with ([ev] ++ evs).
  rewrite reads_app, delivered_app, arrived_app, IH1, IH2, IH3, !app_nil_r.
  unfold reads, count_events, delivered, arrived. rewrite filter_cons, filter_nil.
  destruct ev; simpl in *; try done.
  - split; [|done]. case_decide as Hd; [|done]. by apply bool_decide_unpack in Hd.
  - split; [done|]. split; [done|]. destruct o as [[|[] d|]| |]; try done.
    by rewrite decide_False.
  - split; [done|]. by rewrite decide_False.
Qed.

Lemma nudged_reader_ended tk tk' : rtc nudge tk tk' → reader_ended tk → reader_ended tk'.
Proof.
  induction 1 as [|x y z Hxy _ IH]; [done|]. intros Hx. apply IH. clear IH.
  destruct Hxy as [tk0 _|tk0 Hf Hst|tk0 k0 Hst].
  - unfold cancel_request. destruct (task_done tk0); [done|].
    destruct Hx as [Hx|[val Hx]]; [|rewrite Hx; right; by exists val].
    left. by destruct (fut_waiter tk0) as [[kind [o|]|j]|].
  - destruct Hx as [[o Hx]|[val Hx]]; congruence.
  - destruct Hx as [Hx|[val Hx]]; [by left|right; by exists val].
Qed.

(** A step of a reader task that was handed the end of the stream: the
    shutdown runs, or the cancellation that was requested in the meantime is
    delivered; either way the task ends without reading. *)
Lemma reader_step_ended k w tk t pc val :
  wf w → tasks w !! k = Some tk → task_coro tk = ReaderLoop t pc →
  task_state tk = None →
  fut_waiter tk = Some (AwFuture FutJs (Some (OResult (VRead true val)))) →
  emits (cleanup_ev t) w (task_step k w).1
  ∧ ∃ tk', tasks (task_step k w).1 !! k = Some tk' ∧ is_Some (task_state tk').
Proof.
  intros Hwf Hk Hc Hst Hf.
  assert (Hd : task_done tk = false).
  { unfold task_done. apply bool_decide_eq_false. rewrite Hst. by intros [? ?]. }
  pose proof (wf_shape _ _ Hwf _ _ Hk) as Hshape.
  unfold shape_ok in Hshape. rewrite Hf, Hc in Hshape.
  assert (pc = RRead) as -> by (by destruct pc).
  assert (Hr : ∃ r, resume_value w tk = Some r
                    ∧ (r = Send (VRead true val) ∨ r = Throw CancelledError)).
  { unfold resume_value. rewrite Hf. destruct (must_cancel tk); simpl; eauto. }
  destruct Hr as (r & Hr & Hcases).
  destruct (run_coro k (task_coro tk) (fut_waiter tk) r
              (with_tasks (alter (λ tk, set_fut_waiter None (set_must_cancel false tk))
                             k (tasks w)) w)) as [w2 res] eqn:Erun.
  destruct (task_step_after k w tk r w2 res Hwf Hk Hd Hr Erun)
    as (Htr & _ & _ & _ & tk' & Hk' & Hres).
  rewrite Hc in Erun. simpl in Erun.
  assert (Hkey : emits (cleanup_ev t) w w2
                 ∧ match res with Ok (YAwait _ _) => False | _ => True end).
  { destruct Hcases as [-> | ->]; simpl in Erun.
    - unfold bind in Erun.
      pose proof (cleanup_emits t (Some (RuntimeError "Other side has closed"))
                    (with_tasks (alter (λ tk, set_fut_waiter None (set_must_cancel false tk))
                                   k (tasks w)) w)) as Hem.
      destruct (_cleanup t _ _) as [w' [[]|x]]; simpl in *;
        injection Erun as <- <-; split; done.
    - injection Erun as <- <-. split; [by apply emits_same|done]. }
  destruct Hkey as [Hem Hno]. split.
  - destruct Hem as (evs & He & Hf'). exists evs. by rewrite Htr.
  - exists tk'. split; [done|]. destruct res as [[c f|v]|e]; [done|tauto|tauto].
Qed.

(** Once the reader of [t] has been handed the end of the stream or has
    finished, no action records anything of the stream of [t], and the
    reader stays that way. *)
Lemma step_reader_ended a w t tr rk :
  wf w → transports w !! t = Some tr →
  tasks w !! _reader_task tr = Some rk → reader_ended rk →
  emits (off_stream t) w (step a w)
  ∧ ∃ tr' rk', transports (step a w) !! t = Some tr'
      ∧ tasks (step a w) !! _reader_task tr' = Some rk' ∧ reader_ended rk'.
Proof.
  intros Hwf Ht Hk Hend.
  destruct (step_tr_mono a w t tr Ht) as (tr' & Ht' & Hrk' & _ & _).
  destruct (wf_pumps _ _ Hwf _ _ Ht) as [(rk0 & pc & Hk0 & Hc) _].
  assert (rk0 = rk) as -> by congruence.
  destruct (decide (stepping a w = Some (_reader_task tr))) as [Hs|Hs].
  - destruct a as [pt|a|t0 data|t0|t0 p|t0| |k st]; simpl in Hs; try done.
    + destruct (ready w) as [|[k| | |] rest0] eqn:Hr; try done. simplify_eq.
      assert (Hwf0 : wf (with_ready rest0 w)) by (by apply (wf_same None w)).
      assert (Hstep : trace (step RunOnce w)
                      = trace (task_step (_reader_task tr) (with_ready rest0 w)).1
                        ++ match (task_step (_reader_task tr) (with_ready rest0 w)).2 with
                           | Ok _ => []
                           | Raise e => [EvLoopException e]
                           end
                      ∧ tasks (step RunOnce w)
                        = tasks (task_step (_reader_task tr) (with_ready rest0 w)).1).
      { simpl. rewrite Hr. unfold run_handle. simpl.
        destruct (task_step (_reader_task tr) (with_ready rest0 w)) as [w' [[]|e]];
          simpl; by rewrite ?app_nil_r. }
      destruct Hstep as [Htrace Htasks].
      destruct (task_state rk) as [o|] eqn:Hst.
      * assert (Hd : task_done rk = true).
        { unfold task_done. apply bool_decide_eq_true. rewrite Hst. by eexists. }
        assert (E : task_step (_reader_task tr) (with_ready rest0 w)
                    = (with_ready rest0 w, Ok tt)).
        { unfold task_step. simpl. by rewrite Hk, Hd. }
        rewrite E in Htrace, Htasks.
        split; [apply emits_same; rewrite Htrace; simpl; by rewrite app_nil_r|].
        exists tr', rk. rewrite Htasks, Hrk'. done.
      * destruct Hend as [[o Ho]|[val Hf]]; [congruence|].
        destruct (reader_step_ended (_reader_task tr) (with_ready rest0 w) rk t pc val
                    Hwf0 Hk Hc Hst Hf) as ((evs & Hev & Hcev) & tk' & Hk' & Hst').
        split.
        -- eexists. split; [rewrite Htrace, Hev; simpl; by rewrite <-app_assoc|].
           apply Forall_app. split.
           ++ eapply Forall_impl; [exact Hcev|]. intros ev. apply cleanup_ev_off_stream.
           ++ destruct (task_step _ _).2; by repeat constructor.
        -- exists tr', tk'. rewrite Htasks, Hrk'. split_and!; [done|done|by left].
    + simplify_eq.
      assert (E : step (Settle (_reader_task tr) st) w = w).
      { simpl. unfold call, settle. rewrite Hk.
        destruct Hend as [[o Ho]|[val Hf]].
        - destruct rk as [c [[[] [o1|]|j]|] mc [o'|] cbs]; simpl in *; done.
        - destruct rk as [c fw mc [o'|] cbs]; simpl in *; subst; done. }
      rewrite E in *. split; [by apply emits_same|].
      exists tr, rk. done.
  - assert (Hnot : ∀ k tk0 pc0, stepping a w = Some k → tasks w !! k = Some tk0 →
                     task_coro tk0 ≠ ReaderLoop t pc0).
    { intros k tk0 pc0 Hsk Htk0 Hc0. apply Hs.
      rewrite Hsk. f_equal. exact (reader_is_reader w k tk0 t pc0 tr Hwf Htk0 Hc0 Ht). }
    split.
    + apply emits_off_stream; [by apply step_no_reading|by apply step_not_inbound].
    + destruct (proj1 (frame_step a w Hwf) _ _ Hs Hk) as (rk' & Hk' & Hn).
      exists tr', rk'. rewrite Hrk'. split_and!; [done|done|].
      by eapply nudged_reader_ended.
Qed.

Lemma app_eq_mid {A} (l evs l1 l2 : list A) e :
  l ++ evs = l1 ++ e :: l2 →
  (∃ l2', l = l1 ++ e :: l2' ∧ l2 = l2' ++ evs)
  ∨ (∃ l1', l1 = l ++ l1' ∧ evs = l1' ++ e :: l2).
Proof.
  revert l1. induction l as [|x l IH]; intros l1 H.
  - right. by exists l1.
  - destruct l1 as [|y l1]; simpl in H.
    + injection H as -> <-. left. by exists l.
    + injection H as -> H.
      destruct (IH _ H) as [(l2' & -> & ->)|(l1' & -> & ->)];
        [left; by exists l2'|right; by exists l1'].
Qed.

(** Only the settlement of a read records that a read has settled. *)
Lemma step_ev_read_settled a w t o :
  step_ev a w (EvReadSettled t o) →
  ∃ k st pc mc cbs,
    a = Settle k st
    ∧ tasks w !! k = Some (Task (ReaderLoop t pc) (Some (AwFuture FutJs None)) mc None cbs)
    ∧ o = outcome_of_settlement st.
Proof.
  intros [[e He]|[[e He]|Hev]]; [done|done|].
  destruct a as [pt|a|t' data|t'|t' p|t'| |k st]; simpl in Hev; try done.
  - inversion Hev.
  - inversion Hev.
  - destruct (ready w) as [|[k|p t'|t' p e|k] rest]; try done.
    destruct Hev as (tk & Hk & Hev).
    destruct (task_coro tk) as [t0 pc|t0 pc|t0 pt pc|a pc]; simpl in Hev.
    + destruct Hev as [[d Hev]|Hev]; [done|inversion Hev].
    + destruct Hev as [Hev|[(p & d & Hev)|Hev]]; [done|done|inversion Hev].
    + by destruct Hev as [[m Hev]|Hev].
    + by destruct Hev as [[m Hev]|[[pt' Hev]|[t' [Hev|Hev]]]].
  - destruct Hev as (c & mc & cbs & Hk & Hev).
    destruct c as [t0 pc|t0 pc|t0 pt pc|a pc]; simpl in Hev; try done.
    injection Hev as -> ->. by exists k, st, pc, mc, cbs.
Qed.

(** Every action keeps what the trace says about the end of a stream. *)
Lemma step_stream_end a w t :
  wf w → inbound_ok t w → stream_end_ok t w → stream_end_ok t (step a w).
Proof.
  intros Hwf Hin Hinv l1 val l2 Htr.
  destruct (step_emits a w) as (evs & Hev & Hsev).
  rewrite Hev in Htr.
  destruct (app_eq_mid _ _ _ _ _ Htr) as [(l2' & Hw & ->)|(l1' & -> & Hevs)].
  - destruct (Hinv _ _ _ Hw) as (Ha & Hoff & tr & rk & Ht & Hk & Hend).
    destruct (step_reader_ended a w t tr rk Hwf Ht Hk Hend)
      as ((evs' & Hev' & Hoff') & Hstate).
    assert (evs' = evs) as -> by (rewrite Hev in Hev'; by apply app_inv_head in Hev').
    split_and!; [done|by apply Forall_app|done].
  - assert (Hmem : EvReadSettled t (OResult (VRead true val)) ∈ evs).
    { rewrite Hevs. apply elem_of_app. right. by left. }
    rewrite Forall_forall in Hsev.
    destruct (step_ev_read_settled a w t _ (Hsev _ Hmem))
      as (k & st & pc & mc & cbs & -> & Hk & Ho).
    assert (Hstep : step (Settle k st) w
                    = with_ready (ready w ++ [CbStep k])
                        (with_tasks
                           (alter (set_fut_waiter
                                     (Some (AwFuture FutJs (Some (outcome_of_settlement st)))))
                              k (tasks w))
                           (with_trace
                              (trace w ++ [EvReadSettled t (outcome_of_settlement st)]) w))).
    { simpl. unfold call, settle. rewrite Hk. done. }
    rewrite Hstep in Hev. simpl in Hev. apply app_inv_head in Hev. subst evs.
    assert (l1' = [] ∧ l2 = []) as [-> ->].
    { destruct l1' as [|x [|y l1']]; simpl in Hevs; [|done|done].
      injection Hevs as _ <-. done. }
    rewrite app_nil_r.
    destruct (wf_owner _ _ Hwf k _ t Hk eq_refl) as (tr & Ht & _).
    assert (Hkr : k = _reader_task tr).
    { by eapply (reader_is_reader w k _ t pc tr). }
    split_and!.
    + destruct Hin as (rest & Harr & Hview). rewrite Ht in Hview.
      rewrite <-Hkr in Hview. specialize (Hview _ Hk).
      unfold inbound_backlog in Hview. simpl in Hview. subst rest.
      by rewrite app_nil_r in Harr.
    + constructor.
    + rewrite Hstep. simpl. exists tr. eexists. split; [done|].
      rewrite <-Hkr, list_lookup_alter_eq, Hk. simpl. split; [done|].
      right. exists val. simpl. by rewrite <-Ho.
Qed.

Lemma run_stream_end sched w t :
  wf w → inbound_ok t w → stream_end_ok t w → stream_end_ok t (run sched w).
Proof.
  revert w. induction sched as [|a sched IH]; intros w Hwf Hin Hinv; [done|].
  simpl. apply IH; [by apply step_wf|by apply step_inbound|by apply step_stream_end].
Qed.

Lemma stream_end_init t : stream_end_ok t init.
Proof. intros l1 val l2 H. by destruct l1. Qed.

(** The reader lock of the port does not release: the device returns the
    end of the stream, the reader (task 1) is resumed with it and shuts the
    transport down, and [releaseLock()] raises out of [_cleanup].  The
    exception of the lock becomes the outcome of the reader task; no close
    task is created, nothing is registered or notified, the transport keeps
    its protocol, and [RuntimeError("Other side has closed")] is dropped:
    however long the loop runs, the consumer is never told. *)
Lemma end_of_stream_error_is_dropped :
  let s := Scenario.connect_on Scenario.stuck_reader Scenario.args
           ++ [Settle 1 (Resolve (VRead true []))] in
  tasks (run s init) !! 1
  = Some (Task (ReaderLoop 0 RRead)
            (Some (AwFuture FutJs (Some (OResult (VRead true []))))) false None [])
  ∧ ready (run s init) = [CbStep 1]
  ∧ (let w := step RunOnce (run s init) in
     length (tasks w) = 3
     ∧ _SERIAL_PORT_CLOSING_TASKS w = []
     ∧ registered (is_lost_cb 0) w = 0
     ∧ lost 0 (trace w) = []
     ∧ (task_state <$> tasks w !! 1) = Some (Some (OException (JsException 11)))
     ∧ (_is_closing <$> transports w !! 0) = Some true
     ∧ (_protocol <$> transports w !! 0) = Some (Some 7))
  ∧ (let w := run [RunOnce; RunOnce; RunOnce] (step RunOnce (run s init)) in
     ready w = [] ∧ lost 0 (trace w) = [] ∧ registered (is_lost_cb 0) w = 0).
Proof. vm_compute. by repeat split. Qed.

(** C7.  In every run and for every transport [t]: the consumer has been
    given the chunks the device returned, in their order, up to at most the
    one chunk whose read has returned and with which the reader has not been
    resumed yet.  Wherever the run records that a read returned the end of
    the stream, every chunk that arrived before had been delivered, and
    afterwards the device is not read again, no read settles and nothing is
    delivered.  When the reader, with no cancellation pending on it, is
    resumed with the end of the stream, the transport is closing and the
    reader task has finished; and provided the [releaseLock()] calls of the
    locks the transport holds return, both locks are released and the close
    of the port is detached and registered, with the notification
    [connection_lost(RuntimeError("Other side has closed"))] as its first
    callback. *)
Theorem end_of_stream_stops_the_reader sched t :
  (∃ rest,
     arrived t (trace (run sched init)) = delivered t (trace (run sched init)) ++ rest
     ∧ length rest ≤ 1)
  ∧ (∀ l1 val l2,
       trace (run sched init) = l1 ++ EvReadSettled t (OResult (VRead true val)) :: l2 →
       arrived t l1 = delivered t l1
       ∧ reads t l2 = 0 ∧ arrived t l2 = [] ∧ delivered t l2 = [])
  ∧ (∀ k rest tr cbs val,
       ready (run sched init) = CbStep k :: rest →
       tasks (run sched init) !! k
       = Some (Task (ReaderLoop t RRead)
                 (Some (AwFuture FutJs (Some (OResult (VRead true val))))) false None cbs) →
       transports (run sched init) !! t = Some tr →
       (∃ tr' tk',
          transports (step RunOnce (run sched init)) !! t = Some tr'
          ∧ _is_closing tr' = true
          ∧ tasks (step RunOnce (run sched init)) !! k = Some tk'
          ∧ is_Some (task_state tk'))
       ∧ (releases_return tr →
          ∃ p pt,
            _protocol tr = Some p ∧ _port tr = Some pt
            ∧ _SERIAL_PORT_CLOSING_TASKS (step RunOnce (run sched init))
              = _SERIAL_PORT_CLOSING_TASKS (run sched init)
                ++ [length (tasks (run sched init))]
            ∧ tasks (step RunOnce (run sched init)) !! length (tasks (run sched init))
              = Some (Task (ClosePort t pt CStart) None false None
                        [CbConnectionLost t p (Some (RuntimeError "Other side has closed"));
                         CbRemoveClosing (length (tasks (run sched init)))])
            ∧ trace (step RunOnce (run sched init))
              = trace (run sched init) ++ [EvReleaseReader t; EvReleaseWriter t])).
Proof.
  set (w := run sched init).
  pose proof (reachable_wf sched) as Hwf. fold w in Hwf.
  pose proof (run_inbound sched init t wf_init_world (inbound_init t)) as Hin. fold w in Hin.
  split_and!.
  - destruct Hin as (rest & Harr & Hview).
    exists rest. split; [done|].
    destruct (transports w !! t) as [tr|] eqn:Ht; [|subst; simpl; lia].
    destruct (wf_pumps _ _ Hwf _ _ Ht) as [(tk & pc & Hk & _) _].
    eapply backlog_short, Hview, Hk.
  - intros l1 val l2 Htr.
    destruct (run_stream_end sched init t wf_init_world (inbound_init t)
                (stream_end_init t) l1 val l2 Htr) as (Ha & Hoff & _).
    destruct (off_stream_silent t l2 Hoff) as (Hr & Hd & Har). done.
  - intros k rest tr cbs val Hrd Hk Htr. split.
    + destruct (end_of_stream_step_any w k rest t tr cbs val Hwf Hrd Hk Htr)
        as (tr' & tk' & evs & Htr' & Hcl' & Hk' & Hst' & _).
      by exists tr', tk'.
    + intros Hrel.
      destruct (wf_pumps _ _ Hwf _ _ Htr) as [_ (wk & pc1 & Hwk & _)].
      destruct (end_of_stream_step w k rest t tr wk cbs val Hwf Hrd Hk Htr Hwk Hrel)
        as (_ & Hne & Hcl & ts' & rd' & Estep & Hlen).
      destruct (wf_open _ _ Hwf _ _ Htr Hcl) as ([lr Hlr] & [lw Hlw] & [pt Hpt] & [p Hp]).
      exists p, pt. split_and!; try done.
      * rewrite Estep. simpl. by rewrite Hpt.
      * rewrite Estep. simpl. unfold closing_task_of. rewrite Hpt, Hp.
        replace (length (tasks w)) with
          (length (alter (λ tk, set_done_callbacks [] (set_task_state (Some OCancelled) tk))
                     k ts')) at 1 by (rewrite length_alter; done).
        apply lookup_snoc.
      * rewrite Estep. simpl. unfold cleanup_events. by rewrite Hlr, Hlw, Hpt.
Qed.

Lemma end_of_stream_stops_the_reader_witness :
  (∃ l1,
     trace (run Scenario.stream_ends init) = l1 ++ [EvReadSettled 0 (OResult (VRead true []))]
     ∧ arrived 0 l1 = [Scenario.A; Scenario.B]
     ∧ arrived 0 l1 = delivered 0 l1)
  ∧ ∃ tr' tk',
      transports (step RunOnce (run Scenario.stream_ends init)) !! 0 = Some tr'
      ∧ _is_closing tr' = true
      ∧ tasks (step RunOnce (run Scenario.stream_ends init)) !! 1 = Some tk'
      ∧ is_Some (task_state tk').
Proof.
  destruct (end_of_stream_stops_the_reader Scenario.stream_ends 0) as (_ & H2 & H3).
  split.
  - exists (removelast (trace (run Scenario.stream_ends init))).
    assert (E : trace (run Scenario.stream_ends init)
                = removelast (trace (run Scenario.stream_ends init))
                  ++ [EvReadSettled 0 (OResult (VRead true []))])
      by (vm_compute; reflexivity).
    split; [exact E|]. split; [vm_compute; reflexivity|].
    exact (proj1 (H2 _ _ _ E)).
  - assert (Hr : ready (run Scenario.stream_ends init) = CbStep 1 :: [])
      by (vm_compute; reflexivity).
    assert (Hk : tasks (run Scenario.stream_ends init) !! 1
                 = Some (Task (ReaderLoop 0 RRead)
                           (Some (AwFuture FutJs (Some (OResult (VRead true [])))))
                           false None []))
      by (vm_compute; reflexivity).
    assert (Hl : transports (run Scenario.stream_ends init) !! 0
                 = Some (Transport (Some 7) (Some Scenario.usb) (Queue 0 [] [2]) false
                           (Some (JsLock None)) (Some (JsLock None)) 1 2))
      by (vm_compute; reflexivity).
    exact (proj1 (H3 1 [] _ [] [] Hr Hk Hl)).
Defined.


(** ** The close comes before the notification *)









(** ** Writes submitted back to back *)



(** ** Closing more than once *)










(** ** What the consumer is told *)

Lemma count_cb_le f f' l :
  (∀ cb, f cb = true → f' cb = true) → count_cb f l ≤ count_cb f' l.
Proof.
  intros H. induction l as [|cb l IH]; [done|].
  rewrite !count_cb_cons. specialize (H cb).
  destruct (f cb); [rewrite H by done|destruct (f' cb)]; lia.
Qed.

Lemma count_events_le g g' l :
  (∀ ev, g ev = true → g' ev = true) → count_events g l ≤ count_events g' l.
Proof.
  intros H. induction l as [|ev l IH]; [done|].
  rewrite !count_events_cons. specialize (H ev).
  destruct (g ev); [rewrite H by done|destruct (g' ev)]; lia.
Qed.

Lemma registered_le f f' w :
  (∀ cb, f cb = true → f' cb = true) → registered f w ≤ registered f' w.
Proof.
  intros H. unfold registered.
  assert (sum_list_with (λ tk, count_cb f (done_callbacks tk)) (tasks w)
          ≤ sum_list_with (λ tk, count_cb f' (done_callbacks tk)) (tasks w)).
  { induction (tasks w) as [|tk l IH]; simpl; [done|].
    pose proof (count_cb_le f f' (done_callbacks tk) H). lia. }
  pose proof (count_cb_le f f' (ready w) H). lia.
Qed.

Lemma lost_cb_where_lost t sel cb : lost_cb_where t sel cb = true → is_lost_cb t cb = true.
Proof. destruct cb; simpl; try done. by intros [? _]%andb_true_iff. Qed.

Lemma lost_ev_where_lost t sel ev : lost_ev_where t sel ev = true → is_lost_ev t ev = true.
Proof. destruct ev; simpl; try done. by intros [? _]%andb_true_iff. Qed.

Lemma owed_where_le t sel w : owed_where t sel w ≤ owed t w.
Proof.
  unfold owed_where, owed, potential.
  pose proof (count_events_le _ _ (trace w) (lost_ev_where_lost t sel)).
  pose proof (registered_le _ _ w (lost_cb_where_lost t sel)). lia.
Qed.

Lemma where_cleanup_events t sel self e tr :
  count_events (lost_ev_where t sel) (cleanup_events self e tr)
  = if decide (t = self)
    then match _port tr, _protocol tr with
         | None, Some p => if sel p e then 1 else 0
         | _, _ => 0
         end
    else 0.
Proof.
  unfold cleanup_events.
  destruct (_js_reader tr), (_js_writer tr), (_port tr), (_protocol tr); simpl;
    rewrite ?count_events_cons; simpl;
    case_decide; try case_bool_decide; simpl; try done; try congruence;
    destruct (sel _ _); done.
Qed.

Lemma where_closing_task t sel self e tr k :
  sum_list_with (λ tk, count_cb (lost_cb_where t sel) (done_callbacks tk))
    (closing_task_of self e tr k)
  = if decide (t = self)
    then match _port tr, _protocol tr with
         | Some _, Some p => if sel p e then 1 else 0
         | _, _ => 0
         end
    else 0.
Proof.
  unfold closing_task_of.
  destruct (_port tr), (_protocol tr); simpl;
    rewrite ?count_cb_cons; simpl;
    case_decide; try case_bool_decide; simpl; try done; try congruence;
    destruct (sel _ _); done.
Qed.

Lemma where_step t sel k : lost_cb_where t sel (CbStep k) = false.
Proof. done. Qed.

(** What a shutdown does to the budget of the selected notifications: a
    shutdown of [t] that goes through spends the consumer still to be
    notified, on a notification that counts if [sel] selects it. *)
Lemma owed_where_cleanup_eq t sel e w tr :
  transports w !! t = Some tr →
  releases_return tr →
  owed_where t sel (_cleanup t e w).1 + unnotified t (transports w)
  = owed_where t sel w
    + match _protocol tr with Some p => if sel p e then 1 else 0 | None => 0 end.
Proof.
  intros Htr Hrel.
  destruct (cleanup_head (lost_cb_where t sel) t e w tr ltac:(done) Htr)
    as (w3 & -> & Hr3 & Hc3 & Ht3 & H3).
  assert (Hu3 : unnotified t (transports w3) = unnotified t (transports w)).
  { rewrite Ht3. unfold unnotified. rewrite list_lookup_alter_eq. by rewrite Htr. }
  assert (H0 : owed_where t sel w3 = owed_where t sel w).
  { unfold owed_where, potential. by rewrite Hr3, Hc3, Hu3. }
  rewrite <-H0, <-Hu3. clear H0 Hu3 Hr3 Hc3 Ht3.
  assert (Hlt : t < length (transports w3)) by (by eapply lookup_lt_Some).
  assert (Hrel' : releases_return (set_is_closing true tr)) by done.
  rewrite (cleanup_tail_ok _ _ _ _ H3 Hrel').
  unfold owed_where, potential, registered. simpl.
  rewrite count_events_app, count_cb_app, sum_list_with_app.
  rewrite where_cleanup_events, where_closing_task.
  assert (Hrd : count_cb (lost_cb_where t sel)
                  (if _port tr is Some _ then [CbStep (length (tasks w3))] else []) = 0).
  { by destruct (_port tr). }
  rewrite Hrd. unfold unnotified.
  rewrite list_lookup_insert_eq by done. rewrite H3. simpl.
  destruct (decide (t = t)) as [_|?]; [|done].
  destruct (_port tr) as [pt|], (_protocol tr) as [p|]; simpl; try destruct (sel p e); lia.
Qed.

Lemma owed_where_cleanup t sel self e w :
  owed_where t sel (_cleanup self e w).1 ≤ owed_where t sel w.
Proof.
  destruct (transports w !! self) as [tr|] eqn:Htr.
  2:{ unfold _cleanup, bind, update_transport, modify, the_transport. simpl.
      rewrite list_lookup_alter_eq, Htr. simpl.
      unfold owed_where, potential, registered. simpl. by rewrite alter_None. }
  destruct (cleanup_head (lost_cb_where t sel) self e w tr ltac:(done) Htr)
    as (w3 & -> & Hr3 & Hc3 & Ht3 & H3).
  assert (Hu3 : unnotified t (transports w3) = unnotified t (transports w)).
  { rewrite Ht3. unfold unnotified. rewrite list_lookup_alter.
    destruct (decide (self = t)) as [<-|Hne]; [|done]. by rewrite Htr. }
  assert (H0 : owed_where t sel w3 = owed_where t sel w).
  { unfold owed_where, potential. by rewrite Hr3, Hc3, Hu3. }
  rewrite <-H0. clear H0 Hu3 Hr3 Hc3 Ht3.
  assert (Hlt : self < length (transports w3)) by (by eapply lookup_lt_Some).
  destruct (cleanup_tail_cases self e _ w3 H3) as [Hrel|(X&evs&x&->&HpX&_&Hevs)].
  - rewrite (cleanup_tail_ok _ _ _ _ H3 Hrel).
    unfold owed_where, potential, registered. simpl.
    rewrite count_events_app, count_cb_app, sum_list_with_app.
    rewrite where_cleanup_events, where_closing_task.
    assert (Hrd : count_cb (lost_cb_where t sel)
                    (if _port tr is Some _ then [CbStep (length (tasks w3))] else []) = 0).
    { by destruct (_port tr). }
    rewrite Hrd. unfold unnotified.
    destruct (decide (t = self)) as [->|Hne].
    + rewrite list_lookup_insert_eq by done. rewrite H3. simpl.
      destruct (_port tr) as [pt|], (_protocol tr) as [p|]; simpl; try destruct (sel p e); lia.
    + rewrite list_lookup_insert_ne by done. lia.
  - unfold owed_where, potential, registered. simpl.
    rewrite count_events_app.
    assert (Hev : count_events (lost_ev_where t sel) evs = 0).
    { clear -Hevs. induction Hevs as [|ev evs Hev _ IH]; [done|].
      rewrite count_events_cons, IH. by destruct Hev as [->| ->]. }
    rewrite Hev. unfold unnotified.
    destruct (decide (t = self)) as [->|Hne].
    + rewrite list_lookup_insert_eq by done. rewrite H3, HpX. simpl. lia.
    + rewrite list_lookup_insert_ne by done. lia.
Qed.

Lemma owed_where_init t sel p sp w : owed_where t sel (__init__ p sp w).1 ≤ owed_where t sel w.
Proof.
  destruct sp as [pt|]; [|done]. simpl.
  unfold owed_where, potential, registered. simpl.
  rewrite !count_events_snoc, !count_cb_app, !sum_list_with_app. simpl.
  rewrite !count_cb_cons, !count_cb_nil. simpl.
  assert (unnotified t (transports w ++
            [Transport (Some p) (Some pt) (Queue 0 [] []) false (Some (getReader pt))
               (Some (getWriter pt)) (length (tasks w)) (length (tasks w ++ [Task (ReaderLoop (length (transports w)) RStart) None false None []]))])
          ≤ unnotified t (transports w)); [|lia].
  apply unnotified_mono. intros t0 tr Ht0. exists tr.
  split; [by apply lookup_app_l_Some|done].
Qed.

Lemma owed_where_run t sel sched w :
  Forall (keeps_protocol t) sched → owed_where t sel (run sched w) ≤ owed_where t sel w.
Proof.
  intros Hs. unfold owed_where.
  apply pot_run; try done.
  - intros ev Hev. apply (is_lost_ev_only t). by eapply lost_ev_where_lost.
  - apply unnotified_mono.
  - apply owed_where_cleanup.
  - apply owed_where_init.
  - eapply Forall_impl; [exact Hs|]. intros a Ha t0 p trs ->.
    assert (t0 ≠ t) by (intros ->; by eapply Ha).
    unfold unnotified. by rewrite list_lookup_alter_ne.
Qed.

Lemma where_count t sel tr :
  count_events (lost_ev_where t sel) tr = 0 →
  Forall (λ x, sel x.1 x.2 = false) (lost t tr).
Proof.
  induction tr as [|ev tr IH]; [constructor|].
  rewrite count_events_cons. unfold lost. simpl. fold (lost t tr).
  destruct ev as [| | | | | | | | | | | | | | |t0 p e| | |]; simpl;
    try (intros Hc; by apply IH).
  destruct (decide (t0 = t)) as [->|Hne].
  - rewrite bool_decide_eq_true_2 by done. simpl.
    destruct (sel p e) eqn:E; [lia|]. intros Hc. constructor; [done|by apply IH].
  - rewrite bool_decide_eq_false_2 by done. simpl. intros Hc. by apply IH.
Qed.

(** X25.  The consumer learns how the connection ended from the shutdown
    that ended it: when [close()] is called on a transport that holds its
    protocol (or the transport is collected), and the stream locks are
    released without an exception, then, as long as [set_protocol] is not
    called on the transport, the calls of [connection_lost] caused by its
    shutdown are none, or exactly one, made on that protocol with the error
    of that shutdown ([None] for [close()]), whatever happens to the device,
    to the close task or to the pumps afterwards. *)
Theorem connection_lost_reports_first_shutdown sched sched' a t tr p :
  Forall (keeps_protocol t) sched → Forall (keeps_protocol t) sched' →
  shuts_down t a →
  transports (run sched init) !! t = Some tr →
  _protocol tr = Some p →
  releases_return tr →
  lost t (trace (run sched' (step a (run sched init)))) = []
  ∨ lost t (trace (run sched' (step a (run sched init)))) = [(p, shutdown_error a)].
Proof.
  intros Hs Hs' Ha Htr Hp Hrel.
  assert (Hka : keeps_protocol t a) by (intros p0; by destruct Ha as [->| ->]).
  pose proof (owed_run t (sched ++ a :: sched') init) as Hall.
  rewrite run_app in Hall. simpl in Hall.
  specialize (Hall ltac:(apply Forall_app; split; [done|by constructor])).
  pose proof (owed_run t sched init Hs) as H1.
  rewrite (shuts_down_step t a _ Ha) in *.
  remember (run sched init) as w eqn:Ew in *.
  remember (shutdown_error a) as e eqn:Ee in *.
  assert (Hsel : differs p e p e = false).
  { unfold differs. by rewrite bool_decide_eq_false_2 by (intros Hn; by apply Hn). }
  remember (differs p e) as sel eqn:Esel in *.
  pose proof (owed_where_le t sel w) as Hle.
  pose proof (owed_where_cleanup_eq t sel e w tr Htr Hrel) as Hcl.
  pose proof (owed_where_run t sel sched' (call (_cleanup t e) w) Hs') as Hrun.
  assert (Hcall : owed_where t sel (call (_cleanup t e) w) = owed_where t sel (_cleanup t e w).1).
  { unfold owed_where. apply pot_call.
    intros ev Hev. apply (is_lost_ev_only t). by eapply lost_ev_where_lost. }
  assert (Hu : unnotified t (transports w) = 1).
  { unfold unnotified. by rewrite Htr, Hp. }
  rewrite Hp, Hsel in Hcl.
  assert (H0 : owed t init = 1) by done.
  assert (Hpos : unnotified t (transports w) ≤ owed_where t sel w).
  { unfold owed_where, potential. lia. }
  assert (Hfin : count_events (lost_ev_where t sel)
                   (trace (run sched' (call (_cleanup t e) w))) = 0).
  { assert (owed_where t sel (run sched' (call (_cleanup t e) w)) = 0) as Hz by lia.
    unfold owed_where, potential in Hz. lia. }
  apply where_count in Hfin.
  assert (Hlen : length (lost t (trace (run sched' (call (_cleanup t e) w)))) ≤ 1).
  { unfold owed, potential in Hall. rewrite lost_count in Hall.
    change (count_events (is_lost_ev t) (trace init)) with 0 in Hall.
    change (registered (is_lost_cb t) init) with 0 in Hall.
    change (unnotified t (transports init)) with 1 in Hall. lia. }
  destruct (lost t (trace (run sched' (call (_cleanup t e) w)))) as [|[p' e'] [|y l]];
    [by left| |simpl in Hlen; lia].
  right. apply Forall_cons_1 in Hfin as [Hx _]. simpl in Hx.
  rewrite Esel in Hx. unfold differs in Hx. apply bool_decide_eq_false in Hx.
  f_equal. by apply dec_stable.
Qed.

Lemma connection_lost_reports_first_shutdown_witness :
  lost 0 (trace (run [RunOnce; RunOnce; RunOnce; Settle 3 (Reject 9); RunOnce; RunOnce]
                   (step (Call_close 0) (run Scenario.connect init))))
  = [(7, None)]
  ∧ (lost 0 (trace (run [RunOnce; RunOnce; RunOnce; Settle 3 (Reject 9); RunOnce; RunOnce]
                      (step (Call_close 0) (run Scenario.connect init)))) = []
     ∨ lost 0 (trace (run [RunOnce; RunOnce; RunOnce; Settle 3 (Reject 9); RunOnce; RunOnce]
                        (step (Call_close 0) (run Scenario.connect init))))
       = [(7, shutdown_error (Call_close 0))]).
Proof.
  split; [vm_compute; reflexivity|].
  eapply (connection_lost_reports_first_shutdown Scenario.connect
            [RunOnce; RunOnce; RunOnce; Settle 3 (Reject 9); RunOnce; RunOnce]
            (Call_close 0) 0).
  - repeat constructor; intros p; discriminate.
  - repeat constructor; intros p; discriminate.
  - by left.
  - vm_compute. reflexivity.
  - reflexivity.
  - split; intros l [= <-]; reflexivity.
Defined.


(** ** A failed write *)

Lemma written_cleanup_events t self e tr : written t (cleanup_events self e tr) = [].
Proof.
  unfold cleanup_events.
  by destruct (_js_reader tr), (_js_writer tr), (_port tr), (_protocol tr).
Qed.

(** The step in which the writer of [t] receives the rejection of its
    [write], spelled out. *)
Lemma failed_write_step w k rest t tr rk cbs code :
  wf w →
  ready w = CbStep k :: rest →
  tasks w !! k
  = Some (Task (WriterLoop t WWrite)
            (Some (AwFuture FutJs (Some (OException (JsException code))))) false None cbs) →
  transports w !! t = Some tr →
  tasks w !! _reader_task tr = Some rk →
  releases_return tr →
  _writer_task tr = k ∧ _reader_task tr ≠ k ∧ _is_closing tr = false
  ∧ ∃ ts' rd',
      step RunOnce w
      = World (_SERIAL_PORT w)
          (_SERIAL_PORT_CLOSING_TASKS w ++ (if _port tr is Some _ then [length (tasks w)] else []))
          (alter (λ tk, set_done_callbacks [] (set_task_state (Some OCancelled) tk)) k ts'
             ++ closing_task_of t (Some (JsException code)) tr (length (tasks w)))
          (<[t := scrubbed (set_is_closing true tr)]> (transports w))
          rd'
          (trace w ++ cleanup_events t (Some (JsException code)) tr)
      ∧ length ts' = length (tasks w).
Proof.
  intros Hwf Hrd Hk Htr Hrk Hrel.
  set (tk := Task _ _ _ _ _) in Hk.
  destruct (wf_owner _ _ Hwf k tk t Hk eq_refl) as (tr0 & Htr0 & Hor).
  assert (tr0 = tr) as -> by congruence.
  destruct (wf_pump_tasks _ _ _ _ Hwf Htr) as (rk0 & wk & Hrk0 & Hlr & Hwk & Hlw & Hne).
  assert (rk0 = rk) as -> by congruence.
  destruct (wf_pumps _ _ Hwf _ _ Htr) as [(rk1 & pc1 & Hrk1 & Hrc1) _].
  assert (rk1 = rk) as -> by congruence.
  assert (Hkw : _writer_task tr = k).
  { destruct Hor as [->| ->]; [|done]. rewrite Hk in Hrk. simplify_eq. }
  assert (Hcl : _is_closing tr = false).
  { destruct (_is_closing tr) eqn:E; [|done]. exfalso.
    pose proof (wf_doom _ _ Hwf k tk t tr Hk eq_refl Htr E) as Hd.
    destruct Hd as [[? Hd]|[Hd|[kind Hd]]]; [done|done|done|]; simpl in Hd; done. }
  split_and!; [done|congruence|done|].
  simpl. rewrite Hrd. unfold run_handle. simpl.
  unfold task_step. simpl. rewrite Hk. simpl.
  set (w1 := with_tasks _ (with_ready rest w)).
  assert (Hk1 : tasks w1 !! k = Some (Task (WriterLoop t WWrite) None false None cbs)).
  { unfold w1. simpl. by rewrite list_lookup_alter_eq, Hk. }
  assert (Hr1 : tasks w1 !! _reader_task tr = Some rk).
  { unfold w1. simpl. rewrite list_lookup_alter_ne by congruence. done. }
  unfold try_except, raise. simpl. unfold writer_failed, bind.
  rewrite (cleanup_ok t (Some (JsException code)) w1 tr rk
             (Task (WriterLoop t WWrite) None false None cbs));
    [|done|done|done|done|by rewrite Hkw|by intros j|congruence].
  unfold ret. rewrite Hkw. simpl.
  rewrite lookup_app_l by (rewrite !length_alter; by eapply lookup_lt_Some).
  rewrite list_lookup_alter_eq, list_lookup_alter_ne by congruence.
  rewrite list_lookup_alter_eq, Hk. simpl.
  unfold update_task, modify, finish_task. simpl.
  rewrite alter_app_l by (rewrite !length_alter; by eapply lookup_lt_Some).
  rewrite lookup_app_l by (rewrite !length_alter; by eapply lookup_lt_Some).
  rewrite !list_lookup_alter_eq, list_lookup_alter_ne by congruence.
  rewrite list_lookup_alter_eq, Hk. simpl.
  rewrite alter_app_l by (rewrite !length_alter; by eapply lookup_lt_Some).
  rewrite !length_alter.
  eexists _, _. split; [reflexivity|]. by rewrite !length_alter.
Qed.

(** The same step on any port: the shutdown may be cut short by a
    [releaseLock()] that raises, but the transport is marked closing, the
    queue is left alone, the writer task ends, and nothing but the releases
    and the notification of the shutdown is recorded. *)
Lemma failed_write_step_any w k rest t tr cbs code :
  wf w →
  ready w = CbStep k :: rest →
  tasks w !! k
  = Some (Task (WriterLoop t WWrite)
            (Some (AwFuture FutJs (Some (OException (JsException code))))) false None cbs) →
  transports w !! t = Some tr →
  ∃ tr' tk' evs,
    transports (step RunOnce w) !! t = Some tr'
    ∧ _is_closing tr' = true
    ∧ _write_queue tr' = _write_queue tr
    ∧ tasks (step RunOnce w) !! k = Some tk'
    ∧ is_Some (task_state tk')
    ∧ trace (step RunOnce w) = trace w ++ evs
    ∧ Forall (cleanup_ev t) evs.
Proof.
  intros Hwf Hrd Hk Htr.
  set (tk := Task _ _ _ _ _) in Hk.
  destruct (wf_owner _ _ Hwf k tk t Hk eq_refl) as (tr0 & Htr0 & Hor).
  assert (tr0 = tr) as -> by congruence.
  destruct (wf_pump_tasks _ _ _ _ Hwf Htr) as (rk & wk & Hrk & Hlr & Hwk & Hlw & Hne).
  destruct (wf_pumps _ _ Hwf _ _ Htr) as [(rk1 & pc1 & Hrk1 & Hrc1) _].
  assert (rk1 = rk) as -> by congruence.
  assert (Hkw : _writer_task tr = k).
  { destruct Hor as [->| ->]; [|done]. rewrite Hk in Hrk. simplify_eq. }
  simpl. rewrite Hrd. unfold run_handle. simpl.
  unfold task_step. simpl. rewrite Hk. simpl.
  set (w1 := with_tasks _ (with_ready rest w)).
  assert (Hk1 : tasks w1 !! k = Some (Task (WriterLoop t WWrite) None false None cbs)).
  { unfold w1. simpl. by rewrite list_lookup_alter_eq, Hk. }
  assert (Hr1 : tasks w1 !! _reader_task tr = Some rk).
  { unfold w1. simpl. rewrite list_lookup_alter_ne by congruence. done. }
  unfold try_except, raise. simpl. unfold writer_failed, bind.
  destruct (cleanup_spec t (Some (JsException code)) w1 tr rk
              (Task (WriterLoop t WWrite) None false None cbs))
    as (X & reg_add & new & rdy & evs & res & E & (Hq & Hc & _) & Hev & _);
    [done|done|done|by rewrite Hkw|by intros j|congruence|].
  rewrite E.
  assert (Hlt : t < length (transports w)) by (by eapply lookup_lt_Some).
  assert (Hklt : k < length (tasks w)) by (by eapply lookup_lt_Some).
  set (w2 := World _ _ _ _ _ _).
  assert (Ht2 : transports w2 !! t = Some X).
  { unfold w2. simpl. by apply list_lookup_insert_eq. }
  assert (Hc2 : trace w2 = trace w ++ evs) by done.
  assert (Hk2 : ∀ h, is_Some (alter h k (tasks w2) !! k)).
  { intros h. apply lookup_lt_is_Some. unfold w2, w1. simpl.
    rewrite length_alter, length_app, !length_alter. lia. }
  assert (Hfin : ∀ o w3, is_Some (tasks w3 !! k) →
            ∃ w4 tk', finish_task k o w3 = (w4, Ok tt)
                      ∧ transports w4 = transports w3 ∧ trace w4 = trace w3
                      ∧ tasks w4 !! k = Some tk' ∧ is_Some (task_state tk')).
  { intros o w3 [tk3 H3]. unfold finish_task. rewrite H3. simpl.
    eexists _, _. split; [reflexivity|]. simpl. split_and!; try done.
    - by rewrite list_lookup_alter_eq, H3.
    - by eexists. }
  assert (Hk2' : is_Some (tasks w2 !! k)).
  { specialize (Hk2 id). by rewrite list_alter_id in Hk2. }
  assert (Hgoal : ∀ o w3, is_Some (tasks w3 !! k) →
            transports w3 = transports w2 → trace w3 = trace w2 →
            ∃ tr' tk' evs0,
              transports (let (w', r) := finish_task k o w3 in
                          match r with
                          | Ok _ => w'
                          | Raise e => with_trace (trace w' ++ [EvLoopException e]) w'
                          end) !! t = Some tr'
              ∧ _is_closing tr' = true
              ∧ _write_queue tr' = _write_queue tr
              ∧ tasks (let (w', r) := finish_task k o w3 in
                       match r with
                       | Ok _ => w'
                       | Raise e => with_trace (trace w' ++ [EvLoopException e]) w'
                       end) !! k = Some tk'
              ∧ is_Some (task_state tk')
              ∧ trace (let (w', r) := finish_task k o w3 in
                       match r with
                       | Ok _ => w'
                       | Raise e => with_trace (trace w' ++ [EvLoopException e]) w'
                       end) = trace w ++ evs0
              ∧ Forall (cleanup_ev t) evs0).
  { intros o w3 H3 Ht3 Hc3.
    destruct (Hfin o w3 H3) as (w4 & tk' & -> & Ht4 & Hc4 & Hk4 & Hs4).
    exists X, tk', evs. rewrite Ht4, Ht3, Hc4, Hc3. by split_and!. }
  clearbody w2. clear E.
  destruct res as [[]|x]; simpl.
  - destruct (from_option must_cancel false (tasks w2 !! k)).
    + unfold update_task, modify. simpl. apply Hgoal; try done. apply (Hk2 _).
    + by apply Hgoal.
  - destruct x; by apply Hgoal.
Qed.


(** C5 as stated does not hold on every port: [_cleanup] has no handler
    around [releaseLock()].  On a port whose reader release raises, the
    write of [B] is rejected with [JsException 5] and the writer calls
    [_cleanup] with it; the release raises [JsException 11] out of
    [_cleanup], so no close task is detached, no [connection_lost] is
    registered or called, now or after the loop has run dry, and the writer
    task ends with the exception of the release: the error of the write is
    carried nowhere. *)
Lemma write_failure_error_is_dropped :
  let s := Scenario.connect_on Scenario.stuck_reader Scenario.args
           ++ [Call_write 0 Scenario.B; Call_write 0 Scenario.C; RunOnce;
               Settle 2 (Reject 5)] in
  tasks (run s init) !! 2
  = Some (Task (WriterLoop 0 WWrite)
            (Some (AwFuture FutJs (Some (OException (JsException 5))))) false None [])
  ∧ ready (run s init) = [CbStep 2]
  ∧ (let w := step RunOnce (run s init) in
     length (tasks w) = 3
     ∧ _SERIAL_PORT_CLOSING_TASKS w = []
     ∧ registered (is_lost_cb 0) w = 0
     ∧ lost 0 (trace w) = []
     ∧ (task_state <$> tasks w !! 2) = Some (Some (OException (JsException 11)))
     ∧ (_protocol <$> transports w !! 0) = Some (Some 7))
  ∧ (let w := run [RunOnce; RunOnce; RunOnce] (step RunOnce (run s init)) in
     ready w = [] ∧ lost 0 (trace w) = [] ∧ registered (is_lost_cb 0) w = 0).
Proof. vm_compute. by repeat split. Qed.

(** C5, amended.  The writer of transport [t], with no cancellation pending
    on it, is about to be resumed with the rejection of its pending device
    write.  When it runs, the transport is closing; the writer task has
    finished; the outbound queue is as it was, so the failed chunk is
    neither requeued nor retried; and whatever happens afterwards, the
    device sees no further write of [t], so a chunk queued behind the failed
    one is never written.  Provided the [releaseLock()] calls of the locks
    the transport holds return, the notification registered on the detached
    close carries exactly the error of the write. *)
Theorem write_failure_shuts_down sched sched' k rest t tr cbs code :
  ready (run sched init) = CbStep k :: rest →
  tasks (run sched init) !! k
  = Some (Task (WriterLoop t WWrite)
            (Some (AwFuture FutJs (Some (OException (JsException code))))) false None cbs) →
  transports (run sched init) !! t = Some tr →
  ∃ tr' tk',
    transports (step RunOnce (run sched init)) !! t = Some tr'
    ∧ _is_closing tr' = true
    ∧ q_items (_write_queue tr') = q_items (_write_queue tr)
    ∧ tasks (step RunOnce (run sched init)) !! k = Some tk'
    ∧ is_Some (task_state tk')
    ∧ written t (trace (run sched' (step RunOnce (run sched init))))
      = written t (trace (run sched init))
    ∧ (releases_return tr →
       ∃ p pt kc tkc,
         _protocol tr = Some p
         ∧ tasks (step RunOnce (run sched init)) !! kc = Some tkc
         ∧ task_coro tkc = ClosePort t pt CStart
         ∧ done_callbacks tkc
           = [CbConnectionLost t p (Some (JsException code)); CbRemoveClosing kc]).
Proof.
  intros Hrd Hk Htr. set (w := run sched init) in *.
  pose proof (reachable_wf sched) as Hwf. fold w in Hwf.
  destruct (failed_write_step_any w k rest t tr cbs code Hwf Hrd Hk Htr)
    as (tr' & tk' & evs & Htr' & Hcl' & Hq' & Hk' & Hst' & Hev & Hcev).
  assert (Hwf' : wf (step RunOnce w)) by (by apply step_wf).
  exists tr', tk'. split_and!; try done.
  - by rewrite Hq'.
  - rewrite (run_no_write_when_closing sched' (step RunOnce w) t _ Hwf' Htr' Hcl').
    rewrite Hev, written_app.
    assert (Hqu : Forall (quiet t) evs).
    { eapply Forall_impl; [exact Hcev|]. intros ev. apply cleanup_ev_quiet. }
    destruct (quiet_silent t evs Hqu) as (-> & _). apply app_nil_r.
  - intros Hrel.
    destruct (wf_pumps _ _ Hwf _ _ Htr) as [(rk & pc1 & Hrk & _) _].
    destruct (failed_write_step w k rest t tr rk cbs code Hwf Hrd Hk Htr Hrk Hrel)
      as (Hkw & Hne & Hcl & ts' & rd' & Estep & Hlen).
    destruct (wf_open _ _ Hwf _ _ Htr Hcl) as (_ & _ & [pt Hpt] & [p Hp]).
    exists p, pt, (length (tasks w)),
      (Task (ClosePort t pt CStart) None false None
         [CbConnectionLost t p (Some (JsException code)); CbRemoveClosing (length (tasks w))]).
    split_and!; try done.
    rewrite Estep. simpl. unfold closing_task_of. rewrite Hpt, Hp.
    replace (length (tasks w)) with
      (length (alter (λ tk, set_done_callbacks [] (set_task_state (Some OCancelled) tk)) k ts'))
      at 1 by (rewrite length_alter; done).
    apply lookup_snoc.
Qed.

Lemma write_failure_shuts_down_witness :
  ∃ tr,
    ready (run Scenario.second_write_rejected init) = CbStep 2 :: []
    ∧ transports (run Scenario.second_write_rejected init) !! 0 = Some tr
    ∧ ∃ tr' tk',
        transports (step RunOnce (run Scenario.second_write_rejected init)) !! 0 = Some tr'
        ∧ _is_closing tr' = true
        ∧ q_items (_write_queue tr') = q_items (_write_queue tr)
        ∧ tasks (step RunOnce (run Scenario.second_write_rejected init)) !! 2 = Some tk'
        ∧ is_Some (task_state tk')
        ∧ written 0 (trace (run [RunOnce; RunOnce]
                              (step RunOnce (run Scenario.second_write_rejected init))))
          = written 0 (trace (run Scenario.second_write_rejected init))
        ∧ (releases_return tr →
           ∃ p pt kc tkc,
             _protocol tr = Some p
             ∧ tasks (step RunOnce (run Scenario.second_write_rejected init)) !! kc = Some tkc
             ∧ task_coro tkc = ClosePort 0 pt CStart
             ∧ done_callbacks tkc
               = [CbConnectionLost 0 p (Some (JsException 5)); CbRemoveClosing kc]).
Proof.
  eexists.
  assert (Hr : ready (run Scenario.second_write_rejected init) = CbStep 2 :: [])
    by (vm_compute; reflexivity).
  assert (Hk : tasks (run Scenario.second_write_rejected init) !! 2
               = Some (Task (WriterLoop 0 WWrite)
                         (Some (AwFuture FutJs (Some (OException (JsException 5)))))
                         false None []))
    by (vm_compute; reflexivity).
  assert (Hl : transports (run Scenario.second_write_rejected init) !! 0
               = Some (Transport (Some 7) (Some Scenario.usb) (Queue 0 [Scenario.C] []) false
                         (Some (JsLock None)) (Some (JsLock None)) 1 2))
    by (vm_compute; reflexivity).
  split; [exact Hr|]. split; [exact Hl|].
  exact (write_failure_shuts_down Scenario.second_write_rejected [RunOnce; RunOnce]
           2 [] 0 _ [] 5 Hr Hk Hl).
Defined.


(** ** The registry and concurrent connection attempts *)

(** C3 (the code departs from it).  A transport is closed and one connection
    attempt is made while its device close runs.  The attempt takes the entry
    out of the registry before it waits ([pop()], then [await]): the close of
    task 3 is in flight and the registry is empty.  When the close completes,
    the callback that was to remove the entry finds nothing and raises
    [ValueError], which the loop reports. *)
Theorem registry_emptied_while_close_in_flight :
  let w := run Scenario.reopen init in
  closes_in_flight w = [3]
  ∧ _SERIAL_PORT_CLOSING_TASKS w = []
  ∧ ¬ registry_mirrors w
  ∧ EvLoopException ValueError ∈ trace (run Scenario.reopen_done init).
Proof.
  assert (Hc : closes_in_flight (run Scenario.reopen init) = [3]) by (vm_compute; reflexivity).
  assert (Hr : _SERIAL_PORT_CLOSING_TASKS (run Scenario.reopen init) = [])
    by (vm_compute; reflexivity).
  cbv zeta. split_and!; [exact Hc | exact Hr | |].
  - intros Hm. specialize (Hm 3). rewrite Hc, Hr in Hm.
    destruct Hm as [_ Hm]. specialize (Hm (list_elem_of_here _ _)). inversion Hm.
  - vm_compute. repeat (first [apply list_elem_of_here | apply list_elem_of_further]).
Qed.

(** C4 (the code departs from it).  With two connection attempts made while
    the close is in flight, the first takes the registry entry and waits; the
    second finds the registry empty, logs nothing and opens the port at once,
    before the close has settled. *)
Theorem second_attempt_opens_during_close :
  let w := run Scenario.reopen_twice init in
  closes_in_flight w = [3]
  ∧ close_settled 0 (trace w) = false
  ∧ warnings (trace w) = 1
  ∧ open_during_close 0 (trace w) = true
  ∧ last (trace w) = Some (EvPortOpen Scenario.usb 115200 (Some "hardware"%string)).
Proof. vm_compute. repeat split; reflexivity. Qed.

